(** * pfta: property filtering traversal algorithms

    A shallow embedding of the TypeScript sources [visit.ts], [copy.ts],
    [compare.ts], [equal.ts], [diff.ts] and [util.ts], and the properties of
    the dual-graph comparison engine established over it.

    JavaScript values are primitives or references into a heap of objects;
    object identity is the address.  Every algorithm threads one state
    record (the heap together with the visitation context) through a small
    state-and-exception monad.  Recursion over the graph is driven by a fuel
    counter, because graphs may be cyclic. *)

From Stdlib Require Import ZArith Lia List String Ascii SpecFloat DecimalString Permutation.
From stdpp Require Import base gmap sets list strings.
Import ListNotations.
Set Warnings "-register-all".
Local Open Scope string_scope.
Local Open Scope list_scope.
Local Open Scope Z_scope.

(** ** Numbers: IEEE 754 binary64 *)

Module Num.
Definition prec : Z := 53.
Definition emax : Z := 1024.

Definition isNaN (x : spec_float) : bool :=
  match x with S754_nan => true | _ => false end.

Definition sub (x y : spec_float) : spec_float := SFsub prec emax x y.
Definition abs (x : spec_float) : spec_float := SFabs x.
Definition lt (x y : spec_float) : bool := SFltb x y.
Definition gt (x y : spec_float) : bool := SFltb y x.
Definition eq (x y : spec_float) : bool := SFeqb x y.

(** [Number.EPSILON] is 2^-52. *)
Definition EPSILON : spec_float := S754_finite false 4503599627370496 (-104).

Definition zero : spec_float := S754_zero false.

(** The number denoted by an integer literal [m] scaled by 2^[e]. *)
Definition lit (m e : Z) : spec_float := binary_normalize prec emax m e false.
Definition of_Z (z : Z) : spec_float := lit z 0.
End Num.

(** ** Values, objects and the heap *)

Definition addr := nat.

Inductive JsValue : Type :=
| VUndefined
| VNull
| VBool (b : bool)
| VNumber (n : spec_float)
| VString (s : string)
| VRef (a : addr).

(** Heap objects.  An array slot is [None] when it is a hole (as left by
    [new Array(n)]); a view is a [DataView] window onto a buffer. *)
Inductive obj : Type :=
| OArray (elems : list (option JsValue))
| OObject (props : list (string * JsValue))
| OMap (entries : list (JsValue * JsValue))
| OSet (members : list JsValue)
| ODate (time : spec_float)
| ORegExp (text : string)
| OView (buffer : addr) (byteOffset byteLength : nat)
| OBuffer (bytes : list Z)
| OFunction.

Abbreviation Heap := (gmap addr obj).

(** An address that is not allocated stands for an opaque host object. *)
Definition heap_get (h : Heap) (a : addr) : obj := default OFunction (h !! a).

(** The enhanced [typeof] tags of [Visitor.updateNodeTypeOf]. *)
Inductive kind : Type :=
| KUndefined | KNull | KBoolean | KNumber | KString | KFunction
| KArray | KObject | KMap | KSet | KDate | KRegex | KView | KBuffer.

Definition kind_eqb (x y : kind) : bool :=
  match x, y with
  | KUndefined, KUndefined | KNull, KNull | KBoolean, KBoolean
  | KNumber, KNumber | KString, KString | KFunction, KFunction
  | KArray, KArray | KObject, KObject | KMap, KMap | KSet, KSet
  | KDate, KDate | KRegex, KRegex | KView, KView | KBuffer, KBuffer => true
  | _, _ => false
  end.

Definition sf_same (x y : spec_float) : bool :=
  match x, y with
  | S754_nan, S754_nan => true
  | S754_zero s1, S754_zero s2 => Bool.eqb s1 s2
  | S754_infinity s1, S754_infinity s2 => Bool.eqb s1 s2
  | S754_finite s1 m1 e1, S754_finite s2 m2 e2 =>
      Bool.eqb s1 s2 && Pos.eqb m1 m2 && Z.eqb e1 e2
  | _, _ => false
  end.

(** [Object.is] (SameValue). *)
Definition Object_is (x y : JsValue) : bool :=
  match x, y with
  | VUndefined, VUndefined => true
  | VNull, VNull => true
  | VBool a, VBool b => Bool.eqb a b
  | VNumber a, VNumber b => sf_same a b
  | VString a, VString b => String.eqb a b
  | VRef a, VRef b => Nat.eqb a b
  | _, _ => false
  end.

(** The [===] operator. *)
Definition strict_equals (x y : JsValue) : bool :=
  match x, y with
  | VNumber a, VNumber b => Num.eq a b
  | _, _ => Object_is x y
  end.

(** SameValueZero, the membership test of [Map.has], [Set.has] and
    [Array.prototype.includes]. *)
Definition same_value_zero (x y : JsValue) : bool :=
  match x, y with
  | VNumber (S754_zero _), VNumber (S754_zero _) => true
  | _, _ => Object_is x y
  end.

(** JavaScript truthiness. *)
Definition truthy (v : JsValue) : bool :=
  match v with
  | VUndefined | VNull => false
  | VBool b => b
  | VNumber (S754_zero _) | VNumber S754_nan => false
  | VNumber _ => true
  | VString s => negb (String.eqb s "")
  | VRef _ => true
  end.

Definition kind_of_obj (o : obj) : kind :=
  match o with
  | OArray _ => KArray
  | OObject _ => KObject
  | OMap _ => KMap
  | OSet _ => KSet
  | ODate _ => KDate
  | ORegExp _ => KRegex
  | OView _ _ _ => KView
  | OBuffer _ => KBuffer
  | OFunction => KFunction
  end.

Definition kind_of (h : Heap) (v : JsValue) : kind :=
  match v with
  | VUndefined => KUndefined
  | VNull => KNull
  | VBool _ => KBoolean
  | VNumber _ => KNumber
  | VString _ => KString
  | VRef a => kind_of_obj (heap_get h a)
  end.

(** ** Graph nodes *)

(** [ObjPropType]: a property name, an array index, or (for ES6 maps) an
    arbitrary key value. *)
Inductive prop : Type :=
| PName (s : string)
| PIndex (i : Z)
| PKey (k : JsValue).

Definition prop_eqb (p q : prop) : bool :=
  match p, q with
  | PName a, PName b => String.eqb a b
  | PIndex a, PIndex b => Z.eqb a b
  | PKey a, PKey b => same_value_zero a b
  | _, _ => false
  end.

(** The child-attachment operations of [Copy]. *)
Inductive adder : Type :=
| AddObjectProperty | AddMapElement | AddSetElement | AddArrayElement.

(** [GraphNode], with the fields glopped on by [Compare] ([lhs]) and by
    [Copy] ([mirror], [addChildFn]). *)
Inductive GraphNode : Type := mkNode {
  value : JsValue;
  typeOf : option kind;
  property : option prop;
  properties : option (list prop);
  position : option nat;
  parentNode : option GraphNode;
  lhs : option GraphNode;
  mirror : JsValue;
  addChildFn : option adder
}.

Definition rootNode (v : JsValue) : GraphNode :=
  mkNode v None None None None None None VUndefined None.

Definition childNode (v : JsValue) (pos : option nat) (p : option prop)
    (parent : GraphNode) : GraphNode :=
  mkNode v None p None pos (Some parent) None VUndefined None.

Definition set_typeOf (k : kind) (n : GraphNode) : GraphNode :=
  mkNode (value n) (Some k) (property n) (properties n) (position n)
         (parentNode n) (lhs n) (mirror n) (addChildFn n).
Definition set_properties (ps : list prop) (n : GraphNode) : GraphNode :=
  mkNode (value n) (typeOf n) (property n) (Some ps) (position n)
         (parentNode n) (lhs n) (mirror n) (addChildFn n).
Definition set_lhs (l : GraphNode) (n : GraphNode) : GraphNode :=
  mkNode (value n) (typeOf n) (property n) (properties n) (position n)
         (parentNode n) (Some l) (mirror n) (addChildFn n).
Definition set_mirror (m : JsValue) (n : GraphNode) : GraphNode :=
  mkNode (value n) (typeOf n) (property n) (properties n) (position n)
         (parentNode n) (lhs n) m (addChildFn n).
Definition set_addChildFn (f : adder) (n : GraphNode) : GraphNode :=
  mkNode (value n) (typeOf n) (property n) (properties n) (position n)
         (parentNode n) (lhs n) (mirror n) (Some f).

(** ** Comparison results, changes and the visitation context *)

(** The values held by [ctx.result] and [ctx.searchResult]:
    [number | boolean | null], or [undefined] when unset. *)
Inductive cmpval : Type :=
| CUndefined
| CNull
| CBool (b : bool)
| CNum (z : Z).

Definition IS_SAME : cmpval := CNull.
Definition IS_EQUAL_B : cmpval := CBool false.
Definition NOT_EQUAL : cmpval := CBool true.
Definition IS_LT : cmpval := CNum (-1).
Definition IS_EQUAL_N : cmpval := CNum 0.
Definition IS_GT : cmpval := CNum 1.

(** [IS_EQUAL(v)] is [!v]. *)
Definition IS_EQUAL (v : cmpval) : bool :=
  match v with
  | CUndefined | CNull => true
  | CBool b => negb b
  | CNum z => Z.eqb z 0
  end.

Definition is_undefined (v : cmpval) : bool :=
  match v with CUndefined => true | _ => false end.

Module Patch.
Record PathSegment : Type := mkSegment {
  typeOf : option kind;
  segment : option prop
}.
End Patch.

Inductive Change : Type :=
| RemoveFromLhs (path : list Patch.PathSegment)
| AddToLhs (path : list Patch.PathSegment) (v : JsValue)
| EditLhs (path : list Patch.PathSegment) (v : JsValue).

(** One record for [VisitorContext], [CopyContext], [CompareContext] and
    [DiffContext], together with the heap the algorithm runs on. *)
Record Context : Type := mkContext {
  heap : Heap;
  refs : option (list JsValue);
  refMirrors : option (list (option JsValue));
  result : cmpval;
  searching : bool;
  searchResult : cmpval;
  changes : list Change
}.

Definition set_heap (h : Heap) (c : Context) : Context :=
  mkContext h (refs c) (refMirrors c) (result c) (searching c) (searchResult c) (changes c).
Definition set_refs (r : option (list JsValue)) (c : Context) : Context :=
  mkContext (heap c) r (refMirrors c) (result c) (searching c) (searchResult c) (changes c).
Definition set_refMirrors (r : option (list (option JsValue))) (c : Context) : Context :=
  mkContext (heap c) (refs c) r (result c) (searching c) (searchResult c) (changes c).
Definition set_result (r : cmpval) (c : Context) : Context :=
  mkContext (heap c) (refs c) (refMirrors c) r (searching c) (searchResult c) (changes c).
Definition set_searching (b : bool) (c : Context) : Context :=
  mkContext (heap c) (refs c) (refMirrors c) (result c) b (searchResult c) (changes c).
Definition set_searchResult (r : cmpval) (c : Context) : Context :=
  mkContext (heap c) (refs c) (refMirrors c) (result c) (searching c) r (changes c).
Definition push_change (ch : Change) (c : Context) : Context :=
  mkContext (heap c) (refs c) (refMirrors c) (result c) (searching c) (searchResult c)
            (changes c ++ [ch]).

(** ** The state and exception monad *)

Inductive error : Type :=
| TypeError (msg : string)
| InternalError (msg : string).

Inductive res (A : Type) : Type :=
| Ok (a : A)
| Throw (e : error)
| OutOfFuel.
Arguments Ok {A} a.
Arguments Throw {A} e.
Arguments OutOfFuel {A}.

Definition M (A : Type) : Type := Context -> res (A * Context).

Definition ret {A} (a : A) : M A := fun c => Ok (a, c).
Definition bind {A B} (m : M A) (k : A -> M B) : M B :=
  fun c => match m c with
           | Ok (a, c') => k a c'
           | Throw e => Throw e
           | OutOfFuel => OutOfFuel
           end.
Definition throw {A} (e : error) : M A := fun _ => Throw e.
Definition out_of_fuel {A} : M A := fun _ => OutOfFuel.
Definition get : M Context := fun c => Ok (c, c).
Definition gets {A} (f : Context -> A) : M A := fun c => Ok (f c, c).
Definition modify (f : Context -> Context) : M unit := fun c => Ok (tt, f c).

(** Sequencing of results. *)
Definition res_bind {A B} (r : res A) (k : A -> res B) : res B :=
  match r with
  | Ok a => k a
  | Throw e => Throw e
  | OutOfFuel => OutOfFuel
  end.

(** A computation that does not touch the state. *)
Definition lift {A} (r : res A) : M A :=
  fun c => res_bind r (fun a => Ok (a, c)).

Declare Scope js_scope.
Delimit Scope js_scope with js.
Notation "x <- m ;; k" := (bind m (fun x => k))
  (at level 100, m at next level, right associativity) : js_scope.
Notation "m ;;; k" := (bind m (fun _ => k))
  (at level 100, k at level 200, right associativity) : js_scope.
Local Open Scope js_scope.

(** What a visit returns: [boolean | GraphNode], or any other value:
    [undefined] when a comparison hook hands back an absent node, and
    whatever the callback of a traversal returned. *)
Inductive VisitResult : Type :=
| RBool (b : bool)
| RNode (n : GraphNode)
| RValue (v : JsValue).

(** [r && typeof r !== 'boolean']: the visit was aborted.  A graph node is
    an object, hence truthy. *)
Definition aborts (r : VisitResult) : bool :=
  match r with
  | RBool _ => false
  | RNode _ => true
  | RValue (VBool _) => false
  | RValue v => truthy v
  end.

(** A [for] loop whose body may abort the enclosing visitor by returning a
    node; [k] is the code after the loop. *)
Fixpoint for_each {A} (l : list A) (body : A -> M VisitResult)
    (k : M VisitResult) : M VisitResult :=
  match l with
  | [] => k
  | x :: xs => r <- body x ;; if aborts r then ret r else for_each xs body k
  end.

(** ** Host built-ins and options *)

(** A string as [charCodeAt] reads it: its UTF-16 code units. *)
Definition code_units := list Z.

(** What [JSON.stringify(v)] comes to: a text, [undefined] (for
    [undefined] and for functions), or an exception (a cyclic structure, a
    [BigInt], a [toJSON] that throws). *)
Inductive JsonResult : Type :=
| JsonText (text : code_units)
| JsonUndefined
| JsonThrows (e : error).

(** The built-ins of the JavaScript host that the sources call and that are
    not part of the repository. *)
Record Host : Type := mkHost {
  localeCompare : string -> string -> Z;
  loose_equals : Heap -> JsValue -> JsValue -> bool;
  JSON_stringify : Heap -> JsValue -> JsonResult
}.

(** A function that the callback of [Traverse] returned ([ChildrenCbType]).
    It is called as [fn()] before the children of the node are visited and
    as [fn(fnResult)] after; what it returns is only handed back to it, so
    that all that shows of a call is whether it throws. *)
Record ChildrenCb : Type := mkChildrenCb {
  before_children : option error;
  after_children : option error
}.

(** What a call of the callback of [Traverse] comes to
    ([boolean | GraphNode[] | ChildrenCbType | any]): a boolean, an array
    of graph nodes, a function, a graph node, any other value (one that is
    not a boolean, an array or a function), or an exception. *)
Inductive CbResult : Type :=
| CbBool (b : bool)
| CbChildren (nodes : list GraphNode)
| CbFunction (fn : ChildrenCb)
| CbAbort (n : GraphNode)
| CbValue (v : JsValue)
| CbThrows (e : error).

(** [VisitorOptions], [CopyOptions], [CompareOptions], [DiffOptions] and
    the traversal callback.  [rhsCopyOpts] holds the options of the [Copy]
    algorithm that [Diff] builds for the values it carries. *)
Inductive Options : Type := mkOptions {
  objPropsFn : Heap -> JsValue -> list prop;
  propFilter : option (GraphNode -> prop -> bool);
  guardCircularRefs : bool;
  createCopyFn : option (GraphNode -> M JsValue);
  callback : option (GraphNode -> CbResult);
  looseEquality : bool;
  epsilon : option spec_float;
  laxArrayOrdering : bool;
  strictMapOrdering : bool;
  strictSetOrdering : bool;
  rhsCopyOpts : option Options
}.

(** [Object.keys], the default [objPropsFn]. *)
Definition ownEnumerableNames (h : Heap) (v : JsValue) : list prop :=
  match v with
  | VRef a =>
      match heap_get h a with
      | OObject ps => map (fun p => PName (fst p)) ps
      | OArray es =>
          map (fun i => PIndex (Z.of_nat i))
              (List.filter (fun i => match nth_error es i with
                                     | Some (Some _) => true
                                     | _ => false
                                     end) (seq 0 (length es)))
      | _ => []
      end
  | _ => []
  end.

Definition defaultOptions : Options :=
  mkOptions ownEnumerableNames None false None None false None false false false None.

(** ** Reading the heap *)

Fixpoint findIndex_from {A} (f : A -> bool) (l : list A) (i : Z) : Z :=
  match l with
  | [] => -1
  | x :: xs => if f x then i else findIndex_from f xs (i + 1)
  end.

(** [Array.prototype.findIndex]. *)
Definition findIndex {A} (f : A -> bool) (l : list A) : Z := findIndex_from f l 0.

Definition array_elems (h : Heap) (v : JsValue) : list (option JsValue) :=
  match v with
  | VRef a => match heap_get h a with OArray es => es | _ => [] end
  | _ => []
  end.

Definition map_entries (h : Heap) (v : JsValue) : list (JsValue * JsValue) :=
  match v with
  | VRef a => match heap_get h a with OMap es => es | _ => [] end
  | _ => []
  end.

Definition set_members (h : Heap) (v : JsValue) : list JsValue :=
  match v with
  | VRef a => match heap_get h a with OSet ms => ms | _ => [] end
  | _ => []
  end.

Fixpoint assoc_string (k : string) (l : list (string * JsValue)) : option JsValue :=
  match l with
  | [] => None
  | (k', v) :: l' => if String.eqb k k' then Some v else assoc_string k l'
  end.

Fixpoint assoc_value (k : JsValue) (l : list (JsValue * JsValue)) : option JsValue :=
  match l with
  | [] => None
  | (k', v) :: l' => if same_value_zero k' k then Some v else assoc_value k l'
  end.

(** [v[p]]: a property read; absent properties and holes read [undefined]. *)
Definition get_prop (h : Heap) (v : JsValue) (p : prop) : JsValue :=
  match v with
  | VRef a =>
      match heap_get h a, p with
      | OObject ps, PName s => default VUndefined (assoc_string s ps)
      | OArray es, PIndex i =>
          if i <? 0 then VUndefined
          else match nth_error es (Z.to_nat i) with
               | Some (Some x) => x
               | _ => VUndefined
               end
      | _, _ => VUndefined
      end
  | _ => VUndefined
  end.

(** [m.get(k)] and [m.has(k)] on an ES6 map, [s.has(x)] on an ES6 set. *)
Definition map_get (h : Heap) (m : JsValue) (k : JsValue) : JsValue :=
  default VUndefined (assoc_value k (map_entries h m)).
Definition map_has (h : Heap) (m : JsValue) (k : JsValue) : bool :=
  existsb (fun e => same_value_zero (fst e) k) (map_entries h m).
Definition set_has (h : Heap) (s : JsValue) (x : JsValue) : bool :=
  existsb (fun e => same_value_zero e x) (set_members h s).

(** The elements of a JavaScript array that [filter], [find] and [map]
    call back on: holes are skipped. *)
Fixpoint present {A} (l : list (option A)) : list A :=
  match l with
  | [] => []
  | Some x :: l' => x :: present l'
  | None :: l' => present l'
  end.

(** A list paired with its indices, for loops that use the counter. *)
Definition indexed {A} (l : list A) : list (nat * A) := combine (seq 0 (length l)) l.

(** ** [visit.ts]: the base visitation algorithm *)

Section Visitor.
Variable opts : Options.

(** The context of a new operation: [refs] (and, for [Copy], [refMirrors])
    exist only under [guardCircularRefs]; [Compare] clears [searching];
    [Diff] starts with no changes. *)
Definition createContext (h : Heap) : Context :=
  mkContext h
    (if guardCircularRefs opts then Some [] else None)
    (if guardCircularRefs opts then Some [] else None)
    CUndefined false CUndefined [].

Definition updateNodeTypeOf (node : GraphNode) : M GraphNode :=
  gets (fun c => set_typeOf (kind_of (heap c) (value node)) node).

Definition ensureTypeOf (node : GraphNode) : M GraphNode :=
  match typeOf node with
  | None => updateNodeTypeOf node
  | Some _ => ret node
  end.

Definition indexOfReference (c : Context) (node : GraphNode) : Z :=
  match refs c with
  | Some rs =>
      if truthy (value node)
      then findIndex (fun e => Object_is e (value node)) rs
      else -1
  | None => -1
  end.

Definition hasReference (c : Context) (node : GraphNode) : bool :=
  0 <=? indexOfReference c node.

Definition addReference (node : GraphNode) : M unit :=
  modify (fun c =>
    match refs c with
    | Some rs =>
        if truthy (value node) then set_refs (Some (rs ++ [value node])) c else c
    | None => c
    end).

Definition guardReference (node : GraphNode) : M unit :=
  if guardCircularRefs opts then addReference node else ret tt.

(** [Visitor.visit], the choke point.  The kind-specific visitors are the
    (virtual) methods of the algorithm that runs; [declined] builds the
    result returned for a value that was already visited. *)
Definition Visitor_visit {R} (declined : GraphNode -> R)
    (visitArray visitSet visitMap visitObject visitOther : GraphNode -> M R)
    (node : GraphNode) : M R :=
  c <- get ;;
  if hasReference c node then ret (declined node)
  else
    node <- ensureTypeOf node ;;
    match typeOf node with
    | Some KArray => guardReference node ;;; visitArray node
    | Some KSet => guardReference node ;;; visitSet node
    | Some KMap => guardReference node ;;; visitMap node
    | Some KObject => guardReference node ;;; visitObject node
    | _ => visitOther node
    end.

Definition Visitor_visitNode (node : GraphNode)
    (childVisitorFn : option (GraphNode -> M VisitResult)) : M VisitResult :=
  match childVisitorFn with
  | Some f => f node
  | None => ret (RBool true)
  end.

Definition updateObjectNodeProperties (node : GraphNode) : M GraphNode :=
  c <- get ;;
  let node := set_properties (objPropsFn opts (heap c) (value node)) node in
  match propFilter opts with
  | Some f =>
      ret (set_properties
             (List.filter (fun p => f node p) (default [] (properties node))) node)
  | None => ret node
  end.

Definition ensureProperties (node : GraphNode) : M GraphNode :=
  match properties node with
  | None => updateObjectNodeProperties node
  | Some _ => ret node
  end.

Definition createObjectPropertyNode (v : JsValue) (p : prop) (o : GraphNode)
    (pos : option nat) : GraphNode :=
  childNode v pos (Some p) o.
Definition createMapElementNode (v : JsValue) (key : JsValue) (m : GraphNode)
    (pos : option nat) : GraphNode :=
  childNode v pos (Some (PKey key)) m.
Definition createSetElementNode (v : JsValue) (s : GraphNode)
    (pos : option nat) : GraphNode :=
  childNode v pos None s.
Definition createArrayElementNode (v : JsValue) (index : nat) (a : GraphNode)
    (pos : option nat) : GraphNode :=
  childNode v pos (Some (PIndex (Z.of_nat index))) a.

Section BaseVisitors.
Context {R : Type}.
(** The virtual methods the base visitors call back into. *)
Variable visitNode : GraphNode -> option (GraphNode -> M VisitResult) -> M R.
Variable visit : GraphNode -> M VisitResult.

Definition Visitor_visitOther (node : GraphNode) : M R := visitNode node None.

Definition Visitor_visitObject
    (create : JsValue -> prop -> GraphNode -> option nat -> GraphNode)
    (node : GraphNode) : M R :=
  visitNode node (Some (fun node =>
    node <- ensureProperties node ;;
    for_each (indexed (default [] (properties node)))
      (fun ip => v <- gets (fun c => get_prop (heap c) (value node) (snd ip)) ;;
                 visit (create v (snd ip) node (Some (fst ip))))
      (ret (RBool true)))).

Definition Visitor_visitMap
    (create : JsValue -> JsValue -> GraphNode -> option nat -> GraphNode)
    (node : GraphNode) : M R :=
  visitNode node (Some (fun node =>
    es <- gets (fun c => map_entries (heap c) (value node)) ;;
    for_each (indexed es)
      (fun ie => visit (create (snd (snd ie)) (fst (snd ie)) node (Some (fst ie))))
      (ret (RBool true)))).

Definition Visitor_visitSet
    (create : JsValue -> GraphNode -> option nat -> GraphNode)
    (node : GraphNode) : M R :=
  visitNode node (Some (fun node =>
    ms <- gets (fun c => set_members (heap c) (value node)) ;;
    for_each (indexed ms)
      (fun ie => visit (create (snd ie) node (Some (fst ie))))
      (ret (RBool true)))).

Definition Visitor_visitArray
    (create : JsValue -> nat -> GraphNode -> option nat -> GraphNode)
    (node : GraphNode) : M R :=
  visitNode node (Some (fun node =>
    l <- gets (fun c => length (array_elems (heap c) (value node))) ;;
    for_each (seq 0 l)
      (fun i => v <- gets (fun c => get_prop (heap c) (value node) (PIndex (Z.of_nat i))) ;;
                visit (create v i node (Some i)))
      (ret (RBool true)))).
End BaseVisitors.

(** ** [traverse.ts] *)

(** [try { result = childVisitorFn(); } finally { if (fn) fn(fnResult); }]:
    when the second call of [fn] throws, its exception replaces the outcome
    of the children. *)
Definition finally_call (after : option error) (m : M VisitResult) : M VisitResult :=
  fun c =>
    match m c with
    | OutOfFuel => OutOfFuel
    | r => match after with Some e => Throw e | None => r end
    end.

(** [Traverse.visitNode].  The children specified by the callback are
    visited in place of the children of the node; a function stands for
    [true] and wraps the visit of the children, if the node has any; the
    children are visited when the result is (or stands for) [true]; and any
    other result is handed back as it is. *)
Definition Traverse_visitNode (visit : GraphNode -> M VisitResult)
    (node : GraphNode) (childVisitorFn : option (GraphNode -> M VisitResult))
    : M VisitResult :=
  match callback opts with
  | Some cb =>
      match cb node with
      | CbThrows e => throw e
      | CbChildren nodes => for_each nodes visit (ret (RBool false))
      | CbFunction fn =>
          match childVisitorFn with
          | Some f =>
              match before_children fn with
              | Some e => throw e
              | None => finally_call (after_children fn) (f node)
              end
          | None => ret (RBool true)
          end
      | CbBool true | CbValue (VBool true) => Visitor_visitNode node childVisitorFn
      | CbBool false => ret (RBool false)
      | CbAbort n => ret (RNode n)
      | CbValue v => ret (RValue v)
      end
  | None => Visitor_visitNode node childVisitorFn
  end.

Fixpoint Traverse_visit (fuel : nat) (node : GraphNode) : M VisitResult :=
  match fuel with
  | O => out_of_fuel
  | S fuel =>
      let visit := Traverse_visit fuel in
      let visitNode := Traverse_visitNode visit in
      Visitor_visit (fun _ => RBool false)
        (Visitor_visitArray visitNode visit createArrayElementNode)
        (Visitor_visitSet visitNode visit createSetElementNode)
        (Visitor_visitMap visitNode visit createMapElementNode)
        (Visitor_visitObject visitNode visit createObjectPropertyNode)
        (Visitor_visitOther visitNode)
        node
  end.

(** [Traverse.traverse]: what aborted the traversal, if anything did
    ([if (result && typeof result !== 'boolean') return result; return null]). *)
Definition traverse (fuel : nat) (h : Heap) (v : JsValue) : res (option VisitResult) :=
  match Traverse_visit fuel (rootNode v) (createContext h) with
  | Ok (r, _) => Ok (if aborts r then Some r else None)
  | Throw e => Throw e
  | OutOfFuel => OutOfFuel
  end.
End Visitor.

(** ** [copy.ts] *)

Section Copy.
Variable opts : Options.

Definition alloc (o : obj) : M JsValue :=
  fun c =>
    let a := fresh (dom (heap c)) in
    Ok (VRef a, set_heap (<[a := o]> (heap c)) c).

(** [defaultCreateCopy]: immutable values are reused, containers get an
    empty instance of the same kind, known mutable leaves are copy
    constructed.  A [DataView] has no [slice] method. *)
Definition defaultCreateCopy (node : GraphNode) : M JsValue :=
  match value node with
  | VRef a =>
      c <- get ;;
      match heap_get (heap c) a with
      | OArray es => alloc (OArray (repeat None (length es)))
      | ODate t => alloc (ODate t)
      | OMap _ => alloc (OMap [])
      | OSet _ => alloc (OSet [])
      | ORegExp s => alloc (ORegExp s)
      | OView _ _ _ => throw (TypeError "o.slice is not a function")
      | OBuffer bs => alloc (OBuffer bs)
      | OObject _ => alloc (OObject [])
      | OFunction => ret (VRef a)
      end
  | v => ret v
  end.

Definition createCopy (node : GraphNode) : M JsValue :=
  match createCopyFn opts with
  | Some f => f node
  | None => defaultCreateCopy node
  end.

(** [a[i] = x] on a JavaScript array: the array grows as needed. *)
Fixpoint array_set {A} (l : list (option A)) (i : nat) (x : A) : list (option A) :=
  match l, i with
  | [], O => [Some x]
  | [], S i' => None :: array_set [] i' x
  | _ :: l', O => Some x :: l'
  | y :: l', S i' => y :: array_set l' i' x
  end.

Fixpoint assoc_set (k : string) (x : JsValue) (l : list (string * JsValue))
    : list (string * JsValue) :=
  match l with
  | [] => [(k, x)]
  | (k', y) :: l' => if String.eqb k k' then (k, x) :: l' else (k', y) :: assoc_set k x l'
  end.

Fixpoint map_set (k : JsValue) (x : JsValue) (l : list (JsValue * JsValue))
    : list (JsValue * JsValue) :=
  match l with
  | [] => [(k, x)]
  | (k', y) :: l' =>
      if same_value_zero k' k then (k', x) :: l' else (k', y) :: map_set k x l'
  end.

Definition store (a : addr) (o : obj) : M unit :=
  modify (fun c => set_heap (<[a := o]> (heap c)) c).

(** [target[p] = x].  The objects of the model inherit from
    [Object.prototype] (their prototypes are not part of the heap): the
    assignment to [__proto__] runs the setter that they inherit, which
    makes no own property. *)
Definition assign_prop (target : JsValue) (p : option prop) (x : JsValue) : M unit :=
  match target with
  | VRef a =>
      c <- get ;;
      match heap_get (heap c) a, p with
      | OObject ps, Some (PName s) =>
          if String.eqb s "__proto__" then ret tt
          else store a (OObject (assoc_set s x ps))
      | OArray es, Some (PIndex i) =>
          if 0 <=? i then store a (OArray (array_set es (Z.to_nat i) x)) else ret tt
      | _, _ => ret tt
      end
  | _ => throw (TypeError "cannot set a property of a primitive")
  end.

Definition prop_key (p : option prop) : JsValue :=
  match p with
  | Some (PKey k) => k
  | Some (PName s) => VString s
  | Some (PIndex i) => VNumber (Num.of_Z i)
  | None => VUndefined
  end.

Definition runAdder (f : adder) (parent : option GraphNode) (child : GraphNode) : M unit :=
  match parent with
  | None => throw (TypeError "cannot read properties of undefined (reading 'mirror')")
  | Some parent =>
      match f with
      | AddObjectProperty | AddArrayElement =>
          assign_prop (mirror parent) (property child) (mirror child)
      | AddMapElement =>
          match mirror parent with
          | VRef a =>
              c <- get ;;
              match heap_get (heap c) a with
              | OMap es => store a (OMap (map_set (prop_key (property child)) (mirror child) es))
              | _ => throw (TypeError "parent.mirror.set is not a function")
              end
          | _ => throw (TypeError "parent.mirror.set is not a function")
          end
      | AddSetElement =>
          match mirror parent with
          | VRef a =>
              c <- get ;;
              match heap_get (heap c) a with
              | OSet ms =>
                  if existsb (fun e => same_value_zero e (mirror child)) ms
                  then ret tt
                  else store a (OSet (ms ++ [mirror child]))
              | _ => throw (TypeError "parent.mirror.add is not a function")
              end
          | _ => throw (TypeError "parent.mirror.add is not a function")
          end
      end
  end.

(** The [try] block of [Copy.visitNode]; the node comes back with its
    [mirror] set. *)
Definition Copy_mirrorNode (node : GraphNode)
    (childVisitorFn : option (GraphNode -> M VisitResult))
    : M (VisitResult * GraphNode) :=
  let visitChildren node :=
    match childVisitorFn with
    | Some f => r <- f node ;; ret (r, node)
    | None => ret (RBool true, node)
    end in
  let fresh_mirror :=
    m <- createCopy node ;; visitChildren (set_mirror m node) in
  if guardCircularRefs opts then
    c <- get ;;
    let idx := indexOfReference c node in
    if 0 <=? idx then
      match refMirrors c with
      | None => throw (TypeError "cannot read properties of undefined (reading 'length')")
      | Some ms =>
          if idx <? Z.of_nat (length ms) then
            let m := match nth_error ms (Z.to_nat idx) with
                     | Some (Some m) => m
                     | _ => VUndefined
                     end in
            ret (RBool false, set_mirror m node)
          else
            m <- createCopy node ;;
            modify (fun c => set_refMirrors
                      (Some (array_set (default [] (refMirrors c)) (Z.to_nat idx) m)) c) ;;;
            visitChildren (set_mirror m node)
      end
    else fresh_mirror
  else fresh_mirror.

(** [Copy.visitNode]: the [finally] block attaches the mirror to the
    parent's mirror. *)
Definition Copy_visitNode (node : GraphNode)
    (childVisitorFn : option (GraphNode -> M VisitResult))
    : M (VisitResult * GraphNode) :=
  r <- Copy_mirrorNode node childVisitorFn ;;
  match addChildFn (snd r) with
  | Some f => runAdder f (parentNode (snd r)) (snd r) ;;; ret r
  | None => ret r
  end.

Definition Copy_createObjectPropertyNode (v : JsValue) (p : prop) (o : GraphNode)
    (pos : option nat) : GraphNode :=
  set_addChildFn AddObjectProperty (createObjectPropertyNode v p o pos).
Definition Copy_createMapElementNode (v : JsValue) (key : JsValue) (m : GraphNode)
    (pos : option nat) : GraphNode :=
  set_addChildFn AddMapElement (createMapElementNode v key m pos).
Definition Copy_createSetElementNode (v : JsValue) (s : GraphNode)
    (pos : option nat) : GraphNode :=
  set_addChildFn AddSetElement (createSetElementNode v s pos).
Definition Copy_createArrayElementNode (v : JsValue) (index : nat) (a : GraphNode)
    (pos : option nat) : GraphNode :=
  set_addChildFn AddArrayElement (createArrayElementNode v index a pos).

Fixpoint Copy_visit (fuel : nat) (node : GraphNode) : M (VisitResult * GraphNode) :=
  match fuel with
  | O => out_of_fuel
  | S fuel =>
      let visit child := r <- Copy_visit fuel child ;; ret (fst r) in
      Visitor_visit opts (fun n => (RBool false, n))
        (Visitor_visitArray Copy_visitNode visit Copy_createArrayElementNode)
        (Visitor_visitSet Copy_visitNode visit Copy_createSetElementNode)
        (Visitor_visitMap Copy_visitNode visit Copy_createMapElementNode)
        (Visitor_visitObject opts Copy_visitNode visit Copy_createObjectPropertyNode)
        (Visitor_visitOther Copy_visitNode)
        node
  end.

(** [Copy.copy]: the mirror of the root and the heap that holds it. *)
Definition copy (fuel : nat) (h : Heap) (v : JsValue) : res (JsValue * Heap) :=
  match Copy_visit fuel (rootNode v) (createContext opts h) with
  | Ok ((RBool _, src), c) => Ok (mirror src, heap c)
  | Ok (_, c) => Ok (VUndefined, heap c)
  | Throw e => Throw e
  | OutOfFuel => OutOfFuel
  end.
End Copy.

(** ** [util.ts] *)

Definition to_int32 (z : Z) : Z := (z + 2147483648) mod 4294967296 - 2147483648.

(** The loop of [stringHashCode]:
    [h = (Math.imul(31, h) + s.charCodeAt(i)) | 0] for each code unit. *)
Fixpoint stringHashCode_from (h : Z) (s : code_units) : Z :=
  match s with
  | [] => h
  | unit :: s' => stringHashCode_from (to_int32 (to_int32 (31 * h) + unit)) s'
  end.

(** [stringHashCode]; the guard [if (s)] leaves the hash at 0 when the
    argument is [undefined] ([None]) or the empty string. *)
Definition stringHashCode (s : option code_units) : Z :=
  match s with
  | Some units => stringHashCode_from 0 units
  | None => 0
  end.

(** ['' + n] for an integer [n]. *)
Definition string_of_Z (z : Z) : string := NilZero.string_of_int (Z.to_int z).

(** [Array.prototype.sort] with a comparison function (a stable sort). *)
Fixpoint sort_insert {A} (cmp : A -> A -> Z) (x : A) (l : list A) : list A :=
  match l with
  | [] => [x]
  | y :: l' => if 0 <? cmp y x then x :: y :: l' else y :: sort_insert cmp x l'
  end.
Definition js_sort {A} (cmp : A -> A -> Z) (l : list A) : list A :=
  fold_left (fun acc x => sort_insert cmp x acc) l [].

(** [Array.prototype.find] with an effectful predicate. *)
Fixpoint findM {A} (f : A -> M bool) (l : list A) : M (option A) :=
  match l with
  | [] => ret None
  | x :: xs => b <- f x ;; if b then ret (Some x) else findM f xs
  end.

Fixpoint foldM {A S} (f : S -> A -> M S) (l : list A) (s : S) : M S :=
  match l with
  | [] => ret s
  | x :: xs => s' <- f s x ;; foldM f xs s'
  end.

(** ** [compare.ts], [equal.ts] and [diff.ts] *)

(** The two concrete comparison algorithms. *)
Inductive algorithm : Type := Equal | Diff.

(** The internal record of [laxArrayOrdering]. *)
Record ArrayMatch : Type := mkMatch { lhIdx : Z; rhIdx : Z }.

Definition option_nat_eqb (x y : option nat) : bool :=
  match x, y with
  | None, None => true
  | Some a, Some b => Nat.eqb a b
  | _, _ => false
  end.

Definition option_kind_eqb (x y : option kind) : bool :=
  match x, y with
  | None, None => true
  | Some a, Some b => kind_eqb a b
  | _, _ => false
  end.

Definition is_kind (k : kind) (x : option kind) : bool := option_kind_eqb x (Some k).

Section Compare.
Variable host : Host.
Variable opts : Options.
Variable alg : algorithm.

(** The segment that [Diff.makePath] builds for the edge from [parent] to
    [node].  A member of a set that is not addressed by its position is
    addressed by ['' + stringHashCode(JSON.stringify(node.value))], and
    [JSON.stringify] may throw. *)
Definition edge_segment (h : Heap) (node parent : GraphNode) : res Patch.PathSegment :=
  let t := typeOf parent in
  if is_kind KSet t then
    match strictSetOrdering opts, position node with
    | true, Some i => Ok (Patch.mkSegment t (Some (PIndex (Z.of_nat i))))
    | _, _ =>
        match JSON_stringify host h (value node) with
        | JsonText text =>
            Ok (Patch.mkSegment t (Some (PName (string_of_Z (stringHashCode (Some text))))))
        | JsonUndefined =>
            Ok (Patch.mkSegment t (Some (PName (string_of_Z (stringHashCode None)))))
        | JsonThrows e => Throw e
        end
    end
  else Ok (Patch.mkSegment t (property node)).

(** [Diff.makePath]: walk up to the root, unshifting one segment per edge. *)
Fixpoint makePath_loop (h : Heap) (node : GraphNode)
    (retVal : list Patch.PathSegment) : res (list Patch.PathSegment) :=
  match node with
  | mkNode v t p ps pos (Some parent) l m f =>
      res_bind (edge_segment h (mkNode v t p ps pos (Some parent) l m f) parent)
        (fun s => makePath_loop h parent (s :: retVal))
  | _ => Ok retVal
  end.

Definition makePath (h : Heap) (node : GraphNode) : res (list Patch.PathSegment) :=
  makePath_loop h node [].

(** [this.copyAlgorithm ? this.copyAlgorithm.copy(rhs.value) : rhs.value]:
    under [rhsCopyOpts] a change carries a copy of the right-hand value,
    made in the heap of the comparison by a [Copy] algorithm with a context
    of its own.  The nested call runs on the fuel of the comparison that
    asks for it. *)
Definition carried (fuel : nat) (v : JsValue) : M JsValue :=
  match rhsCopyOpts opts with
  | Some copyOpts =>
      fun c => res_bind (copy copyOpts fuel (heap c) v)
                 (fun mh => Ok (fst mh, set_heap (snd mh) c))
  | None => ret v
  end.

(** [-segment - 1]; array element nodes always carry an index. *)
Definition insert_marker (s : option prop) : option prop :=
  match s with
  | Some (PIndex i) => Some (PIndex (- i - 1))
  | _ => Some (PKey (VNumber S754_nan))
  end.

Definition createRemove (lhs : option GraphNode) : M Change :=
  match lhs with
  | None => throw (TypeError "cannot read properties of undefined (reading 'parentNode')")
  | Some l => h <- gets heap ;; path <- lift (makePath h l) ;; ret (RemoveFromLhs path)
  end.

Definition createAdd (fuel : nat) (rhs : option GraphNode) : M Change :=
  match rhs with
  | None => throw (TypeError "cannot read properties of undefined (reading 'parentNode')")
  | Some r =>
      h <- gets heap ;;
      path <- lift (makePath h r) ;;
      match rev path with
      | [] => throw (TypeError "cannot read properties of undefined (reading 'typeOf')")
      | last :: front =>
          let path :=
            if is_kind KArray (Patch.typeOf last)
            then rev front ++ [Patch.mkSegment (Patch.typeOf last)
                                               (insert_marker (Patch.segment last))]
            else path in
          v <- carried fuel (value r) ;;
          ret (AddToLhs path v)
      end
  end.

Definition createEdit (fuel : nat) (lhs rhs : GraphNode) : M Change :=
  h <- gets heap ;;
  path <- lift (makePath h rhs) ;;
  v <- carried fuel (value rhs) ;;
  ret (EditLhs path v).

Definition record (cmp : cmpval) (c : Context) : Context :=
  if searching c then set_searchResult cmp c else set_result cmp c.

Definition node_result (n : option GraphNode) : VisitResult :=
  match n with Some n => RNode n | None => RValue VUndefined end.

(** [Compare.areEqual] (shared by both algorithms). *)
Definition areEqual (lhs rhs : option GraphNode) (cmp : cmpval) : M VisitResult :=
  modify (fun c =>
    if searching c
    then (if is_undefined (searchResult c) then set_searchResult cmp c else c)
    else (if is_undefined (result c) then set_result cmp c else c)) ;;;
  ret (RBool false).

(** [Compare.notEqual] and its override [Diff.notEqual]. *)
Definition notEqual (fuel : nat) (lhs rhs : GraphNode) (cmp : cmpval) : M VisitResult :=
  match alg with
  | Equal => modify (record cmp) ;;; ret (RNode lhs)
  | Diff =>
      c <- get ;;
      (if searching c then modify (set_searchResult cmp)
       else (ch <- createEdit fuel lhs rhs ;;
             modify (push_change ch) ;;; modify (set_result cmp))) ;;;
      ret (RBool true)
  end.

(** [Compare.noLhs] and its override [Diff.noLhs]. *)
Definition noLhs (fuel : nat) (rhs : option GraphNode) : M VisitResult :=
  match alg with
  | Equal => modify (record NOT_EQUAL) ;;; ret (node_result rhs)
  | Diff =>
      c <- get ;;
      (if searching c then modify (set_searchResult NOT_EQUAL)
       else (ch <- createAdd fuel rhs ;;
             modify (push_change ch) ;;; modify (set_result NOT_EQUAL))) ;;;
      ret (RBool true)
  end.

(** [Compare.noRhs] and its override [Diff.noRhs]. *)
Definition noRhs (lhs : option GraphNode) : M VisitResult :=
  match alg with
  | Equal => modify (record NOT_EQUAL) ;;; ret (node_result lhs)
  | Diff =>
      c <- get ;;
      (if searching c then modify (set_searchResult NOT_EQUAL)
       else (ch <- createRemove lhs ;; modify (push_change ch) ;;; modify (set_result NOT_EQUAL))) ;;;
      ret (RBool true)
  end.

(** The ['number'] case of [Compare.visitOther], statement by statement:
    the last [if]/[else] assigns [result] unconditionally. *)
Definition compareNumbers (l r : spec_float) : cmpval :=
  let e := match epsilon opts with Some e => e | None => Num.EPSILON end in
  let result := CUndefined in
  let result := if Num.isNaN l || Num.isNaN r then IS_EQUAL_B else result in
  let result := if Num.lt (Num.abs (Num.sub l r)) e then IS_EQUAL_N else result in
  let result := if Num.lt l r then IS_LT else IS_GT in
  result.

Definition compareDates (l r : spec_float) : cmpval :=
  if Num.lt l r then IS_LT
  else if Num.gt l r then IS_GT
  else IS_EQUAL_N.

Definition compareBytes (l r : list Z) : cmpval :=
  if forallb (fun p => Z.eqb (fst p) (snd p)) (combine l r) then IS_EQUAL_B else NOT_EQUAL.

Definition buffer_bytes (h : Heap) (a : addr) : list Z :=
  match heap_get h a with OBuffer bs => bs | _ => [] end.

(** The bytes [getUint8(0)], ..., [getUint8(len - 1)] of a view. *)
Definition view_bytes (h : Heap) (buf : addr) (off len : nat) : list Z :=
  map (fun i => nth (off + i) (buffer_bytes h buf) 0) (seq 0 len).

Definition ill_typed {A} : M A :=
  throw (InternalError "node kind does not match its value").

(** [Compare.visitOther]: the leaf comparison rules. *)
Definition Compare_visitOther (fuel : nat) (node : GraphNode) : M VisitResult :=
  match lhs node with
  | None => throw (TypeError "cannot read properties of undefined (reading 'value')")
  | Some lhs =>
      h <- gets heap ;;
      result <-
        match typeOf node with
        | Some KString =>
            match value lhs, value node with
            | VString a, VString b => ret (CNum (localeCompare host a b))
            | _, _ => ill_typed
            end
        | Some KNumber =>
            match value lhs, value node with
            | VNumber a, VNumber b => ret (compareNumbers a b)
            | _, _ => ill_typed
            end
        | Some KRegex =>
            match value lhs, value node with
            | VRef a, VRef b =>
                match heap_get h a, heap_get h b with
                | ORegExp s, ORegExp t =>
                    ret (if localeCompare host s t =? 0 then IS_EQUAL_B else NOT_EQUAL)
                | _, _ => ill_typed
                end
            | _, _ => ill_typed
            end
        | Some KDate =>
            match value lhs, value node with
            | VRef a, VRef b =>
                match heap_get h a, heap_get h b with
                | ODate s, ODate t => ret (compareDates s t)
                | _, _ => ill_typed
                end
            | _, _ => ill_typed
            end
        | Some KView =>
            match value lhs, value node with
            | VRef a, VRef b =>
                match heap_get h a, heap_get h b with
                | OView lbuf loff llen, OView rbuf roff rlen =>
                    ret (if negb (Nat.eqb llen rlen) then NOT_EQUAL
                         else if Nat.eqb lbuf rbuf then IS_EQUAL_B
                         else compareBytes (view_bytes h lbuf loff llen)
                                           (view_bytes h rbuf roff rlen))
                | _, _ => ill_typed
                end
            | _, _ => ill_typed
            end
        | Some KBuffer =>
            match value lhs, value node with
            | VRef a, VRef b =>
                match heap_get h a, heap_get h b with
                | OBuffer s, OBuffer t =>
                    ret (if negb (Nat.eqb (length s) (length t)) then NOT_EQUAL
                         else compareBytes s t)
                | _, _ => ill_typed
                end
            | _, _ => ill_typed
            end
        | _ =>
            ret (if Object_is (value lhs) (value node) then IS_SAME
                 else if looseEquality opts && loose_equals host h (value lhs) (value node)
                      then IS_EQUAL_B
                 else if strict_equals (value lhs) (value node) then IS_EQUAL_B
                 else NOT_EQUAL)
        end ;;
      if IS_EQUAL result then areEqual (Some lhs) (Some node) result
      else notEqual fuel lhs node result
  end.

Section Visitors.
(** The fuel of the call that runs the visitors, and [this.compare], the
    recursive entry point. *)
Variable fuel : nat.
Variable compare : option GraphNode -> option GraphNode -> M VisitResult.

(** [Compare.visit]: compare the node with the [lhs] glopped onto it. *)
Definition Compare_visit (node : GraphNode) : M VisitResult :=
  compare (lhs node) (Some node).

Definition lhs_of (node : GraphNode) : M GraphNode :=
  match lhs node with
  | Some l => ret l
  | None => throw (TypeError "cannot read properties of undefined (reading 'value')")
  end.

Definition includes (ps : list prop) (p : prop) : bool := existsb (prop_eqb p) ps.

Definition Compare_createObjectPropertyNode (v : JsValue) (p : prop) (o : GraphNode)
    (pos : option nat) : M GraphNode :=
  l <- lhs_of o ;;
  h <- gets heap ;;
  ret (set_lhs (childNode (get_prop h (value l) p) pos (Some p) l)
               (createObjectPropertyNode v p o pos)).

Definition Compare_visitObject (node : GraphNode) : M VisitResult :=
  lhs <- lhs_of node ;;
  rhs <- ensureProperties opts node ;;
  lhs <- ensureProperties opts lhs ;;
  let node := set_lhs lhs rhs in
  let lps := default [] (properties lhs) in
  let rps := default [] (properties rhs) in
  let sharedProps := List.filter (fun x => includes rps x) lps in
  let removedProps := List.filter (fun x => negb (includes rps x)) lps in
  let addedProps := List.filter (fun x => negb (includes lps x)) rps in
  for_each removedProps
    (fun p => h <- gets heap ;;
              noRhs (Some (createObjectPropertyNode (get_prop h (value lhs) p) p lhs None)))
  (for_each addedProps
    (fun p => h <- gets heap ;;
              noLhs fuel (Some (createObjectPropertyNode (get_prop h (value rhs) p) p rhs None)))
  (for_each sharedProps
    (fun p => h <- gets heap ;;
              n <- Compare_createObjectPropertyNode (get_prop h (value node) p) p node None ;;
              Compare_visit n)
  (ret (RBool false)))).

Definition Compare_createMapElementNode (v : JsValue) (key : JsValue) (m : GraphNode)
    (pos : option nat) : M GraphNode :=
  l <- lhs_of m ;;
  h <- gets heap ;;
  ret (set_lhs (childNode (map_get h (value l) key) pos (Some (PKey key)) l)
               (createMapElementNode v key m None)).

Definition Compare_visitMap (node : GraphNode) : M VisitResult :=
  let rhs := node in
  lhs <- lhs_of node ;;
  h <- gets heap ;;
  let lkeys := map fst (map_entries h (value lhs)) in
  let rkeys := map fst (map_entries h (value rhs)) in
  let sharedProps := List.filter (fun k => map_has h (value rhs) k) lkeys in
  let removedProps := List.filter (fun k => negb (map_has h (value rhs) k)) lkeys in
  let addedProps := List.filter (fun k => negb (map_has h (value lhs) k)) rkeys in
  let strictOrdering := strictMapOrdering opts in
  for_each (indexed removedProps)
    (fun ik =>
       let strictOrdering := false in
       h <- gets heap ;;
       noRhs (Some (createMapElementNode (map_get h (value lhs) (snd ik)) (snd ik) lhs
                      (if strictOrdering then Some (fst ik) else None))))
  (let strictOrdering := strictOrdering && forallb (fun _ => false) removedProps in
   for_each (indexed addedProps)
    (fun ik =>
       let strictOrdering := false in
       h <- gets heap ;;
       noLhs fuel (Some (createMapElementNode (map_get h (value rhs) (snd ik)) (snd ik) rhs
                      (if strictOrdering then Some (fst ik) else None))))
  (let strictOrdering := strictOrdering && forallb (fun _ => false) addedProps in
   for_each (indexed sharedProps)
    (fun ik =>
       h <- gets heap ;;
       n <- Compare_createMapElementNode (map_get h (value node) (snd ik)) (snd ik) node
              (if strictOrdering then Some (fst ik) else None) ;;
       Compare_visit n)
  (ret (RBool false)))).

Definition Compare_createSetElementNode (v : JsValue) (s : GraphNode)
    (pos : option nat) : M GraphNode :=
  l <- lhs_of s ;;
  ret (set_lhs (childNode v pos None l) (createSetElementNode v s pos)).

Definition Compare_visitSet (node : GraphNode) : M VisitResult :=
  let rhs := node in
  lhs <- lhs_of node ;;
  h <- gets heap ;;
  let lvals := set_members h (value lhs) in
  let rvals := set_members h (value rhs) in
  let sharedValues := List.filter (fun x => set_has h (value rhs) x) lvals in
  let removedValues := List.filter (fun x => negb (set_has h (value rhs) x)) lvals in
  let addedValues := List.filter (fun x => negb (set_has h (value lhs) x)) rvals in
  let strictOrdering := strictSetOrdering opts in
  for_each (indexed removedValues)
    (fun ix =>
       let strictOrdering := false in
       noRhs (Some (createSetElementNode (snd ix) lhs
                      (if strictOrdering then Some (fst ix) else None))))
  (let strictOrdering := strictOrdering && forallb (fun _ => false) removedValues in
   for_each (indexed addedValues)
    (fun ix =>
       let strictOrdering := false in
       noLhs fuel (Some (createSetElementNode (snd ix) rhs
                      (if strictOrdering then Some (fst ix) else None))))
  (let strictOrdering := strictOrdering && forallb (fun _ => false) addedValues in
   for_each (rev (indexed sharedValues))
    (fun ix =>
       n <- Compare_createSetElementNode (snd ix) node
              (if strictOrdering then Some (fst ix) else None) ;;
       Compare_visit n)
  (ret (RBool false)))).

(** The element nodes built by [value.map(...)] in [Compare.visitArray];
    [map] skips holes, which stay holes in the result. *)
Definition elementNodes (h : Heap) (a : GraphNode) : list (option GraphNode) :=
  map (fun ie =>
         match snd ie with
         | Some v =>
             let n := createArrayElementNode v (fst ie) a
                        (if laxArrayOrdering opts then None else Some (fst ie)) in
             Some (match typeOf n with
                   | None => set_typeOf (kind_of h (value n)) n
                   | Some _ => n
                   end)
         | None => None
         end)
      (indexed (array_elems h (value a))).

(** [<number>x.property] of an array element node. *)
Definition index_of_node (x : GraphNode) : Z :=
  match property x with Some (PIndex i) => i | _ => -1 end.

(** [matches.indexOf(i) < 0]. *)
Definition unmatched (matches : list Z) (i : Z) : bool :=
  negb (existsb (Z.eqb i) matches).

(** [l[i]] on a JavaScript array of nodes: out of range and holes read
    [undefined]. *)
Definition node_at (l : list (option GraphNode)) (i : Z) : option GraphNode :=
  if i <? 0 then None else mjoin (nth_error l (Z.to_nat i)).

(** The callback of [sameType.find] in [Compare.findIndexOf]: one search
    comparison, run between saving and restoring the search state. *)
Definition searchCompare (elem p : GraphNode) : M bool :=
  c0 <- get ;;
  let prevSearching := searching c0 in
  let prevResult := searchResult c0 in
  modify (set_searchResult CUndefined) ;;;
  modify (set_searching true) ;;;
  _ <- compare (Some elem) (Some p) ;;
  c1 <- get ;;
  let hit := negb (is_undefined (searchResult c1)) && IS_EQUAL (searchResult c1) in
  modify (set_searchResult prevResult) ;;;
  modify (set_searching prevSearching) ;;;
  ret hit.

(** [Compare.findIndexOf]: the index of the first unconsumed element of
    [array] that has the kind of [elem] and compares equal to it, or -1;
    the consumed index is pushed onto [matches]. *)
Definition findIndexOf (elem : option GraphNode) (array : list (option GraphNode))
    (matches : list Z) : M (Z * list Z) :=
  match elem, present array with
  | _, [] => ret (-1, matches)
  | None, _ :: _ => throw (TypeError "cannot read properties of undefined (reading 'typeOf')")
  | Some elem, _ :: _ =>
      let sameType :=
        List.filter (fun x => option_kind_eqb (typeOf x) (typeOf elem)
                              && unmatched matches (index_of_node x)) (present array) in
      match sameType with
      | [] => ret (-1, matches)
      | _ :: _ =>
          found <- findM (searchCompare elem) sameType ;;
          match found with
          | Some p => ret (index_of_node p, matches ++ [index_of_node p])
          | None => ret (-1, matches)
          end
      end
  end.

Definition by_lhIdx_desc (a b : ArrayMatch) : Z :=
  if lhIdx a <? lhIdx b then 1 else if lhIdx b <? lhIdx a then -1 else 0.
Definition by_rhIdx_asc (a b : ArrayMatch) : Z :=
  if rhIdx a <? rhIdx b then -1 else if rhIdx b <? rhIdx a then 1 else 0.

(** The matching pass of the lax branch: [sharedIdx], [removedIdx] and
    [consumedRhsIdx] after all left elements were looked up. *)
Definition matchElements (lhsElems rhsElems : list (option GraphNode))
    : M (list ArrayMatch * list ArrayMatch * list Z) :=
  foldM (fun st ie =>
           let '(sharedIdx, removedIdx, consumedRhsIdx) := st in
           let i := Z.of_nat (fst ie) in
           r <- findIndexOf (snd ie) rhsElems consumedRhsIdx ;;
           if fst r <? 0
           then ret (sharedIdx, removedIdx ++ [mkMatch i (-1)], snd r)
           else ret (sharedIdx ++ [mkMatch i (fst r)], removedIdx, snd r))
        (indexed lhsElems) ([], [], []).

Definition Compare_visitArray (node : GraphNode) : M VisitResult :=
  let rhs := node in
  lhs <- lhs_of node ;;
  h <- gets heap ;;
  let rhsElems := elementNodes h rhs in
  let lhsElems := elementNodes h lhs in
  if laxArrayOrdering opts then
    st <- matchElements lhsElems rhsElems ;;
    let '(sharedIdx, removedIdx, consumedRhsIdx) := st in
    let addedIdx :=
      if (length consumedRhsIdx <? length rhsElems)%nat
      then map (fun i => mkMatch (-1) (Z.of_nat i))
               (List.filter (fun i => unmatched consumedRhsIdx (Z.of_nat i))
                            (seq 0 (length rhsElems)))
      else [] in
    for_each (js_sort by_lhIdx_desc sharedIdx)
      (fun am => compare (node_at lhsElems (lhIdx am)) (node_at rhsElems (rhIdx am)))
    (for_each (js_sort by_lhIdx_desc removedIdx)
      (fun am => noRhs (node_at lhsElems (lhIdx am)))
    (for_each (js_sort by_rhIdx_asc addedIdx)
      (fun am => noLhs fuel (node_at rhsElems (rhIdx am)))
    (ret (RBool false))))
  else
    let longest :=
      if (length rhsElems <? length lhsElems)%nat then lhsElems else rhsElems in
    for_each (rev (seq 0 (length longest)))
      (fun i => compare (node_at lhsElems (Z.of_nat i)) (node_at rhsElems (Z.of_nat i)))
    (ret (RBool false)).

(** [Compare.compare], with [super.visit] resolved to the visitors above. *)
Definition Compare_compare (lhs rhs : option GraphNode) : M VisitResult :=
  match lhs, rhs with
  | None, Some _ => noLhs fuel rhs
  | None, None => areEqual lhs rhs IS_SAME
  | Some _, None => noRhs lhs
  | Some l, Some r =>
      if negb (option_nat_eqb (position l) (position r)) then notEqual fuel l r NOT_EQUAL
      else if Object_is (value l) (value r) then areEqual lhs rhs IS_SAME
      else
        l <- ensureTypeOf l ;;
        r <- ensureTypeOf r ;;
        if option_kind_eqb (typeOf l) (typeOf r) then
          Visitor_visit opts (fun _ => RBool false)
            Compare_visitArray Compare_visitSet Compare_visitMap Compare_visitObject
            (Compare_visitOther fuel) (set_lhs l r)
        else
          h <- gets heap ;;
          if looseEquality opts && loose_equals host h (value l) (value r)
          then areEqual (Some l) (Some r) IS_EQUAL_B
          else if is_kind KUndefined (typeOf l) then noLhs fuel (Some r)
          else if is_kind KUndefined (typeOf r) then noRhs (Some l)
          else notEqual fuel l r NOT_EQUAL
  end.
End Visitors.

Fixpoint compare (fuel : nat) (lhs rhs : option GraphNode) : M VisitResult :=
  match fuel with
  | O => out_of_fuel
  | S fuel' => Compare_compare fuel (compare fuel') lhs rhs
  end.

(** The entry points [Equal.equal] and [Diff.diff] share this run of the
    comparison on two fresh root nodes. *)
Definition run (fuel : nat) (h : Heap) (lhs rhs : JsValue) : res (VisitResult * Context) :=
  compare fuel (Some (rootNode lhs)) (Some (rootNode rhs)) (createContext opts h).
End Compare.

(** [Equal.equal]: [IS_EQUAL(ctx.result)], or [undefined] ([None]) when no
    outcome was recorded. *)
Definition equal (host : Host) (opts : Options) (fuel : nat) (h : Heap)
    (lhs rhs : JsValue) : res (option bool) :=
  match run host opts Equal fuel h lhs rhs with
  | Ok (_, c) => Ok (if is_undefined (result c) then None else Some (IS_EQUAL (result c)))
  | Throw e => Throw e
  | OutOfFuel => OutOfFuel
  end.

(** [Diff.diff]: the accumulated [ctx.changes]. *)
Definition diff (host : Host) (opts : Options) (fuel : nat) (h : Heap)
    (lhs rhs : JsValue) : res (list Change) :=
  match run host opts Diff fuel h lhs rhs with
  | Ok (_, c) => Ok (changes c)
  | Throw e => Throw e
  | OutOfFuel => OutOfFuel
  end.

(** ** A host to run the model on *)

Definition dquote : ascii := ascii_of_nat 34.

Definition ordinalCompare (a b : string) : Z :=
  match String.compare a b with
  | Eq => 0
  | Lt => -1
  | Gt => 1
  end.

(** The code units of a string of the model, whose characters are the
    code units 0 to 255. *)
Definition units_of_string (s : string) : code_units :=
  map (fun ch => Z.of_N (N_of_ascii ch)) (list_ascii_of_string s).

(** The integer that a number is, if it is one. *)
Definition integral (n : spec_float) : option Z :=
  match n with
  | S754_zero _ => Some 0
  | S754_finite s m e =>
      let sign := if s then -1 else 1 in
      if 0 <=? e then Some (sign * (Z.pos m * 2 ^ e))
      else if Z.pos m mod 2 ^ (- e) =? 0 then Some (sign * (Z.pos m / 2 ^ (- e)))
      else None
  | _ => None
  end.

(** A minimal host: strings are ordered by code unit, [==] relates [null]
    with [undefined] and is [===] otherwise.  [JSON.stringify] is given for
    [undefined], [null], booleans, strings that need no escape, the
    numbers NaN and infinity and the integers below 10^21; this host raises
    an internal error for every other value. *)
Definition plain_host : Host :=
  mkHost ordinalCompare
    (fun _ x y =>
       match x, y with
       | VNull, VUndefined | VUndefined, VNull => true
       | _, _ => strict_equals x y
       end)
    (fun _ v =>
       match v with
       | VUndefined => JsonUndefined
       | VNull => JsonText (units_of_string "null")
       | VBool true => JsonText (units_of_string "true")
       | VBool false => JsonText (units_of_string "false")
       | VString s => JsonText (34 :: units_of_string s ++ [34])
       | VNumber S754_nan | VNumber (S754_infinity _) => JsonText (units_of_string "null")
       | VNumber n =>
           match integral n with
           | Some z =>
               if Z.abs z <? 10 ^ 21 then JsonText (units_of_string (string_of_Z z))
               else JsonThrows (InternalError "plain_host: no JSON text for this number")
           | None => JsonThrows (InternalError "plain_host: no JSON text for this number")
           end
       | VRef _ => JsonThrows (InternalError "plain_host: no JSON text for objects")
       end).

Definition laxOptions : Options :=
  mkOptions ownEnumerableNames None false None None false None true false false None.
Definition guardedOptions : Options :=
  mkOptions ownEnumerableNames None true None None false None false false false None.

(** * Properties *)

(** ** Identity *)

Lemma sf_same_refl (x : spec_float) : sf_same x x = true.
Proof.
  destruct x as [s|s| |s m e]; simpl; try reflexivity.
  - apply Bool.eqb_reflx.
  - apply Bool.eqb_reflx.
  - now rewrite Bool.eqb_reflx, Pos.eqb_refl, Z.eqb_refl.
Qed.

Lemma Object_is_refl (v : JsValue) : Object_is v v = true.
Proof.
  destruct v; simpl; try reflexivity.
  - apply Bool.eqb_reflx.
  - apply sf_same_refl.
  - apply String.eqb_refl.
  - apply Nat.eqb_refl.
Qed.

(** Comparing two root nodes of the same value stops at the identity test of
    [Compare.compare] and records [IS_SAME]. *)
Lemma run_same host opts alg fuel h (G : JsValue) :
  run host opts alg (S fuel) h G G
  = Ok (RBool false, set_result IS_SAME (createContext opts h)).
Proof.
  unfold run. simpl. unfold Compare_compare. simpl.
  rewrite Object_is_refl. reflexivity.
Qed.

(** C2: for every value [G], [equal(G, G)] is [true] and [diff(G, G)] is the
    empty change list, whatever the options: the comparison of a value with
    itself short-circuits on identity, is recorded as identical, and records
    no change. *)
Theorem equal_diff_same host opts fuel h (G : JsValue) :
  equal host opts (S fuel) h G G = Ok (Some true)
  /\ diff host opts (S fuel) h G G = Ok []
  /\ (forall alg, exists c,
        run host opts alg (S fuel) h G G = Ok (RBool false, c)
        /\ result c = IS_SAME /\ changes c = []).
Proof.
  unfold equal, diff. rewrite !run_same. simpl. repeat split.
  intros alg. eexists. rewrite run_same. repeat split.
Qed.

(** ** What a change carries *)

Definition is_primitive (v : JsValue) : bool :=
  match v with VRef _ => false | _ => true end.

(** The value that a change for the right-hand value [v] carries, and the
    heap after it was made: [v] itself, or its copy under [rhsCopyOpts]. *)
Definition carry_rhs (opts : Options) (fuel : nat) (h : Heap) (v : JsValue)
    : res (JsValue * Heap) :=
  match rhsCopyOpts opts with
  | Some copyOpts => copy copyOpts fuel h v
  | None => Ok (v, h)
  end.

(** [rhsCopyOpts], when given, keeps the default [createCopyFn]. *)
Definition copies_by_default (opts : Options) : Prop :=
  forall copyOpts, rhsCopyOpts opts = Some copyOpts -> createCopyFn copyOpts = None.

Lemma set_heap_id c : set_heap (heap c) c = c.
Proof. now destruct c. Qed.

Lemma carried_run opts fuel v c :
  carried opts fuel v c
  = res_bind (carry_rhs opts fuel (heap c) v) (fun mh => Ok (fst mh, set_heap (snd mh) c)).
Proof.
  unfold carried, carry_rhs. destruct (rhsCopyOpts opts); [reflexivity|].
  unfold ret, res_bind. cbn. now rewrite set_heap_id.
Qed.

(** The default copy of a primitive value is the value, and nothing is
    allocated for it. *)
Lemma copy_primitive copyOpts fuel h v :
  createCopyFn copyOpts = None -> is_primitive v = true ->
  copy copyOpts (S fuel) h v = Ok (v, h).
Proof.
  intros Hd Hp. unfold copy. cbn [Copy_visit].
  unfold Visitor_visit, bind, get, hasReference, indexOfReference, createContext.
  cbn [refs value rootNode].
  assert (Href : (0 <=? match (if guardCircularRefs copyOpts then Some (@nil JsValue) else None) with
                        | Some rs => if truthy v then findIndex (fun e => Object_is e v) rs else -1
                        | None => -1
                        end) = false).
  { destruct (guardCircularRefs copyOpts), (truthy v); reflexivity. }
  rewrite Href. unfold ensureTypeOf, updateNodeTypeOf, gets. cbn [typeOf rootNode heap].
  assert (Hother : forall k,
            Visitor_visitOther (Copy_visitNode copyOpts) (set_typeOf k (rootNode v))
              (mkContext h (if guardCircularRefs copyOpts then Some [] else None)
                 (if guardCircularRefs copyOpts then Some [] else None)
                 CUndefined false CUndefined [])
            = Ok ((RBool true, set_mirror v (set_typeOf k (rootNode v))),
                  mkContext h (if guardCircularRefs copyOpts then Some [] else None)
                    (if guardCircularRefs copyOpts then Some [] else None)
                    CUndefined false CUndefined [])).
  { intros k. unfold Visitor_visitOther, Copy_visitNode, Copy_mirrorNode, createCopy,
      defaultCreateCopy, bind, get, ret, indexOfReference.
    rewrite Hd. cbn [value set_typeOf rootNode refs].
    destruct (guardCircularRefs copyOpts); [|now destruct v].
    destruct (truthy v); destruct v; try discriminate; reflexivity. }
  destruct v; try discriminate; cbn [kind_of typeOf set_typeOf value rootNode];
    rewrite Hother; reflexivity.
Qed.

(** The default copy of an object without children: a date, a regular
    expression or a buffer is copy constructed at a new address, a function
    is shared, and a [DataView] makes [defaultCreateCopy] throw. *)
Definition leaf_copy (h : Heap) (a : addr) (o : obj) : option (res (JsValue * Heap)) :=
  match o with
  | ODate _ | ORegExp _ | OBuffer _ =>
      Some (Ok (VRef (fresh (dom h)), <[fresh (dom h) := o]> h))
  | OView _ _ _ => Some (Throw (TypeError "o.slice is not a function"))
  | OFunction => Some (Ok (VRef a, h))
  | _ => None
  end.

Lemma copy_leaf copyOpts fuel h a o r :
  createCopyFn copyOpts = None -> h !! a = Some o -> leaf_copy h a o = Some r ->
  copy copyOpts (S fuel) h (VRef a) = r.
Proof.
  intros Hd Ha Hr. unfold copy. cbn [Copy_visit].
  unfold Visitor_visit, bind, get, hasReference, indexOfReference, createContext.
  cbn [refs value rootNode truthy].
  assert (Href : (0 <=? match (if guardCircularRefs copyOpts then Some (@nil JsValue) else None) with
                        | Some rs => findIndex (fun e => Object_is e (VRef a)) rs
                        | None => -1
                        end) = false).
  { now destruct (guardCircularRefs copyOpts). }
  rewrite Href. unfold ensureTypeOf, updateNodeTypeOf, gets.
  cbn [typeOf set_typeOf value rootNode heap kind_of].
  assert (Hg : heap_get h a = o) by (unfold heap_get; now rewrite Ha).
  rewrite Hg.
  assert (Hnode : forall k,
    Copy_visitNode copyOpts (set_typeOf k (rootNode (VRef a))) None
      (mkContext h (if guardCircularRefs copyOpts then Some [] else None)
         (if guardCircularRefs copyOpts then Some [] else None) CUndefined false CUndefined [])
    = res_bind r (fun mh =>
        Ok ((RBool true, set_mirror (fst mh) (set_typeOf k (rootNode (VRef a)))),
            mkContext (snd mh) (if guardCircularRefs copyOpts then Some [] else None)
              (if guardCircularRefs copyOpts then Some [] else None)
              CUndefined false CUndefined []))).
  { intros k. unfold Copy_visitNode, Copy_mirrorNode, createCopy,
      defaultCreateCopy, bind, get, ret, indexOfReference, alloc, throw.
    rewrite Hd.
    destruct (guardCircularRefs copyOpts); cbn; unfold heap_get; rewrite Ha; cbn;
      destruct o; try discriminate Hr; cbn in Hr |- *; injection Hr as <-; reflexivity. }
  unfold Visitor_visitOther.
  destruct o; try discriminate Hr; cbn [kind_of_obj]; rewrite Hnode;
    cbn in Hr; injection Hr as <-; reflexivity.
Qed.

Lemma carried_primitive opts fuel v c :
  copies_by_default opts -> is_primitive v = true ->
  carried opts (S fuel) v c = Ok (v, c).
Proof.
  intros Hd Hp. unfold carried. destruct (rhsCopyOpts opts) as [co|] eqn:E; [|reflexivity].
  rewrite (copy_primitive co fuel (heap c) v (Hd co E) Hp). cbn. now rewrite set_heap_id.
Qed.

Lemma carried_plain opts fuel v :
  rhsCopyOpts opts = None -> carried opts fuel v = ret v.
Proof. intros H. unfold carried. now rewrite H. Qed.

Lemma copies_by_default_plain opts : rhsCopyOpts opts = None -> copies_by_default opts.
Proof. intros H co E. congruence. Qed.

(** The outcome of a diff whose one change is an edit of the root that
    carries the right-hand value [v]. *)
Definition root_edit (opts : Options) (fuel : nat) (h : Heap) (v : JsValue)
    : res (list Change) :=
  res_bind (carry_rhs opts fuel h v) (fun mh => Ok [EditLhs [] (fst mh)]).

(** ** An addition at the root *)

Lemma kind_eqb_eq (x y : kind) : kind_eqb x y = true <-> x = y.
Proof. destruct x, y; simpl; split; intros H; try reflexivity; discriminate. Qed.

Definition root_add_error : error :=
  TypeError "cannot read properties of undefined (reading 'typeOf')".

(** The run behind an addition at the root: with [undefined] on the left and
    a defined value on the right, [noLhs] calls [createAdd] on the empty
    path, which raises. *)
Lemma run_root_addition host opts fuel h (v : JsValue) :
  kind_of h v <> KUndefined ->
  looseEquality opts && loose_equals host h VUndefined v = false ->
  run host opts Diff (S fuel) h VUndefined v = Throw root_add_error.
Proof.
  intros Hk Hl.
  unfold run. cbn [compare]. unfold Compare_compare.
  destruct v as [| |b|n|s|a]; try (now elim Hk);
    cbn -[makePath] in Hl |- *; unfold bind, gets; cbn -[makePath];
    try (rewrite Hl; reflexivity).
  cbn in Hk. destruct (kind_of_obj (heap_get h a)) eqn:E; try (now elim Hk);
    cbn -[makePath]; rewrite Hl; reflexivity.
Qed.

(** C10: [diff] can throw instead of returning a change list.  When the
    left-hand root is [undefined] and the right-hand root is a defined value
    (and loose equality does not relate them), the difference is an addition
    at the root: [createAdd] reads the last segment of the empty path and
    raises a [TypeError]. *)
Theorem diff_root_addition_throws host opts fuel h (v : JsValue) :
  kind_of h v <> KUndefined ->
  looseEquality opts && loose_equals host h VUndefined v = false ->
  diff host opts (S fuel) h VUndefined v = Throw root_add_error.
Proof. intros Hk Hl. unfold diff. now rewrite run_root_addition. Qed.

Lemma diff_root_addition_throws_witness :
  diff plain_host defaultOptions 1 ∅ VUndefined (VNumber (Num.of_Z 5))
  = Throw root_add_error.
Proof.
  apply (diff_root_addition_throws plain_host defaultOptions 0 ∅ (VNumber (Num.of_Z 5))).
  - discriminate.
  - reflexivity.
Defined.

(** C1 (the code departs from it): [diff(undefined, 5)] yields no change
    list at all, so there is nothing to apply to a copy of the left-hand
    side; the call throws for every amount of fuel. *)
Theorem diff_undefined_to_number_has_no_changes :
  forall fuel cs,
    diff plain_host defaultOptions fuel ∅ VUndefined (VNumber (Num.of_Z 5)) <> Ok cs.
Proof.
  intros [|fuel] cs.
  - discriminate.
  - unfold diff. rewrite run_root_addition; [discriminate | discriminate | reflexivity].
Qed.

(** ** Number leaves *)

Lemma lt_nan_false (a b : spec_float) :
  Num.isNaN a || Num.isNaN b = true -> Num.lt a b = false.
Proof.
  unfold Num.lt, SFltb, SFcompare.
  destruct a as [sa|sa| |sa ma ea], b as [sb|sb| |sb mb eb]; simpl;
    intros H; try discriminate; reflexivity.
Qed.

(** Whatever the two numbers are, the last statement of the ['number'] case
    decides: the result is [IS_LT] or [IS_GT], never an equal outcome. *)
Lemma compareNumbers_spec opts (a b : spec_float) :
  compareNumbers opts a b = if Num.lt a b then IS_LT else IS_GT.
Proof. reflexivity. Qed.

Lemma compareNumbers_not_equal opts (a b : spec_float) :
  IS_EQUAL (compareNumbers opts a b) = false.
Proof. rewrite compareNumbers_spec. now destruct (Num.lt a b). Qed.

(** [Diff.notEqual] on a right-hand root, outside a search: one edit with
    the empty path, which carries the right-hand value. *)
Lemma Diff_notEqual_root host opts fuel l r cmp c :
  searching c = false -> parentNode r = None ->
  notEqual host opts Diff fuel l r cmp c
  = res_bind (carry_rhs opts fuel (heap c) (value r))
      (fun mh => Ok (RBool true,
                     set_result cmp (push_change (EditLhs [] (fst mh)) (set_heap (snd mh) c)))).
Proof.
  intros Hs Hp. unfold notEqual, createEdit, bind, get, gets, lift. rewrite Hs.
  assert (E : makePath host opts (heap c) r = Ok []).
  { destruct r; cbn in Hp; subst. reflexivity. }
  rewrite E. cbn [res_bind]. rewrite carried_run.
  destruct (carry_rhs _ _ _ _) as [[m h']| |]; reflexivity.
Qed.

(** Two number roots that are not the same value reach the ['number'] case
    of [visitOther]. *)
Lemma run_numbers host opts alg fuel h (a b : spec_float) :
  sf_same a b = false ->
  run host opts alg (S fuel) h (VNumber a) (VNumber b)
  = match alg with
    | Equal =>
        Ok (RNode (set_typeOf KNumber (rootNode (VNumber a))),
            set_result (compareNumbers opts a b) (createContext opts h))
    | Diff =>
        res_bind (carry_rhs opts (S fuel) h (VNumber b))
          (fun mh =>
             Ok (RBool true,
                 set_result (compareNumbers opts a b)
                   (push_change (EditLhs [] (fst mh))
                      (set_heap (snd mh) (createContext opts h)))))
    end.
Proof.
  intros Hab. unfold run. cbn [compare]. unfold Compare_compare.
  cbn -[compareNumbers]. rewrite Hab.
  unfold bind, gets, get, Visitor_visit, hasReference, indexOfReference.
  cbn -[compareNumbers].
  assert (Hr : forall t : bool,
             (0 <=? match (if guardCircularRefs opts then Some (@nil JsValue) else None) with
                    | Some rs => if t then findIndex (fun e => Object_is e (VNumber b)) rs else -1
                    | None => -1
                    end) = false).
  { intros t. destruct (guardCircularRefs opts), t; reflexivity. }
  rewrite Hr. cbn -[compareNumbers notEqual].
  rewrite compareNumbers_not_equal.
  destruct alg; [reflexivity|].
  now rewrite Diff_notEqual_root.
Qed.

(** C3, as the code has it: when two number leaves are compared and at least
    one of them is NaN, the outcome is identical when both are NaN (they are
    the same value for [Object.is]) and not-equal otherwise: [equal] is
    false and [diff] records an edit of the root, which carries the
    right-hand number (whatever [rhsCopyOpts] makes of it, when it is
    given: with the default [createCopyFn], the number). *)
Theorem nan_number_leaves host opts fuel h (a b : spec_float) :
  Num.isNaN a || Num.isNaN b = true ->
  if sf_same a b
  then equal host opts (S fuel) h (VNumber a) (VNumber b) = Ok (Some true)
       /\ diff host opts (S fuel) h (VNumber a) (VNumber b) = Ok []
  else compareNumbers opts a b = IS_GT
       /\ equal host opts (S fuel) h (VNumber a) (VNumber b) = Ok (Some false)
       /\ diff host opts (S fuel) h (VNumber a) (VNumber b)
          = root_edit opts (S fuel) h (VNumber b)
       /\ (copies_by_default opts ->
           diff host opts (S fuel) h (VNumber a) (VNumber b) = Ok [EditLhs [] (VNumber b)]).
Proof.
  intros Hnan. destruct (sf_same a b) eqn:Hab.
  - assert (a = b) as ->.
    { destruct a as [sa|sa| |sa ma ea], b as [sb|sb| |sb mb eb];
        simpl in *; try discriminate; reflexivity. }
    unfold equal, diff. rewrite !run_same. now split.
  - assert (Hgt : compareNumbers opts a b = IS_GT).
    { rewrite compareNumbers_spec, lt_nan_false; [reflexivity | exact Hnan]. }
    assert (Hd : diff host opts (S fuel) h (VNumber a) (VNumber b)
                 = root_edit opts (S fuel) h (VNumber b)).
    { unfold diff, root_edit. rewrite run_numbers by exact Hab.
      now destruct (carry_rhs _ _ _ _) as [[m h']| |]. }
    split; [exact Hgt|]. split; [|split; [exact Hd|]].
    + unfold equal. rewrite run_numbers by exact Hab. now rewrite Hgt.
    + intros Hc. rewrite Hd. unfold root_edit, carry_rhs.
      destruct (rhsCopyOpts opts) as [co|] eqn:E; [|reflexivity].
      now rewrite (copy_primitive co fuel h (VNumber b) (Hc co E)).
Qed.

Lemma nan_number_leaves_witness :
  compareNumbers defaultOptions S754_nan Num.zero = IS_GT
  /\ equal plain_host defaultOptions 1 ∅ (VNumber S754_nan) (VNumber Num.zero)
     = Ok (Some false)
  /\ diff plain_host defaultOptions 1 ∅ (VNumber S754_nan) (VNumber Num.zero)
     = Ok [EditLhs [] (VNumber Num.zero)].
Proof.
  destruct (nan_number_leaves plain_host defaultOptions 0 ∅ S754_nan Num.zero eq_refl)
    as (H1 & H2 & H3 & _).
  exact (conj H1 (conj H2 H3)).
Defined.

(** C3 as stated fails: NaN against 0 is reported not-equal. *)
Lemma nan_vs_zero_not_equal :
  IS_EQUAL (compareNumbers defaultOptions S754_nan Num.zero) = false
  /\ equal plain_host defaultOptions 1 ∅ (VNumber S754_nan) (VNumber Num.zero)
     <> Ok (Some true).
Proof. split; [reflexivity | discriminate]. Qed.

(** The doubles 0.1, 0.2 and 0.3. *)
Definition point1 : spec_float := S754_finite false 7205759403792794 (-56).
Definition point2 : spec_float := S754_finite false 7205759403792794 (-55).
Definition point3 : spec_float := S754_finite false 5404319552844595 (-54).
Definition point1_plus_point2 : spec_float := SFadd Num.prec Num.emax point1 point2.

(** C4 (the code departs from it): 0.1 + 0.2 and 0.3 differ by less than
    [Number.EPSILON], yet they are compared as not-equal: [equal] is false
    and [diff] reports an edit. *)
Theorem close_numbers_compare_different :
  Num.lt (Num.abs (Num.sub point1_plus_point2 point3)) Num.EPSILON = true
  /\ compareNumbers defaultOptions point1_plus_point2 point3 = IS_GT
  /\ equal plain_host defaultOptions 1 ∅ (VNumber point1_plus_point2) (VNumber point3)
     = Ok (Some false)
  /\ diff plain_host defaultOptions 1 ∅ (VNumber point1_plus_point2) (VNumber point3)
     = Ok [EditLhs [] (VNumber point3)].
Proof. repeat split. Qed.

(** ** Copying a cyclic graph *)

(** The array [a] with [a[0] = a]. *)
Definition cyclic_heap : Heap := {[ 0%nat := OArray [Some (VRef 0%nat)] ]}.

(** C7 (the code departs from it): under [guardCircularRefs] the copy of the
    cyclic array [a = [a]] is a one-slot array whose slot is a hole.  The
    revisit of [a] is declined by [Visitor.visit] before [Copy.visitNode]
    runs, so the existing mirror is never attached. *)
Theorem copy_cyclic_array_drops_edge :
  copy guardedOptions 3 cyclic_heap (VRef 0%nat)
  = Ok (VRef 1%nat, <[1%nat := OArray [None]]> cyclic_heap).
Proof. vm_compute. reflexivity. Qed.

Lemma In_present {A} (l : list (option A)) (x : A) :
  In x (present l) <-> In (Some x) l.
Proof.
  induction l as [|[y|] l IH]; cbn.
  - tauto.
  - rewrite IH. split; intros [H|H]; auto; left; congruence.
  - rewrite IH. split; [auto | intros [H|H]; [discriminate | exact H]].
Qed.

(** * A program logic for the visitation monad *)

(** [wp total r Q]: the run [r] ended in a state satisfying [Q], or threw;
    with [total] set it may not have run out of fuel. *)
Definition wp {A} (total : bool) (r : res (A * Context))
    (Q : A -> Context -> Prop) : Prop :=
  match r with
  | Ok (a, c) => Q a c
  | Throw _ => True
  | OutOfFuel => total = false
  end.

Section WpRules.
Context {A B : Type}.
Variable total : bool.

Lemma wp_ret (a : A) c (Q : A -> Context -> Prop) : Q a c -> wp total (ret a c) Q.
Proof. intros H. exact H. Qed.

Lemma wp_bind (m : M A) (k : A -> M B) c (Q : B -> Context -> Prop) :
  wp total (m c) (fun a c' => wp total (k a c') Q) -> wp total (bind m k c) Q.
Proof.
  unfold wp, bind. destruct (m c) as [[a c']| |]; intros H; exact H.
Qed.

Lemma wp_mono (r : res (A * Context)) (Q Q' : A -> Context -> Prop) :
  wp total r Q -> (forall a c, Q a c -> Q' a c) -> wp total r Q'.
Proof.
  unfold wp. destruct r as [[a c]| |]; intros H HQ; auto.
Qed.

Lemma wp_throw e c (Q : A -> Context -> Prop) : wp total (throw e c) Q.
Proof. exact Logic.I. Qed.

Lemma wp_gets (f : Context -> A) c (Q : A -> Context -> Prop) :
  Q (f c) c -> wp total (gets f c) Q.
Proof. intros H. exact H. Qed.
End WpRules.

Lemma wp_get total c (Q : Context -> Context -> Prop) : Q c c -> wp total (get c) Q.
Proof. intros H. exact H. Qed.

Lemma wp_modify total f c (Q : unit -> Context -> Prop) :
  Q tt (f c) -> wp total (modify f c) Q.
Proof. intros H. exact H. Qed.

(** A lifted result leaves the state alone; [makePath] is lifted. *)
Lemma wp_lift {A} total (r : res A) c (Q : A -> Context -> Prop) :
  r <> OutOfFuel -> (forall a, r = Ok a -> Q a c) -> wp total (lift r c) Q.
Proof.
  intros Hr H. unfold lift. destruct r as [a| |]; cbn; [now apply H | exact Logic.I|].
  now elim Hr.
Qed.

(** The value a change carries: the heap is all that making it can change
    in the state of the comparison. *)
Lemma wp_carried opts fuel v c (Q : JsValue -> Context -> Prop) :
  (forall m h', Q m (set_heap h' c)) -> wp false (carried opts fuel v c) Q.
Proof.
  intros H. rewrite carried_run.
  destruct (carry_rhs opts fuel (heap c) v) as [[m h']| |]; cbn; auto.
Qed.

Lemma wp_carried_plain total opts fuel v c (Q : JsValue -> Context -> Prop) :
  rhsCopyOpts opts = None -> Q v c -> wp total (carried opts fuel v c) Q.
Proof. intros E H. rewrite carried_plain by exact E. exact H. Qed.

Ltac wp_step :=
  lazymatch goal with
  | |- wp _ (bind _ _ _) _ => apply wp_bind
  | |- wp _ (ret _ _) _ => apply wp_ret
  | |- wp _ (throw _ _) _ => apply wp_throw
  | |- wp _ (ill_typed _) _ => apply wp_throw
  | |- wp _ (get _) _ => apply wp_get
  | |- wp _ (gets _ _) _ => apply wp_gets
  | |- wp _ (modify _ _) _ => apply wp_modify
  end.
Ltac wp_steps := repeat wp_step.

Section WpLoops.
Variable total : bool.
Variable I : Context -> Prop.

Lemma wp_for_each {A} (l : list A) (body : A -> M VisitResult) (k : M VisitResult) :
  (forall x c, In x l -> I c -> wp total (body x c) (fun _ c' => I c')) ->
  (forall c, I c -> wp total (k c) (fun _ c' => I c')) ->
  forall c, I c -> wp total (for_each l body k c) (fun _ c' => I c').
Proof.
  intros Hbody Hk. induction l as [|x l IH]; intros c Hc; cbn [for_each].
  - now apply Hk.
  - apply wp_bind. eapply wp_mono; [apply Hbody; [now left | exact Hc]|].
    intros r c' Hc'. cbv beta in Hc'. destruct (aborts r).
    + now apply wp_ret.
    + apply IH; [|exact Hc']. intros y c0 Hy. apply Hbody. now right.
Qed.

Lemma wp_findM {A} (f : A -> M bool) (l : list A) :
  (forall x c, In x l -> I c -> wp total (f x c) (fun _ c' => I c')) ->
  forall c, I c ->
    wp total (findM f l c) (fun o c' => I c' /\ forall y, o = Some y -> In y l).
Proof.
  intros Hf. induction l as [|x l IH]; intros c Hc; cbn [findM].
  - apply wp_ret. split; [exact Hc | discriminate].
  - apply wp_bind. eapply wp_mono; [apply Hf; [now left | exact Hc]|].
    intros b c' Hc'. cbv beta in Hc'. destruct b.
    + apply wp_ret. split; [exact Hc'|]. intros y [= <-]. now left.
    + eapply wp_mono; [apply IH; [|exact Hc']|].
      * intros y c0 Hy. apply Hf. now right.
      * intros o c0 [H1 H2]. split; [exact H1|]. intros y Hy. right. now apply H2.
Qed.

Lemma wp_foldM {A S} (f : S -> A -> M S) (l : list A) :
  (forall s x c, In x l -> I c -> wp total (f s x c) (fun _ c' => I c')) ->
  forall s c, I c -> wp total (foldM f l s c) (fun _ c' => I c').
Proof.
  intros Hf. induction l as [|x l IH]; intros s c Hc; cbn [foldM].
  - now apply wp_ret.
  - apply wp_bind. eapply wp_mono; [apply Hf; [now left | exact Hc]|].
    intros s' c' Hc'. apply IH; [|exact Hc'].
    intros s0 y c0 Hy. apply Hf. now right.
Qed.
End WpLoops.

(** * Invariants of the comparison engine *)

(** [N] holds of an absent node. *)
Definition No (N : GraphNode -> Prop) (o : option GraphNode) : Prop :=
  forall n, o = Some n -> N n.

(** What the comparison visitors need of a state invariant [I] and a node
    property [N]: [N] is inherited by the nodes the visitors build, [I] is
    insensitive to a search being entered and left, and the four outcome
    hooks preserve [I] on nodes that satisfy [N]. *)
Record Invariant (host : Host) (opts : Options) (alg : algorithm) (total : bool)
    (N : GraphNode -> Prop) (I : Context -> Prop) : Prop := mkInvariant {
  inv_set_typeOf : forall c n, I c -> N n -> N (set_typeOf (kind_of (heap c) (value n)) n);
  inv_set_properties : forall ps n, N n -> N (set_properties ps n);
  inv_set_lhs : forall l n, N n -> N (set_lhs l n);
  inv_child : forall v pos p n, N n -> N (childNode v pos p n);
  inv_enter : forall c, I c -> I (set_searching true (set_searchResult CUndefined c));
  inv_leave : forall c0 c1, I c0 -> I c1 ->
    I (set_searching (searching c0) (set_searchResult (searchResult c0) c1));
  inv_areEqual : forall l r cmp c,
    I c -> wp total (areEqual l r cmp c) (fun _ c' => I c');
  inv_notEqual : forall fuel l r cmp c,
    N l -> N r -> I c ->
    wp total (notEqual host opts alg fuel l r cmp c) (fun _ c' => I c');
  inv_noLhs : forall fuel r c,
    No N r -> I c -> wp total (noLhs host opts alg fuel r c) (fun _ c' => I c');
  inv_noRhs : forall l c,
    No N l -> I c -> wp total (noRhs host opts alg l c) (fun _ c' => I c')
}.

Section Invariant.
Variable host : Host.
Variable opts : Options.
Variable alg : algorithm.
Variable total : bool.
Variable N : GraphNode -> Prop.
Variable I : Context -> Prop.
Hypothesis HI : Invariant host opts alg total N I.
Variable fuel : nat.

Local Abbreviation No := (No N).
Let N_set_typeOf := inv_set_typeOf _ _ _ _ _ _ HI.
Let N_set_properties := inv_set_properties _ _ _ _ _ _ HI.
Let N_set_lhs := inv_set_lhs _ _ _ _ _ _ HI.
Let N_child := inv_child _ _ _ _ _ _ HI.
Let I_enter := inv_enter _ _ _ _ _ _ HI.
Let I_leave := inv_leave _ _ _ _ _ _ HI.
Let H_areEqual := inv_areEqual _ _ _ _ _ _ HI.
Let H_notEqual := inv_notEqual _ _ _ _ _ _ HI.
Let H_noLhs := inv_noLhs _ _ _ _ _ _ HI.
Let H_noRhs := inv_noRhs _ _ _ _ _ _ HI.

Lemma No_Some n : N n -> No (Some n).
Proof. intros H m [= <-]. exact H. Qed.

Lemma No_None : No None.
Proof. intros m H. discriminate. Qed.

Lemma wp_ensureTypeOf n c :
  N n -> I c ->
  wp total (ensureTypeOf n c)
     (fun n' c' => c' = c /\ N n' /\ value n' = value n /\ position n' = position n
                   /\ typeOf n' = Some (default (kind_of (heap c) (value n)) (typeOf n))).
Proof.
  intros Hn Hc. unfold ensureTypeOf, updateNodeTypeOf.
  destruct (typeOf n) eqn:E; wp_steps; repeat split; auto.
Qed.

Lemma wp_ensureProperties n c :
  N n -> I c ->
  wp total (ensureProperties opts n c)
     (fun n' c' => I c' /\ N n' /\ lhs n' = lhs n /\ value n' = value n).
Proof.
  intros Hn Hc. unfold ensureProperties, updateObjectNodeProperties.
  destruct (properties n); wp_steps; [now repeat split|].
  destruct (propFilter opts); wp_steps; repeat split; auto.
Qed.

Lemma wp_lhs_of n c :
  No (lhs n) -> I c -> wp total (lhs_of n c) (fun l c' => I c' /\ N l /\ lhs n = Some l).
Proof.
  intros Hn Hc. unfold lhs_of. destruct (lhs n) as [l|] eqn:E; wp_steps.
  repeat split; auto.
Qed.

Lemma Compare_visitOther_inv node c :
  N node -> No (lhs node) -> I c ->
  wp total (Compare_visitOther host opts alg fuel node c) (fun _ c' => I c').
Proof.
  intros Hn Hl Hc. unfold Compare_visitOther.
  destruct (lhs node) as [l|] eqn:E; [|wp_steps].
  assert (Hnl : N l) by now apply Hl.
  apply wp_bind, wp_gets.
  apply wp_bind.
  apply wp_mono with (Q := fun _ c' => I c').
  - destruct (typeOf node) as [[]|];
      repeat lazymatch goal with
        | |- wp _ (match ?x with _ => _ end _) _ => destruct x
        | |- _ => wp_step
        end; exact Hc.
  - intros res c' Hc'. destruct (IS_EQUAL res).
    + now apply H_areEqual.
    + now apply H_notEqual.
Qed.

Section WithCompare.
Variable compare : option GraphNode -> option GraphNode -> M VisitResult.
Hypothesis H_compare : forall l r c,
  No l -> No r -> I c -> wp total (compare l r c) (fun _ c' => I c').

Lemma Compare_visit_inv n c :
  N n -> No (lhs n) -> I c -> wp total (Compare_visit compare n c) (fun _ c' => I c').
Proof.
  intros Hn Hl Hc. unfold Compare_visit. apply H_compare; auto using No_Some.
Qed.

Lemma Compare_visitObject_inv node c :
  N node -> No (lhs node) -> I c ->
  wp total (Compare_visitObject host opts alg fuel compare node c) (fun _ c' => I c').
Proof.
  intros Hn Hl Hc. unfold Compare_visitObject.
  apply wp_bind. eapply wp_mono; [now apply wp_lhs_of|].
  intros l c1 (Hc1 & Hnl & El). cbv beta.
  apply wp_bind. eapply wp_mono; [now apply wp_ensureProperties|].
  intros rhs c2 (Hc2 & Hnr & _ & _). cbv beta.
  apply wp_bind. eapply wp_mono; [now apply wp_ensureProperties|].
  intros lhs' c3 (Hc3 & Hnl' & _ & _). cbv beta.
  apply wp_for_each; [| |exact Hc3].
  { intros p c4 _ Hc4. wp_steps. apply H_noRhs; [|exact Hc4].
    apply No_Some. now apply N_child. }
  intros c4 Hc4. apply wp_for_each; [| |exact Hc4].
  { intros p c5 _ Hc5. wp_steps. apply H_noLhs; [|exact Hc5].
    apply No_Some. now apply N_child. }
  intros c5 Hc5. apply wp_for_each; [| |exact Hc5].
  { intros p c6 _ Hc6. wp_steps. unfold Compare_createObjectPropertyNode.
    cbn [lhs_of lhs set_lhs]. wp_steps.
    apply Compare_visit_inv; [| |exact Hc6].
    - apply N_set_lhs. now apply N_child, N_set_lhs.
    - cbn. apply No_Some. now apply N_child. }
  intros c6 Hc6. now wp_steps.
Qed.

Lemma Compare_visitMap_inv node c :
  N node -> No (lhs node) -> I c ->
  wp total (Compare_visitMap host opts alg fuel compare node c) (fun _ c' => I c').
Proof.
  intros Hn Hl Hc. unfold Compare_visitMap.
  apply wp_bind. eapply wp_mono; [now apply wp_lhs_of|].
  intros l c1 (Hc1 & Hnl & El). cbv beta.
  apply wp_bind, wp_gets.
  apply wp_for_each; [| |exact Hc1].
  { intros p c4 _ Hc4. wp_steps. apply H_noRhs; [|exact Hc4].
    apply No_Some. now apply N_child. }
  intros c4 Hc4. apply wp_for_each; [| |exact Hc4].
  { intros p c5 _ Hc5. wp_steps. apply H_noLhs; [|exact Hc5].
    apply No_Some. now apply N_child. }
  intros c5 Hc5. apply wp_for_each; [| |exact Hc5].
  { intros p c6 _ Hc6. wp_steps. unfold Compare_createMapElementNode, lhs_of.
    rewrite El. wp_steps.
    apply Compare_visit_inv; [| |exact Hc6].
    - apply N_set_lhs. now apply N_child.
    - cbn. apply No_Some. now apply N_child. }
  intros c6 Hc6. now wp_steps.
Qed.

Lemma Compare_visitSet_inv node c :
  N node -> No (lhs node) -> I c ->
  wp total (Compare_visitSet host opts alg fuel compare node c) (fun _ c' => I c').
Proof.
  intros Hn Hl Hc. unfold Compare_visitSet.
  apply wp_bind. eapply wp_mono; [now apply wp_lhs_of|].
  intros l c1 (Hc1 & Hnl & El). cbv beta.
  apply wp_bind, wp_gets.
  apply wp_for_each; [| |exact Hc1].
  { intros p c4 _ Hc4. apply H_noRhs; [|exact Hc4].
    apply No_Some. now apply N_child. }
  intros c4 Hc4. apply wp_for_each; [| |exact Hc4].
  { intros p c5 _ Hc5. apply H_noLhs; [|exact Hc5].
    apply No_Some. now apply N_child. }
  intros c5 Hc5. apply wp_for_each; [| |exact Hc5].
  { intros p c6 _ Hc6. wp_steps. unfold Compare_createSetElementNode, lhs_of.
    rewrite El. wp_steps.
    apply Compare_visit_inv; [| |exact Hc6].
    - apply N_set_lhs. now apply N_child.
    - cbn. apply No_Some. now apply N_child. }
  intros c6 Hc6. now wp_steps.
Qed.

Lemma elementNodes_N c a : I c -> N a -> Forall No (elementNodes opts (heap c) a).
Proof.
  intros Hc Ha. unfold elementNodes. apply List.Forall_forall. intros o Ho.
  apply in_map_iff in Ho as ([i [v|]] & <- & _); cbn [fst snd].
  - apply No_Some. unfold createArrayElementNode.
    destruct (typeOf _); [|apply N_set_typeOf; [exact Hc|]]; now apply N_child.
  - apply No_None.
Qed.

Lemma node_at_N l i : Forall No l -> No (node_at l i).
Proof.
  intros Hl n. unfold node_at. destruct (i <? 0); [discriminate|].
  destruct (nth_error l (Z.to_nat i)) as [o|] eqn:E; [|discriminate].
  cbn. intros ->. apply nth_error_In in E.
  rewrite List.Forall_forall in Hl. now apply (Hl _ E).
Qed.

Lemma present_N (l : list (option GraphNode)) x :
  Forall No l -> In x (present l) -> N x.
Proof.
  intros Hl Hx. apply In_present in Hx.
  rewrite List.Forall_forall in Hl. now apply (Hl _ Hx).
Qed.

Lemma searchCompare_inv elem p c :
  N elem -> N p -> I c ->
  wp total (searchCompare compare elem p c) (fun _ c' => I c').
Proof.
  intros He Hp Hc. unfold searchCompare. wp_steps.
  eapply wp_mono.
  { apply H_compare; [now apply No_Some | now apply No_Some |].
    apply I_enter, Hc. }
  intros r c1 Hc1. cbv beta. wp_steps. now apply I_leave.
Qed.

Lemma findIndexOf_inv elem array matches c :
  No elem -> Forall No array -> I c ->
  wp total (findIndexOf compare elem array matches c) (fun _ c' => I c').
Proof.
  intros He Ha Hc. unfold findIndexOf.
  assert (Hp := present_N array).
  destruct elem as [elem|], (present array) as [|x xs] eqn:E; wp_steps; try exact Hc.
  set (sameType := List.filter _ (x :: xs)).
  assert (Hs : forall y, In y sameType -> N y).
  { intros y Hy. apply filter_In in Hy as [Hy _]. now apply Hp. }
  destruct sameType as [|y ys]; wp_steps; [exact Hc|].
  eapply wp_mono.
  { apply (wp_findM total I); [|exact Hc]. intros z c0 Hz Hc0.
    apply searchCompare_inv; auto using No_Some. }
  intros [z|] c1 [Hc1 _]; now wp_steps.
Qed.

Lemma matchElements_inv lhsElems rhsElems c :
  Forall No lhsElems -> Forall No rhsElems -> I c ->
  wp total (matchElements compare lhsElems rhsElems c) (fun _ c' => I c').
Proof.
  intros Hl Hr Hc. unfold matchElements.
  apply (wp_foldM total I); [|exact Hc].
  intros [[sharedIdx removedIdx] consumed] [i e] c0 Hin Hc0. cbn [fst snd].
  apply wp_bind. eapply wp_mono.
  { apply findIndexOf_inv; [|exact Hr|exact Hc0].
    unfold indexed in Hin. apply in_combine_r in Hin.
    rewrite List.Forall_forall in Hl. now apply Hl. }
  intros r c1 Hc1. cbv beta. destruct (fst r <? 0); now wp_steps.
Qed.

Lemma Compare_visitArray_inv node c :
  N node -> No (lhs node) -> I c ->
  wp total (Compare_visitArray host opts alg fuel compare node c) (fun _ c' => I c').
Proof.
  intros Hn Hl Hc. unfold Compare_visitArray.
  apply wp_bind. eapply wp_mono; [now apply wp_lhs_of|].
  intros l c1 (Hc1 & Hnl & El). cbv beta.
  apply wp_bind, wp_gets.
  assert (Hr := elementNodes_N c1 node Hc1 Hn).
  assert (Hle := elementNodes_N c1 l Hc1 Hnl).
  destruct (laxArrayOrdering opts).
  - apply wp_bind. eapply wp_mono; [now apply matchElements_inv|].
    intros [[sharedIdx removedIdx] consumed] c2 Hc2. cbv beta iota.
    apply wp_for_each; [| |exact Hc2].
    { intros am c3 _ Hc3. apply H_compare; auto using node_at_N. }
    intros c3 Hc3. apply wp_for_each; [| |exact Hc3].
    { intros am c4 _ Hc4. apply H_noRhs; auto using node_at_N. }
    intros c4 Hc4. apply wp_for_each; [| |exact Hc4].
    { intros am c5 _ Hc5. apply H_noLhs; auto using node_at_N. }
    intros c5 Hc5. now wp_steps.
  - apply wp_for_each; [| |exact Hc1].
    { intros i c3 _ Hc3. apply H_compare; auto using node_at_N. }
    intros c3 Hc3. now wp_steps.
Qed.
End WithCompare.
End Invariant.

(** The kinds whose values [Visitor.visit] registers in [ctx.refs]. *)
Definition container (k : kind) : bool :=
  match k with
  | KArray | KSet | KMap | KObject => true
  | _ => false
  end.

(** One level of [Compare.compare]: from an invariant [I] to the invariant
    [I'] that holds once the right-hand container is registered, under
    which the children are compared. *)
Section Registration.
Variable host : Host.
Variable opts : Options.
Variable alg : algorithm.
Variable total : bool.
Variable N : GraphNode -> Prop.
Variables I I' : Context -> Prop.
Hypothesis HI : Invariant host opts alg total N I.
Hypothesis HI' : Invariant host opts alg total N I'.
Hypothesis I'_I : forall c, I' c -> I c.
Hypothesis H_register : forall node c k,
  I c -> N node -> typeOf node = Some k -> container k = true ->
  hasReference c node = false ->
  wp total (guardReference opts node c) (fun _ c' => I' c').
Variable fuel : nat.
Variable compare : option GraphNode -> option GraphNode -> M VisitResult.
Hypothesis H_compare : forall l r c,
  No N l -> No N r -> I' c -> wp total (compare l r c) (fun _ c' => I' c').

Lemma Compare_compare_inv l r c :
  No N l -> No N r -> I c ->
  wp total (Compare_compare host opts alg fuel compare l r c) (fun _ c' => I c').
Proof.
  intros Hl Hr Hc. unfold Compare_compare.
  destruct l as [l|], r as [r|].
  2: now apply (inv_noRhs _ _ _ _ _ _ HI).
  2: now apply (inv_noLhs _ _ _ _ _ _ HI).
  2: now apply (inv_areEqual _ _ _ _ _ _ HI).
  assert (Hnl : N l) by now apply Hl.
  assert (Hnr : N r) by now apply Hr.
  destruct (negb _); [now apply (inv_notEqual _ _ _ _ _ _ HI)|].
  destruct (Object_is _ _); [now apply (inv_areEqual _ _ _ _ _ _ HI)|].
  apply wp_bind. eapply wp_mono; [now apply (wp_ensureTypeOf _ _ _ _ _ _ HI)|].
  intros l' c1 (-> & Hnl' & _ & _ & Tl). cbv beta.
  apply wp_bind. eapply wp_mono; [now apply (wp_ensureTypeOf _ _ _ _ _ _ HI)|].
  intros r' c1 (-> & Hnr' & _ & _ & Tr). cbv beta.
  destruct (option_kind_eqb _ _).
  - unfold Visitor_visit. apply wp_bind, wp_get.
    destruct (hasReference c (set_lhs l' r')) eqn:Href; [now wp_steps|].
    unfold ensureTypeOf. cbn [typeOf set_lhs]. rewrite Tr.
    apply wp_bind, wp_ret. cbn [typeOf set_lhs]. rewrite Tr.
    assert (Hn : N (set_lhs l' r')) by now apply (inv_set_lhs _ _ _ _ _ _ HI).
    assert (Hlo : No N (lhs (set_lhs l' r'))).
    { cbn. intros n [= <-]. exact Hnl'. }
    assert (Hreg : forall k, default (kind_of (heap c) (value r)) (typeOf r) = k ->
                     container k = true ->
                     wp total (guardReference opts (set_lhs l' r') c) (fun _ c' => I' c')).
    { intros k Ek Hk. apply (H_register _ _ k); auto. cbn. now rewrite Tr, Ek. }
    destruct (default (kind_of (heap c) (value r)) (typeOf r)) eqn:Ek;
      try (now apply (Compare_visitOther_inv _ _ _ _ _ _ HI));
      (apply wp_bind; eapply wp_mono; [now apply (Hreg _ eq_refl)|];
       intros [] c2 Hc2; cbv beta; eapply wp_mono; [|intros ? ?; apply I'_I]).
    + now apply (Compare_visitArray_inv _ _ _ _ _ _ HI').
    + now apply (Compare_visitObject_inv _ _ _ _ _ _ HI').
    + now apply (Compare_visitMap_inv _ _ _ _ _ _ HI').
    + now apply (Compare_visitSet_inv _ _ _ _ _ _ HI').
  - apply wp_bind, wp_gets.
    destruct (_ && _); [now apply (inv_areEqual _ _ _ _ _ _ HI)|].
    destruct (is_kind _ _); [apply (inv_noLhs _ _ _ _ _ _ HI); auto using No_Some|].
    destruct (is_kind _ _); [apply (inv_noRhs _ _ _ _ _ _ HI); auto using No_Some|].
    now apply (inv_notEqual _ _ _ _ _ _ HI).
Qed.
End Registration.

(** For an invariant that does not depend on [ctx.refs], the whole
    comparison preserves it. *)
Lemma compare_inv host opts alg N I :
  Invariant host opts alg false N I ->
  (forall rs c, I c -> I (set_refs rs c)) ->
  forall fuel l r c,
    No N l -> No N r -> I c ->
    wp false (compare host opts alg fuel l r c) (fun _ c' => I c').
Proof.
  intros HI Hrefs. induction fuel as [|fuel IH]; intros l r c Hl Hr Hc.
  - reflexivity.
  - cbn [compare].
    apply (Compare_compare_inv host opts alg false N I I HI HI); auto.
    intros node c0 k Hc0 _ _ _ _. unfold guardReference, addReference.
    destruct (guardCircularRefs opts); wp_steps; [|exact Hc0].
    destruct (refs c0); [|exact Hc0].
    destruct (truthy _); [now apply Hrefs | exact Hc0].
Qed.

Lemma wp_Ok {A} total (r : res (A * Context)) Q a c :
  wp total r Q -> r = Ok (a, c) -> Q a c.
Proof. intros H ->. exact H. Qed.

(** ** Search comparisons *)

(** While a search is running, the enclosing result and the change list
    stay as they were. *)
Definition searching_frame (r0 : cmpval) (cs0 : list Change) (c : Context) : Prop :=
  searching c = true /\ result c = r0 /\ changes c = cs0.

Lemma searching_frame_invariant host opts alg r0 cs0 :
  Invariant host opts alg false (fun _ => True) (searching_frame r0 cs0).
Proof.
  split; try (intros; exact Logic.I).
  - intros c (Hs & Hr & Hc). now repeat split.
  - intros c0 c1 (Hs0 & _) (Hs & Hr & Hc). now repeat split.
  - intros l r cmp c (Hs & Hr & Hc). unfold areEqual. wp_steps.
    rewrite Hs. destruct (is_undefined _); now repeat split.
  - intros fuel l r cmp c _ _ (Hs & Hr & Hc). unfold notEqual, record.
    destruct alg; wp_steps; rewrite Hs; wp_steps; now repeat split.
  - intros fuel r c _ (Hs & Hr & Hc). unfold noLhs, record.
    destruct alg; wp_steps; rewrite Hs; wp_steps; now repeat split.
  - intros l c _ (Hs & Hr & Hc). unfold noRhs, record.
    destruct alg; wp_steps; rewrite Hs; wp_steps; now repeat split.
Qed.

Lemma compare_searching_frame host opts alg fuel l r c :
  searching c = true ->
  wp false (compare host opts alg fuel l r c)
     (fun _ c' => searching_frame (result c) (changes c) c').
Proof.
  intros Hs.
  apply (compare_inv host opts alg (fun _ => True) (searching_frame (result c) (changes c))).
  - apply searching_frame_invariant.
  - intros rs c0 H. exact H.
  - intros n _. exact Logic.I.
  - intros n _. exact Logic.I.
  - now repeat split.
Qed.

(** What a completed search leaves unchanged. *)
Definition search_restored (c c' : Context) : Prop :=
  result c' = result c /\ changes c' = changes c
  /\ searching c' = searching c /\ searchResult c' = searchResult c.

Lemma searchCompare_restores host opts alg fuel elem p c0 c :
  search_restored c0 c ->
  wp false (searchCompare (compare host opts alg fuel) elem p c)
     (fun _ c' => search_restored c0 c').
Proof.
  intros (Hr & Hc & Hs & Hsr). unfold searchCompare. wp_steps.
  eapply wp_mono; [apply compare_searching_frame; reflexivity|].
  intros v c1 (Hs1 & Hr1 & Hc1). cbn in Hr1, Hc1. wp_steps.
  unfold search_restored. cbn. now rewrite Hr1, Hc1.
Qed.

(** C9: a search comparison records its outcome only in [searchResult]:
    while [ctx.searching] is set, a comparison leaves [result] and the
    change list untouched; and when [findIndexOf] returns, [result], the
    change list, [searching] and [searchResult] are exactly what they were
    before the search began (for [Equal] and for [Diff]). *)
Theorem search_leaves_enclosing_result host opts alg fuel :
  (forall l r c v c',
      searching c = true ->
      compare host opts alg fuel l r c = Ok (v, c') ->
      searching c' = true /\ result c' = result c /\ changes c' = changes c)
  /\ (forall elem array matches c r c',
        findIndexOf (compare host opts alg fuel) elem array matches c = Ok (r, c') ->
        result c' = result c /\ changes c' = changes c
        /\ searching c' = searching c /\ searchResult c' = searchResult c).
Proof.
  split.
  - intros l r c v c' Hs E.
    exact (wp_Ok _ _ _ _ _ (compare_searching_frame host opts alg fuel l r c Hs) E).
  - intros elem array matches c r c' E.
    assert (H : wp false (findIndexOf (compare host opts alg fuel) elem array matches c)
                  (fun _ c' => search_restored c c')).
    { assert (H0 : search_restored c c) by now repeat split.
      unfold findIndexOf.
      destruct elem as [elem|], (present array) as [|x xs]; wp_steps; try exact H0.
      destruct (List.filter _ _) as [|y ys]; wp_steps; [exact H0|].
      eapply wp_mono.
      { apply (wp_findM false (search_restored c)); [|exact H0].
        intros z c0 _ Hc0. now apply searchCompare_restores. }
      intros [z|] c1 [Hc1 _]; now wp_steps. }
    exact (wp_Ok _ _ _ _ _ H E).
Qed.

Lemma search_leaves_enclosing_result_witness :
  let parent := set_typeOf KArray (rootNode (VRef 0%nat)) in
  let elem := set_typeOf KNumber (rootNode (VNumber (Num.of_Z 2))) in
  let array :=
    [Some (set_typeOf KNumber (createArrayElementNode (VNumber (Num.of_Z 1)) 0 parent None));
     Some (set_typeOf KNumber (createArrayElementNode (VNumber (Num.of_Z 2)) 1 parent None))] in
  let c := mkContext ∅ None None NOT_EQUAL false CUndefined [RemoveFromLhs []] in
  exists c',
    findIndexOf (compare plain_host laxOptions Diff 3) (Some elem) array [] c
    = Ok ((1, [1]), c')
    /\ result c' = NOT_EQUAL /\ changes c' = [RemoveFromLhs []]
    /\ searching c' = false /\ searchResult c' = CUndefined.
Proof.
  intros parent elem array c. eexists. split.
  - vm_compute. reflexivity.
  - apply (proj2 (search_leaves_enclosing_result plain_host laxOptions Diff 3)
             (Some elem) array [] c (1, [1])).
    vm_compute. reflexivity.
Defined.

(** ** Paths *)

(** Induction along the [parentNode] chain. *)
Fixpoint GraphNode_parent_ind (P : GraphNode -> Prop)
    (Hroot : forall n, parentNode n = None -> P n)
    (Hchild : forall n p, parentNode n = Some p -> P p -> P n)
    (n : GraphNode) : P n :=
  match n with
  | mkNode v t pr prs pos (Some p) l m a =>
      Hchild (mkNode v t pr prs pos (Some p) l m a) p eq_refl
             (GraphNode_parent_ind P Hroot Hchild p)
  | mkNode v t pr prs pos None l m a =>
      Hroot (mkNode v t pr prs pos None l m a) eq_refl
  end.

Lemma makePath_loop_app host opts h n acc :
  makePath_loop host opts h n acc
  = res_bind (makePath host opts h n) (fun path => Ok (path ++ acc)).
Proof.
  revert acc. induction n as [n Hn|n p Hn IH] using GraphNode_parent_ind; intros acc.
  - destruct n; cbn in Hn; subst. reflexivity.
  - destruct n; cbn in Hn; subst. unfold makePath. cbn [makePath_loop].
    destruct (edge_segment _ _ _ _ _) as [s| |]; cbn [res_bind]; try reflexivity.
    rewrite IH, (IH [s]). destruct (makePath host opts h p) as [path| |]; cbn [res_bind];
      try reflexivity.
    now rewrite <- app_assoc.
Qed.

Lemma makePath_root host opts h n :
  parentNode n = None -> makePath host opts h n = Ok [].
Proof. intros H. destruct n; cbn in H; subst. reflexivity. Qed.

(** The path of a node is the path of its parent followed by the segment of
    the edge between them; the segment is computed first. *)
Lemma makePath_child host opts h n p :
  parentNode n = Some p ->
  makePath host opts h n
  = res_bind (edge_segment host opts h n p)
      (fun s => res_bind (makePath host opts h p) (fun path => Ok (path ++ [s]))).
Proof.
  intros H. destruct n; cbn in H; subst. unfold makePath at 1. cbn [makePath_loop].
  destruct (edge_segment _ _ _ _ _) as [s| |]; cbn [res_bind]; try reflexivity.
  now rewrite makePath_loop_app.
Qed.

Lemma edge_segment_returns host opts h n p : edge_segment host opts h n p <> OutOfFuel.
Proof.
  unfold edge_segment. destruct (is_kind _ _); [|discriminate].
  destruct (strictSetOrdering opts), (position n); try discriminate;
    destruct (JSON_stringify _ _ _); discriminate.
Qed.

Lemma makePath_returns host opts h n : makePath host opts h n <> OutOfFuel.
Proof.
  induction n as [n Hn|n p Hn IH] using GraphNode_parent_ind.
  - now rewrite makePath_root.
  - rewrite (makePath_child _ _ _ _ _ Hn).
    pose proof (edge_segment_returns host opts h n p) as He.
    destruct (edge_segment _ _ _ _ _) as [s| |]; cbn [res_bind]; try discriminate;
      [|now elim He].
    destruct (makePath host opts h p); cbn [res_bind]; try discriminate. now elim IH.
Qed.

Lemma wp_makePath total host opts h n c (Q : list Patch.PathSegment -> Context -> Prop) :
  (forall path, makePath host opts h n = Ok path -> Q path c) ->
  wp total (lift (makePath host opts h n) c) Q.
Proof. apply wp_lift, makePath_returns. Qed.

(** An edge below anything but a set has the property of the node as its
    segment. *)
Lemma edge_segment_plain host opts h n p :
  is_kind KSet (typeOf p) = false ->
  edge_segment host opts h n p = Ok (Patch.mkSegment (typeOf p) (property n)).
Proof. intros H. unfold edge_segment. now rewrite H. Qed.

(** ** Tail-first emission in strict array mode *)

Definition segment_index (s : Patch.PathSegment) : option Z :=
  match Patch.segment s with
  | Some (PIndex i) => Some i
  | _ => None
  end.

(** The index of the root sequence that a change addresses: the first
    segment of its path.  An insertion directly into the root sequence
    carries the marker [-i - 1], which is decoded. *)
Definition top_index (ch : Change) : option Z :=
  match ch with
  | RemoveFromLhs (s :: _) => segment_index s
  | EditLhs (s :: _) _ => segment_index s
  | AddToLhs [s] _ =>
      if is_kind KArray (Patch.typeOf s)
      then option_map (fun z => - z - 1) (segment_index s)
      else segment_index s
  | AddToLhs (s :: _) _ => segment_index s
  | _ => None
  end.

(** [tail_first b cs]: the changes [cs] address indices that never
    increase along the list and are all at least [b]. *)
Inductive tail_first : Z -> list Change -> Prop :=
| tail_first_nil b : tail_first b []
| tail_first_snoc b i cs ch :
    tail_first i cs -> top_index ch = Some i -> b <= i ->
    tail_first b (cs ++ [ch]).

Lemma tail_first_weaken b b' cs : tail_first b cs -> b' <= b -> tail_first b' cs.
Proof.
  intros H Hb. destruct H as [b|b i cs ch H1 H2 H3].
  - constructor.
  - apply (tail_first_snoc _ i); auto. lia.
Qed.

Lemma tail_first_bound b cs :
  tail_first b cs -> forall ch, In ch cs -> exists i, top_index ch = Some i /\ b <= i.
Proof.
  induction 1 as [b|b i cs ch H1 IH H2 H3]; intros ch' Hin.
  - destruct Hin.
  - apply in_app_or in Hin as [Hin|[<-|[]]].
    + destruct (IH _ Hin) as (j & Hj & Hij). exists j. split; [exact Hj | lia].
    + exists i. now split.
Qed.

Lemma tail_first_positions b cs :
  tail_first b cs ->
  forall p q cp cq i j,
    nth_error cs p = Some cp -> nth_error cs q = Some cq ->
    top_index cp = Some i -> top_index cq = Some j ->
    i < j -> (q < p)%nat.
Proof.
  induction 1 as [b|b i0 cs ch H1 IH H2 H3]; intros p q cp cq i j Hp Hq Hi Hj Hij.
  - destruct p; discriminate.
  - destruct (Nat.lt_ge_cases p (length cs)) as [Hpl|Hpl],
             (Nat.lt_ge_cases q (length cs)) as [Hql|Hql].
    + rewrite nth_error_app1 in Hp, Hq by assumption. eapply IH; eauto.
    + rewrite nth_error_app1 in Hp by assumption.
      rewrite nth_error_app2 in Hq by assumption.
      destruct (q - length cs)%nat as [|k]; [|destruct k; discriminate].
      injection Hq as <-. rewrite H2 in Hj. injection Hj as <-.
      apply nth_error_In in Hp.
      destruct (tail_first_bound _ _ H1 _ Hp) as (i' & Hi' & Hb).
      rewrite Hi in Hi'. injection Hi' as <-. lia.
    + lia.
    + rewrite nth_error_app2 in Hp, Hq by assumption.
      destruct (p - length cs)%nat as [|k]; [|destruct k; discriminate].
      destruct (q - length cs)%nat as [|k]; [|destruct k; discriminate].
      injection Hp as <-. injection Hq as <-. rewrite Hi in Hj. injection Hj as <-. lia.
Qed.

Section TailFirst.
Variable host : Host.
Variable opts : Options.
Variable i : Z.

(** The segment of element [i] of a root array. *)
Definition element_segment : Patch.PathSegment :=
  Patch.mkSegment (Some KArray) (Some (PIndex i)).

(** Nodes at or below element [i] of the root array: their path, when
    [makePath] returns one, starts with the segment of that element. *)
Definition below_element (n : GraphNode) : Prop :=
  forall h path, makePath host opts h n = Ok path ->
    exists rest, path = element_segment :: rest.

Definition emits_for_element (c : Context) : Prop := tail_first i (changes c).

Lemma emits_push c ch :
  emits_for_element c -> top_index ch = Some i -> emits_for_element (push_change ch c).
Proof.
  intros H Hi. unfold emits_for_element. cbn.
  apply (tail_first_snoc _ i); auto. lia.
Qed.

Lemma top_index_add (path : list Patch.PathSegment) rest last front v :
  path = element_segment :: rest ->
  rev path = last :: front ->
  top_index (AddToLhs
               (if is_kind KArray (Patch.typeOf last)
                then rev front ++ [Patch.mkSegment (Patch.typeOf last)
                                                   (insert_marker (Patch.segment last))]
                else path) v) = Some i.
Proof.
  intros Hp Hr.
  assert (Hpath : path = rev front ++ [last]).
  { rewrite <- (rev_involutive path), Hr. reflexivity. }
  destruct (rev front) as [|s ss] eqn:Ef; cbn [app] in *.
  - assert (last = element_segment) as -> by congruence.
    cbn. f_equal. lia.
  - assert (s = element_segment) as -> by congruence.
    rewrite Hpath.
    destruct (is_kind KArray (Patch.typeOf last)); destruct ss; reflexivity.
Qed.

Lemma emits_invariant :
  Invariant host opts Diff false below_element emits_for_element.
Proof.
  split.
  - intros c n _ Hn h. specialize (Hn h). now destruct n.
  - intros ps n Hn h. specialize (Hn h). now destruct n.
  - intros l n Hn h. specialize (Hn h). now destruct n.
  - intros v pos p n Hn h path. rewrite (makePath_child _ _ _ _ n) by reflexivity.
    destruct (edge_segment _ _ _ _ _) as [s| |]; cbn [res_bind]; try discriminate.
    destruct (makePath host opts h n) as [pp| |] eqn:E; cbn [res_bind]; try discriminate.
    intros [= <-]. destruct (Hn h pp E) as (rest & ->). now exists (rest ++ [s]).
  - intros c H. exact H.
  - intros c0 c1 _ H. exact H.
  - intros l r cmp c H. unfold areEqual. wp_steps.
    destruct (searching c), (is_undefined _); exact H.
  - intros fuel l r cmp c Hl Hr H. unfold notEqual, createEdit. wp_steps.
    destruct (searching c); wp_steps; [exact H|].
    apply wp_makePath. intros path Hpath. destruct (Hr _ _ Hpath) as (rest & ->).
    apply wp_bind, wp_carried. intros m h'. wp_steps.
    apply emits_push; [exact H | reflexivity].
  - intros fuel r c Hr H. unfold noLhs, createAdd. wp_steps.
    destruct (searching c); wp_steps; [exact H|].
    destruct r as [r|]; wp_steps.
    apply wp_makePath. intros path Hpath. destruct (Hr r eq_refl _ _ Hpath) as (rest & E).
    destruct (rev path) as [|last front] eqn:Er; wp_steps.
    apply wp_carried. intros m h'. wp_steps.
    apply emits_push; [exact H|]. now apply (top_index_add _ rest).
  - intros l c Hl H. unfold noRhs, createRemove. wp_steps.
    destruct (searching c); wp_steps; [exact H|].
    destruct l as [l|]; wp_steps.
    apply wp_makePath. intros path Hpath. destruct (Hl l eq_refl _ _ Hpath) as (rest & ->).
    wp_steps. apply emits_push; [exact H | reflexivity].
Qed.
End TailFirst.

Lemma nth_error_combine_seq {A} (l : list A) s k :
  nth_error (combine (seq s (length l)) l) k
  = option_map (fun x => ((s + k)%nat, x)) (nth_error l k).
Proof.
  revert s k. induction l as [|x l IH]; intros s k; cbn.
  - now destruct k.
  - destruct k as [|k]; cbn.
    + now rewrite Nat.add_0_r.
    + rewrite IH. now rewrite Nat.add_succ_r.
Qed.

Lemma nth_error_indexed {A} (l : list A) k :
  nth_error (indexed l) k = option_map (fun x => (k, x)) (nth_error l k).
Proof. unfold indexed. now rewrite nth_error_combine_seq. Qed.

(** The node at index [k] of [elementNodes h a] is the child of [a] for
    property [k]. *)
Lemma node_at_elementNodes opts h a k n :
  node_at (elementNodes opts h a) (Z.of_nat k) = Some n ->
  parentNode n = Some a /\ property n = Some (PIndex (Z.of_nat k))
  /\ typeOf n = Some (kind_of h (value n))
  /\ position n = (if laxArrayOrdering opts then None else Some k)
  /\ nth_error (array_elems h (value a)) k = Some (Some (value n)).
Proof.
  unfold node_at, elementNodes.
  destruct (Z.of_nat k <? 0) eqn:E; [apply Z.ltb_lt in E; lia|]. rewrite Nat2Z.id.
  rewrite nth_error_map, nth_error_indexed.
  destruct (nth_error (array_elems h (value a)) k) as [[v|]|]; cbn; try discriminate.
  intros [= <-]. now repeat split.
Qed.

Lemma element_below host opts h a k n :
  parentNode a = None -> typeOf a = Some KArray ->
  node_at (elementNodes opts h a) (Z.of_nat k) = Some n ->
  below_element host opts (Z.of_nat k) n.
Proof.
  intros Hp Ht Hn h' path. apply node_at_elementNodes in Hn as (Hpar & Hprop & _).
  rewrite (makePath_child _ _ _ _ _ Hpar), (makePath_root _ _ _ _ Hp).
  rewrite edge_segment_plain by now rewrite Ht.
  cbn [res_bind app]. rewrite Ht, Hprop. intros [= <-]. now exists [].
Qed.

Lemma rev_seq_S n : rev (seq 0 (S n)) = n :: rev (seq 0 n).
Proof. rewrite seq_S, rev_app_distr. reflexivity. Qed.

Section StrictArrays.
Variable host : Host.
Variable opts : Options.
Variable fuel : nat.
Variable h : Heap.
Variables l r : GraphNode.
Hypothesis l_root : parentNode l = None.
Hypothesis r_root : parentNode r = None.
Hypothesis l_array : typeOf l = Some KArray.
Hypothesis r_array : typeOf r = Some KArray.

Lemma strict_loop_tail_first n c :
  tail_first (Z.of_nat n) (changes c) ->
  wp false
     (for_each (rev (seq 0 n))
        (fun i => compare host opts Diff fuel
                    (node_at (elementNodes opts h l) (Z.of_nat i))
                    (node_at (elementNodes opts h r) (Z.of_nat i)))
        (ret (RBool false)) c)
     (fun _ c' => tail_first 0 (changes c')).
Proof.
  revert c. induction n as [|n IH]; intros c Hc.
  - cbn. exact Hc.
  - rewrite rev_seq_S. cbn [for_each]. apply wp_bind.
    eapply wp_mono.
    { apply (compare_inv host opts Diff (below_element host opts (Z.of_nat n))
               (emits_for_element (Z.of_nat n))).
      - apply emits_invariant.
      - intros rs c0 H. exact H.
      - intros m Hm. now apply (element_below host opts h l n m).
      - intros m Hm. now apply (element_below host opts h r n m).
      - apply (tail_first_weaken (Z.of_nat (S n))); [exact Hc | lia]. }
    intros v c1 Hc1. cbv beta. destruct (aborts v).
    + apply wp_ret. apply (tail_first_weaken (Z.of_nat n)); [exact Hc1 | lia].
    + apply IH. exact Hc1.
Qed.

Lemma strict_visitArray_tail_first c :
  lhs r = Some l ->
  laxArrayOrdering opts = false -> heap c = h -> changes c = [] ->
  wp false
     (Compare_visitArray host opts Diff (S fuel) (compare host opts Diff fuel) r c)
     (fun _ c' => tail_first 0 (changes c')).
Proof.
  intros Hl Hlax Hh Hc. unfold Compare_visitArray, lhs_of. rewrite Hl. wp_steps.
  rewrite Hlax, Hh.
  apply strict_loop_tail_first. rewrite Hc. constructor.
Qed.
End StrictArrays.

Lemma bind_Ok {A B} (m : M A) (k : A -> M B) c a c' :
  m c = Ok (a, c') -> bind m k c = k a c'.
Proof. unfold bind. now intros ->. Qed.

Lemma ensureTypeOf_root v c :
  ensureTypeOf (rootNode v) c = Ok (set_typeOf (kind_of (heap c) v) (rootNode v), c).
Proof. reflexivity. Qed.

Lemma hasReference_createContext opts h node :
  hasReference (createContext opts h) node = false.
Proof.
  unfold hasReference, indexOfReference, createContext. cbn.
  destruct (guardCircularRefs opts); [|reflexivity].
  destruct (truthy (value node)); reflexivity.
Qed.

Lemma wp_guardReference total opts node c (Q : unit -> Context -> Prop) :
  (forall rs, Q tt (set_refs rs c)) -> Q tt c ->
  wp total (guardReference opts node c) Q.
Proof.
  intros H1 H2. unfold guardReference, addReference.
  destruct (guardCircularRefs opts); wp_steps; [|exact H2].
  destruct (refs c); [|exact H2]. destruct (truthy _); [apply H1 | exact H2].
Qed.

Lemma strict_array_run_tail_first host opts fuel h a b :
  laxArrayOrdering opts = false ->
  kind_of h (VRef a) = KArray -> kind_of h (VRef b) = KArray ->
  wp false (run host opts Diff fuel h (VRef a) (VRef b))
     (fun _ c => tail_first 0 (changes c)).
Proof.
  intros Hlax Ha Hb. destruct fuel as [|fuel]; [reflexivity|].
  unfold run. cbn [compare]. unfold Compare_compare.
  cbn [rootNode position value option_nat_eqb negb].
  destruct (Object_is (VRef a) (VRef b)).
  { unfold areEqual. wp_steps. cbn. constructor. }
  rewrite (bind_Ok _ _ _ _ _ (ensureTypeOf_root _ _)).
  rewrite (bind_Ok _ _ _ _ _ (ensureTypeOf_root _ _)).
  cbn [heap createContext]. rewrite Ha, Hb.
  cbn [typeOf set_typeOf option_kind_eqb kind_eqb].
  unfold Visitor_visit. wp_steps. rewrite hasReference_createContext.
  unfold ensureTypeOf. cbn [typeOf set_lhs set_typeOf]. wp_steps.
  cbn [typeOf set_lhs set_typeOf]. apply wp_bind.
  apply wp_guardReference; [intros rs|];
    (apply (strict_visitArray_tail_first host opts fuel h
              (set_typeOf KArray (rootNode (VRef a)))); auto).
Qed.


(** The arrays [[1, 2, 3]] and [[1, 3, 2]]. *)
Definition sample_heap : Heap :=
  list_to_map
    [(0%nat, OArray [Some (VNumber (Num.of_Z 1)); Some (VNumber (Num.of_Z 2));
                     Some (VNumber (Num.of_Z 3))]);
     (1%nat, OArray [Some (VNumber (Num.of_Z 1)); Some (VNumber (Num.of_Z 3));
                     Some (VNumber (Num.of_Z 2))])].


(** * Termination under [guardCircularRefs] *)

(** The addresses registered in [ctx.refs]. *)
Fixpoint ref_addrs (rs : list JsValue) : gset addr :=
  match rs with
  | [] => ∅
  | VRef a :: rs' => {[a]} ∪ ref_addrs rs'
  | _ :: rs' => ref_addrs rs'
  end.

(** [bounded h k c]: the run works on heap [h] with cycle tracking on, and
    at most [k] allocated objects are not registered yet. *)
Definition bounded (h : Heap) (k : nat) (c : Context) : Prop :=
  heap c = h /\ exists rs, refs c = Some rs /\ (size (dom h ∖ ref_addrs rs) <= k)%nat.

(** A node whose [typeOf], when set, is the kind of its value. *)
Definition well_kinded (h : Heap) (n : GraphNode) : Prop :=
  forall k, typeOf n = Some k -> k = kind_of h (value n).

Lemma ref_addrs_app rs a : ref_addrs (rs ++ [VRef a]) = ref_addrs rs ∪ {[a]}.
Proof.
  induction rs as [|v rs IH]; cbn.
  - set_solver.
  - destruct v; rewrite ?IH; set_solver.
Qed.

Lemma findIndex_from_range {A} (f : A -> bool) l i :
  0 <= i -> findIndex_from f l i = -1 \/ i <= findIndex_from f l i.
Proof.
  revert i. induction l as [|x l IH]; intros i Hi; cbn.
  - now left.
  - destruct (f x); [right; lia|]. destruct (IH (i + 1)) as [H|H]; [lia|now left|right; lia].
Qed.

Lemma findIndex_from_none {A} (f : A -> bool) l i :
  0 <= i -> findIndex_from f l i < 0 -> forall x, In x l -> f x = false.
Proof.
  revert i. induction l as [|x l IH]; intros i Hi H y Hy; cbn in *.
  - destruct Hy.
  - destruct (f x) eqn:E; [lia|]. destruct Hy as [<-|Hy]; [exact E|].
    apply (IH (i + 1)); auto; lia.
Qed.

Lemma not_referenced c node a rs :
  refs c = Some rs -> value node = VRef a -> hasReference c node = false ->
  a ∉ ref_addrs rs.
Proof.
  unfold hasReference, indexOfReference. intros -> ->. cbn.
  intros H. apply Z.leb_gt in H.
  assert (Hall := findIndex_from_none _ rs 0 ltac:(lia) H).
  clear H. induction rs as [|v rs IH]; cbn.
  - set_solver.
  - assert (a ∉ ref_addrs rs) by (apply IH; intros x Hx; apply Hall; now right).
    specialize (Hall v (or_introl eq_refl)).
    destruct v; auto. cbn in Hall. apply Nat.eqb_neq in Hall. set_solver.
Qed.

Lemma container_allocated h v :
  container (kind_of h v) = true -> exists a, v = VRef a /\ a ∈ dom h.
Proof.
  destruct v as [| |b|n|s|a]; cbn; try discriminate.
  unfold heap_get. intros H. exists a. split; [reflexivity|].
  apply elem_of_dom. destruct (h !! a); [eauto | discriminate].
Qed.

Lemma wp_total_returns {A} (r : res (A * Context)) Q : wp true r Q -> r <> OutOfFuel.
Proof. intros H ->. discriminate H. Qed.

Lemma register_bounded opts h k c node kd :
  guardCircularRefs opts = true ->
  bounded h k c -> well_kinded h node -> typeOf node = Some kd ->
  container kd = true -> hasReference c node = false ->
  wp true (guardReference opts node c)
     (fun _ c' => (1 <= k)%nat /\ bounded h (k - 1) c').
Proof.
  intros Hg (Hh & rs & Hrs & Hk) Hwk Ht Hc Href.
  rewrite (Hwk _ Ht) in Hc.
  destruct (container_allocated _ _ Hc) as (a & Ha & Hdom).
  assert (Hnot := not_referenced c node a rs Hrs Ha Href).
  unfold guardReference, addReference. rewrite Hg. wp_steps.
  rewrite Hrs, Ha. cbn [truthy].
  assert (Hsize : size (dom h ∖ ref_addrs rs)
                  = S (size (dom h ∖ ref_addrs (rs ++ [VRef a])))).
  { rewrite ref_addrs_app.
    assert (E : dom h ∖ ref_addrs rs
                = {[a]} ∪ dom h ∖ (ref_addrs rs ∪ {[a]})).
    { apply set_eq. intros x. destruct (decide (x = a)); set_solver. }
    rewrite E at 1. rewrite size_union by set_solver.
    now rewrite size_singleton. }
  split; [lia|]. split; [exact Hh|].
  exists (rs ++ [VRef a]). split; [reflexivity | lia].
Qed.

Lemma bounded_weaken h k k' c : bounded h k c -> (k <= k')%nat -> bounded h k' c.
Proof.
  intros (Hh & rs & Hrs & Hk) Hle. split; [exact Hh|]. exists rs. split; [exact Hrs | lia].
Qed.

(** The outcome hooks never run out of fuel and touch neither the heap nor
    [refs], unless [Diff] makes copies of what it carries. *)
Lemma bounded_invariant host opts alg h k (P : Prop) :
  (alg = Diff -> rhsCopyOpts opts = None) ->
  Invariant host opts alg true (well_kinded h) (fun c => P /\ bounded h k c).
Proof.
  intros Hplain. split.
  - intros c n (_ & Hh & _) _ kd. cbn. rewrite Hh. now intros [= <-].
  - intros ps n Hn kd. exact (Hn kd).
  - intros l n Hn kd. exact (Hn kd).
  - intros v pos p n _ kd. discriminate.
  - intros c H. exact H.
  - intros c0 c1 _ H. exact H.
  - intros l r cmp c H. unfold areEqual. wp_steps.
    destruct (searching c), (is_undefined _); exact H.
  - intros fuel l r cmp c _ _ H. unfold notEqual, createEdit, record.
    destruct alg; wp_steps; destruct (searching c); wp_steps; try exact H.
    apply wp_makePath. intros path _.
    apply wp_bind, wp_carried_plain; [now apply Hplain|]. wp_steps. exact H.
  - intros fuel r c _ H. unfold noLhs, createAdd, record.
    destruct alg; wp_steps; destruct (searching c); wp_steps; try exact H.
    destruct r as [r|]; wp_steps.
    apply wp_makePath. intros path _.
    destruct (rev _); wp_steps.
    apply wp_carried_plain; [now apply Hplain|]. wp_steps. exact H.
  - intros l c _ H. unfold noRhs, createRemove, record.
    destruct alg; wp_steps; destruct (searching c); wp_steps; try exact H.
    destruct l as [l|]; wp_steps.
    apply wp_makePath. intros path _. wp_steps. exact H.
Qed.

Lemma compare_bounded host opts alg h :
  guardCircularRefs opts = true ->
  (alg = Diff -> rhsCopyOpts opts = None) ->
  forall fuel k, (k < fuel)%nat ->
  forall l r c,
    No (well_kinded h) l -> No (well_kinded h) r -> bounded h k c ->
    wp true (compare host opts alg fuel l r c) (fun _ c' => bounded h k c').
Proof.
  intros Hg Hplain. induction fuel as [|fuel IH]; intros k Hk l r c Hl Hr Hc; [lia|].
  cbn [compare].
  eapply wp_mono.
  { apply (Compare_compare_inv host opts alg true (well_kinded h)
             (fun c => True /\ bounded h k c)
             (fun c => (1 <= k)%nat /\ bounded h (k - 1) c)).
    - now apply bounded_invariant.
    - now apply bounded_invariant.
    - intros c0 [H1 H2]. split; [exact Logic.I|]. apply (bounded_weaken h (k - 1)); [exact H2 | lia].
    - intros node c0 kd [_ Hc0] Hn Ht Hkd Href.
      now apply (register_bounded opts h k c0 node kd).
    - intros l0 r0 c0 Hl0 Hr0 [Hk1 Hc0]. eapply wp_mono.
      + apply (IH (k - 1)%nat); auto. lia.
      + intros v c1 Hc1. now split.
    - exact Hl.
    - exact Hr.
    - now split. }
  intros v c1 [_ Hc1]. exact Hc1.
Qed.

(** The base visitors, as [Traverse] runs them, preserve every invariant
    that the recursive [visit] preserves. *)
Section TraverseInvariant.
Variable opts : Options.
Variable total : bool.
Variable J : Context -> Prop.
Variable N : GraphNode -> Prop.
Variable visit : GraphNode -> M VisitResult.
Hypothesis N_child : forall v pos p n, N (childNode v pos p n).
Hypothesis H_visit : forall n c, N n -> J c -> wp total (visit n c) (fun _ c' => J c').
Hypothesis no_children :
  forall cb n ns, callback opts = Some cb -> cb n <> CbChildren ns.

Lemma Traverse_visitNode_inv node childVisitorFn c :
  (forall f c0, childVisitorFn = Some f -> J c0 -> wp total (f node c0) (fun _ c' => J c')) ->
  J c ->
  wp total (Traverse_visitNode opts visit node childVisitorFn c) (fun _ c' => J c').
Proof.
  intros Hf Hc. unfold Traverse_visitNode, Visitor_visitNode.
  assert (Hchildren : wp total (match childVisitorFn with
                                | Some f => f node
                                | None => ret (RBool true)
                                end c) (fun _ c' => J c')).
  { destruct childVisitorFn as [f|]; [now apply Hf | now wp_steps]. }
  destruct (callback opts) as [cb|] eqn:Ecb; [|exact Hchildren].
  destruct (cb node) as [[|]|ns|[before after]|n|v|e] eqn:E.
  - exact Hchildren.
  - now wp_steps.
  - now elim (no_children cb node ns eq_refl).
  - destruct childVisitorFn as [f|]; [|now wp_steps].
    cbn [before_children after_children]. destruct before; [exact Logic.I|].
    specialize (Hf f c eq_refl Hc). unfold finally_call, wp in *.
    destruct (f node c) as [[r c']| |]; destruct after; auto.
  - now wp_steps.
  - destruct v as [| |[|]| | |]; try exact Hchildren; now wp_steps.
  - exact Logic.I.
Qed.

Lemma Traverse_visitOther_inv node c :
  J c ->
  wp total (Visitor_visitOther (Traverse_visitNode opts visit) node c) (fun _ c' => J c').
Proof.
  intros Hc. apply Traverse_visitNode_inv; [|exact Hc]. intros f c0 [=].
Qed.

Lemma Traverse_visitArray_inv node c :
  J c ->
  wp total (Visitor_visitArray (Traverse_visitNode opts visit) visit
              createArrayElementNode node c) (fun _ c' => J c').
Proof.
  intros Hc. apply Traverse_visitNode_inv; [|exact Hc].
  intros f c0 [= <-] Hc0. wp_steps.
  apply (wp_for_each total J); [| |exact Hc0].
  - intros i c1 _ Hc1. wp_steps. apply H_visit; [apply N_child | exact Hc1].
  - intros c1 Hc1. now wp_steps.
Qed.

Lemma Traverse_visitSet_inv node c :
  J c ->
  wp total (Visitor_visitSet (Traverse_visitNode opts visit) visit
              createSetElementNode node c) (fun _ c' => J c').
Proof.
  intros Hc. apply Traverse_visitNode_inv; [|exact Hc].
  intros f c0 [= <-] Hc0. wp_steps.
  apply (wp_for_each total J); [| |exact Hc0].
  - intros i c1 _ Hc1. apply H_visit; [apply N_child | exact Hc1].
  - intros c1 Hc1. now wp_steps.
Qed.

Lemma Traverse_visitMap_inv node c :
  J c ->
  wp total (Visitor_visitMap (Traverse_visitNode opts visit) visit
              createMapElementNode node c) (fun _ c' => J c').
Proof.
  intros Hc. apply Traverse_visitNode_inv; [|exact Hc].
  intros f c0 [= <-] Hc0. wp_steps.
  apply (wp_for_each total J); [| |exact Hc0].
  - intros i c1 _ Hc1. apply H_visit; [apply N_child | exact Hc1].
  - intros c1 Hc1. now wp_steps.
Qed.

Lemma Traverse_visitObject_inv node c :
  J c ->
  wp total (Visitor_visitObject opts (Traverse_visitNode opts visit) visit
              createObjectPropertyNode node c) (fun _ c' => J c').
Proof.
  intros Hc. apply Traverse_visitNode_inv; [|exact Hc].
  intros f c0 [= <-] Hc0. apply wp_bind.
  apply wp_mono with (Q := fun _ c' => J c').
  { unfold ensureProperties, updateObjectNodeProperties.
    destruct (properties node); wp_steps; [exact Hc0|].
    destruct (propFilter opts); now wp_steps. }
  intros node' c1 Hc1. apply (wp_for_each total J); [| |exact Hc1].
  - intros i c2 _ Hc2. wp_steps. apply H_visit; [apply N_child | exact Hc2].
  - intros c2 Hc2. now wp_steps.
Qed.
End TraverseInvariant.

Lemma Traverse_visit_bounded opts h :
  guardCircularRefs opts = true ->
  (forall cb n ns, callback opts = Some cb -> cb n <> CbChildren ns) ->
  forall fuel k, (k < fuel)%nat ->
  forall node c,
    well_kinded h node -> bounded h k c ->
    wp true (Traverse_visit opts fuel node c) (fun _ c' => bounded h k c').
Proof.
  intros Hg Hcb. induction fuel as [|fuel IH]; intros k Hk node c Hn Hc; [lia|].
  cbn [Traverse_visit]. unfold Visitor_visit. wp_steps.
  destruct (hasReference c node) eqn:Href; [now wp_steps|].
  assert (Hty : wp true (ensureTypeOf node c)
                  (fun n' c' => c' = c /\ well_kinded h n' /\ value n' = value n'
                                /\ hasReference c n' = false
                                /\ exists kd, typeOf n' = Some kd)).
  { unfold ensureTypeOf, updateNodeTypeOf. destruct (typeOf node) as [kd|] eqn:E; wp_steps.
    - repeat split; eauto.
    - destruct Hc as (Hh & _). repeat split; eauto.
      intros kd. cbn. rewrite Hh. now intros [= <-]. }
  apply wp_bind. eapply wp_mono; [exact Hty|]. clear Hty.
  intros n' c' (-> & Hn' & _ & Href' & kd & Hkd). cbv beta. rewrite Hkd.
  set (J := fun c0 => (1 <= k)%nat /\ bounded h (k - 1) c0).
  assert (Hvisit : forall n c0, well_kinded h n -> J c0 ->
            wp true (Traverse_visit opts fuel n c0) (fun _ c1 => J c1)).
  { intros n c0 Hwn [Hk1 Hc0]. eapply wp_mono; [apply (IH (k - 1)%nat); auto; lia|].
    intros v c1 Hc1. now split. }
  assert (Hchild : forall v pos p n, well_kinded h (childNode v pos p n)).
  { intros v pos p n kd'. discriminate. }
  assert (Hreg : container kd = true ->
                 wp true (guardReference opts n' c) (fun _ c0 => J c0)).
  { intros Hcont. now apply (register_bounded opts h k c n' kd). }
  assert (Hweak : forall (v : VisitResult) c0, J c0 -> bounded h k c0).
  { intros v c0 [Hk1 Hc0]. apply (bounded_weaken h (k - 1)); [exact Hc0 | lia]. }
  destruct kd;
    try (now apply (Traverse_visitOther_inv opts true (bounded h k)
                      (Traverse_visit opts fuel) Hcb));
    (apply wp_bind; eapply wp_mono; [now apply Hreg|];
     intros [] c0 Hc0; cbv beta; eapply wp_mono; [|exact Hweak]).
  - now apply (Traverse_visitArray_inv opts true J (well_kinded h)).
  - now apply (Traverse_visitObject_inv opts true J (well_kinded h)).
  - now apply (Traverse_visitMap_inv opts true J (well_kinded h)).
  - now apply (Traverse_visitSet_inv opts true J (well_kinded h)).
Qed.

Lemma createContext_bounded opts h :
  guardCircularRefs opts = true -> bounded h (size (dom h)) (createContext opts h).
Proof.
  intros Hg. split; [reflexivity|]. exists []. unfold createContext. cbn. rewrite Hg.
  split; [reflexivity|]. apply subseteq_size. set_solver.
Qed.

Lemma rootNode_well_kinded h v : well_kinded h (rootNode v).
Proof. intros k. discriminate. Qed.

Lemma run_returns host opts alg h fuel lhs rhs :
  guardCircularRefs opts = true -> (alg = Diff -> rhsCopyOpts opts = None) ->
  (size (dom h) < fuel)%nat ->
  run host opts alg fuel h lhs rhs <> OutOfFuel.
Proof.
  intros Hg Hplain Hf. unfold run.
  apply (wp_total_returns _ (fun _ c' => bounded h (size (dom h)) c')).
  apply compare_bounded; auto.
  - intros n [= <-]. apply rootNode_well_kinded.
  - intros n [= <-]. apply rootNode_well_kinded.
  - now apply createContext_bounded.
Qed.


(** Two arrays that each contain themselves. *)
Definition two_cycles_heap : Heap :=
  list_to_map [(0%nat, OArray [Some (VRef 0%nat)]); (1%nat, OArray [Some (VRef 1%nat)])].


(** * Lax array ordering on arrays of primitives *)

(** The outcome of comparing two primitive leaves: [Compare.compare]
    followed, for equal kinds, by [Compare.visitOther]. *)
Definition leaf_outcome (host : Host) (opts : Options) (x y : JsValue) : cmpval :=
  if Object_is x y then IS_SAME
  else match x, y with
       | VString s, VString t => CNum (localeCompare host s t)
       | VNumber a, VNumber b => compareNumbers opts a b
       | _, _ => NOT_EQUAL
       end.

(** When a search for [x] accepts the candidate [y]. *)
Definition prim_equal (host : Host) (x y : JsValue) : bool :=
  Object_is x y
  || match x, y with
     | VString s, VString t => localeCompare host s t =? 0
     | _, _ => false
     end.

Lemma prim_equal_outcome host opts x y :
  negb (is_undefined (leaf_outcome host opts x y)) && IS_EQUAL (leaf_outcome host opts x y)
  = prim_equal host x y.
Proof.
  unfold leaf_outcome, prim_equal. destruct (Object_is x y); [reflexivity|].
  destruct x, y; try reflexivity. cbn [orb].
  rewrite compareNumbers_not_equal. apply andb_false_r.
Qed.

(** An element node of a primitive value [x], as [visitArray] builds it in
    lax mode. *)
Definition leaf (n : GraphNode) (x : JsValue) : Prop :=
  value n = x /\ typeOf n = Some (kind_of ∅ x) /\ position n = None
  /\ is_primitive x = true.

Definition refs_prim_free (c : Context) : Prop :=
  forall rs, refs c = Some rs -> Forall (fun e => is_primitive e = false) rs.

Lemma findIndex_from_all_false {A} (f : A -> bool) l i :
  (forall x, In x l -> f x = false) -> findIndex_from f l i = -1.
Proof.
  revert i. induction l as [|x l IH]; intros i H; cbn; [reflexivity|].
  rewrite (H x (or_introl eq_refl)). apply IH. intros y Hy. apply H. now right.
Qed.

Lemma hasReference_primitive c node :
  refs_prim_free c -> is_primitive (value node) = true -> hasReference c node = false.
Proof.
  intros Hc Hp. unfold hasReference, indexOfReference.
  destruct (refs c) as [rs|] eqn:E; [|reflexivity].
  destruct (truthy _); [|reflexivity].
  unfold findIndex. rewrite findIndex_from_all_false; [reflexivity|].
  intros e He. specialize (Hc rs E). rewrite List.Forall_forall in Hc.
  specialize (Hc e He). destruct e; try discriminate.
  destruct (value node); try discriminate; reflexivity.
Qed.

Lemma bind_ret_l {A B} (a : A) (k : A -> M B) c : bind (ret a) k c = k a c.
Proof. reflexivity. Qed.
Lemma bind_get_l {B} (k : Context -> M B) c : bind get k c = k c c.
Proof. reflexivity. Qed.
Lemma bind_gets_l {A B} (f : Context -> A) (k : A -> M B) c : bind (gets f) k c = k (f c) c.
Proof. reflexivity. Qed.
Lemma bind_modify_l {B} f (k : unit -> M B) c : bind (modify f) k c = k tt (f c).
Proof. reflexivity. Qed.

Lemma bind_assoc {A B C} (m : M A) (f : A -> M B) (g : B -> M C) c :
  bind (bind m f) g c = bind m (fun x => bind (f x) g) c.
Proof. unfold bind. destruct (m c) as [[a c']| |]; reflexivity. Qed.

Ltac run_steps :=
  repeat first [rewrite bind_ret_l | rewrite bind_get_l
               | rewrite bind_gets_l | rewrite bind_modify_l].

Lemma hook_searching (m : M unit) (cmp : cmpval) c :
  searching c = true ->
  (c0 <- get ;; (if searching c0 then modify (set_searchResult cmp) else m) ;;;
   ret (RBool true)) c
  = Ok (RBool true, set_searchResult cmp c).
Proof. intros H. run_steps. rewrite H. now run_steps. Qed.

Lemma compare_leaf host opts fuel e p x y c :
  looseEquality opts = false ->
  leaf e x -> leaf p y -> refs_prim_free c ->
  IS_EQUAL (leaf_outcome host opts x y) = true \/ searching c = true ->
  compare host opts Diff (S fuel) (Some e) (Some p) c
  = if IS_EQUAL (leaf_outcome host opts x y)
    then areEqual None None (leaf_outcome host opts x y) c
    else Ok (RBool true, set_searchResult (leaf_outcome host opts x y) c).
Proof.
  intros Hloose (Hev & Het & Hepos & Hxp) (Hpv & Hpt & Hppos & Hyp) Hrefs Hmode.
  destruct e as [ev et epr eprs epos epar el em ea],
           p as [pv pt ppr pprs ppos ppar pl pm pa].
  cbn in Hev, Het, Hepos, Hpv, Hpt, Hppos. subst.
  cbn [compare]. unfold Compare_compare. cbn [position value option_nat_eqb negb].
  unfold leaf_outcome in *.
  destruct (Object_is x y) eqn:Eo; [reflexivity|].
  unfold ensureTypeOf. cbn [typeOf]. run_steps. cbn [typeOf value].
  assert (Href : forall n, value n = y -> hasReference c n = false).
  { intros n Hn. apply hasReference_primitive; [exact Hrefs | now rewrite Hn]. }
  assert (Hsearch : forall b : bool, b = true \/ searching c = true ->
                      b = false -> searching c = true).
  { intros b [->|H] Hb; [discriminate | exact H]. }
  destruct x as [| |xb|xn|xs|xa], y as [| |yb|yn|ys|ya]; try discriminate;
    cbn [kind_of option_kind_eqb kind_eqb is_kind];
    run_steps; rewrite ?Hloose; cbn [andb];
    try (unfold noLhs, noRhs, notEqual;
         apply hook_searching; now apply (Hsearch _ Hmode)).
  - (* booleans *)
    unfold Visitor_visit. run_steps.
    rewrite Href by reflexivity. unfold ensureTypeOf. cbn [typeOf set_lhs]. run_steps.
    cbn [typeOf]. unfold Compare_visitOther. cbn [lhs set_lhs typeOf value]. run_steps.
    rewrite Eo, Hloose. cbn [andb strict_equals]. rewrite Eo.
    unfold notEqual. apply hook_searching. now apply (Hsearch _ Hmode).
  - (* numbers *)
    unfold Visitor_visit. run_steps.
    rewrite Href by reflexivity. unfold ensureTypeOf. cbn [typeOf set_lhs]. run_steps.
    cbn [typeOf]. unfold Compare_visitOther. cbn [lhs set_lhs typeOf value]. run_steps.
    rewrite compareNumbers_not_equal in *.
    unfold notEqual. apply hook_searching. now apply (Hsearch _ Hmode).
  - (* strings *)
    unfold Visitor_visit. run_steps.
    rewrite Href by reflexivity. unfold ensureTypeOf. cbn [typeOf set_lhs]. run_steps.
    cbn [typeOf]. unfold Compare_visitOther. cbn [lhs set_lhs typeOf value]. run_steps.
    destruct (IS_EQUAL (CNum (localeCompare host xs ys))) eqn:Eq; [reflexivity|].
    unfold notEqual. apply hook_searching. now apply (Hsearch _ Hmode).
Qed.

Lemma searchCompare_leaf host opts fuel e p x y c :
  looseEquality opts = false ->
  leaf e x -> leaf p y -> refs_prim_free c ->
  searchCompare (compare host opts Diff (S fuel)) e p c = Ok (prim_equal host x y, c).
Proof.
  intros Hloose He Hp Hrefs. unfold searchCompare. run_steps.
  set (c1 := set_searching true (set_searchResult CUndefined c)).
  assert (E := compare_leaf host opts fuel e p x y c1 Hloose He Hp Hrefs (or_intror eq_refl)).
  rewrite <- (prim_equal_outcome host opts x y).
  destruct (IS_EQUAL (leaf_outcome host opts x y)) eqn:Eq.
  - rewrite (bind_Ok _ _ _ _ _ E). run_steps. destruct c. subst c1. cbn.
    now rewrite Eq.
  - rewrite (bind_Ok _ _ _ _ _ E). run_steps. destruct c. subst c1. cbn.
    now rewrite Eq.
Qed.

Lemma findM_leaf host opts fuel e x (l : list GraphNode) c :
  looseEquality opts = false ->
  leaf e x -> (forall p, In p l -> leaf p (value p)) -> refs_prim_free c ->
  findM (searchCompare (compare host opts Diff (S fuel)) e) l c
  = Ok (List.find (fun p => prim_equal host x (value p)) l, c).
Proof.
  intros Hloose He Hl Hrefs. induction l as [|p l IH]; cbn [findM List.find].
  - reflexivity.
  - rewrite (bind_Ok _ _ _ _ _
               (searchCompare_leaf host opts fuel e p x (value p) c Hloose He
                  (Hl p (or_introl eq_refl)) Hrefs)).
    destruct (prim_equal host x (value p)); [reflexivity|].
    apply IH. intros q Hq. apply Hl. now right.
Qed.

Lemma present_map_Some {A} (l : list A) : present (map Some l) = l.
Proof. induction l as [|x l IH]; cbn; [reflexivity | now rewrite IH]. Qed.

(** [findIndexOf] on leaves, as a pure function of the consumed indices. *)
Definition leaf_findIndexOf (host : Host) (e : GraphNode) (ps : list GraphNode)
    (matches : list Z) : Z * list Z :=
  match List.find (fun p => prim_equal host (value e) (value p))
          (List.filter (fun q => option_kind_eqb (typeOf q) (typeOf e)
                                 && unmatched matches (index_of_node q)) ps) with
  | Some p => (index_of_node p, matches ++ [index_of_node p])
  | None => (-1, matches)
  end.

Lemma findIndexOf_leaf host opts fuel e ps matches c :
  looseEquality opts = false ->
  leaf e (value e) -> (forall p, In p ps -> leaf p (value p)) -> refs_prim_free c ->
  findIndexOf (compare host opts Diff (S fuel)) (Some e) (map Some ps) matches c
  = Ok (leaf_findIndexOf host e ps matches, c).
Proof.
  intros Hloose He Hps Hrefs. unfold findIndexOf, leaf_findIndexOf.
  rewrite present_map_Some. destruct ps as [|p0 ps0]; [reflexivity|].
  set (sameType := List.filter _ (p0 :: ps0)).
  assert (Hs : forall q, In q sameType -> leaf q (value q)).
  { intros q Hq. apply filter_In in Hq as [Hq _]. now apply Hps. }
  destruct sameType as [|q qs] eqn:Es; [reflexivity|].
  rewrite (bind_Ok _ _ _ _ _
             (findM_leaf host opts fuel e (value e) (q :: qs) c Hloose He Hs Hrefs)).
  destruct (List.find _ _); reflexivity.
Qed.

Definition leaf_matchStep (host : Host) (ps : list GraphNode)
    (st : list ArrayMatch * list ArrayMatch * list Z) (ie : nat * option GraphNode)
    : list ArrayMatch * list ArrayMatch * list Z :=
  let '(sharedIdx, removedIdx, consumedRhsIdx) := st in
  match snd ie with
  | Some e =>
      let r := leaf_findIndexOf host e ps consumedRhsIdx in
      if fst r <? 0
      then (sharedIdx, removedIdx ++ [mkMatch (Z.of_nat (fst ie)) (-1)], snd r)
      else (sharedIdx ++ [mkMatch (Z.of_nat (fst ie)) (fst r)], removedIdx, snd r)
  | None => st
  end.

Definition is_leaf (o : option GraphNode) : Prop :=
  exists e, o = Some e /\ leaf e (value e).

Lemma matchElements_leaf host opts fuel ps (l : list (option GraphNode)) c :
  looseEquality opts = false ->
  Forall is_leaf l ->
  (forall p, In p ps -> leaf p (value p)) -> refs_prim_free c ->
  matchElements (compare host opts Diff (S fuel)) l (map Some ps) c
  = Ok (fold_left (leaf_matchStep host ps) (indexed l) ([], [], []), c).
Proof.
  intros Hloose Hl Hps Hrefs. unfold matchElements.
  assert (Hin : forall ie, In ie (indexed l) -> is_leaf (snd ie)).
  { intros [i e] H. apply in_combine_r in H. rewrite List.Forall_forall in Hl. now apply Hl. }
  generalize (@nil ArrayMatch, @nil ArrayMatch, @nil Z).
  induction (indexed l) as [|ie l' IH]; intros st; cbn [foldM fold_left].
  - reflexivity.
  - destruct st as [[sharedIdx removedIdx] consumed]. cbv beta iota.
    destruct (Hin ie (or_introl eq_refl)) as (e & Ee & He).
    rewrite bind_assoc. rewrite Ee.
    rewrite (bind_Ok _ _ _ _ _
               (findIndexOf_leaf host opts fuel e ps consumed c Hloose He Hps Hrefs)).
    assert (Hrest : forall ie', In ie' l' -> is_leaf (snd ie')).
    { intros ie' H. apply Hin. now right. }
    unfold leaf_matchStep at 2. rewrite Ee.
    destruct (fst (leaf_findIndexOf host e ps consumed) <? 0);
      rewrite bind_ret_l; now apply IH.
Qed.

(** ** First-fit matching on a permutation *)

Fixpoint count_if {A} (f : A -> bool) (l : list A) : nat :=
  match l with
  | [] => 0
  | x :: l' => (if f x then 1 else 0) + count_if f l'
  end.

Lemma count_if_perm {A} (f : A -> bool) l l' :
  Permutation l l' -> count_if f l = count_if f l'.
Proof.
  induction 1 as [|x l l' _ IH|x y l|l l' l'' _ IH1 _ IH2]; cbn; try lia.
Qed.

Lemma count_if_ext {A} (f g : A -> bool) l :
  (forall x, In x l -> f x = g x) -> count_if f l = count_if g l.
Proof.
  induction l as [|x l IH]; intros H; cbn; [reflexivity|].
  rewrite (H x (or_introl eq_refl)), IH; [reflexivity|].
  intros y Hy. apply H. now right.
Qed.

Lemma count_if_pos_find {A} (f : A -> bool) l :
  (0 < count_if f l)%nat -> exists x, List.find f l = Some x.
Proof.
  induction l as [|x l IH]; cbn; [lia|].
  destruct (f x); [eauto|]. cbn. exact IH.
Qed.

Lemma find_filter {A} (f g : A -> bool) l :
  List.find f (List.filter g l) = List.find (fun x => g x && f x) l.
Proof.
  induction l as [|x l IH]; cbn; [reflexivity|].
  destruct (g x); cbn; [|exact IH]. now destruct (f x).
Qed.

Lemma find_map {A B} (f : B -> bool) (n : A -> B) l :
  List.find f (map n l) = option_map n (List.find (fun x => f (n x)) l).
Proof.
  induction l as [|x l IH]; cbn; [reflexivity|]. now destruct (f (n x)).
Qed.

Lemma find_ext_in {A} (f g : A -> bool) l :
  (forall x, In x l -> f x = g x) -> List.find f l = List.find g l.
Proof.
  induction l as [|x l IH]; intros H; cbn; [reflexivity|].
  rewrite (H x (or_introl eq_refl)), IH; [reflexivity|].
  intros y Hy. apply H. now right.
Qed.

Lemma unmatched_app m j i :
  unmatched (m ++ [j]) i = unmatched m i && negb (i =? j).
Proof.
  unfold unmatched. rewrite existsb_app. cbn. rewrite orb_false_r.
  now rewrite negb_orb.
Qed.

Lemma sf_same_eq x y : sf_same x y = true -> x = y.
Proof.
  destruct x as [s|s| |s m e], y as [s'|s'| |s' m' e']; cbn; try discriminate; intros H.
  - now apply Bool.eqb_prop in H as ->.
  - now apply Bool.eqb_prop in H as ->.
  - reflexivity.
  - apply andb_true_iff in H as [H H3]. apply andb_true_iff in H as [H1 H2].
    apply Bool.eqb_prop in H1 as ->. apply Pos.eqb_eq in H2 as ->.
    now apply Z.eqb_eq in H3 as ->.
Qed.

Lemma Object_is_eq x y : Object_is x y = true -> x = y.
Proof.
  destruct x, y; cbn; try discriminate; intros H; try reflexivity.
  - now apply Bool.eqb_prop in H as ->.
  - now apply sf_same_eq in H as ->.
  - now apply String.eqb_eq in H as ->.
  - now apply Nat.eqb_eq in H as ->.
Qed.

(** An element node of a dense array of primitives in lax mode. *)
Definition elemNode (a : GraphNode) (j : nat) (v : JsValue) : GraphNode :=
  set_typeOf (kind_of ∅ v) (createArrayElementNode v j a None).

Definition leafNodes (a : GraphNode) (vs : list JsValue) : list GraphNode :=
  map (fun jv => elemNode a (fst jv) (snd jv)) (indexed vs).

Lemma kind_of_primitive h v : is_primitive v = true -> kind_of h v = kind_of ∅ v.
Proof. destruct v; try reflexivity. discriminate. Qed.

Lemma elementNodes_dense opts h a vs :
  laxArrayOrdering opts = true ->
  array_elems h (value a) = map Some vs ->
  Forall (fun v => is_primitive v = true) vs ->
  elementNodes opts h a = map Some (leafNodes a vs).
Proof.
  intros Hlax Hvs Hprim. unfold elementNodes, leafNodes. rewrite Hvs, Hlax.
  unfold indexed. rewrite length_map. clear Hvs.
  assert (H : forall s, map
    (fun ie : nat * option JsValue =>
       match snd ie with
       | Some v =>
           Some match typeOf (createArrayElementNode v (fst ie) a None) with
                | Some _ => createArrayElementNode v (fst ie) a None
                | None => set_typeOf (kind_of h (value (createArrayElementNode v (fst ie) a None)))
                            (createArrayElementNode v (fst ie) a None)
                end
       | None => None
       end) (combine (seq s (length vs)) (map Some vs))
    = map Some (map (fun jv => elemNode a (fst jv) (snd jv)) (combine (seq s (length vs)) vs))).
  { induction Hprim as [|v vs Hv Hprim IH]; intros s; cbn; [reflexivity|].
    rewrite IH. unfold elemNode. cbn.
    now rewrite (kind_of_primitive h v Hv). }
  apply H.
Qed.

Lemma leafNodes_leaf a vs p :
  Forall (fun v => is_primitive v = true) vs -> In p (leafNodes a vs) -> leaf p (value p).
Proof.
  intros Hprim Hp. unfold leafNodes in Hp. apply in_map_iff in Hp as ([j v] & <- & Hin).
  apply in_combine_r in Hin. rewrite List.Forall_forall in Hprim.
  cbn. repeat split. now apply Hprim.
Qed.

Lemma node_at_leafNodes a vs j v :
  nth_error vs j = Some v ->
  node_at (map Some (leafNodes a vs)) (Z.of_nat j) = Some (elemNode a j v).
Proof.
  intros H. unfold node_at, leafNodes.
  destruct (Z.of_nat j <? 0) eqn:E; [apply Z.ltb_lt in E; lia|]. rewrite Nat2Z.id.
  rewrite !nth_error_map, nth_error_indexed, H. reflexivity.
Qed.

Lemma In_indexed {A} (l : list A) j x : In (j, x) (indexed l) -> nth_error l j = Some x.
Proof.
  intros H. apply In_nth_error in H as (k & Hk).
  rewrite nth_error_indexed in Hk. destruct (nth_error l k) eqn:E; [|discriminate].
  cbn in Hk. now injection Hk as <- <-.
Qed.

Section FirstFit.
Variable host : Host.
Hypothesis lc_sym : forall s t,
  localeCompare host s t = 0 -> localeCompare host t s = 0.
Hypothesis lc_trans : forall s t u,
  localeCompare host s t = 0 -> localeCompare host t u = 0 -> localeCompare host s u = 0.

Local Abbreviation E := (prim_equal host).

Lemma prim_equal_refl x : E x x = true.
Proof. unfold prim_equal. now rewrite Object_is_refl. Qed.

Lemma prim_equal_cases x y :
  E x y = true ->
  x = y \/ exists s t, x = VString s /\ y = VString t /\ localeCompare host s t = 0.
Proof.
  unfold prim_equal. intros H. apply orb_true_iff in H as [H|H].
  - left. now apply Object_is_eq.
  - right. destruct x, y; try discriminate. apply Z.eqb_eq in H. eauto.
Qed.

Lemma prim_equal_strings s t :
  localeCompare host s t = 0 -> E (VString s) (VString t) = true.
Proof. intros H. unfold prim_equal. rewrite H. apply orb_true_r. Qed.

Lemma prim_equal_sym x y : E x y = true -> E y x = true.
Proof.
  intros H. destruct (prim_equal_cases x y H) as [->|(s & t & -> & -> & Hl)].
  - apply prim_equal_refl.
  - apply prim_equal_strings. now apply lc_sym.
Qed.

Lemma prim_equal_trans x y z : E x y = true -> E y z = true -> E x z = true.
Proof.
  intros H1 H2.
  destruct (prim_equal_cases x y H1) as [->|(s & t & -> & -> & Hl)]; [exact H2|].
  destruct (prim_equal_cases _ z H2) as [<-|(s' & u & [= <-] & -> & Hl')]; [exact H1|].
  apply prim_equal_strings. now apply (lc_trans s t u).
Qed.

Lemma prim_equal_cong v x y : E x y = true -> E v x = E v y.
Proof.
  intros H. destruct (E v x) eqn:E1, (E v y) eqn:E2; try reflexivity.
  - now rewrite (prim_equal_trans v x y E1 H) in E2.
  - now rewrite (prim_equal_trans v y x E2 (prim_equal_sym x y H)) in E1.
Qed.

Lemma prim_equal_kind x y : E x y = true -> kind_of ∅ x = kind_of ∅ y.
Proof.
  intros H. destruct (prim_equal_cases x y H) as [->|(s & t & -> & -> & _)]; reflexivity.
Qed.

(** The unconsumed right-hand slots that a search for [v] would accept. *)
Definition accepts (v : JsValue) (m : list Z) (jy : nat * JsValue) : bool :=
  unmatched m (Z.of_nat (fst jy)) && E v (snd jy).

(** The slot that a search for [x] takes: the first accepted one. *)
Definition candidate (x : JsValue) (ys : list JsValue) (m : list Z) : option (nat * JsValue) :=
  List.find (accepts x m) (indexed ys).

Lemma leaf_findIndexOf_candidate a e ys m :
  leaf e (value e) ->
  leaf_findIndexOf host e (leafNodes a ys) m
  = match candidate (value e) ys m with
    | Some jy => (Z.of_nat (fst jy), m ++ [Z.of_nat (fst jy)])
    | None => (-1, m)
    end.
Proof.
  intros (_ & Het & _). unfold leaf_findIndexOf, candidate, leafNodes.
  rewrite find_filter, find_map.
  rewrite (find_ext_in _ (accepts (value e) m)).
  - destruct (List.find _ _) as [[j y]|]; reflexivity.
  - intros [j y] _. unfold accepts, elemNode. cbn. rewrite Het. cbn.
    destruct (E (value e) y) eqn:Exy; [|now rewrite !andb_false_r].
    rewrite (prim_equal_kind _ _ Exy).
    assert (Hk : kind_eqb (kind_of ∅ y) (kind_of ∅ y) = true) by now apply kind_eqb_eq.
    rewrite Hk. reflexivity.
Qed.

(** Consuming slot [j] removes exactly that slot from what is accepted. *)
Lemma count_accepts_consume v m j y (l : list (nat * JsValue)) :
  List.NoDup (map fst l) -> In (j, y) l -> unmatched m (Z.of_nat j) = true ->
  (count_if (accepts v (m ++ [Z.of_nat j])) l + (if E v y then 1 else 0)
   = count_if (accepts v m) l)%nat.
Proof.
  induction l as [|[i y'] l IH]; intros Hnd Hin Hm; [destruct Hin|].
  cbn [map fst] in Hnd. apply List.NoDup_cons_iff in Hnd as [Hni Hnd].
  cbn [count_if]. unfold accepts at 1 3. cbn [fst snd]. rewrite unmatched_app.
  destruct Hin as [[= -> ->]|Hin].
  - rewrite Z.eqb_refl, Hm. cbn [negb andb].
    rewrite (count_if_ext (accepts v (m ++ [Z.of_nat j])) (accepts v m)); [lia|].
    intros [i z] Hiz. unfold accepts. cbn. rewrite unmatched_app.
    assert (i <> j).
    { intros ->. apply Hni. apply in_map_iff. now exists (j, z). }
    assert (Hne : (Z.of_nat i =? Z.of_nat j) = false) by (apply Z.eqb_neq; lia).
    rewrite Hne. now rewrite andb_true_r.
  - assert (i <> j).
    { intros ->. apply Hni. apply in_map_iff. now exists (j, y). }
    assert (Hne : (Z.of_nat i =? Z.of_nat j) = false) by (apply Z.eqb_neq; lia).
    rewrite Hne, andb_true_r. specialize (IH Hnd Hin Hm). lia.
Qed.

Lemma map_fst_combine_seq {A} (l : list A) s :
  map fst (combine (seq s (length l)) l) = seq s (length l).
Proof.
  revert s. induction l as [|x l IH]; intros s; cbn; [reflexivity | now rewrite IH].
Qed.

Lemma NoDup_indexed {A} (l : list A) : List.NoDup (map fst (indexed l)).
Proof. unfold indexed. rewrite map_fst_combine_seq. apply List.seq_NoDup. Qed.
End FirstFit.

Section FirstFitFold.
Variable host : Host.
Hypothesis lc_sym : forall s t,
  localeCompare host s t = 0 -> localeCompare host t s = 0.
Hypothesis lc_trans : forall s t u,
  localeCompare host s t = 0 -> localeCompare host t u = 0 -> localeCompare host s u = 0.
Variable a_r : GraphNode.
Variable ys : list JsValue.
Variable L : list (option GraphNode).
Hypothesis ys_prim : Forall (fun v => is_primitive v = true) ys.

Definition entry_value (ie : nat * option GraphNode) : JsValue :=
  match snd ie with Some e => value e | None => VUndefined end.

(** A pair of slots whose elements are leaves that compare equal. *)
Definition good_pair (am : ArrayMatch) : Prop :=
  exists e p,
    node_at L (lhIdx am) = Some e
    /\ node_at (map Some (leafNodes a_r ys)) (rhIdx am) = Some p
    /\ leaf e (value e) /\ leaf p (value p)
    /\ prim_equal host (value e) (value p) = true.

(** As long as the left elements still to be looked up and the unconsumed
    right slots hold the same values up to [prim_equal], every lookup
    succeeds. *)
Lemma first_fit_fold lx :
  forall sh m,
    (forall ie, In ie lx ->
       exists e, snd ie = Some e /\ leaf e (value e)
                 /\ node_at L (Z.of_nat (fst ie)) = Some e) ->
    (forall v, count_if (prim_equal host v) (map entry_value lx)
               = count_if (accepts host v m) (indexed ys)) ->
    Forall good_pair sh ->
    exists sh' m',
      fold_left (leaf_matchStep host (leafNodes a_r ys)) lx (sh, [], m) = (sh', [], m')
      /\ length m' = (length m + length lx)%nat
      /\ Forall good_pair sh'.
Proof.
  induction lx as [|ie lx IH]; intros sh m Hlx Hcount Hsh.
  - exists sh, m. cbn. repeat split; auto.
  - destruct (Hlx ie (or_introl eq_refl)) as (e & Ee & He & Hn).
    cbn [fold_left]. unfold leaf_matchStep at 2. rewrite Ee.
    rewrite (leaf_findIndexOf_candidate host a_r e ys m He).
    assert (Hpos : (0 < count_if (accepts host (value e) m) (indexed ys))%nat).
    { rewrite <- Hcount. cbn [map count_if]. unfold entry_value at 1. rewrite Ee.
      rewrite prim_equal_refl. lia. }
    destruct (count_if_pos_find _ _ Hpos) as ([j y] & Hfind).
    unfold candidate. rewrite Hfind. cbn [fst snd].
    apply find_some in Hfind as [Hin Hacc].
    unfold accepts in Hacc. cbn [fst snd] in Hacc.
    apply andb_true_iff in Hacc as [Hm Exy].
    assert (Hneg : (Z.of_nat j <? 0) = false) by (apply Z.ltb_ge; lia).
    rewrite Hneg.
    destruct (IH (sh ++ [mkMatch (Z.of_nat (fst ie)) (Z.of_nat j)]) (m ++ [Z.of_nat j]))
      as (sh' & m' & Hfold & Hlen & Hgood).
    + intros ie' H. apply Hlx. now right.
    + intros v.
      assert (H1 := count_accepts_consume host v m j y (indexed ys)
                      (NoDup_indexed ys) Hin Hm).
      specialize (Hcount v). cbn [map count_if] in Hcount.
      unfold entry_value at 1 in Hcount. rewrite Ee in Hcount.
      rewrite (prim_equal_cong host lc_sym lc_trans v _ _ Exy) in Hcount.
      destruct (prim_equal host v y); lia.
    + apply Forall_app. split; [exact Hsh|]. constructor; [|constructor].
      exists e, (elemNode a_r j y). cbn [lhIdx rhIdx].
      apply In_indexed in Hin.
      assert (Hy : is_primitive y = true).
      { rewrite List.Forall_forall in ys_prim. apply ys_prim. now apply nth_error_In in Hin. }
      split; [exact Hn|]. split; [now apply node_at_leafNodes|].
      split; [exact He|]. split; [|exact Exy].
      cbn. now repeat split.
    + exists sh', m'. repeat split; auto. rewrite Hlen, length_app. cbn. lia.
Qed.
End FirstFitFold.

Lemma In_sort_insert {A} (cmp : A -> A -> Z) x y l :
  In x (sort_insert cmp y l) -> x = y \/ In x l.
Proof.
  induction l as [|z l IH]; cbn.
  - intros [<-|[]]. now left.
  - destruct (0 <? cmp z y); cbn.
    + intros [<-|[<-|H]]; auto.
    + intros [<-|H]; auto. destruct (IH H); auto.
Qed.

Lemma In_js_sort {A} (cmp : A -> A -> Z) x l : In x (js_sort cmp l) -> In x l.
Proof.
  unfold js_sort.
  assert (H : forall acc, In x (fold_left (fun acc y => sort_insert cmp y acc) l acc) ->
                          In x l \/ In x acc).
  { induction l as [|y l IH]; intros acc; cbn; [now right|].
    intros Hx. destruct (IH _ Hx) as [H|H]; [now left; right|].
    apply In_sort_insert in H as [->|H]; [now left; left | now right]. }
  intros Hx. destruct (H [] Hx) as [H'|[]]. exact H'.
Qed.

(** A loop whose iterations all continue runs into the code after it. *)
Lemma for_each_continue {A} (K : Context -> Prop) (l : list A)
    (body : A -> M VisitResult) (k : M VisitResult) :
  (forall x c, In x l -> K c -> exists c', body x c = Ok (RBool false, c') /\ K c') ->
  forall c, K c -> exists c', for_each l body k c = k c' /\ K c'.
Proof.
  induction l as [|x l IH]; intros Hbody c Hc; cbn [for_each].
  - now exists c.
  - destruct (Hbody x c (or_introl eq_refl) Hc) as (c1 & E1 & Hc1).
    rewrite (bind_Ok _ _ _ _ _ E1). cbn [aborts].
    apply IH; [|exact Hc1]. intros y c0 Hy. apply Hbody. now right.
Qed.

Lemma map_snd_combine_seq {A B} (g : A -> B) (l : list A) s :
  map (fun ie => g (snd ie)) (combine (seq s (length l)) l) = map g l.
Proof.
  revert s. induction l as [|x l IH]; intros s; cbn; [reflexivity | now rewrite IH].
Qed.

Lemma map_value_leafNodes a vs : map value (leafNodes a vs) = vs.
Proof.
  unfold leafNodes. rewrite map_map. unfold indexed.
  rewrite <- (map_id vs) at 3. rewrite <- (map_snd_combine_seq (fun v => v) vs 0).
  apply map_ext. now intros [j v].
Qed.

Lemma length_leafNodes a vs : length (leafNodes a vs) = length vs.
Proof. rewrite <- (map_value_leafNodes a vs) at 2. now rewrite length_map. Qed.

(** What holds of the context while the matched pairs are compared. *)
Definition quiet (c : Context) : Prop := changes c = [] /\ refs_prim_free c.

Lemma compare_good_pair host opts fuel a_r ys L am c :
  looseEquality opts = false ->
  good_pair host a_r ys L am -> quiet c ->
  exists c',
    compare host opts Diff (S fuel) (node_at L (lhIdx am))
            (node_at (map Some (leafNodes a_r ys)) (rhIdx am)) c
    = Ok (RBool false, c')
    /\ quiet c'.
Proof.
  intros Hloose (e & p & -> & -> & He & Hp & Eep) [Hc Hrefs].
  assert (Ho := prim_equal_outcome host opts (value e) (value p)).
  rewrite Eep in Ho. apply andb_true_iff in Ho as [_ Ho].
  rewrite (compare_leaf host opts fuel e p _ _ c Hloose He Hp Hrefs (or_introl Ho)).
  rewrite Ho. unfold areEqual. run_steps. eexists. split; [reflexivity|].
  destruct (searching c), (is_undefined _); now split.
Qed.

Lemma length_indexed {A} (l : list A) : length (indexed l) = length l.
Proof. unfold indexed. rewrite length_combine, length_seq. apply Nat.min_id. Qed.

Lemma count_accepts_nil host v (l : list JsValue) :
  count_if (prim_equal host v) l = count_if (accepts host v []) (indexed l).
Proof.
  unfold indexed. generalize 0%nat.
  induction l as [|y l IH]; intros s; cbn; [reflexivity|]. now rewrite <- IH.
Qed.

Section LaxPermutation.
Variable host : Host.
Variable opts : Options.
Hypothesis lc_sym : forall s t,
  localeCompare host s t = 0 -> localeCompare host t s = 0.
Hypothesis lc_trans : forall s t u,
  localeCompare host s t = 0 -> localeCompare host t u = 0 -> localeCompare host s u = 0.
Hypothesis lax : laxArrayOrdering opts = true.
Hypothesis strict_kinds : looseEquality opts = false.
Variable h : Heap.
Variables xs ys : list JsValue.
Hypothesis xs_prim : Forall (fun v => is_primitive v = true) xs.
Hypothesis xs_ys : Permutation xs ys.

Lemma ys_prim : Forall (fun v => is_primitive v = true) ys.
Proof. exact (Permutation_Forall xs_ys xs_prim). Qed.

Lemma lax_visitArray_quiet fuel l r c :
  lhs r = Some l ->
  array_elems h (value l) = map Some xs ->
  array_elems h (value r) = map Some ys ->
  heap c = h -> quiet c ->
  exists c',
    Compare_visitArray host opts Diff (S (S fuel)) (compare host opts Diff (S fuel)) r c
    = Ok (RBool false, c')
    /\ quiet c'.
Proof.
  intros Hl Hxs Hys Hh Hq. unfold Compare_visitArray, lhs_of. rewrite Hl. run_steps.
  rewrite Hh, lax.
  rewrite (elementNodes_dense opts h r ys lax Hys ys_prim).
  rewrite (elementNodes_dense opts h l xs lax Hxs xs_prim).
  set (L := map Some (leafNodes l xs)).
  assert (HL : Forall is_leaf L).
  { apply List.Forall_forall. intros o Ho. apply in_map_iff in Ho as (e & <- & He).
    exists e. split; [reflexivity|]. now apply (leafNodes_leaf l xs). }
  rewrite (bind_Ok _ _ _ _ _
             (matchElements_leaf host opts fuel (leafNodes r ys) L c strict_kinds HL
                (fun p Hp => leafNodes_leaf r ys p ys_prim Hp) (proj2 Hq))).
  destruct (first_fit_fold host lc_sym lc_trans r ys L ys_prim (indexed L) [] [])
    as (sh & m & Hfold & Hlen & Hgood).
  - intros [i o] Hin. apply In_indexed in Hin. cbn [fst snd].
    unfold L in Hin. rewrite nth_error_map in Hin.
    destruct (nth_error (leafNodes l xs) i) as [e|] eqn:Ee; [|discriminate].
    injection Hin as <-. exists e. split; [reflexivity|]. split.
    + apply (leafNodes_leaf l xs); [exact xs_prim|]. now apply nth_error_In in Ee.
    + unfold node_at, L. destruct (Z.of_nat i <? 0) eqn:En; [apply Z.ltb_lt in En; lia|].
      now rewrite Nat2Z.id, nth_error_map, Ee.
  - intros v.
    assert (E1 : map (entry_value) (indexed L) = xs).
    { unfold indexed, entry_value. unfold L at 2.
      rewrite (map_snd_combine_seq (fun o : option GraphNode =>
                 match o with Some e => value e | None => VUndefined end)).
      unfold L. rewrite map_map. apply map_value_leafNodes. }
    rewrite E1, (count_if_perm _ _ _ xs_ys).
    apply count_accepts_nil.
  - constructor.
  - rewrite Hfold. cbv beta iota.
    assert (Hm : (length m <? length (map Some (leafNodes r ys)))%nat = false).
    { apply Nat.ltb_ge. rewrite Hlen, length_indexed. unfold L.
      rewrite !length_map, !length_leafNodes. cbn.
      now rewrite (Permutation_length xs_ys). }
    rewrite Hm. cbn [js_sort fold_left for_each].
    destruct (for_each_continue quiet (js_sort by_lhIdx_desc sh)
                (fun am => compare host opts Diff (S fuel) (node_at L (lhIdx am))
                             (node_at (map Some (leafNodes r ys)) (rhIdx am)))
                (ret (RBool false))) with (c := c) as (c' & E & Hc').
    + intros am c0 Hin Hc0. apply (compare_good_pair host opts fuel r ys L); auto.
      rewrite List.Forall_forall in Hgood. apply Hgood. now apply In_js_sort in Hin.
    + exact Hq.
    + exists c'. split; [exact E | exact Hc'].
Qed.
End LaxPermutation.

Lemma guardReference_quiet opts node h :
  is_primitive (value node) = false ->
  exists c,
    guardReference opts node (createContext opts h) = Ok (tt, c)
    /\ heap c = h /\ quiet c.
Proof.
  intros Hv. unfold guardReference, addReference, modify, ret, createContext. cbn.
  destruct (guardCircularRefs opts); cbn.
  - destruct (truthy (value node)); eexists; (split; [reflexivity|]);
      (split; [reflexivity|]); split; try reflexivity; intros rs [= <-]; cbn; auto.
  - eexists. split; [reflexivity|]. split; [reflexivity|]. split; [reflexivity|].
    intros rs. discriminate.
Qed.


Lemma ordinalCompare_eq a b : ordinalCompare a b = 0 -> a = b.
Proof.
  unfold ordinalCompare. destruct (String.compare a b) eqn:E; try discriminate.
  intros _. now apply String.compare_eq_iff.
Qed.


(** An invalid date, and the dates of instants 1 and 2. *)
Definition dates_heap : Heap :=
  list_to_map
    [(0%nat, OArray [Some (VRef 10%nat); Some (VRef 11%nat); Some (VRef 12%nat)]);
     (1%nat, OArray [Some (VRef 12%nat); Some (VRef 10%nat); Some (VRef 11%nat)]);
     (10%nat, ODate S754_nan);
     (11%nat, ODate (Num.of_Z 1));
     (12%nat, ODate (Num.of_Z 2))].


(** * The string hash of [util.ts] *)

(** Horner evaluation of the polynomial [h * 31^n + s[0] * 31^(n-1) + ... +
    s[n-1]] over the integers, for a string [s] of [n] code units. *)
Fixpoint horner (h : Z) (s : code_units) : Z :=
  match s with
  | [] => h
  | unit :: s' => horner (31 * h + unit) s'
  end.

Lemma to_int32_range z : -2147483648 <= to_int32 z < 2147483648.
Proof.
  unfold to_int32.
  assert (H := Z.mod_pos_bound (z + 2147483648) 4294967296 ltac:(lia)). lia.
Qed.

Lemma to_int32_small z : -2147483648 <= z < 2147483648 -> to_int32 z = z.
Proof. intros H. unfold to_int32. rewrite Z.mod_small; lia. Qed.

Lemma to_int32_congr a b :
  a mod 4294967296 = b mod 4294967296 -> to_int32 a = to_int32 b.
Proof.
  intros H. unfold to_int32. f_equal.
  rewrite (Z.add_mod a), (Z.add_mod b), H by lia. reflexivity.
Qed.

Lemma to_int32_mod z : to_int32 z mod 4294967296 = z mod 4294967296.
Proof.
  unfold to_int32.
  rewrite <- (Zminus_mod_idemp_l ((z + 2147483648) mod 4294967296)).
  rewrite Z.mod_mod by lia. rewrite Zminus_mod_idemp_l. f_equal. lia.
Qed.

(** One step of the loop agrees with one Horner step modulo 2^32. *)
Lemma hash_step h h' c :
  h mod 4294967296 = h' mod 4294967296 ->
  to_int32 (to_int32 (31 * h) + c) mod 4294967296 = (31 * h' + c) mod 4294967296.
Proof.
  intros H. rewrite to_int32_mod.
  rewrite Z.add_mod, to_int32_mod by lia.
  rewrite Z.mul_mod, H, <- Z.mul_mod by lia.
  now rewrite <- Z.add_mod by lia.
Qed.

Lemma stringHashCode_from_horner s : forall h h',
  h mod 4294967296 = h' mod 4294967296 ->
  stringHashCode_from h s mod 4294967296 = horner h' s mod 4294967296.
Proof.
  induction s as [|ch s IH]; intros h h' H; cbn [stringHashCode_from horner].
  - exact H.
  - apply IH. now apply hash_step.
Qed.

Lemma stringHashCode_from_range s : forall h,
  -2147483648 <= h < 2147483648 ->
  -2147483648 <= stringHashCode_from h s < 2147483648.
Proof.
  induction s as [|ch s IH]; intros h H; cbn [stringHashCode_from].
  - exact H.
  - apply IH, to_int32_range.
Qed.

(** [stringHashCode(s)] is the polynomial hash of the UTF-16 code units of
    [s] in base 31, reduced to a signed 32-bit integer; in particular it
    always lies in the int32 range.  The empty string and [undefined] hash
    to 0. *)
Theorem stringHashCode_is_polynomial_hash (s : code_units) :
  stringHashCode (Some s) = to_int32 (horner 0 s)
  /\ -2147483648 <= stringHashCode (Some s) < 2147483648
  /\ stringHashCode (Some []) = 0 /\ stringHashCode None = 0.
Proof.
  assert (R := stringHashCode_from_range s 0 ltac:(lia)).
  split; [|split; [exact R | split; reflexivity]].
  unfold stringHashCode in *.
  rewrite <- (to_int32_small _ R). apply to_int32_congr.
  now apply stringHashCode_from_horner.
Qed.

Lemma stringHashCode_from_app (s t : code_units) h :
  stringHashCode_from h (s ++ t) = stringHashCode_from (stringHashCode_from h s) t.
Proof. revert h. induction s as [|u s IH]; intros h; cbn; [reflexivity | apply IH]. Qed.

Lemma horner_shift (t : code_units) h :
  horner h t = h * 31 ^ Z.of_nat (length t) + horner 0 t.
Proof.
  revert h. induction t as [|u t IH]; intros h; cbn [horner length].
  - cbn. lia.
  - rewrite IH, (IH (31 * 0 + u)). rewrite Nat2Z.inj_succ, Z.pow_succ_r by lia. lia.
Qed.

(** The hash of a concatenation is determined by the hashes of the two
    parts and the length of the second:
    [hash (s ++ t) = (hash s * 31^|t| + hash t) | 0]. *)
Theorem stringHashCode_append (s t : code_units) :
  stringHashCode (Some (s ++ t))
  = to_int32 (stringHashCode (Some s) * 31 ^ Z.of_nat (length t) + stringHashCode (Some t)).
Proof.
  assert (R := stringHashCode_from_range (s ++ t) 0 ltac:(lia)).
  unfold stringHashCode in *.
  rewrite <- (to_int32_small _ R). apply to_int32_congr.
  rewrite stringHashCode_from_app.
  rewrite (stringHashCode_from_horner t _ _ eq_refl), horner_shift.
  rewrite Z.add_mod by lia.
  rewrite <- (stringHashCode_from_horner t 0 0 eq_refl).
  now rewrite <- Z.add_mod by lia.
Qed.

(** * Root-level outcomes of [Compare.compare] *)

Lemma kind_eqb_neq (x y : kind) : x <> y -> kind_eqb x y = false.
Proof.
  intros H. destruct (kind_eqb x y) eqn:E; [|reflexivity].
  now apply kind_eqb_eq in E.
Qed.

Lemma kind_eqb_refl (x : kind) : kind_eqb x x = true.
Proof. now apply kind_eqb_eq. Qed.

(** The run on two root values that are not the same value, up to the
    point where the kinds are known. *)
Lemma run_distinct host opts alg fuel h x y :
  Object_is x y = false ->
  run host opts alg (S fuel) h x y
  = (let l := set_typeOf (kind_of h x) (rootNode x) in
     let r := set_typeOf (kind_of h y) (rootNode y) in
     if kind_eqb (kind_of h x) (kind_of h y) then
       Visitor_visit opts (fun _ => RBool false)
         (Compare_visitArray host opts alg (S fuel) (compare host opts alg fuel))
         (Compare_visitSet host opts alg (S fuel) (compare host opts alg fuel))
         (Compare_visitMap host opts alg (S fuel) (compare host opts alg fuel))
         (Compare_visitObject host opts alg (S fuel) (compare host opts alg fuel))
         (Compare_visitOther host opts alg (S fuel)) (set_lhs l r)
     else
       h' <- gets heap ;;
       if looseEquality opts && loose_equals host h' x y
       then areEqual (Some l) (Some r) IS_EQUAL_B
       else if kind_eqb (kind_of h x) KUndefined then noLhs host opts alg (S fuel) (Some r)
       else if kind_eqb (kind_of h y) KUndefined then noRhs host opts alg (Some l)
       else notEqual host opts alg (S fuel) l r NOT_EQUAL) (createContext opts h).
Proof.
  intros Hxy. unfold run. cbn [compare]. unfold Compare_compare.
  cbn [rootNode position value option_nat_eqb negb]. rewrite Hxy.
  rewrite (bind_Ok _ _ _ _ _ (ensureTypeOf_root _ _)).
  rewrite (bind_Ok _ _ _ _ _ (ensureTypeOf_root _ _)).
  reflexivity.
Qed.

(** [Visitor.visit] on a node of known kind in a fresh context: nothing is
    registered yet, so the node is dispatched. *)
Lemma Visitor_visit_fresh {R} opts (declined : GraphNode -> R) vA vS vM vO vOther node k h :
  typeOf node = Some k ->
  Visitor_visit opts declined vA vS vM vO vOther node (createContext opts h)
  = match k with
    | KArray => (guardReference opts node ;;; vA node) (createContext opts h)
    | KSet => (guardReference opts node ;;; vS node) (createContext opts h)
    | KMap => (guardReference opts node ;;; vM node) (createContext opts h)
    | KObject => (guardReference opts node ;;; vO node) (createContext opts h)
    | _ => vOther node (createContext opts h)
    end.
Proof.
  intros Hk. unfold Visitor_visit. run_steps. rewrite hasReference_createContext.
  unfold ensureTypeOf. rewrite Hk. run_steps. rewrite Hk. now destruct k.
Qed.

(** Two root values of different kinds (and not loosely equal): [equal] is
    false, and [diff] is a single change at the empty path, a removal when
    the right-hand side is [undefined] and otherwise an edit that carries
    the right-hand value: the value itself, or under [rhsCopyOpts] the copy
    that [Copy] makes of it (the diff throws when that copy throws).  (A
    left-hand [undefined] is the throwing case.) *)
Theorem root_kind_mismatch host opts fuel h (x y : JsValue) :
  kind_of h x <> kind_of h y ->
  kind_of h x <> KUndefined ->
  looseEquality opts && loose_equals host h x y = false ->
  equal host opts (S fuel) h x y = Ok (Some false)
  /\ diff host opts (S fuel) h x y
     = (if kind_eqb (kind_of h y) KUndefined then Ok [RemoveFromLhs []]
        else root_edit opts (S fuel) h y)
  /\ (rhsCopyOpts opts = None -> root_edit opts (S fuel) h y = Ok [EditLhs [] y]).
Proof.
  intros Hk Hx Hloose.
  assert (Hxy : Object_is x y = false).
  { destruct (Object_is x y) eqn:E; [|reflexivity].
    apply Object_is_eq in E. now subst. }
  unfold equal, diff. rewrite !run_distinct by exact Hxy. cbv zeta.
  rewrite (kind_eqb_neq _ _ Hk), (kind_eqb_neq _ _ Hx).
  run_steps. cbn [heap createContext]. rewrite Hloose.
  split; [|split].
  - destruct (kind_eqb (kind_of h y) KUndefined); reflexivity.
  - destruct (kind_eqb (kind_of h y) KUndefined); [reflexivity|].
    rewrite Diff_notEqual_root by reflexivity. unfold root_edit.
    cbn [heap createContext value set_typeOf rootNode].
    now destruct (carry_rhs _ _ _ _) as [[m h']| |].
  - intros E. unfold root_edit, carry_rhs. now rewrite E.
Qed.

Lemma root_kind_mismatch_witness :
  equal plain_host defaultOptions 1 ∅ (VNumber (Num.of_Z 5)) (VString "five")
  = Ok (Some false)
  /\ diff plain_host defaultOptions 1 ∅ (VNumber (Num.of_Z 5)) (VString "five")
     = Ok [EditLhs [] (VString "five")].
Proof.
  destruct (root_kind_mismatch plain_host defaultOptions 0 ∅
              (VNumber (Num.of_Z 5)) (VString "five")) as (H1 & H2 & _).
  - discriminate.
  - discriminate.
  - reflexivity.
  - exact (conj H1 H2).
Defined.

(** * Containers without children *)

Lemma guardReference_refs opts node c :
  exists rs, guardReference opts node c = Ok (tt, set_refs rs c).
Proof.
  unfold guardReference, addReference, modify, ret.
  destruct (guardCircularRefs opts).
  - destruct (refs c) as [rs|] eqn:E.
    + destruct (truthy (value node)); eexists; [reflexivity|].
      instantiate (1 := refs c). now destruct c.
    + exists (refs c). now destruct c.
  - exists (refs c). now destruct c.
Qed.

Lemma ensureProperties_none opts node c :
  properties node = None -> objPropsFn opts (heap c) (value node) = [] ->
  ensureProperties opts node c = Ok (set_properties [] node, c).
Proof.
  intros Hp Hv. unfold ensureProperties, updateObjectNodeProperties. rewrite Hp.
  run_steps. rewrite Hv. now destruct (propFilter opts).
Qed.

(** A container value that the comparison finds no children in. *)
Definition childless (opts : Options) (h : Heap) (v : JsValue) : Prop :=
  match kind_of h v with
  | KArray => array_elems h v = []
  | KMap => map_entries h v = []
  | KSet => set_members h v = []
  | KObject => objPropsFn opts h v = []
  | _ => False
  end.

(** Two distinct containers of the same kind that both have no children
    (two empty arrays, empty maps, empty sets, or objects without
    discovered properties): no comparison hook ever runs, so [ctx.result]
    stays unset; [equal] returns [undefined], not [true], and [diff] is
    empty. *)
Theorem childless_containers_compare_undefined host opts fuel h (x y : JsValue) :
  Object_is x y = false ->
  kind_of h x = kind_of h y ->
  childless opts h x -> childless opts h y ->
  equal host opts (S fuel) h x y = Ok None
  /\ diff host opts (S fuel) h x y = Ok [].
Proof.
  intros Hxy Hk Hx Hy. unfold childless in Hx, Hy. rewrite <- Hk in Hy.
  unfold equal, diff. rewrite !run_distinct by exact Hxy. cbv zeta.
  rewrite <- Hk, kind_eqb_refl.
  rewrite !(Visitor_visit_fresh _ _ _ _ _ _ _ _ (kind_of h x)) by reflexivity.
  set (l := set_typeOf (kind_of h x) (rootNode x)).
  set (r := set_lhs l (set_typeOf (kind_of h x) (rootNode y))).
  destruct (guardReference_refs opts r (createContext opts h)) as (rs & Eg).
  destruct (kind_of h x) eqn:Ek; try contradiction;
    rewrite !(bind_Ok _ _ _ _ _ Eg).
  - unfold Compare_visitArray, lhs_of. cbn [lhs r set_lhs]. run_steps.
    unfold elementNodes. cbn [heap set_refs createContext value r l set_lhs set_typeOf rootNode].
    rewrite Hx, Hy. cbn [indexed length seq combine map].
    destruct (laxArrayOrdering opts); split; reflexivity.
  - unfold Compare_visitObject, lhs_of. cbn [lhs r set_lhs]. run_steps.
    unfold ensureProperties, updateObjectNodeProperties.
    set (c := set_refs rs (createContext opts h)).
    rewrite !(bind_Ok _ _ _ _ _ (ensureProperties_none opts r c eq_refl Hy)).
    rewrite !(bind_Ok _ _ _ _ _ (ensureProperties_none opts l c eq_refl Hx)).
    split; reflexivity.
  - unfold Compare_visitMap, lhs_of. cbn [lhs r set_lhs]. run_steps.
    cbn [heap set_refs createContext value r l set_lhs set_typeOf rootNode].
    rewrite Hx, Hy. split; reflexivity.
  - unfold Compare_visitSet, lhs_of. cbn [lhs r set_lhs]. run_steps.
    cbn [heap set_refs createContext value r l set_lhs set_typeOf rootNode].
    rewrite Hx, Hy. split; reflexivity.
Qed.

(** Two empty arrays. *)
Definition empty_arrays_heap : Heap :=
  list_to_map [(0%nat, OArray []); (1%nat, OArray [])].

Lemma childless_containers_compare_undefined_witness :
  equal plain_host defaultOptions 1 empty_arrays_heap (VRef 0%nat) (VRef 1%nat) = Ok None
  /\ diff plain_host defaultOptions 1 empty_arrays_heap (VRef 0%nat) (VRef 1%nat) = Ok [].
Proof.
  apply (childless_containers_compare_undefined plain_host defaultOptions 0
           empty_arrays_heap (VRef 0%nat) (VRef 1%nat)); reflexivity.
Defined.

(** * Loops of the visitors, run to completion *)

Ltac run_all :=
  repeat first [rewrite bind_assoc | rewrite bind_ret_l | rewrite bind_get_l
               | rewrite bind_gets_l | rewrite bind_modify_l].

(** A loop whose body never aborts and acts on the context as [step]. *)
Lemma for_each_run {A} (K : Context -> Prop) (step : A -> Context -> Context)
    (l : list A) (body : A -> M VisitResult) (k : M VisitResult) :
  (forall x c, In x l -> K c ->
     (exists b, body x c = Ok (RBool b, step x c)) /\ K (step x c)) ->
  forall c, K c ->
    for_each l body k c = k (fold_left (fun c x => step x c) l c)
    /\ K (fold_left (fun c x => step x c) l c).
Proof.
  induction l as [|x l IH]; intros Hbody c Hc; cbn [for_each fold_left].
  - now split.
  - destruct (Hbody x c (or_introl eq_refl) Hc) as ((b & E) & Hc1).
    rewrite (bind_Ok _ _ _ _ _ E). cbn [aborts].
    apply IH; [|exact Hc1]. intros y c0 Hy. apply Hbody. now right.
Qed.

Lemma filter_all {A} (f : A -> bool) (l : list A) :
  (forall x, In x l -> f x = true) -> List.filter f l = l.
Proof.
  induction l as [|x l IH]; intros H; cbn; [reflexivity|].
  rewrite (H x (or_introl eq_refl)). f_equal. apply IH. intros y Hy. apply H. now right.
Qed.

Lemma filter_none {A} (f : A -> bool) (l : list A) :
  (forall x, In x l -> f x = false) -> List.filter f l = [].
Proof.
  induction l as [|x l IH]; intros H; cbn; [reflexivity|].
  rewrite (H x (or_introl eq_refl)). apply IH. intros y Hy. apply H. now right.
Qed.

Lemma filter_negb_nil {A} (f : A -> bool) (l : list A) :
  List.filter (fun x => negb (f x)) l = [] <-> forallb f l = true.
Proof.
  induction l as [|x l IH]; cbn; [tauto|].
  destruct (f x); cbn; [exact IH|]. split; discriminate.
Qed.

Lemma option_nat_eqb_refl (p : option nat) : option_nat_eqb p p = true.
Proof. destruct p; cbn; [apply Nat.eqb_refl | reflexivity]. Qed.

(** Emitting one change in [Diff]: the change is appended and the result
    is overwritten. *)
Definition emit (cmp : cmpval) (ch : Change) (c : Context) : Context :=
  set_result cmp (push_change ch c).

Lemma emit_fold {A} (f : A -> Change) cmp (l : list A) c :
  let c' := fold_left (fun c x => emit cmp (f x) c) l c in
  changes c' = changes c ++ map f l /\ heap c' = heap c /\ searching c' = searching c
  /\ refs c' = refs c.
Proof.
  revert c. induction l as [|x l IH]; intros c; cbn [fold_left map].
  - now rewrite app_nil_r.
  - destruct (IH (emit cmp (f x) c)) as (H1 & H2 & H3 & H4). cbv zeta in *.
    rewrite H1, H2, H3, H4. cbn. now rewrite <- app_assoc.
Qed.

(** * The hooks of [Diff], run *)

(** The path of an insertion: [createAdd] replaces the last segment by the
    marker [-i - 1] when the parent is an array. *)
Definition add_path (path : list Patch.PathSegment) : list Patch.PathSegment :=
  match rev path with
  | [] => path
  | last :: front =>
      if is_kind KArray (Patch.typeOf last)
      then rev front ++ [Patch.mkSegment (Patch.typeOf last)
                                         (insert_marker (Patch.segment last))]
      else path
  end.

(** A change for the right-hand value [v] carries [v] itself:
    [rhsCopyOpts] is not given, or it keeps the default [createCopyFn] and
    [v] is a primitive value. *)
Definition carries_itself (opts : Options) (v : JsValue) : Prop :=
  rhsCopyOpts opts = None \/ (copies_by_default opts /\ is_primitive v = true).

Lemma carried_itself opts fuel v c :
  carries_itself opts v -> carried opts (S fuel) v c = Ok (v, c).
Proof.
  intros [E|[Hd Hp]]; [now rewrite carried_plain | now apply carried_primitive].
Qed.

Lemma carries_itself_primitive opts v :
  copies_by_default opts -> is_primitive v = true -> carries_itself opts v.
Proof. intros Hd Hp. right. now split. Qed.

Lemma lift_Ok {A B} (r : res A) (k : A -> M B) a c :
  r = Ok a -> bind (lift r) k c = k a c.
Proof. intros ->. reflexivity. Qed.

Lemma areEqual_run l r cmp c :
  searching c = false ->
  areEqual l r cmp c
  = Ok (RBool false, if is_undefined (result c) then set_result cmp c else c).
Proof. intros Hs. unfold areEqual. run_all. now rewrite Hs. Qed.

Lemma Diff_notEqual_run host opts fuel l r cmp c path :
  searching c = false ->
  makePath host opts (heap c) r = Ok path ->
  carries_itself opts (value r) ->
  notEqual host opts Diff (S fuel) l r cmp c
  = Ok (RBool true, emit cmp (EditLhs path (value r)) c).
Proof.
  intros Hs Hp Hv. unfold notEqual, createEdit. run_all. rewrite Hs. run_all.
  rewrite (lift_Ok _ _ _ _ Hp). run_all.
  rewrite (bind_Ok _ _ _ _ _ (carried_itself opts fuel _ c Hv)). now run_all.
Qed.

Lemma Diff_noRhs_run host opts l c path :
  searching c = false ->
  makePath host opts (heap c) l = Ok path ->
  noRhs host opts Diff (Some l) c
  = Ok (RBool true, emit NOT_EQUAL (RemoveFromLhs path) c).
Proof.
  intros Hs Hp. unfold noRhs, createRemove. run_all. rewrite Hs. run_all.
  rewrite (lift_Ok _ _ _ _ Hp). now run_all.
Qed.

Lemma Diff_noLhs_run host opts fuel r c path :
  searching c = false ->
  makePath host opts (heap c) r = Ok path -> path <> [] ->
  carries_itself opts (value r) ->
  noLhs host opts Diff (S fuel) (Some r) c
  = Ok (RBool true, emit NOT_EQUAL (AddToLhs (add_path path) (value r)) c).
Proof.
  intros Hs Hp Hne Hv. unfold noLhs, createAdd, add_path. run_all. rewrite Hs. run_all.
  rewrite (lift_Ok _ _ _ _ Hp).
  destruct (rev path) as [|last front] eqn:E.
  - apply (f_equal (@rev _)) in E. rewrite rev_involutive in E. now elim Hne.
  - run_all. rewrite (bind_Ok _ _ _ _ _ (carried_itself opts fuel _ c Hv)). now run_all.
Qed.

(** * ES6 maps under [strictMapOrdering] *)

Section StrictMaps.
Variable host : Host.
Variable opts : Options.
Variable fuel : nat.
Variable h : Heap.
Variables a b : addr.
Variables la lb : list (JsValue * JsValue).
Hypothesis strict : strictMapOrdering opts = true.
Hypothesis distinct : a <> b.
Hypothesis Ha : h !! a = Some (OMap la).
Hypothesis Hb : h !! b = Some (OMap lb).
Hypothesis la_in_b : forall k, In k (map fst la) -> map_has h (VRef b) k = true.
Hypothesis lb_in_a : forall k, In k (map fst lb) -> map_has h (VRef a) k = true.

Let l := set_typeOf KMap (rootNode (VRef a)).
Let r := set_lhs l (set_typeOf KMap (rootNode (VRef b))).

(** The edit recorded for the entry of key [k]. *)
Definition entry_edit (k : JsValue) : Change :=
  EditLhs [Patch.mkSegment (Some KMap) (Some (PKey k))] (map_get h (VRef b) k).

Lemma map_roots_run alg :
  exists rs,
    run host opts alg (S (S fuel)) h (VRef a) (VRef b)
    = for_each (indexed (map fst la))
        (fun ik =>
           h0 <- gets heap ;;
           n <- Compare_createMapElementNode (map_get h0 (value r) (snd ik)) (snd ik) r
                  (Some (fst ik)) ;;
           Compare_visit (compare host opts alg (S fuel)) n)
        (ret (RBool false)) (set_refs rs (createContext opts h)).
Proof.
  assert (Hab : Object_is (VRef a) (VRef b) = false) by now apply Nat.eqb_neq.
  assert (Hka : kind_of h (VRef a) = KMap) by (cbn; unfold heap_get; now rewrite Ha).
  assert (Hkb : kind_of h (VRef b) = KMap) by (cbn; unfold heap_get; now rewrite Hb).
  destruct (guardReference_refs opts r (createContext opts h)) as (rs & Eg).
  exists rs. rewrite run_distinct by exact Hab. cbv zeta. rewrite Hka, Hkb.
  cbn [kind_eqb]. rewrite (Visitor_visit_fresh _ _ _ _ _ _ _ _ KMap) by reflexivity.
  fold l. fold r. rewrite (bind_Ok _ _ _ _ _ Eg).
  unfold Compare_visitMap, lhs_of. cbn [lhs r set_lhs]. run_steps.
  cbn [heap set_refs createContext value r l set_lhs set_typeOf rootNode].
  assert (Ea : map_entries h (VRef a) = la) by (cbn; unfold heap_get; now rewrite Ha).
  assert (Eb : map_entries h (VRef b) = lb) by (cbn; unfold heap_get; now rewrite Hb).
  rewrite Ea, Eb.
  rewrite (filter_none (fun k => negb (map_has h (VRef b) k)) (map fst la))
    by (intros k Hk; now rewrite la_in_b).
  rewrite (filter_none (fun k => negb (map_has h (VRef a) k)) (map fst lb))
    by (intros k Hk; now rewrite lb_in_a).
  rewrite (filter_all (fun k => map_has h (VRef b) k) (map fst la)) by exact la_in_b.
  rewrite strict. reflexivity.
Qed.

Lemma strict_maps_not_equal :
  la <> [] -> equal host opts (S (S fuel)) h (VRef a) (VRef b) = Ok (Some false).
Proof.
  intros Hne. unfold equal. destruct (map_roots_run Equal) as (rs & ->).
  destruct la as [|[k v] la']; [now elim Hne|].
  cbn [map fst indexed length seq combine for_each].
  reflexivity.
Qed.

Lemma strict_maps_diff :
  (forall k, In k (map fst la) -> carries_itself opts (map_get h (VRef b) k)) ->
  diff host opts (S (S fuel)) h (VRef a) (VRef b) = Ok (map entry_edit (map fst la)).
Proof.
  intros Hcarry. unfold diff. destruct (map_roots_run Diff) as (rs & ->).
  set (c0 := set_refs rs (createContext opts h)).
  destruct (for_each_run (fun c => searching c = false /\ heap c = h)
              (fun ik c => emit NOT_EQUAL (entry_edit (snd ik)) c)
              (indexed (map fst la))
              (fun ik =>
                 h0 <- gets heap ;;
                 n <- Compare_createMapElementNode (map_get h0 (value r) (snd ik)) (snd ik) r
                        (Some (fst ik)) ;;
                 Compare_visit (compare host opts Diff (S fuel)) n)
              (ret (RBool false))) with (c := c0) as (E & _).
  - intros [i k] c Hin [Hs Hh]. split; [|now split].
    exists true. unfold Compare_createMapElementNode, lhs_of.
    cbn [lhs r set_lhs]. run_all. unfold Compare_visit.
    cbn [compare]. unfold Compare_compare.
    cbn [lhs set_lhs childNode createMapElementNode position option_nat_eqb negb].
    rewrite Hh.
    rewrite (Diff_notEqual_run host opts fuel _ _ _ c
               [Patch.mkSegment (Some KMap) (Some (PKey k))]);
      [reflexivity | exact Hs | reflexivity |].
    apply Hcarry. unfold indexed in Hin. now apply in_combine_r in Hin.
  - now split.
  - rewrite E. cbn [ret].
    destruct (emit_fold (fun ik : nat * JsValue => entry_edit (snd ik)) NOT_EQUAL
                (indexed (map fst la)) c0) as (Hc & _).
    cbv zeta in Hc. rewrite Hc. cbn [changes c0 set_refs createContext app].
    f_equal. unfold indexed. apply map_snd_combine_seq.
Qed.
End StrictMaps.

(** Under [strictMapOrdering], two distinct ES6 maps with the same keys are
    never found equal, even when their entries are identical and in the same
    order: the left-hand entry node carries its position and the right-hand
    one does not, so every shared entry is a difference.  [equal] is false
    as soon as there is an entry, and [diff] records one edit per key, in the
    insertion order of the left-hand map; the edit carries the right-hand
    value of the key, which is stated here for the values that a change
    carries as they are (no [rhsCopyOpts], or primitive values under the
    default copy). *)
Theorem strict_map_ordering_reports_every_entry host opts fuel h a b
    (la lb : list (JsValue * JsValue)) :
  strictMapOrdering opts = true ->
  a <> b ->
  h !! a = Some (OMap la) -> h !! b = Some (OMap lb) ->
  (forall k, In k (map fst la) -> map_has h (VRef b) k = true) ->
  (forall k, In k (map fst lb) -> map_has h (VRef a) k = true) ->
  (forall k, In k (map fst la) -> carries_itself opts (map_get h (VRef b) k)) ->
  diff host opts (S (S fuel)) h (VRef a) (VRef b) = Ok (map (entry_edit h b) (map fst la))
  /\ (la <> [] -> equal host opts (S (S fuel)) h (VRef a) (VRef b) = Ok (Some false)).
Proof.
  intros Hs Hab Ha Hb Hla Hlb Hcarry. split.
  - now apply (strict_maps_diff host opts fuel h a b la lb).
  - now apply (strict_maps_not_equal host opts fuel h a b la lb).
Qed.

Definition strictMapOptions : Options :=
  mkOptions ownEnumerableNames None false None None false None false true false None.

(** Two maps that both hold the single entry ["k" -> true]. *)
Definition same_maps_heap : Heap :=
  list_to_map [(0%nat, OMap [(VString "k", VBool true)]);
               (1%nat, OMap [(VString "k", VBool true)])].

Lemma strict_map_ordering_reports_every_entry_witness :
  diff plain_host strictMapOptions 2 same_maps_heap (VRef 0%nat) (VRef 1%nat)
  = Ok [EditLhs [Patch.mkSegment (Some KMap) (Some (PKey (VString "k")))] (VBool true)]
  /\ equal plain_host strictMapOptions 2 same_maps_heap (VRef 0%nat) (VRef 1%nat)
     = Ok (Some false).
Proof.
  destruct (strict_map_ordering_reports_every_entry plain_host strictMapOptions 0
              same_maps_heap 0%nat 1%nat
              [(VString "k", VBool true)] [(VString "k", VBool true)]) as [Hd He].
  - reflexivity.
  - discriminate.
  - reflexivity.
  - reflexivity.
  - intros k [<-|[]]. reflexivity.
  - intros k [<-|[]]. reflexivity.
  - intros k _. now left.
  - split; [exact Hd | apply He; discriminate].
Defined.

(** * ES6 sets *)

Section Sets.
Variable host : Host.
Variable opts : Options.
Variable fuel : nat.
Variable h : Heap.
Variables a b : addr.
Variables la lb : list JsValue.
Hypothesis distinct : a <> b.
Hypothesis Ha : h !! a = Some (OSet la).
Hypothesis Hb : h !! b = Some (OSet lb).

Let l := set_typeOf KSet (rootNode (VRef a)).
Let r := set_lhs l (set_typeOf KSet (rootNode (VRef b))).

Lemma set_roots_run alg :
  exists rs,
    run host opts alg (S (S fuel)) h (VRef a) (VRef b)
    = Compare_visitSet host opts alg (S (S fuel)) (compare host opts alg (S fuel)) r
        (set_refs rs (createContext opts h)).
Proof.
  assert (Hab : Object_is (VRef a) (VRef b) = false) by now apply Nat.eqb_neq.
  assert (Hka : kind_of h (VRef a) = KSet) by (cbn; unfold heap_get; now rewrite Ha).
  assert (Hkb : kind_of h (VRef b) = KSet) by (cbn; unfold heap_get; now rewrite Hb).
  destruct (guardReference_refs opts r (createContext opts h)) as (rs & Eg).
  exists rs. rewrite run_distinct by exact Hab. cbv zeta. rewrite Hka, Hkb.
  cbn [kind_eqb]. rewrite (Visitor_visit_fresh _ _ _ _ _ _ _ _ KSet) by reflexivity.
  fold l. fold r. now rewrite (bind_Ok _ _ _ _ _ Eg).
Qed.

(** What [areEqual] does to the context outside a search. *)
Definition note_same (c : Context) : Context :=
  if is_undefined (result c) then set_result IS_SAME c else c.

Lemma note_same_fold {A} (xs : list A) c :
  let c' := fold_left (fun c _ => note_same c) xs c in
  changes c' = changes c
  /\ result c' = match xs with
                 | [] => result c
                 | _ :: _ => if is_undefined (result c) then IS_SAME else result c
                 end.
Proof.
  revert c. induction xs as [|x xs IH]; intros c; cbn [fold_left]; [now split|].
  destruct (IH (note_same c)) as [H1 H2]. cbv zeta in *. rewrite H1, H2.
  unfold note_same. destruct (is_undefined (result c)) eqn:E; cbn.
  - split; [reflexivity|]. now destruct xs.
  - split; [reflexivity|]. destruct xs; [reflexivity|]. now rewrite E.
Qed.

(** The loop over the shared members: every member is compared with
    itself. *)
Lemma shared_members_run alg (xs : list (nat * JsValue)) strictOrdering c :
  searching c = false ->
  for_each xs
    (fun ix =>
       n <- Compare_createSetElementNode (snd ix) r
              (if strictOrdering : bool then Some (fst ix) else None) ;;
       Compare_visit (compare host opts alg (S fuel)) n)
    (ret (RBool false)) c
  = Ok (RBool false, fold_left (fun c _ => note_same c) xs c).
Proof.
  intros Hs.
  destruct (for_each_run (fun c => searching c = false) (fun _ c => note_same c) xs
              (fun ix =>
                 n <- Compare_createSetElementNode (snd ix) r
                        (if strictOrdering then Some (fst ix) else None) ;;
                 Compare_visit (compare host opts alg (S fuel)) n)
              (ret (RBool false))) with (c := c) as (E & _).
  - intros [i x] c0 _ Hc0. split.
    + exists false. unfold Compare_createSetElementNode, lhs_of.
      cbn [lhs r set_lhs]. run_all. unfold Compare_visit.
      cbn [compare]. unfold Compare_compare.
      cbn [lhs set_lhs childNode createSetElementNode position value fst snd].
      rewrite option_nat_eqb_refl, Object_is_refl. cbn [negb].
      unfold areEqual. run_all. unfold note_same. rewrite Hc0. reflexivity.
    + unfold note_same. now destruct (is_undefined (result c0)).
  - exact Hs.
  - exact E.
Qed.

Lemma same_members_run alg :
  forallb (set_has h (VRef b)) la = true ->
  forallb (set_has h (VRef a)) lb = true ->
  exists c,
    run host opts alg (S (S fuel)) h (VRef a) (VRef b) = Ok (RBool false, c)
    /\ changes c = []
    /\ result c = match la with [] => CUndefined | _ :: _ => IS_SAME end.
Proof.
  intros Hla Hlb. destruct (set_roots_run alg) as (rs & ->).
  unfold Compare_visitSet, lhs_of. cbn [lhs r set_lhs]. run_steps.
  cbn [heap set_refs createContext value r l set_lhs set_typeOf rootNode].
  assert (Ea : set_members h (VRef a) = la) by (cbn; unfold heap_get; now rewrite Ha).
  assert (Eb : set_members h (VRef b) = lb) by (cbn; unfold heap_get; now rewrite Hb).
  rewrite Ea, Eb.
  rewrite (proj2 (filter_negb_nil (set_has h (VRef b)) la) Hla).
  rewrite (proj2 (filter_negb_nil (set_has h (VRef a)) lb) Hlb).
  rewrite filter_all by (now apply forallb_forall).
  cbn [indexed length seq combine for_each forallb andb].
  rewrite shared_members_run by reflexivity.
  eexists. split; [reflexivity|].
  destruct (note_same_fold (rev (combine (seq 0 (length la)) la))
              (set_refs rs (createContext opts h))) as [H1 H2].
  cbv zeta in H1, H2. unfold indexed. rewrite H1, H2. split; [reflexivity|].
  destruct la as [|x la']; [reflexivity|].
  destruct (rev _) eqn:E; [|reflexivity].
  apply (f_equal (@length _)) in E. rewrite length_rev in E. discriminate E.
Qed.

Lemma different_members_not_equal :
  forallb (set_has h (VRef b)) la
  && forallb (set_has h (VRef a)) lb = false ->
  equal host opts (S (S fuel)) h (VRef a) (VRef b) = Ok (Some false).
Proof.
  intros Hsame. unfold equal. destruct (set_roots_run Equal) as (rs & ->).
  unfold Compare_visitSet, lhs_of. cbn [lhs r set_lhs]. run_steps.
  cbn [heap set_refs createContext value r l set_lhs set_typeOf rootNode].
  assert (Ea : set_members h (VRef a) = la) by (cbn; unfold heap_get; now rewrite Ha).
  assert (Eb : set_members h (VRef b) = lb) by (cbn; unfold heap_get; now rewrite Hb).
  rewrite Ea, Eb.
  destruct (List.filter (fun x => negb (set_has h (VRef b) x)) la) as [|x xs] eqn:Erem.
  - apply filter_negb_nil in Erem. rewrite Erem in Hsame. cbn [andb] in Hsame.
    destruct (List.filter (fun x => negb (set_has h (VRef a) x)) lb) as [|y ys] eqn:Eadd.
    + apply filter_negb_nil in Eadd. congruence.
    + reflexivity.
  - reflexivity.
Qed.
End Sets.

(** Two distinct ES6 sets are compared by the identity of their members
    only, whatever the options: when each member of either set is a member
    of the other ([Set.has]), [diff] is empty and [equal] is [true] (or
    [undefined] for two empty sets), without looking into the members and
    without regard to insertion order, even under [strictSetOrdering];
    otherwise [equal] is [false]. *)
Theorem sets_compare_by_member_identity host opts fuel h a b (la lb : list JsValue) :
  a <> b ->
  h !! a = Some (OSet la) -> h !! b = Some (OSet lb) ->
  let same := forallb (set_has h (VRef b)) la
              && forallb (set_has h (VRef a)) lb in
  equal host opts (S (S fuel)) h (VRef a) (VRef b)
  = Ok (if same then match la with [] => None | _ :: _ => Some true end else Some false)
  /\ (same = true -> diff host opts (S (S fuel)) h (VRef a) (VRef b) = Ok []).
Proof.
  intros Hab Ha Hb same. split.
  - destruct same eqn:E; subst same.
    + apply andb_true_iff in E as [E1 E2].
      destruct (same_members_run host opts fuel h a b la lb Hab Ha Hb Equal E1 E2)
        as (c & Er & _ & Hres).
      unfold equal. rewrite Er, Hres. now destruct la.
    + now apply (different_members_not_equal host opts fuel h a b la lb).
  - intros E. subst same. apply andb_true_iff in E as [E1 E2].
    destruct (same_members_run host opts fuel h a b la lb Hab Ha Hb Diff E1 E2)
      as (c & Er & Hch & _).
    unfold diff. now rewrite Er, Hch.
Qed.

Definition strictSetOptions : Options :=
  mkOptions ownEnumerableNames None false None None false None false false true None.

(** The sets [{1, 2}] and [{2, 1}]. *)
Definition swapped_sets_heap : Heap :=
  list_to_map [(0%nat, OSet [VNumber (Num.of_Z 1); VNumber (Num.of_Z 2)]);
               (1%nat, OSet [VNumber (Num.of_Z 2); VNumber (Num.of_Z 1)])].

Lemma sets_compare_by_member_identity_witness :
  equal plain_host strictSetOptions 2 swapped_sets_heap (VRef 0%nat) (VRef 1%nat)
  = Ok (Some true)
  /\ diff plain_host strictSetOptions 2 swapped_sets_heap (VRef 0%nat) (VRef 1%nat) = Ok [].
Proof.
  destruct (sets_compare_by_member_identity plain_host strictSetOptions 0 swapped_sets_heap
              0%nat 1%nat [VNumber (Num.of_Z 1); VNumber (Num.of_Z 2)]
              [VNumber (Num.of_Z 2); VNumber (Num.of_Z 1)]) as [He Hd].
  - discriminate.
  - reflexivity.
  - reflexivity.
  - split; [exact He | apply Hd; reflexivity].
Defined.

(** * Leaf objects: dates, buffers and views *)

Lemma heap_get_Some (h : Heap) a o : h !! a = Some o -> heap_get h a = o.
Proof. unfold heap_get. now intros ->. Qed.

Lemma run_leaf_refs host opts alg fuel h a b k :
  a <> b -> kind_of h (VRef a) = k -> kind_of h (VRef b) = k -> container k = false ->
  run host opts alg (S fuel) h (VRef a) (VRef b)
  = Compare_visitOther host opts alg (S fuel)
      (set_lhs (set_typeOf k (rootNode (VRef a))) (set_typeOf k (rootNode (VRef b))))
      (createContext opts h).
Proof.
  intros Hab Hka Hkb Hk.
  rewrite run_distinct by (now apply Nat.eqb_neq). cbv zeta. rewrite Hka, Hkb.
  rewrite kind_eqb_refl.
  rewrite (Visitor_visit_fresh _ _ _ _ _ _ _ _ k) by reflexivity.
  destruct k; try reflexivity; discriminate.
Qed.

(** From the outcome [cmp] of a leaf comparison at the root to what
    [equal] and [diff] return. *)
Lemma leaf_outcome_runs host opts fuel h x y l r cmp :
  (forall alg,
     run host opts alg (S fuel) h x y
     = (if IS_EQUAL cmp then areEqual (Some l) (Some r) cmp
        else notEqual host opts alg (S fuel) l r cmp) (createContext opts h)) ->
  cmp <> CUndefined -> parentNode r = None -> value r = y ->
  equal host opts (S fuel) h x y = Ok (Some (IS_EQUAL cmp))
  /\ diff host opts (S fuel) h x y
     = (if IS_EQUAL cmp then Ok [] else root_edit opts (S fuel) h y).
Proof.
  intros Hrun Hcmp Hp Hv. unfold equal, diff. rewrite !Hrun.
  assert (Hne : forall c0 : cmpval, IS_EQUAL c0 = false ->
            (match notEqual host opts Equal (S fuel) l r c0 (createContext opts h) with
             | Ok (_, c) => Ok (if is_undefined (result c) then None
                                else Some (IS_EQUAL (result c)))
             | Throw e => Throw e
             | OutOfFuel => OutOfFuel
             end = Ok (Some false))
            /\ match notEqual host opts Diff (S fuel) l r c0 (createContext opts h) with
               | Ok (_, c) => Ok (changes c)
               | Throw e => Throw e
               | OutOfFuel => OutOfFuel
               end = root_edit opts (S fuel) h y).
  { intros c0 E. split.
    - unfold notEqual. run_steps. cbn. destruct c0; try discriminate; cbn in E |- *;
        now rewrite E.
    - rewrite Diff_notEqual_root by (reflexivity || exact Hp).
      unfold root_edit. cbn [heap createContext]. rewrite Hv.
      now destruct (carry_rhs _ _ _ _) as [[m h']| |]. }
  destruct cmp as [| |b|z]; [now elim Hcmp| | |]; cbn [IS_EQUAL].
  - unfold areEqual. run_steps. cbn. now split.
  - destruct b; cbn [negb]; [now apply Hne|].
    unfold areEqual. run_steps. cbn. now split.
  - destruct (z =? 0) eqn:E; [|now apply Hne].
    unfold areEqual. run_steps. cbn. rewrite E. now split.
Qed.

Lemma SFcompare_antisym (x y : spec_float) :
  SFcompare y x = option_map CompOpp (SFcompare x y).
Proof.
  destruct x as [sx|sx| |sx mx ex], y as [sy|sy| |sy my ey]; cbn;
    try reflexivity; try (now destruct sx); try (now destruct sy);
    try (now destruct sx, sy).
  destruct sx, sy; try reflexivity.
  - rewrite (Z.compare_antisym ex ey). destruct (ex ?= ey)%Z; cbn; try reflexivity.
    fold (Pos.compare my mx). fold (Pos.compare mx my).
    rewrite (Pos.compare_antisym mx my). reflexivity.
  - rewrite (Z.compare_antisym ex ey). destruct (ex ?= ey)%Z; cbn; try reflexivity.
    fold (Pos.compare my mx). fold (Pos.compare mx my).
    rewrite (Pos.compare_antisym mx my). reflexivity.
Qed.

Lemma SFcompare_None (x y : spec_float) :
  SFcompare x y = None -> Num.isNaN x || Num.isNaN y = true.
Proof.
  destruct x as [sx|sx| |sx mx ex], y as [sy|sy| |sy my ey]; cbn;
    try discriminate; reflexivity.
Qed.

Lemma SFcompare_Some (x y : spec_float) c :
  SFcompare x y = Some c -> Num.isNaN x || Num.isNaN y = false.
Proof.
  destruct x as [sx|sx| |sx mx ex], y as [sy|sy| |sy my ey]; cbn;
    try discriminate; reflexivity.
Qed.

(** Neither time is before the other exactly when the times are equal or
    one of them is NaN. *)
Lemma compareDates_equal (s t : spec_float) :
  IS_EQUAL (compareDates s t) = Num.eq s t || (Num.isNaN s || Num.isNaN t).
Proof.
  unfold compareDates, Num.lt, Num.gt, Num.eq, SFltb, SFeqb.
  rewrite (SFcompare_antisym s t).
  destruct (SFcompare s t) as [c|] eqn:E.
  - rewrite (SFcompare_Some _ _ _ E). now destruct c.
  - now rewrite (SFcompare_None _ _ E).
Qed.

(** The edit of the root that [diff] records for a right-hand object [o]
    without children, at address [b]: it carries the object itself when
    [rhsCopyOpts] is not given, and under the default [createCopyFn] the
    copy that [leaf_copy] describes. *)
Lemma root_edit_leaf opts fuel h b o :
  h !! b = Some o ->
  (rhsCopyOpts opts = None -> root_edit opts (S fuel) h (VRef b) = Ok [EditLhs [] (VRef b)])
  /\ (forall copyOpts r,
        rhsCopyOpts opts = Some copyOpts -> createCopyFn copyOpts = None ->
        leaf_copy h b o = Some r ->
        carry_rhs opts (S fuel) h (VRef b) = r
        /\ root_edit opts (S fuel) h (VRef b)
           = res_bind r (fun mh => Ok [EditLhs [] (fst mh)])).
Proof.
  intros Hb. split.
  - intros E. unfold root_edit, carry_rhs. now rewrite E.
  - intros co r E Hd Hr. unfold root_edit, carry_rhs. rewrite E.
    now rewrite (copy_leaf co fuel h b o r Hd Hb Hr).
Qed.

(** Two distinct [Date] objects compare equal exactly when their time
    values are numerically equal or one of them is an invalid date (a NaN
    time): an invalid date equals every date.  Otherwise [diff] is one edit
    at the root, which carries the right-hand date, or under [rhsCopyOpts]
    with the default [createCopyFn] a new date of the same time. *)
Theorem dates_compare_by_time host opts fuel h a b (s t : spec_float) :
  a <> b ->
  h !! a = Some (ODate s) -> h !! b = Some (ODate t) ->
  let same := Num.eq s t || (Num.isNaN s || Num.isNaN t) in
  equal host opts (S fuel) h (VRef a) (VRef b) = Ok (Some same)
  /\ diff host opts (S fuel) h (VRef a) (VRef b)
     = (if same then Ok [] else root_edit opts (S fuel) h (VRef b))
  /\ (rhsCopyOpts opts = None -> root_edit opts (S fuel) h (VRef b) = Ok [EditLhs [] (VRef b)])
  /\ (forall copyOpts,
        rhsCopyOpts opts = Some copyOpts -> createCopyFn copyOpts = None ->
        carry_rhs opts (S fuel) h (VRef b)
        = Ok (VRef (fresh (dom h)), <[fresh (dom h) := ODate t]> h)).
Proof.
  intros Hab Ha Hb same.
  destruct (root_edit_leaf opts fuel h b _ Hb) as [Hplain Hcopy].
  assert (Hka : kind_of h (VRef a) = KDate) by (cbn; unfold heap_get; now rewrite Ha).
  assert (Hkb : kind_of h (VRef b) = KDate) by (cbn; unfold heap_get; now rewrite Hb).
  destruct (leaf_outcome_runs host opts fuel h (VRef a) (VRef b)
              (set_typeOf KDate (rootNode (VRef a)))
              (set_lhs (set_typeOf KDate (rootNode (VRef a)))
                 (set_typeOf KDate (rootNode (VRef b))))
              (compareDates s t)) as [He Hd]; try reflexivity.
  { intros alg. rewrite (run_leaf_refs _ _ _ _ _ _ _ KDate Hab Hka Hkb eq_refl).
    unfold Compare_visitOther.
    cbn [lhs set_lhs typeOf set_typeOf value rootNode]. run_steps.
    cbn [heap createContext].
    rewrite (heap_get_Some _ _ _ Ha), (heap_get_Some _ _ _ Hb). now run_steps. }
  { unfold compareDates. destruct (Num.lt s t), (Num.gt s t); discriminate. }
  subst same. rewrite <- compareDates_equal.
  split; [exact He|]. split; [exact Hd|]. split; [exact Hplain|].
  intros co E Hdef. now apply (Hcopy co _ E Hdef).
Qed.

(** An invalid date and the date of instant 1. *)
Definition invalid_date_heap : Heap :=
  list_to_map [(0%nat, ODate S754_nan); (1%nat, ODate (Num.of_Z 1))].

(** The dates of the instants 1 and 2, compared under options that copy
    what a change carries. *)
Definition two_dates_heap : Heap :=
  list_to_map [(0%nat, ODate (Num.of_Z 1)); (1%nat, ODate (Num.of_Z 2))].

Definition copyingOptions : Options :=
  mkOptions ownEnumerableNames None false None None false None false false false
    (Some defaultOptions).

Lemma dates_compare_by_time_witness :
  (equal plain_host defaultOptions 1 invalid_date_heap (VRef 0%nat) (VRef 1%nat)
   = Ok (Some true)
   /\ diff plain_host defaultOptions 1 invalid_date_heap (VRef 0%nat) (VRef 1%nat) = Ok [])
  /\ (equal plain_host copyingOptions 1 two_dates_heap (VRef 0%nat) (VRef 1%nat)
      = Ok (Some false)
      /\ diff plain_host copyingOptions 1 two_dates_heap (VRef 0%nat) (VRef 1%nat)
         = Ok [EditLhs [] (VRef 2%nat)]).
Proof.
  split.
  - destruct (dates_compare_by_time plain_host defaultOptions 0 invalid_date_heap
                0%nat 1%nat S754_nan (Num.of_Z 1)) as (H1 & H2 & _).
    + discriminate.
    + reflexivity.
    + reflexivity.
    + exact (conj H1 H2).
  - destruct (dates_compare_by_time plain_host copyingOptions 0 two_dates_heap
                0%nat 1%nat (Num.of_Z 1) (Num.of_Z 2)) as (H1 & H2 & _).
    + discriminate.
    + reflexivity.
    + reflexivity.
    + split; [exact H1|]. rewrite H2. vm_compute. reflexivity.
Defined.

Lemma compareBytes_equal (s t : list Z) :
  length s = length t ->
  IS_EQUAL (compareBytes s t) = bool_decide (s = t).
Proof.
  unfold compareBytes. revert t. induction s as [|x s IH]; intros [|y t] Hlen;
    try discriminate; cbn [combine forallb fst snd].
  - reflexivity.
  - destruct (Z.eqb_spec x y) as [->|Hne]; cbn [andb].
    + rewrite IH by (cbn in Hlen; lia).
      destruct (decide (s = t)) as [->|Hst].
      * now rewrite !bool_decide_eq_true_2.
      * rewrite !bool_decide_eq_false_2; [reflexivity | congruence | exact Hst].
    + rewrite bool_decide_eq_false_2; [reflexivity | congruence].
Qed.

(** Two distinct [ArrayBuffer]s compare equal exactly when they hold the
    same byte sequence; otherwise [diff] is one edit at the root, which
    carries the right-hand buffer, or under [rhsCopyOpts] with the default
    [createCopyFn] a new buffer with the same bytes. *)
Theorem buffers_compare_by_content host opts fuel h a b (s t : list Z) :
  a <> b ->
  h !! a = Some (OBuffer s) -> h !! b = Some (OBuffer t) ->
  equal host opts (S fuel) h (VRef a) (VRef b) = Ok (Some (bool_decide (s = t)))
  /\ diff host opts (S fuel) h (VRef a) (VRef b)
     = (if bool_decide (s = t) then Ok [] else root_edit opts (S fuel) h (VRef b))
  /\ (rhsCopyOpts opts = None -> root_edit opts (S fuel) h (VRef b) = Ok [EditLhs [] (VRef b)])
  /\ (forall copyOpts,
        rhsCopyOpts opts = Some copyOpts -> createCopyFn copyOpts = None ->
        carry_rhs opts (S fuel) h (VRef b)
        = Ok (VRef (fresh (dom h)), <[fresh (dom h) := OBuffer t]> h)).
Proof.
  intros Hab Ha Hb.
  destruct (root_edit_leaf opts fuel h b _ Hb) as [Hplain Hcopy].
  assert (Hka : kind_of h (VRef a) = KBuffer) by (cbn; unfold heap_get; now rewrite Ha).
  assert (Hkb : kind_of h (VRef b) = KBuffer) by (cbn; unfold heap_get; now rewrite Hb).
  set (cmp := if negb (Nat.eqb (length s) (length t)) then NOT_EQUAL else compareBytes s t).
  assert (Ecmp : IS_EQUAL cmp = bool_decide (s = t)).
  { subst cmp. destruct (Nat.eqb_spec (length s) (length t)) as [Hlen|Hlen]; cbn [negb].
    - now apply compareBytes_equal.
    - rewrite bool_decide_eq_false_2 by congruence. reflexivity. }
  destruct (leaf_outcome_runs host opts fuel h (VRef a) (VRef b)
              (set_typeOf KBuffer (rootNode (VRef a)))
              (set_lhs (set_typeOf KBuffer (rootNode (VRef a)))
                 (set_typeOf KBuffer (rootNode (VRef b))))
              cmp) as [He Hd]; try reflexivity.
  { intros alg. rewrite (run_leaf_refs _ _ _ _ _ _ _ KBuffer Hab Hka Hkb eq_refl).
    unfold Compare_visitOther.
    cbn [lhs set_lhs typeOf set_typeOf value rootNode]. run_steps.
    cbn [heap createContext].
    rewrite (heap_get_Some _ _ _ Ha), (heap_get_Some _ _ _ Hb). now run_steps. }
  { subst cmp. unfold compareBytes.
    repeat match goal with |- context [if ?b then _ else _] => destruct b end;
      discriminate. }
  rewrite Ecmp in He, Hd.
  split; [exact He|]. split; [exact Hd|]. split; [exact Hplain|].
  intros co E Hdef. now apply (Hcopy co _ E Hdef).
Qed.

(** The buffers [[1; 2]] and [[1; 3]]. *)
Definition buffers_heap : Heap :=
  list_to_map [(0%nat, OBuffer [1; 2]); (1%nat, OBuffer [1; 3])].

Lemma buffers_compare_by_content_witness :
  equal plain_host defaultOptions 1 buffers_heap (VRef 0%nat) (VRef 1%nat) = Ok (Some false)
  /\ diff plain_host defaultOptions 1 buffers_heap (VRef 0%nat) (VRef 1%nat)
     = Ok [EditLhs [] (VRef 1%nat)]
  /\ diff plain_host copyingOptions 1 buffers_heap (VRef 0%nat) (VRef 1%nat)
     = Ok [EditLhs [] (VRef 2%nat)].
Proof.
  destruct (buffers_compare_by_content plain_host defaultOptions 0 buffers_heap 0%nat 1%nat
              [1; 2] [1; 3]) as (H1 & H2 & H3 & _).
  - discriminate.
  - reflexivity.
  - reflexivity.
  - split; [exact H1|]. split; [rewrite H2; now apply H3|].
    destruct (buffers_compare_by_content plain_host copyingOptions 0 buffers_heap
                0%nat 1%nat [1; 2] [1; 3]) as (_ & H4 & _).
    + discriminate.
    + reflexivity.
    + reflexivity.
    + rewrite H4. vm_compute. reflexivity.
Defined.

Lemma length_view_bytes h buf off len : length (view_bytes h buf off len) = len.
Proof. unfold view_bytes. now rewrite length_map, length_seq. Qed.

(** Two distinct [DataView]s compare equal exactly when their byte lengths
    agree and either they are views of the same buffer, whatever their
    offsets into it, or their bytes agree.  Otherwise [diff] is one edit at
    the root that carries the right-hand view; under [rhsCopyOpts] with the
    default [createCopyFn] the diff throws instead, because
    [defaultCreateCopy] calls [slice] on the view. *)
Theorem views_compare_by_length_and_buffer host opts fuel h a b
    (lbuf : addr) (loff llen : nat) (rbuf : addr) (roff rlen : nat) :
  a <> b ->
  h !! a = Some (OView lbuf loff llen) -> h !! b = Some (OView rbuf roff rlen) ->
  let same :=
    Nat.eqb llen rlen
    && (Nat.eqb lbuf rbuf
        || bool_decide (view_bytes h lbuf loff llen = view_bytes h rbuf roff rlen)) in
  equal host opts (S fuel) h (VRef a) (VRef b) = Ok (Some same)
  /\ diff host opts (S fuel) h (VRef a) (VRef b)
     = (if same then Ok [] else root_edit opts (S fuel) h (VRef b))
  /\ (rhsCopyOpts opts = None -> root_edit opts (S fuel) h (VRef b) = Ok [EditLhs [] (VRef b)])
  /\ (forall copyOpts,
        rhsCopyOpts opts = Some copyOpts -> createCopyFn copyOpts = None ->
        root_edit opts (S fuel) h (VRef b) = Throw (TypeError "o.slice is not a function")).
Proof.
  intros Hab Ha Hb same.
  destruct (root_edit_leaf opts fuel h b _ Hb) as [Hplain Hcopy].
  assert (Hka : kind_of h (VRef a) = KView) by (cbn; unfold heap_get; now rewrite Ha).
  assert (Hkb : kind_of h (VRef b) = KView) by (cbn; unfold heap_get; now rewrite Hb).
  set (cmp := if negb (Nat.eqb llen rlen) then NOT_EQUAL
              else if Nat.eqb lbuf rbuf then IS_EQUAL_B
              else compareBytes (view_bytes h lbuf loff llen) (view_bytes h rbuf roff rlen)).
  assert (Ecmp : IS_EQUAL cmp = same).
  { subst cmp same. destruct (Nat.eqb_spec llen rlen) as [Hlen|Hlen]; cbn [negb andb];
      [|reflexivity].
    destruct (Nat.eqb lbuf rbuf); cbn [orb]; [reflexivity|].
    apply compareBytes_equal. now rewrite !length_view_bytes. }
  destruct (leaf_outcome_runs host opts fuel h (VRef a) (VRef b)
              (set_typeOf KView (rootNode (VRef a)))
              (set_lhs (set_typeOf KView (rootNode (VRef a)))
                 (set_typeOf KView (rootNode (VRef b))))
              cmp) as [He Hd]; try reflexivity.
  { intros alg. rewrite (run_leaf_refs _ _ _ _ _ _ _ KView Hab Hka Hkb eq_refl).
    unfold Compare_visitOther.
    cbn [lhs set_lhs typeOf set_typeOf value rootNode]. run_steps.
    cbn [heap createContext].
    rewrite (heap_get_Some _ _ _ Ha), (heap_get_Some _ _ _ Hb). now run_steps. }
  { subst cmp. unfold compareBytes.
    repeat match goal with |- context [if ?b then _ else _] => destruct b end;
      discriminate. }
  rewrite Ecmp in He, Hd.
  split; [exact He|]. split; [exact Hd|]. split; [exact Hplain|].
  intros co E Hdef. now destruct (Hcopy co _ E Hdef eq_refl) as [_ ->].
Qed.

(** One buffer [[1; 2; 3]] and two views of it, at offsets 0 and 1, of
    length 2. *)
Definition views_heap : Heap :=
  list_to_map [(0%nat, OView 2%nat 0%nat 2%nat); (1%nat, OView 2%nat 1%nat 2%nat);
               (2%nat, OBuffer [1; 2; 3])].

(** Two views of different lengths. *)
Definition unequal_views_heap : Heap :=
  list_to_map [(0%nat, OView 2%nat 0%nat 2%nat); (1%nat, OView 2%nat 0%nat 3%nat);
               (2%nat, OBuffer [1; 2; 3])].

Lemma views_compare_by_length_and_buffer_witness :
  (equal plain_host defaultOptions 1 views_heap (VRef 0%nat) (VRef 1%nat) = Ok (Some true)
   /\ diff plain_host defaultOptions 1 views_heap (VRef 0%nat) (VRef 1%nat) = Ok [])
  /\ diff plain_host defaultOptions 1 unequal_views_heap (VRef 0%nat) (VRef 1%nat)
     = Ok [EditLhs [] (VRef 1%nat)]
  /\ diff plain_host copyingOptions 1 unequal_views_heap (VRef 0%nat) (VRef 1%nat)
     = Throw (TypeError "o.slice is not a function").
Proof.
  split; [|split].
  - destruct (views_compare_by_length_and_buffer plain_host defaultOptions 0 views_heap
                0%nat 1%nat 2%nat 0%nat 2%nat 2%nat 1%nat 2%nat) as (H1 & H2 & _).
    + discriminate.
    + reflexivity.
    + reflexivity.
    + exact (conj H1 H2).
  - destruct (views_compare_by_length_and_buffer plain_host defaultOptions 0
                unequal_views_heap 0%nat 1%nat 2%nat 0%nat 2%nat 2%nat 0%nat 3%nat)
      as (_ & H2 & H3 & _).
    + discriminate.
    + reflexivity.
    + reflexivity.
    + rewrite H2. now apply H3.
  - destruct (views_compare_by_length_and_buffer plain_host copyingOptions 0
                unequal_views_heap 0%nat 1%nat 2%nat 0%nat 2%nat 2%nat 0%nat 3%nat)
      as (_ & H2 & _ & H4).
    + discriminate.
    + reflexivity.
    + reflexivity.
    + rewrite H2. now apply (H4 defaultOptions).
Defined.

(** * Comparisons are read-only *)

(** The hooks leave the heap alone, unless [Diff] copies what it carries. *)
Lemma heap_invariant host opts alg h :
  (alg = Diff -> rhsCopyOpts opts = None) ->
  Invariant host opts alg false (fun _ => True) (fun c => heap c = h).
Proof.
  intros Hplain. split; try (intros; exact Logic.I).
  - intros c H. exact H.
  - intros c0 c1 _ H. exact H.
  - intros l r cmp c H. unfold areEqual. wp_steps.
    destruct (searching c), (is_undefined _); exact H.
  - intros fuel l r cmp c _ _ H. unfold notEqual, createEdit, record.
    destruct alg; wp_steps; destruct (searching c); wp_steps; try exact H.
    apply wp_makePath. intros path _.
    apply wp_bind, wp_carried_plain; [now apply Hplain|]. wp_steps. exact H.
  - intros fuel r c _ H. unfold noLhs, createAdd, record.
    destruct alg; wp_steps; destruct (searching c); wp_steps; try exact H.
    destruct r as [r|]; wp_steps.
    apply wp_makePath. intros path _.
    destruct (rev _); wp_steps.
    apply wp_carried_plain; [now apply Hplain|]. wp_steps. exact H.
  - intros l c _ H. unfold noRhs, createRemove, record.
    destruct alg; wp_steps; destruct (searching c); wp_steps; try exact H.
    destruct l as [l|]; wp_steps.
    apply wp_makePath. intros path _. wp_steps. exact H.
Qed.

(** * Traversals that are never aborted *)

(** [completes r Q]: the run [r] did not throw; when it returned, [Q]
    holds of the result. *)
Definition completes {A} (r : res (A * Context)) (Q : A -> Context -> Prop) : Prop :=
  match r with
  | Ok (a, c) => Q a c
  | Throw _ => False
  | OutOfFuel => True
  end.

Lemma completes_bind {A B} (m : M A) (k : A -> M B) c (Q : B -> Context -> Prop) :
  completes (m c) (fun a c' => completes (k a c') Q) -> completes (bind m k c) Q.
Proof. unfold completes, bind. destruct (m c) as [[a c']| |]; intros H; exact H. Qed.

Lemma completes_mono {A} (r : res (A * Context)) (Q Q' : A -> Context -> Prop) :
  completes r Q -> (forall a c, Q a c -> Q' a c) -> completes r Q'.
Proof. unfold completes. destruct r as [[a c]| |]; intros H HQ; auto. Qed.

Definition continues (v : VisitResult) (_ : Context) : Prop := aborts v = false.

Lemma completes_for_each {A} (l : list A) (body : A -> M VisitResult) (k : M VisitResult) :
  (forall x c, In x l -> completes (body x c) continues) ->
  (forall c, completes (k c) continues) ->
  forall c, completes (for_each l body k c) continues.
Proof.
  intros Hbody Hk. induction l as [|x l IH]; intros c; cbn [for_each].
  - apply Hk.
  - apply completes_bind. eapply completes_mono; [apply Hbody; now left|].
    intros r c' Hr. cbv beta. unfold continues in Hr. rewrite Hr.
    apply IH. intros y c0 Hy. apply Hbody. now right.
Qed.

(** The result of a callback that lets the traversal go on: it is not a
    node, not another truthy value and not an exception, and a function
    that it returns does not throw. *)
Definition goes_on (r : CbResult) : bool :=
  match r with
  | CbBool _ | CbChildren _ => true
  | CbFunction fn =>
      match before_children fn, after_children fn with
      | None, None => true
      | _, _ => false
      end
  | CbAbort _ => false
  | CbValue v => negb (aborts (RValue v))
  | CbThrows _ => false
  end.

Section NeverAborted.
Variable opts : Options.
Hypothesis never_aborts :
  forall cb n, callback opts = Some cb -> goes_on (cb n) = true.
Variable visit : GraphNode -> M VisitResult.
Hypothesis H_visit : forall n c, completes (visit n c) continues.

Lemma Traverse_visitNode_continues node childVisitorFn c :
  (forall f c0, childVisitorFn = Some f -> completes (f node c0) continues) ->
  completes (Traverse_visitNode opts visit node childVisitorFn c) continues.
Proof.
  intros Hf. unfold Traverse_visitNode, Visitor_visitNode.
  assert (Hchildren : completes (match childVisitorFn with
                                 | Some f => f node
                                 | None => ret (RBool true)
                                 end c) continues).
  { destruct childVisitorFn as [f|]; [now apply Hf | reflexivity]. }
  destruct (callback opts) as [cb|] eqn:Ecb; [|exact Hchildren].
  assert (Hq := never_aborts cb node eq_refl).
  destruct (cb node) as [[|]|ns|[before after]|n|v|e] eqn:E; cbn in Hq; try discriminate Hq.
  - exact Hchildren.
  - reflexivity.
  - apply completes_for_each; [|reflexivity]. intros x c0 _. apply H_visit.
  - destruct childVisitorFn as [f|]; [|reflexivity].
    cbn [before_children after_children]. destruct before, after; try discriminate Hq.
    specialize (Hf f c eq_refl). unfold finally_call, completes in *.
    now destruct (f node c) as [[r c']| |].
  - destruct v as [| |[|]| | |]; try exact Hchildren; cbn [ret completes];
      unfold continues; now apply negb_true_iff in Hq.
Qed.

Lemma ensureProperties_completes node c (Q : GraphNode -> Context -> Prop) :
  (forall n, Q n c) -> completes (ensureProperties opts node c) Q.
Proof.
  intros H. unfold ensureProperties, updateObjectNodeProperties.
  destruct (properties node); [apply H|].
  unfold bind, get. destruct (propFilter opts); apply H.
Qed.
End NeverAborted.

Lemma Traverse_visit_continues opts :
  (forall cb n, callback opts = Some cb -> goes_on (cb n) = true) ->
  forall fuel node c, completes (Traverse_visit opts fuel node c) continues.
Proof.
  intros Hcb. induction fuel as [|fuel IH]; intros node c; [exact Logic.I|].
  cbn [Traverse_visit]. unfold Visitor_visit. apply completes_bind. cbn [get completes].
  destruct (hasReference c node); [reflexivity|].
  apply completes_bind. unfold ensureTypeOf, updateNodeTypeOf.
  assert (Hguard : forall n (k : M VisitResult) c0,
            (forall c1, completes (k c1) continues) ->
            completes ((guardReference opts n ;;; k) c0) continues).
  { intros n k c0 Hk. destruct (guardReference_refs opts n c0) as (rs & E).
    rewrite (bind_Ok _ _ _ _ _ E). apply Hk. }
  assert (Hnode := Traverse_visitNode_continues opts Hcb (Traverse_visit opts fuel) IH).
  assert (Hdispatch : forall n,
    completes
      (match typeOf n with
       | Some KArray =>
           guardReference opts n ;;;
           Visitor_visitArray (Traverse_visitNode opts (Traverse_visit opts fuel))
             (Traverse_visit opts fuel) createArrayElementNode n
       | Some KSet =>
           guardReference opts n ;;;
           Visitor_visitSet (Traverse_visitNode opts (Traverse_visit opts fuel))
             (Traverse_visit opts fuel) createSetElementNode n
       | Some KMap =>
           guardReference opts n ;;;
           Visitor_visitMap (Traverse_visitNode opts (Traverse_visit opts fuel))
             (Traverse_visit opts fuel) createMapElementNode n
       | Some KObject =>
           guardReference opts n ;;;
           Visitor_visitObject opts (Traverse_visitNode opts (Traverse_visit opts fuel))
             (Traverse_visit opts fuel) createObjectPropertyNode n
       | _ => Visitor_visitOther (Traverse_visitNode opts (Traverse_visit opts fuel)) n
       end c) continues).
  { intros n.
    assert (Hother : completes
              (Visitor_visitOther (Traverse_visitNode opts (Traverse_visit opts fuel)) n c)
              continues).
    { apply Hnode. intros f c0 [=]. }
    destruct (typeOf n) as [[]|]; try exact Hother; apply Hguard; intros c1; apply Hnode;
      intros f c0 [= <-].
    - apply completes_bind. cbn [gets completes].
      apply completes_for_each; [|reflexivity]. intros i c2 _.
      apply completes_bind. cbn [gets completes]. apply IH.
    - apply completes_bind. apply ensureProperties_completes. intros n'.
      apply completes_for_each; [|reflexivity]. intros i c2 _.
      apply completes_bind. cbn [gets completes]. apply IH.
    - apply completes_bind. cbn [gets completes].
      apply completes_for_each; [|reflexivity]. intros i c2 _. apply IH.
    - apply completes_bind. cbn [gets completes].
      apply completes_for_each; [|reflexivity]. intros i c2 _. apply IH. }
  destruct (typeOf node); cbn [ret gets completes]; apply Hdispatch.
Qed.


(** A callback that wraps the visit of the elements of an array in a
    function, answers a number with [undefined], and lets every other node
    be visited. *)
Definition wrapping_callback (n : GraphNode) : CbResult :=
  match typeOf n with
  | Some KArray => CbFunction (mkChildrenCb None None)
  | Some KNumber => CbValue VUndefined
  | _ => CbBool true
  end.

Definition wrappingOptions : Options :=
  mkOptions ownEnumerableNames None false None (Some wrapping_callback)
    false None false false false None.

(** A callback that answers the number 2 with the text [stop]. *)
Definition stopping_callback (n : GraphNode) : CbResult :=
  match value n with
  | VNumber x => if Object_is (VNumber x) (VNumber (Num.of_Z 2))
                 then CbValue (VString "stop") else CbBool false
  | _ => CbBool true
  end.

Definition stoppingOptions : Options :=
  mkOptions ownEnumerableNames None false None (Some stopping_callback)
    false None false false false None.


(** * The matching pass of lax array ordering *)

Lemma wp_foldM_prefix {A S} total (P : list A -> S -> Prop) (f : S -> A -> M S) (l : list A) :
  (forall done x s c, P done s ->
     wp total (f s x c) (fun s' _ => P (done ++ [x]) s')) ->
  forall done s c, P done s ->
    wp total (foldM f l s c) (fun s' _ => P (done ++ l) s').
Proof.
  intros Hf. induction l as [|x l IH]; intros done s c Hs; cbn [foldM].
  - apply wp_ret. now rewrite app_nil_r.
  - apply wp_bind. eapply wp_mono; [apply (Hf done); exact Hs|].
    intros s' c' Hs'. cbv beta.
    replace (done ++ x :: l) with ((done ++ [x]) ++ l) by now rewrite <- app_assoc.
    now apply IH.
Qed.

Section Matching.
Variable compare : option GraphNode -> option GraphNode -> M VisitResult.
Variable rhsElems : list (option GraphNode).
Hypothesis rhs_indexed : forall p, In (Some p) rhsElems -> 0 <= index_of_node p.

(** What [findIndexOf] returns for the element [elem] when the right-hand
    slots in [matches] are consumed already. *)
Definition lookup_result (elem : option GraphNode) (matches : list Z) (r : Z * list Z) : Prop :=
  (fst r = -1 /\ snd r = matches)
  \/ exists e p,
       elem = Some e /\ In (Some p) rhsElems
       /\ fst r = index_of_node p /\ snd r = matches ++ [index_of_node p]
       /\ ~ In (index_of_node p) matches
       /\ typeOf p = typeOf e.

Lemma option_kind_eqb_eq (x y : option kind) : option_kind_eqb x y = true -> x = y.
Proof.
  destruct x as [x|], y as [y|]; cbn; try discriminate; [|reflexivity].
  intros H. now apply kind_eqb_eq in H as ->.
Qed.

Lemma unmatched_not_In matches i : unmatched matches i = true -> ~ In i matches.
Proof.
  unfold unmatched. intros H Hin. apply negb_true_iff in H.
  assert (E : existsb (Z.eqb i) matches = true).
  { apply existsb_exists. exists i. split; [exact Hin | apply Z.eqb_refl]. }
  congruence.
Qed.

Lemma findIndexOf_lookup elem matches c :
  wp false (findIndexOf compare elem rhsElems matches c)
     (fun r _ => lookup_result elem matches r).
Proof.
  unfold findIndexOf.
  destruct elem as [e|], (present rhsElems) as [|x xs] eqn:E; wp_steps;
    try (now left).
  set (sameType := List.filter _ (x :: xs)).
  assert (Hs : forall y, In y sameType ->
                 In (Some y) rhsElems /\ typeOf y = typeOf e
                 /\ ~ In (index_of_node y) matches).
  { intros y Hy. apply filter_In in Hy as [Hy Hc].
    apply andb_true_iff in Hc as [Hk Hu]. rewrite <- E in Hy.
    apply In_present in Hy. split; [exact Hy|].
    split; [now apply option_kind_eqb_eq | now apply unmatched_not_In]. }
  destruct sameType as [|y ys]; wp_steps; [now left|].
  eapply wp_mono.
  { apply (wp_findM false (fun _ => True)); [|exact Logic.I].
    intros z c0 _ _. unfold wp. now destruct (searchCompare compare e z c0) as [[]| |]. }
  intros [z|] c1 [_ Hz]; wp_steps; [|now left].
  destruct (Hs z (Hz z eq_refl)) as (H1 & H2 & H3).
  right. exists e, z. now repeat split.
Qed.

(** The state of the matching pass after the left-hand entries [done]:
    every processed left index is classified once, as shared or as
    removed; a shared entry consumed a right-hand slot that no earlier
    entry had consumed, holding an element of the kind of the left one. *)
Definition matched (done : list (nat * option GraphNode))
    (st : list ArrayMatch * list ArrayMatch * list Z) : Prop :=
  let '(sharedIdx, removedIdx, consumedRhsIdx) := st in
  List.NoDup consumedRhsIdx
  /\ map rhIdx sharedIdx = consumedRhsIdx
  /\ Permutation (map lhIdx sharedIdx ++ map lhIdx removedIdx)
                 (map (fun ie => Z.of_nat (fst ie)) done)
  /\ Forall (fun am => rhIdx am = -1) removedIdx
  /\ Forall (fun am => exists e p,
                 In (Z.to_nat (lhIdx am), Some e) done /\ In (Some p) rhsElems
                 /\ index_of_node p = rhIdx am /\ typeOf p = typeOf e) sharedIdx.

Lemma matched_step done ie st c :
  matched done st ->
  wp false
     ((let '(sharedIdx, removedIdx, consumedRhsIdx) := st in
       let i := Z.of_nat (fst ie) in
       r <- findIndexOf compare (snd ie) rhsElems consumedRhsIdx ;;
       if fst r <? 0
       then ret (sharedIdx, removedIdx ++ [mkMatch i (-1)], snd r)
       else ret (sharedIdx ++ [mkMatch i (fst r)], removedIdx, snd r)) c)
     (fun st' _ => matched (done ++ [ie]) st').
Proof.
  destruct st as [[sharedIdx removedIdx] consumed].
  intros (Hnd & Hrh & Hperm & Hrem & Hsh). cbv zeta.
  apply wp_bind. eapply wp_mono; [apply findIndexOf_lookup|].
  intros r c1 Hr. cbv beta.
  assert (Hsh' : Forall (fun am => exists e p,
                     In (Z.to_nat (lhIdx am), Some e) (done ++ [ie]) /\ In (Some p) rhsElems
                     /\ index_of_node p = rhIdx am /\ typeOf p = typeOf e) sharedIdx).
  { eapply Forall_impl; [exact Hsh|]. intros am (e & p & H1 & H2).
    exists e, p. split; [apply in_or_app; now left | exact H2]. }
  destruct Hr as [[Hf Hs]|(e & p & He & Hp & Hf & Hs & Hni & Hk)].
  - rewrite Hf, Hs. cbn [Z.ltb Z.compare]. apply wp_ret.
    split; [exact Hnd|]. split; [exact Hrh|]. split; [|split].
    + rewrite !map_app. cbn [map lhIdx].
      rewrite app_assoc. now apply Permutation_app_tail.
    + apply Forall_app. split; [exact Hrem|]. now constructor.
    + exact Hsh'.
  - assert (Hge := rhs_indexed p Hp).
    destruct (fst r <? 0) eqn:Elt; [apply Z.ltb_lt in Elt; lia|].
    apply wp_ret. rewrite Hs, Hf.
    split; [|split; [|split; [|split]]].
    + apply List.NoDup_app; [exact Hnd | |].
      * apply List.NoDup_cons; [intros [] | constructor].
      * intros j Hj [<-|[]]. now apply Hni.
    + rewrite map_app. cbn [map rhIdx]. now rewrite Hrh.
    + rewrite !map_app. cbn [map lhIdx].
      rewrite <- app_assoc.
      eapply Permutation_trans;
        [apply Permutation_app_head, Permutation_app_comm|].
      rewrite app_assoc. now apply Permutation_app_tail.
    + exact Hrem.
    + apply Forall_app. split; [exact Hsh'|]. constructor; [|constructor].
      exists e, p. cbn [lhIdx rhIdx]. rewrite Nat2Z.id.
      split; [|now repeat split].
      apply in_or_app. right. left. destruct ie as [i o]. cbn in He |- *. now rewrite He.
Qed.

Lemma matchElements_matched lhsElems c :
  wp false (matchElements compare lhsElems rhsElems c)
     (fun st _ => matched (indexed lhsElems) st).
Proof.
  unfold matchElements.
  apply (wp_foldM_prefix false matched _ (indexed lhsElems)) with (done := []).
  - intros done ie st c0 Hst. now apply matched_step.
  - repeat split; try constructor.
Qed.
End Matching.

(** An element node sits in [elementNodes] at the index it carries. *)
Lemma elementNodes_at opts h a p :
  In (Some p) (elementNodes opts h a) ->
  0 <= index_of_node p /\ node_at (elementNodes opts h a) (index_of_node p) = Some p.
Proof.
  intros Hin. apply In_nth_error in Hin as (k & Hk).
  assert (Hn : node_at (elementNodes opts h a) (Z.of_nat k) = Some p).
  { unfold node_at. destruct (Z.of_nat k <? 0) eqn:E; [apply Z.ltb_lt in E; lia|].
    rewrite Nat2Z.id, Hk. reflexivity. }
  destruct (node_at_elementNodes opts h a k p Hn) as (_ & Hprop & _).
  unfold index_of_node. rewrite Hprop. split; [lia | exact Hn].
Qed.

Lemma map_fst_indexed {A B} (g : nat -> B) (l : list A) :
  map (fun ie => g (fst ie)) (indexed l) = map g (seq 0 (length l)).
Proof.
  unfold indexed. generalize 0%nat. induction l as [|x l IH]; intros s; cbn;
    [reflexivity | now rewrite IH].
Qed.

Lemma length_elementNodes opts h a :
  length (elementNodes opts h a) = length (array_elems h (value a)).
Proof. unfold elementNodes. now rewrite length_map, length_indexed. Qed.

(** The matching pass of lax array ordering pairs elements one to one.
    Whenever it completes on the element nodes of two arrays: every
    left-hand index is classified exactly once, as shared or as removed; no
    right-hand slot is consumed twice; and a shared pair consists of an
    existing left-hand element and an existing right-hand element of the
    same kind. *)
Theorem lax_matching_is_one_to_one host opts alg fuel h l r c
    (sharedIdx removedIdx : list ArrayMatch) (consumedRhsIdx : list Z) c' :
  matchElements (compare host opts alg fuel) (elementNodes opts h l) (elementNodes opts h r) c
  = Ok ((sharedIdx, removedIdx, consumedRhsIdx), c') ->
  List.NoDup (map rhIdx sharedIdx)
  /\ consumedRhsIdx = map rhIdx sharedIdx
  /\ Permutation (map lhIdx sharedIdx ++ map lhIdx removedIdx)
                 (map Z.of_nat (seq 0 (length (array_elems h (value l)))))
  /\ (forall am, In am removedIdx -> rhIdx am = -1)
  /\ (forall am, In am sharedIdx ->
        exists x y,
          node_at (elementNodes opts h l) (lhIdx am) = Some x
          /\ node_at (elementNodes opts h r) (rhIdx am) = Some y
          /\ typeOf x = typeOf y).
Proof.
  intros E.
  assert (H := wp_Ok false _ _ _ _
                 (matchElements_matched (compare host opts alg fuel)
                    (elementNodes opts h r)
                    (fun p Hp => proj1 (elementNodes_at opts h r p Hp))
                    (elementNodes opts h l) c) E).
  cbv beta in H. destruct H as (Hnd & Hrh & Hperm & Hrem & Hsh).
  rewrite Hrh. split; [exact Hnd|]. split; [reflexivity|].
  split; [|split].
  - rewrite map_fst_indexed, length_elementNodes in Hperm. exact Hperm.
  - now apply List.Forall_forall.
  - intros am Ham. rewrite List.Forall_forall in Hsh.
    destruct (Hsh am Ham) as (e & p & He & Hp & Hidx & Hk).
    exists e, p. split; [|split].
    + apply In_indexed in He. unfold node_at.
      assert (Hl : 0 <= lhIdx am).
      { assert (Hin : In (lhIdx am) (map lhIdx sharedIdx ++ map lhIdx removedIdx)).
        { apply in_or_app. left. now apply in_map. }
        apply (Permutation_in _ Hperm) in Hin. apply in_map_iff in Hin as (x & <- & _). lia. }
      destruct (lhIdx am <? 0) eqn:Elt; [apply Z.ltb_lt in Elt; lia|].
      now rewrite He.
    + rewrite <- Hidx. apply elementNodes_at, Hp.
    + now symmetry.
Qed.

Lemma lax_matching_is_one_to_one_witness :
  let l := set_typeOf KArray (rootNode (VRef 0%nat)) in
  let r := set_typeOf KArray (rootNode (VRef 1%nat)) in
  let sharedIdx := [mkMatch 0 0; mkMatch 1 2; mkMatch 2 1] in
  List.NoDup (map rhIdx sharedIdx)
  /\ [0; 2; 1] = map rhIdx sharedIdx
  /\ Permutation (map lhIdx sharedIdx ++ map lhIdx [])
                 (map Z.of_nat (seq 0 (length (array_elems sample_heap (value l)))))
  /\ (forall am, In am [] -> rhIdx am = -1)
  /\ (forall am, In am sharedIdx ->
        exists x y,
          node_at (elementNodes laxOptions sample_heap l) (lhIdx am) = Some x
          /\ node_at (elementNodes laxOptions sample_heap r) (rhIdx am) = Some y
          /\ typeOf x = typeOf y).
Proof.
  intros l r sharedIdx.
  apply (lax_matching_is_one_to_one plain_host laxOptions Diff 2 sample_heap l r
           (createContext laxOptions sample_heap) sharedIdx [] [0; 2; 1]
           (createContext laxOptions sample_heap)).
  vm_compute. reflexivity.
Defined.

(** * [diff] and [equal] agree under strict array ordering *)

(** [agree c rd re]: the run [rd] of [Diff] and the run [re] of [Equal],
    both started from the context [c] outside a search.  When [Diff]
    returns, it has not aborted, and either it recorded no change, and then
    [Equal] went through the very same steps to the very same context; or it
    recorded a change, and then [Equal] stopped at the first difference with
    a result that is not an equal one. *)
Definition agree (c : Context) (rd re : res (VisitResult * Context)) : Prop :=
  match rd with
  | Ok (vd, cd) =>
      aborts vd = false /\ searching cd = false
      /\ ((changes cd = changes c
           /\ (IS_EQUAL (result c) = true -> IS_EQUAL (result cd) = true)
           /\ exists ve, re = Ok (ve, cd) /\ aborts ve = false)
          \/ ((length (changes c) < length (changes cd))%nat
              /\ exists ve ce, re = Ok (ve, ce) /\ aborts ve = true
                               /\ IS_EQUAL (result ce) = false))
  | _ => True
  end.

Lemma agree_for_each {A} (l : list A) (bodyD bodyE : A -> M VisitResult)
    (kD kE : M VisitResult) :
  (forall x c, In x l -> searching c = false -> agree c (bodyD x c) (bodyE x c)) ->
  (forall c, searching c = false -> agree c (kD c) (kE c)) ->
  forall c, searching c = false ->
    agree c (for_each l bodyD kD c) (for_each l bodyE kE c).
Proof.
  intros Hbody Hk. induction l as [|x l IH]; intros c Hc; cbn [for_each].
  - now apply Hk.
  - assert (Hx := Hbody x c (or_introl eq_refl) Hc).
    assert (IH' : forall c0, searching c0 = false ->
              agree c0 (for_each l bodyD kD c0) (for_each l bodyE kE c0)).
    { apply IH. intros y c0 Hy. apply Hbody. now right. }
    unfold bind at 1. unfold agree in Hx.
    destruct (bodyD x c) as [[vd cd]| |]; [|exact Logic.I|exact Logic.I].
    destruct Hx as (Hvd & Hsd & Hcase). rewrite Hvd.
    specialize (IH' cd Hsd). unfold agree in IH' |- *.
    destruct (for_each l bodyD kD cd) as [[vd' cd']| |]; [|exact Logic.I|exact Logic.I].
    destruct IH' as (Hvd' & Hsd' & Hcase'). split; [exact Hvd'|]. split; [exact Hsd'|].
    destruct Hcase as [(Hch & Hres & ve & Ee & Hve)|(Hlen & ve & ce & Ee & Hve & Hce)].
    + unfold bind. rewrite Ee, Hve.
      destruct Hcase' as [(Hch' & Hres' & ve' & Ee' & Hve')|(Hlen' & ve' & ce' & Ee' & Hve' & Hce')].
      * left. split; [congruence|]. split; [auto|]. now exists ve'.
      * right. split; [rewrite <- Hch; exact Hlen'|]. now exists ve', ce'.
    + right. split.
      * destruct Hcase' as [(Hch' & _)|(Hlen' & _)]; [rewrite Hch'; exact Hlen | lia].
      * exists ve, ce. unfold bind. rewrite Ee, Hve. now repeat split.
Qed.

(** A step that both algorithms share and that touches neither the change
    list, nor the result, nor the search flag. *)
Lemma agree_bind {A} (m : M A) (kD kE : A -> M VisitResult) c :
  (forall a c1, m c = Ok (a, c1) ->
     changes c1 = changes c /\ result c1 = result c /\ searching c1 = searching c
     /\ agree c1 (kD a c1) (kE a c1)) ->
  agree c (bind m kD c) (bind m kE c).
Proof.
  intros H. unfold bind. destruct (m c) as [[a c1]| |]; [|exact Logic.I|exact Logic.I].
  destruct (H a c1 eq_refl) as (Hch & Hres & Hs & Hag). unfold agree in *.
  destruct (kD a c1) as [[vd cd]| |]; [|exact Logic.I|exact Logic.I].
  now rewrite <- Hch, <- Hres.
Qed.

Section Agreement.
Variable host : Host.
Variable opts : Options.
Hypothesis strict_arrays : laxArrayOrdering opts = false.

Lemma agree_areEqual l r cmp c :
  searching c = false -> IS_EQUAL cmp = true ->
  agree c (areEqual l r cmp c) (areEqual l r cmp c).
Proof.
  intros Hs Hcmp. unfold areEqual. run_all. rewrite Hs. cbn [ret agree aborts].
  split; [reflexivity|].
  destruct (is_undefined (result c)); (split; [exact Hs|]); left;
    (split; [reflexivity|]); (split; [|now eexists]); auto.
Qed.

Lemma createEdit_keeps fuel l r c :
  wp false (createEdit host opts fuel l r c)
     (fun _ c1 => searching c1 = searching c /\ changes c1 = changes c).
Proof.
  unfold createEdit. wp_steps. apply wp_makePath. intros path _.
  apply wp_bind, wp_carried. intros m h'. wp_steps. split; reflexivity.
Qed.

Lemma createAdd_keeps fuel r c :
  wp false (createAdd host opts fuel r c)
     (fun _ c1 => searching c1 = searching c /\ changes c1 = changes c).
Proof.
  unfold createAdd. destruct r as [r|]; wp_steps. apply wp_makePath. intros path _.
  destruct (rev path); wp_steps.
  apply wp_carried. intros m h'. wp_steps. split; reflexivity.
Qed.

Lemma createRemove_keeps l c :
  wp false (createRemove host opts l c)
     (fun _ c1 => searching c1 = searching c /\ changes c1 = changes c).
Proof.
  unfold createRemove. destruct l as [l|]; wp_steps. apply wp_makePath. intros path _.
  wp_steps. split; reflexivity.
Qed.

(** What [Diff] does with a difference outside a search, next to what
    [Equal] does with it. *)
Lemma agree_change (mk : M Change) cmp (vE : VisitResult) c :
  searching c = false -> IS_EQUAL cmp = false -> aborts vE = true ->
  wp false (mk c) (fun _ c1 => searching c1 = searching c /\ changes c1 = changes c) ->
  agree c
    ((c0 <- get ;;
      (if searching c0 then modify (set_searchResult cmp)
       else (ch <- mk ;; modify (push_change ch) ;;; modify (set_result cmp))) ;;;
      ret (RBool true)) c)
    ((modify (record cmp) ;;; ret vE) c).
Proof.
  intros Hs Hcmp HvE Hmk. run_all. rewrite Hs. unfold bind at 1 2. unfold wp in Hmk.
  destruct (mk c) as [[ch c1]| |]; [|exact Logic.I|exact Logic.I].
  destruct Hmk as [Hs1 Hch]. run_all.
  cbn [ret agree aborts]. split; [reflexivity|]. split; [cbn; congruence|]. right. split.
  - cbn. rewrite length_app, Hch. cbn. lia.
  - eexists _, _. unfold record. rewrite Hs. split; [reflexivity|]. split; [exact HvE|exact Hcmp].
Qed.

Lemma agree_notEqual fuel l r cmp c :
  searching c = false -> IS_EQUAL cmp = false ->
  agree c (notEqual host opts Diff fuel l r cmp c) (notEqual host opts Equal fuel l r cmp c).
Proof.
  intros Hs Hcmp. unfold notEqual. apply agree_change; try assumption; [reflexivity|].
  apply createEdit_keeps.
Qed.

Lemma agree_noLhs fuel r c :
  searching c = false ->
  agree c (noLhs host opts Diff fuel r c) (noLhs host opts Equal fuel r c).
Proof.
  intros Hs. unfold noLhs.
  destruct r as [r|].
  - apply agree_change; try assumption; try reflexivity. apply createAdd_keeps.
  - run_all. rewrite Hs. exact Logic.I.
Qed.

Lemma agree_noRhs l c :
  searching c = false ->
  agree c (noRhs host opts Diff l c) (noRhs host opts Equal l c).
Proof.
  intros Hs. unfold noRhs.
  destruct l as [l|].
  - apply agree_change; try assumption; try reflexivity. apply createRemove_keeps.
  - run_all. rewrite Hs. exact Logic.I.
Qed.
Lemma agree_done c : searching c = false -> agree c (ret (RBool false) c) (ret (RBool false) c).
Proof.
  intros Hs. cbn [ret agree aborts]. split; [reflexivity|]. split; [exact Hs|].
  left. split; [reflexivity|]. split; [auto|]. now eexists.
Qed.

(** Steps that only read the context. *)
Definition reads {A} (m : M A) : Prop := forall c a c1, m c = Ok (a, c1) -> c1 = c.

Lemma agree_reads {A} (m : M A) (kD kE : A -> M VisitResult) c :
  reads m -> (forall a, agree c (kD a c) (kE a c)) ->
  agree c (bind m kD c) (bind m kE c).
Proof.
  intros Hm H. apply agree_bind. intros a c1 E. rewrite (Hm _ _ _ E). now repeat split.
Qed.

Lemma reads_ret {A} (a : A) : reads (ret a).
Proof. intros c a' c1 [= _ <-]. reflexivity. Qed.

Lemma reads_gets {A} (f : Context -> A) : reads (gets f).
Proof. intros c a' c1 [= _ <-]. reflexivity. Qed.

Lemma reads_get : reads get.
Proof. intros c a' c1 [= _ <-]. reflexivity. Qed.

Lemma reads_throw {A} e : reads (@throw A e).
Proof. intros c a' c1 [=]. Qed.

Lemma reads_bind {A B} (m : M A) (k : A -> M B) :
  reads m -> (forall a, reads (k a)) -> reads (bind m k).
Proof.
  intros Hm Hk c b c2. unfold bind. destruct (m c) as [[a c1]| |] eqn:E; try discriminate.
  intros E2. rewrite <- (Hm _ _ _ E). exact (Hk a _ _ _ E2).
Qed.

Lemma reads_lhs_of n : reads (lhs_of n).
Proof. unfold lhs_of. destruct (lhs n); [apply reads_ret | apply reads_throw]. Qed.

Lemma reads_ensureTypeOf n : reads (ensureTypeOf n).
Proof.
  unfold ensureTypeOf, updateNodeTypeOf. destruct (typeOf n); [apply reads_ret | apply reads_gets].
Qed.

Lemma reads_ensureProperties n : reads (ensureProperties opts n).
Proof.
  unfold ensureProperties, updateObjectNodeProperties.
  destruct (properties n); [apply reads_ret|].
  apply reads_bind; [apply reads_get|]. intros c.
  destruct (propFilter opts); apply reads_ret.
Qed.

Lemma reads_leaf_result (h : Heap) (l node : GraphNode) :
  reads (match typeOf node with
         | Some KString =>
             match value l, value node with
             | VString a, VString b => ret (CNum (localeCompare host a b))
             | _, _ => ill_typed
             end
         | Some KNumber =>
             match value l, value node with
             | VNumber a, VNumber b => ret (compareNumbers opts a b)
             | _, _ => ill_typed
             end
         | Some KRegex =>
             match value l, value node with
             | VRef a, VRef b =>
                 match heap_get h a, heap_get h b with
                 | ORegExp s, ORegExp t =>
                     ret (if localeCompare host s t =? 0 then IS_EQUAL_B else NOT_EQUAL)
                 | _, _ => ill_typed
                 end
             | _, _ => ill_typed
             end
         | Some KDate =>
             match value l, value node with
             | VRef a, VRef b =>
                 match heap_get h a, heap_get h b with
                 | ODate s, ODate t => ret (compareDates s t)
                 | _, _ => ill_typed
                 end
             | _, _ => ill_typed
             end
         | Some KView =>
             match value l, value node with
             | VRef a, VRef b =>
                 match heap_get h a, heap_get h b with
                 | OView lbuf loff llen, OView rbuf roff rlen =>
                     ret (if negb (Nat.eqb llen rlen) then NOT_EQUAL
                          else if Nat.eqb lbuf rbuf then IS_EQUAL_B
                          else compareBytes (view_bytes h lbuf loff llen)
                                            (view_bytes h rbuf roff rlen))
                 | _, _ => ill_typed
                 end
             | _, _ => ill_typed
             end
         | Some KBuffer =>
             match value l, value node with
             | VRef a, VRef b =>
                 match heap_get h a, heap_get h b with
                 | OBuffer s, OBuffer t =>
                     ret (if negb (Nat.eqb (length s) (length t)) then NOT_EQUAL
                          else compareBytes s t)
                 | _, _ => ill_typed
                 end
             | _, _ => ill_typed
             end
         | _ =>
             ret (if Object_is (value l) (value node) then IS_SAME
                  else if looseEquality opts && loose_equals host h (value l) (value node)
                       then IS_EQUAL_B
                  else if strict_equals (value l) (value node) then IS_EQUAL_B
                  else NOT_EQUAL)
         end).
Proof.
  destruct (typeOf node) as [[]|];
    repeat lazymatch goal with
      | |- reads (match ?x with _ => _ end) => destruct x
      end;
    first [apply reads_ret | apply reads_throw].
Qed.

Lemma agree_visitOther fuel node c :
  searching c = false ->
  agree c (Compare_visitOther host opts Diff fuel node c)
          (Compare_visitOther host opts Equal fuel node c).
Proof.
  intros Hs. unfold Compare_visitOther. destruct (lhs node) as [l|]; [|exact Logic.I].
  apply agree_reads; [apply reads_gets|]. intros h.
  apply agree_reads; [apply reads_leaf_result|]. intros res.
  destruct (IS_EQUAL res) eqn:E; [now apply agree_areEqual | now apply agree_notEqual].
Qed.

Section WithCompare.
Variable fuel : nat.
Variables compareD compareE : option GraphNode -> option GraphNode -> M VisitResult.
Hypothesis H_compare : forall l r c,
  searching c = false -> agree c (compareD l r c) (compareE l r c).

Lemma agree_visitObject node c :
  searching c = false ->
  agree c (Compare_visitObject host opts Diff fuel compareD node c)
          (Compare_visitObject host opts Equal fuel compareE node c).
Proof.
  intros Hs. unfold Compare_visitObject.
  apply agree_reads; [apply reads_lhs_of|]. intros l.
  apply agree_reads; [apply reads_ensureProperties|]. intros rhs.
  apply agree_reads; [apply reads_ensureProperties|]. intros lhs'.
  apply agree_for_each; [| |exact Hs].
  { intros p c1 _ Hs1. apply agree_reads; [apply reads_gets|]. intros h.
    now apply agree_noRhs. }
  intros c1 Hs1. apply agree_for_each; [| |exact Hs1].
  { intros p c2 _ Hs2. apply agree_reads; [apply reads_gets|]. intros h.
    now apply agree_noLhs. }
  intros c2 Hs2. apply agree_for_each; [| |exact Hs2].
  { intros p c3 _ Hs3. apply agree_reads; [apply reads_gets|]. intros h.
    apply agree_reads.
    { unfold Compare_createObjectPropertyNode.
      apply reads_bind; [apply reads_lhs_of|]. intros l0.
      apply reads_bind; [apply reads_gets|]. intros h0. apply reads_ret. }
    intros n. unfold Compare_visit. now apply H_compare. }
  intros c3 Hs3. now apply agree_done.
Qed.

Lemma agree_visitMap node c :
  searching c = false ->
  agree c (Compare_visitMap host opts Diff fuel compareD node c)
          (Compare_visitMap host opts Equal fuel compareE node c).
Proof.
  intros Hs. unfold Compare_visitMap.
  apply agree_reads; [apply reads_lhs_of|]. intros l.
  apply agree_reads; [apply reads_gets|]. intros h.
  apply agree_for_each; [| |exact Hs].
  { intros p c1 _ Hs1. apply agree_reads; [apply reads_gets|]. intros h1.
    now apply agree_noRhs. }
  intros c1 Hs1. apply agree_for_each; [| |exact Hs1].
  { intros p c2 _ Hs2. apply agree_reads; [apply reads_gets|]. intros h2.
    now apply agree_noLhs. }
  intros c2 Hs2. apply agree_for_each; [| |exact Hs2].
  { intros p c3 _ Hs3. apply agree_reads; [apply reads_gets|]. intros h3.
    apply agree_reads.
    { unfold Compare_createMapElementNode.
      apply reads_bind; [apply reads_lhs_of|]. intros l0.
      apply reads_bind; [apply reads_gets|]. intros h0. apply reads_ret. }
    intros n. unfold Compare_visit. now apply H_compare. }
  intros c3 Hs3. now apply agree_done.
Qed.

Lemma agree_visitSet node c :
  searching c = false ->
  agree c (Compare_visitSet host opts Diff fuel compareD node c)
          (Compare_visitSet host opts Equal fuel compareE node c).
Proof.
  intros Hs. unfold Compare_visitSet.
  apply agree_reads; [apply reads_lhs_of|]. intros l.
  apply agree_reads; [apply reads_gets|]. intros h.
  apply agree_for_each; [| |exact Hs].
  { intros p c1 _ Hs1. now apply agree_noRhs. }
  intros c1 Hs1. apply agree_for_each; [| |exact Hs1].
  { intros p c2 _ Hs2. now apply agree_noLhs. }
  intros c2 Hs2. apply agree_for_each; [| |exact Hs2].
  { intros p c3 _ Hs3.
    apply agree_reads.
    { unfold Compare_createSetElementNode.
      apply reads_bind; [apply reads_lhs_of|]. intros l0. apply reads_ret. }
    intros n. unfold Compare_visit. now apply H_compare. }
  intros c3 Hs3. now apply agree_done.
Qed.

Lemma agree_visitArray node c :
  searching c = false ->
  agree c (Compare_visitArray host opts Diff fuel compareD node c)
          (Compare_visitArray host opts Equal fuel compareE node c).
Proof.
  intros Hs. unfold Compare_visitArray.
  apply agree_reads; [apply reads_lhs_of|]. intros l.
  apply agree_reads; [apply reads_gets|]. intros h.
  rewrite strict_arrays.
  apply agree_for_each; [| |exact Hs].
  { intros i c1 _ Hs1. now apply H_compare. }
  intros c1 Hs1. now apply agree_done.
Qed.

Lemma agree_Compare_compare l r c :
  searching c = false ->
  agree c (Compare_compare host opts Diff fuel compareD l r c)
          (Compare_compare host opts Equal fuel compareE l r c).
Proof.
  intros Hs. unfold Compare_compare.
  destruct l as [l|], r as [r|].
  2: now apply agree_noRhs.
  2: now apply agree_noLhs.
  2: now apply agree_areEqual.
  destruct (negb _); [now apply agree_notEqual|].
  destruct (Object_is _ _); [now apply agree_areEqual|].
  apply agree_reads; [apply reads_ensureTypeOf|]. intros l'.
  apply agree_reads; [apply reads_ensureTypeOf|]. intros r'.
  destruct (option_kind_eqb _ _).
  - unfold Visitor_visit. apply agree_reads; [apply reads_get|]. intros c0.
    destruct (hasReference c0 (set_lhs l' r')); [now apply agree_done|].
    apply agree_reads; [apply reads_ensureTypeOf|]. intros n.
    assert (Hguard : forall (kD kE : M VisitResult),
              (forall c1, searching c1 = false -> agree c1 (kD c1) (kE c1)) ->
              agree c ((guardReference opts n ;;; kD) c) ((guardReference opts n ;;; kE) c)).
    { intros kD kE Hk. apply agree_bind. intros [] c1 E.
      destruct (guardReference_refs opts n c) as (rs & E'). rewrite E' in E.
      injection E as <-. repeat split. now apply Hk. }
    destruct (typeOf n) as [[]|]; try (now apply agree_visitOther); apply Hguard; intros c1 Hs1.
    + now apply agree_visitArray.
    + now apply agree_visitObject.
    + now apply agree_visitMap.
    + now apply agree_visitSet.
  - apply agree_reads; [apply reads_gets|]. intros h.
    destruct (_ && _); [now apply agree_areEqual|].
    destruct (is_kind _ _); [now apply agree_noLhs|].
    destruct (is_kind _ _); [now apply agree_noRhs|].
    now apply agree_notEqual.
Qed.
End WithCompare.

Lemma agree_compare fuel : forall l r c,
  searching c = false ->
  agree c (compare host opts Diff fuel l r c) (compare host opts Equal fuel l r c).
Proof.
  induction fuel as [|fuel IH]; intros l r c Hs; [exact Logic.I|].
  cbn [compare]. now apply agree_Compare_compare.
Qed.
End Agreement.

(** With strict array ordering (the default), [diff] and [equal] agree:
    whenever [diff] returns a change list, [equal] returns as well, and the
    list is empty exactly when [equal] does not return [false] (it returns
    [true], or [undefined] when nothing was compared). *)
Theorem diff_empty_iff_equal host opts fuel h (x y : JsValue) (cs : list Change) :
  laxArrayOrdering opts = false ->
  diff host opts fuel h x y = Ok cs ->
  exists r, equal host opts fuel h x y = Ok r /\ (cs = [] <-> r <> Some false).
Proof.
  intros Hstrict Hd. unfold diff, equal, run in *.
  assert (H := agree_compare host opts Hstrict fuel (Some (rootNode x)) (Some (rootNode y))
                 (createContext opts h) eq_refl).
  unfold agree in H.
  destruct (compare host opts Diff fuel _ _ _) as [[vd cd]| |]; try discriminate.
  injection Hd as <-.
  destruct H as (_ & _ & [(Hch & Hres & ve & -> & _)|(Hlen & ve & ce & -> & _ & Hce)]).
  - cbn in Hch, Hres. specialize (Hres eq_refl). eexists. split; [reflexivity|].
    split; [|intros _; exact Hch].
    intros _. destruct (is_undefined (result cd)); [discriminate|]. rewrite Hres. discriminate.
  - cbn in Hlen. eexists. split; [reflexivity|].
    destruct (result ce) eqn:E; try discriminate; cbn [is_undefined];
      rewrite Hce; (split; [intros Hnil; rewrite Hnil in Hlen; cbn in Hlen; lia
                           | intros Hf; now elim Hf]).
Qed.

Lemma diff_empty_iff_equal_witness :
  exists r,
    equal plain_host defaultOptions 3 sample_heap (VRef 0%nat) (VRef 1%nat) = Ok r
    /\ ([EditLhs [Patch.mkSegment (Some KArray) (Some (PIndex 2))] (VNumber (Num.of_Z 2));
         EditLhs [Patch.mkSegment (Some KArray) (Some (PIndex 1))] (VNumber (Num.of_Z 3))] = []
        <-> r <> Some false).
Proof.
  apply (diff_empty_iff_equal plain_host defaultOptions 3 sample_heap (VRef 0%nat) (VRef 1%nat)).
  - reflexivity.
  - vm_compute. reflexivity.
Defined.

(** * [copy] leaves the source graph alone *)

(** A visit that came back with a boolean. *)
Definition is_bool (v : VisitResult) : Prop :=
  match v with RBool _ => True | _ => False end.

Lemma is_bool_continues v : is_bool v -> aborts v = false.
Proof. now destruct v. Qed.

Lemma wp_for_each_continues {A} total (I : Context -> Prop) (l : list A)
    (body : A -> M VisitResult) (k : M VisitResult) (Q : VisitResult -> Context -> Prop) :
  (forall x c, In x l -> I c ->
     wp total (body x c) (fun v c' => is_bool v /\ I c')) ->
  (forall c, I c -> wp total (k c) Q) ->
  forall c, I c -> wp total (for_each l body k c) Q.
Proof.
  intros Hbody Hk. induction l as [|x l IH]; intros c Hc; cbn [for_each].
  - now apply Hk.
  - apply wp_bind. eapply wp_mono; [apply Hbody; [now left | exact Hc]|].
    intros r c' [Hr Hc']. cbv beta. rewrite (is_bool_continues r Hr).
    apply IH; [|exact Hc']. intros y c0 Hy. apply Hbody. now right.
Qed.

Section CopyFrame.
Variable opts : Options.
Variable total : bool.
Hypothesis default_copies : createCopyFn opts = None.
Variable h0 : Heap.

(** The source heap is still there, object by object. *)
Definition keeps_source (c : Context) : Prop := h0 ⊆ heap c.

(** A value that is not an object of the source heap. *)
Definition off_source (v : JsValue) : Prop :=
  match v with VRef a => a ∉ dom h0 | _ => True end.

(** A node as [Copy] builds them: its kind is not determined yet, and its
    parent, if any, mirrors into a new object. *)
Definition copy_node (n : GraphNode) : Prop :=
  typeOf n = None /\ forall p, parentNode n = Some p -> off_source (mirror p).

Lemma keeps_source_store a o c :
  a ∉ dom h0 -> keeps_source c -> keeps_source (set_heap (<[a := o]> (heap c)) c).
Proof.
  intros Ha Hc. unfold keeps_source. cbn.
  apply insert_subseteq_r; [now apply not_elem_of_dom | exact Hc].
Qed.

Lemma wp_alloc o c :
  keeps_source c ->
  wp total (alloc o c) (fun m c' => keeps_source c' /\ off_source m).
Proof.
  intros Hc. unfold alloc. cbn [wp].
  assert (Hf : fresh (dom (heap c)) ∉ dom h0).
  { intros Hin. apply (is_fresh (dom (heap c))).
    apply (subseteq_dom h0 (heap c) Hc). exact Hin. }
  split; [now apply keeps_source_store | exact Hf].
Qed.

Lemma wp_createCopy node c :
  keeps_source c ->
  wp total (createCopy opts node c)
     (fun m c' => keeps_source c'
                  /\ (container (kind_of (heap c) (value node)) = true -> off_source m)).
Proof.
  intros Hc. unfold createCopy. rewrite default_copies. unfold defaultCreateCopy.
  destruct (value node) as [| |b|n|s|a] eqn:Ev; try (apply wp_ret; split; [exact Hc | discriminate]).
  apply wp_bind, wp_get. cbn [kind_of].
  destruct (heap_get (heap c) a);
    try (eapply wp_mono; [now apply wp_alloc|]; intros m c' [H1 H2]; now split);
    try (wp_steps; split; [exact Hc | discriminate]).
  apply wp_throw.
Qed.

Lemma wp_store a o c :
  a ∉ dom h0 -> keeps_source c -> wp total (store a o c) (fun _ c' => keeps_source c').
Proof. intros Ha Hc. unfold store. apply wp_modify. now apply keeps_source_store. Qed.

Lemma wp_runAdder f parent child c :
  (forall p, parent = Some p -> off_source (mirror p)) ->
  keeps_source c ->
  wp total (runAdder f parent child c) (fun _ c' => keeps_source c').
Proof.
  intros Hp Hc. unfold runAdder. destruct parent as [p|]; [|apply wp_throw].
  specialize (Hp p eq_refl). unfold assign_prop.
  destruct f; destruct (mirror p) as [| |b|n|s|a]; try apply wp_throw;
    apply wp_bind, wp_get; cbn in Hp.
  - destruct (heap_get (heap c) a), (property child) as [[]|];
      try (now apply wp_ret); try (now apply wp_store);
      match goal with
      | |- context [if ?b then _ else _] =>
          destruct b; first [now apply wp_store | now apply wp_ret]
      end.
  - destruct (heap_get (heap c) a); try apply wp_throw. now apply wp_store.
  - destruct (heap_get (heap c) a); try apply wp_throw.
    destruct (existsb _ _); [now apply wp_ret | now apply wp_store].
  - destruct (heap_get (heap c) a), (property child) as [[]|];
      try (now apply wp_ret); try (now apply wp_store);
      match goal with
      | |- context [if ?b then _ else _] =>
          destruct b; first [now apply wp_store | now apply wp_ret]
      end.
Qed.

(** What a visit of [Copy] ensures: it comes back with a boolean, and the
    source is kept. *)
Definition copied {A} (r : VisitResult * A) (c : Context) : Prop :=
  is_bool (fst r) /\ keeps_source c.

Lemma Copy_visitNode_frame node childVisitorFn c :
  keeps_source c ->
  (forall p, parentNode node = Some p -> off_source (mirror p)) ->
  (forall f, childVisitorFn = Some f ->
     container (kind_of (heap c) (value node)) = true
     /\ forall m c0, keeps_source c0 -> off_source m ->
          wp total (f (set_mirror m node) c0)
             (fun v c' => is_bool v /\ keeps_source c')) ->
  wp total (Copy_visitNode opts node childVisitorFn c) copied.
Proof.
  intros Hc Hp Hf. unfold Copy_visitNode. apply wp_bind.
  apply wp_mono with
    (Q := fun r c' => copied r c' /\ parentNode (snd r) = parentNode node).
  - unfold Copy_mirrorNode.
    assert (Hchildren : forall m c0, keeps_source c0 ->
              (container (kind_of (heap c) (value node)) = true -> off_source m) ->
              wp total
                (match childVisitorFn with
                 | Some f => r <- f (set_mirror m node) ;; ret (r, set_mirror m node)
                 | None => ret (RBool true, set_mirror m node)
                 end c0)
                (fun r c' => copied r c' /\ parentNode (snd r) = parentNode node)).
    { intros m c0 Hc0 Hm. destruct childVisitorFn as [f|].
      - destruct (Hf f eq_refl) as [Hk Hrun]. apply wp_bind.
        eapply wp_mono; [apply Hrun; [exact Hc0 | now apply Hm]|].
        intros v c' [Hv Hc']. cbv beta. apply wp_ret. now repeat split.
      - apply wp_ret. now repeat split. }
    assert (Hfresh : wp total
              ((m <- createCopy opts node ;;
                match childVisitorFn with
                | Some f => r <- f (set_mirror m node) ;; ret (r, set_mirror m node)
                | None => ret (RBool true, set_mirror m node)
                end) c)
              (fun r c' => copied r c' /\ parentNode (snd r) = parentNode node)).
    { apply wp_bind. eapply wp_mono; [now apply wp_createCopy|].
      intros m c' [Hc' Hm]. cbv beta. now apply Hchildren. }
    destruct (guardCircularRefs opts); [|exact Hfresh].
    apply wp_bind, wp_get.
    destruct (0 <=? indexOfReference c node); [|exact Hfresh].
    destruct (refMirrors c) as [ms|]; [|apply wp_throw].
    destruct (indexOfReference c node <? Z.of_nat (length ms)).
    + apply wp_ret. now repeat split.
    + apply wp_bind. eapply wp_mono; [now apply wp_createCopy|].
      intros m c' [Hc' Hm]. cbv beta. apply wp_bind, wp_modify.
      apply Hchildren; [exact Hc' | exact Hm].
  - intros r c' [[Hr Hc'] Hpar]. cbv beta.
    destruct (addChildFn (snd r)) as [g|]; [|apply wp_ret; now split].
    apply wp_bind. eapply wp_mono.
    { apply wp_runAdder; [|exact Hc']. rewrite Hpar. exact Hp. }
    intros [] c2 Hc2. apply wp_ret. now split.
Qed.
End CopyFrame.

Lemma copy_child_node h0 (child parent : GraphNode) f :
  off_source h0 (mirror parent) ->
  typeOf child = None -> parentNode child = Some parent ->
  copy_node h0 (set_addChildFn f child).
Proof.
  intros Hm Ht Hp. split; [exact Ht|]. cbn. rewrite Hp. now intros p [= <-].
Qed.

Lemma Copy_visit_frame opts h0 :
  createCopyFn opts = None ->
  forall fuel node c,
    keeps_source h0 c -> copy_node h0 node ->
    wp false (Copy_visit opts fuel node c) (copied h0).
Proof.
  intros Hdef. induction fuel as [|fuel IH]; intros node c Hc [Ht Hp]; [reflexivity|].
  cbn [Copy_visit]. unfold Visitor_visit. apply wp_bind, wp_get.
  destruct (hasReference c node); [apply wp_ret; now split|].
  unfold ensureTypeOf. rewrite Ht. unfold updateNodeTypeOf. apply wp_bind, wp_gets.
  cbn [typeOf set_typeOf].
  set (node' := set_typeOf (kind_of (heap c) (value node)) node).
  assert (Hp' : forall p, parentNode node' = Some p -> off_source h0 (mirror p)) by exact Hp.
  assert (Hvisit : forall child c0,
            keeps_source h0 c0 -> copy_node h0 child ->
            wp false ((r <- Copy_visit opts fuel child ;; ret (fst r)) c0)
               (fun v c' => is_bool v /\ keeps_source h0 c')).
  { intros child c0 Hc0 Hchild. apply wp_bind.
    eapply wp_mono; [now apply IH|]. intros r c' [Hr Hc']. now apply wp_ret. }
  assert (Hguard : forall (k : M (VisitResult * GraphNode)),
            container (kind_of (heap c) (value node)) = true ->
            (forall c1, keeps_source h0 c1 -> heap c1 = heap c ->
                        wp false (k c1) (copied h0)) ->
            wp false ((guardReference opts node' ;;; k) c) (copied h0)).
  { intros k _ Hk. destruct (guardReference_refs opts node' c) as (rs & E).
    rewrite (bind_Ok _ _ _ _ _ E). now apply Hk. }
  assert (Hother : wp false (Visitor_visitOther (Copy_visitNode opts) node' c) (copied h0)).
  { apply Copy_visitNode_frame; auto. intros f [=]. }
  destruct (kind_of (heap c) (value node)) eqn:Ek; try exact Hother;
    (apply Hguard; [reflexivity|]; intros c1 Hc1 Hh1;
     apply Copy_visitNode_frame; auto; intros f [= <-];
     (split; [cbn [value node' set_typeOf]; rewrite Hh1, Ek; reflexivity|]);
     intros m c0 Hc0 Hm).
  - apply wp_bind, wp_gets.
    apply (wp_for_each_continues false (keeps_source h0)); [| |exact Hc0].
    + intros i c2 _ Hc2. apply wp_bind, wp_gets. apply Hvisit; [exact Hc2|].
      now apply (copy_child_node h0 _ (set_mirror m node')).
    + intros c2 Hc2. apply wp_ret. now split.
  - apply wp_bind.
    apply wp_mono with (Q := fun n c' => keeps_source h0 c' /\ mirror n = m).
    { unfold ensureProperties, updateObjectNodeProperties.
      destruct (properties (set_mirror m node')); [now apply wp_ret|].
      apply wp_bind, wp_get. destruct (propFilter opts); now apply wp_ret. }
    intros n c' [Hc' Hn]. cbv beta.
    apply (wp_for_each_continues false (keeps_source h0)); [| |exact Hc'].
    + intros i c2 _ Hc2. apply wp_bind, wp_gets. apply Hvisit; [exact Hc2|].
      apply (copy_child_node h0 _ n); [now rewrite Hn | reflexivity | reflexivity].
    + intros c2 Hc2. apply wp_ret. now split.
  - apply wp_bind, wp_gets.
    apply (wp_for_each_continues false (keeps_source h0)); [| |exact Hc0].
    + intros i c2 _ Hc2. apply Hvisit; [exact Hc2|].
      now apply (copy_child_node h0 _ (set_mirror m node')).
    + intros c2 Hc2. apply wp_ret. now split.
  - apply wp_bind, wp_gets.
    apply (wp_for_each_continues false (keeps_source h0)); [| |exact Hc0].
    + intros i c2 _ Hc2. apply Hvisit; [exact Hc2|].
      now apply (copy_child_node h0 _ (set_mirror m node')).
    + intros c2 Hc2. apply wp_ret. now split.
Qed.

(** The mirror that [defaultCreateCopy] makes for a value: immutable values
    and functions mirror into themselves, every other object into the next
    free address. *)
Definition mirror_of (h : Heap) (v : JsValue) : JsValue :=
  match v with
  | VRef a =>
      match heap_get h a with
      | OFunction => VRef a
      | _ => VRef (fresh (dom h))
      end
  | _ => v
  end.

Lemma wp_any {A} (r : res (A * Context)) : wp false r (fun _ _ => True).
Proof. now destruct r as [[a c]| |]. Qed.

Lemma wp_createCopy_mirror opts node c :
  createCopyFn opts = None ->
  wp false (createCopy opts node c) (fun m _ => m = mirror_of (heap c) (value node)).
Proof.
  intros Hdef. unfold createCopy, defaultCreateCopy, mirror_of. rewrite Hdef.
  destruct (value node) as [| |b|n|s|a]; try (now apply wp_ret).
  apply wp_bind, wp_get. now destruct (heap_get (heap c) a).
Qed.

Lemma Copy_visitNode_mirror opts node childVisitorFn c :
  createCopyFn opts = None ->
  addChildFn node = None ->
  (guardCircularRefs opts = true -> refMirrors c = Some []) ->
  wp false (Copy_visitNode opts node childVisitorFn c)
     (fun r _ => mirror (snd r) = mirror_of (heap c) (value node)).
Proof.
  intros Hdef Hadd Hmirrors. unfold Copy_visitNode. apply wp_bind.
  apply wp_mono with
    (Q := fun r _ => mirror (snd r) = mirror_of (heap c) (value node)
                     /\ addChildFn (snd r) = None).
  - unfold Copy_mirrorNode.
    assert (Hchildren : forall c0,
              wp false
                (match childVisitorFn with
                 | Some f =>
                     r <- f (set_mirror (mirror_of (heap c) (value node)) node) ;;
                     ret (r, set_mirror (mirror_of (heap c) (value node)) node)
                 | None => ret (RBool true, set_mirror (mirror_of (heap c) (value node)) node)
                 end c0)
                (fun r _ => mirror (snd r) = mirror_of (heap c) (value node)
                            /\ addChildFn (snd r) = None)).
    { intros c0. destruct childVisitorFn as [f|]; [|now apply wp_ret].
      apply wp_bind. eapply wp_mono; [apply wp_any|].
      intros v c' _. now apply wp_ret. }
    assert (Hfresh : wp false
              ((m <- createCopy opts node ;;
                match childVisitorFn with
                | Some f => r <- f (set_mirror m node) ;; ret (r, set_mirror m node)
                | None => ret (RBool true, set_mirror m node)
                end) c)
              (fun r _ => mirror (snd r) = mirror_of (heap c) (value node)
                          /\ addChildFn (snd r) = None)).
    { apply wp_bind. eapply wp_mono; [now apply wp_createCopy_mirror|].
      intros m c' ->. apply Hchildren. }
    destruct (guardCircularRefs opts); [|exact Hfresh].
    apply wp_bind, wp_get.
    destruct (0 <=? indexOfReference c node) eqn:Eidx; [|exact Hfresh].
    rewrite (Hmirrors eq_refl). cbn [length].
    destruct (indexOfReference c node <? Z.of_nat 0) eqn:Elt.
    { apply Z.leb_le in Eidx. apply Z.ltb_lt in Elt. lia. }
    apply wp_bind. eapply wp_mono; [now apply wp_createCopy_mirror|].
    intros m c' ->. apply wp_bind, wp_modify. apply Hchildren.
  - intros r c' [Hm Ha]. cbv beta. rewrite Ha. now apply wp_ret.
Qed.

Lemma Copy_visit_root_mirror opts fuel h v :
  createCopyFn opts = None ->
  wp false (Copy_visit opts fuel (rootNode v) (createContext opts h))
     (fun r _ => mirror (snd r) = mirror_of h v).
Proof.
  intros Hdef. destruct fuel as [|fuel]; [reflexivity|].
  cbn [Copy_visit]. unfold Visitor_visit. rewrite bind_get_l.
  rewrite hasReference_createContext.
  rewrite (bind_Ok _ _ _ _ _ (ensureTypeOf_root _ _)).
  cbn [typeOf set_typeOf heap createContext].
  set (node := set_typeOf (kind_of h v) (rootNode v)).
  assert (Hnode : forall childVisitorFn c1,
            heap c1 = h -> refMirrors c1 = refMirrors (createContext opts h) ->
            wp false (Copy_visitNode opts node childVisitorFn c1)
               (fun r _ => mirror (snd r) = mirror_of h v)).
  { intros f c1 Hh Hm. rewrite <- Hh.
    apply (Copy_visitNode_mirror opts node f c1 Hdef eq_refl).
    intros Hg. rewrite Hm. cbn. now rewrite Hg. }
  assert (Hguard : forall (k : M (VisitResult * GraphNode)),
            (forall c1, heap c1 = h -> refMirrors c1 = refMirrors (createContext opts h) ->
                        wp false (k c1) (fun r _ => mirror (snd r) = mirror_of h v)) ->
            wp false ((guardReference opts node ;;; k) (createContext opts h))
               (fun r _ => mirror (snd r) = mirror_of h v)).
  { intros k Hk. destruct (guardReference_refs opts node (createContext opts h)) as (rs & E).
    rewrite (bind_Ok _ _ _ _ _ E). now apply Hk. }
  destruct (kind_of h v); try (now apply Hnode); apply Hguard; intros c1 Hh Hm;
    now apply Hnode.
Qed.

Lemma copy_extends opts fuel h (v m : JsValue) (h' : Heap) :
  createCopyFn opts = None -> copy opts fuel h v = Ok (m, h') -> h ⊆ h'.
Proof.
  intros Hdef E. unfold copy in E.
  assert (Hframe : wp false (Copy_visit opts fuel (rootNode v) (createContext opts h))
                     (copied h)).
  { apply Copy_visit_frame; [exact Hdef | unfold keeps_source; reflexivity |].
    split; [reflexivity | discriminate]. }
  destruct (Copy_visit opts fuel (rootNode v) (createContext opts h)) as [[[r src] c]| |];
    try discriminate.
  destruct Hframe as [Hr Hc]. cbn in Hr.
  destruct r as [b|n|]; try contradiction. now injection E as <- <-.
Qed.

(** [copy] never modifies the graph it copies, and hands back a new object:
    whenever it returns (with the default [createCopyFn]), every object of
    the source heap is still there unchanged; the result is the value
    itself for primitives and functions, and a newly allocated object for
    every other object. *)
Theorem copy_keeps_source opts fuel h (v m : JsValue) (h' : Heap) :
  createCopyFn opts = None ->
  copy opts fuel h v = Ok (m, h') ->
  (forall a o, h !! a = Some o -> h' !! a = Some o)
  /\ match v with
     | VRef a =>
         match h !! a with
         | None | Some OFunction => m = v
         | Some _ => exists a', m = VRef a' /\ h !! a' = None
         end
     | _ => m = v
     end.
Proof.
  intros Hdef E. unfold copy in E.
  assert (Hframe : wp false (Copy_visit opts fuel (rootNode v) (createContext opts h))
                     (copied h)).
  { apply Copy_visit_frame; [exact Hdef | unfold keeps_source; reflexivity |].
    split; [reflexivity | discriminate]. }
  assert (Hroot := Copy_visit_root_mirror opts fuel h v Hdef).
  destruct (Copy_visit opts fuel (rootNode v) (createContext opts h)) as [[[r src] c]| |];
    try discriminate.
  destruct Hframe as [Hr Hc]. cbn in Hr, Hroot.
  destruct r as [b|n|]; try contradiction. injection E as <- <-. split.
  - intros a o Ha. unfold keeps_source in Hc.
    exact (lookup_weaken _ _ _ _ Ha Hc).
  - rewrite Hroot. unfold mirror_of. destruct v as [| |b0|n|s|a]; try reflexivity.
    unfold heap_get. destruct (h !! a) as [o|] eqn:Ea; cbn [default]; [|reflexivity].
    assert (Hnew : h !! fresh (dom h) = None).
    { apply not_elem_of_dom. apply is_fresh. }
    destruct o; try reflexivity; now exists (fresh (dom h)).
Qed.

Lemma copy_keeps_source_witness :
  (forall a o, sample_heap !! a = Some o ->
               (<[2%nat := OArray [Some (VNumber (Num.of_Z 1)); Some (VNumber (Num.of_Z 2));
                                  Some (VNumber (Num.of_Z 3))]]> sample_heap) !! a = Some o)
  /\ exists a', VRef 2%nat = VRef a' /\ sample_heap !! a' = None.
Proof.
  apply (copy_keeps_source defaultOptions 3 sample_heap (VRef 0%nat) (VRef 2%nat)
           (<[2%nat := OArray [Some (VNumber (Num.of_Z 1)); Some (VNumber (Num.of_Z 2));
                              Some (VNumber (Num.of_Z 3))]]> sample_heap)).
  - reflexivity.
  - vm_compute. reflexivity.
Defined.

(** ** Comparisons never write to the graphs they compare *)

(** With the default [createCopyFn], what a change carries is made without
    touching an object that is already there. *)
Lemma wp_carried_default opts fuel v c (Q : JsValue -> Context -> Prop) :
  copies_by_default opts ->
  (forall m h', heap c ⊆ h' -> Q m (set_heap h' c)) ->
  wp false (carried opts fuel v c) Q.
Proof.
  intros Hd H. rewrite carried_run. unfold carry_rhs.
  destruct (rhsCopyOpts opts) as [co|] eqn:E; cbn.
  - destruct (copy co fuel (heap c) v) as [[m h']| |] eqn:Ec; cbn; auto.
    apply H. exact (copy_extends co fuel (heap c) v m h' (Hd co E) Ec).
  - now apply H.
Qed.

Lemma heap_kept_invariant host opts alg h :
  copies_by_default opts ->
  Invariant host opts alg false (fun _ => True) (fun c => h ⊆ heap c).
Proof.
  intros Hd. split; try (intros; exact Logic.I).
  - intros c H. exact H.
  - intros c0 c1 _ H. exact H.
  - intros l r cmp c H. unfold areEqual. wp_steps.
    destruct (searching c), (is_undefined _); exact H.
  - intros fuel l r cmp c _ _ H. unfold notEqual, createEdit, record.
    destruct alg; wp_steps; destruct (searching c); wp_steps; try exact H.
    apply wp_makePath. intros path _.
    apply wp_bind, wp_carried_default; [exact Hd|]. intros m h' Hh'. wp_steps.
    cbn. now transitivity (heap c).
  - intros fuel r c _ H. unfold noLhs, createAdd, record.
    destruct alg; wp_steps; destruct (searching c); wp_steps; try exact H.
    destruct r as [r|]; wp_steps.
    apply wp_makePath. intros path _.
    destruct (rev _); wp_steps.
    apply wp_carried_default; [exact Hd|]. intros m h' Hh'. wp_steps.
    cbn. now transitivity (heap c).
  - intros l c _ H. unfold noRhs, createRemove, record.
    destruct alg; wp_steps; destruct (searching c); wp_steps; try exact H.
    destruct l as [l|]; wp_steps.
    apply wp_makePath. intros path _. wp_steps. exact H.
Qed.

(** Neither [equal] nor [diff] ever writes to the graphs it compares.  When
    a comparison returns, from whatever context it was started, the heap is
    the one it started with, unless [Diff] runs with [rhsCopyOpts]; and
    then, with the default [createCopyFn], every object that was there is
    still there unchanged: the copies that the changes carry are new
    objects. *)
Theorem comparison_leaves_heap_unchanged host opts alg fuel l r c v c' :
  compare host opts alg fuel l r c = Ok (v, c') ->
  ((alg = Diff -> rhsCopyOpts opts = None) -> heap c' = heap c)
  /\ (copies_by_default opts -> heap c ⊆ heap c').
Proof.
  intros E. split.
  - intros Hplain.
    refine (wp_Ok false (compare host opts alg fuel l r c)
              (fun _ c0 => heap c0 = heap c) v c' _ E).
    apply (compare_inv host opts alg (fun _ => True) (fun c0 => heap c0 = heap c)).
    + now apply heap_invariant.
    + intros rs c0 H. exact H.
    + intros n _. exact Logic.I.
    + intros n _. exact Logic.I.
    + reflexivity.
  - intros Hd.
    refine (wp_Ok false (compare host opts alg fuel l r c)
              (fun _ c0 => heap c ⊆ heap c0) v c' _ E).
    apply (compare_inv host opts alg (fun _ => True) (fun c0 => heap c ⊆ heap c0)).
    + now apply heap_kept_invariant.
    + intros rs c0 H. exact H.
    + intros n _. exact Logic.I.
    + intros n _. exact Logic.I.
    + reflexivity.
Qed.

Lemma comparison_leaves_heap_unchanged_witness :
  (exists c',
     compare plain_host defaultOptions Diff 3 (Some (rootNode (VRef 0%nat)))
       (Some (rootNode (VRef 1%nat))) (createContext defaultOptions sample_heap)
     = Ok (RBool false, c')
     /\ heap c' = sample_heap)
  /\ (exists c',
        compare plain_host copyingOptions Diff 1 (Some (rootNode (VRef 0%nat)))
          (Some (rootNode (VRef 1%nat))) (createContext copyingOptions two_dates_heap)
        = Ok (RBool true, c')
        /\ two_dates_heap ⊆ heap c' /\ heap c' <> two_dates_heap).
Proof.
  split.
  - eexists. split.
    + vm_compute. reflexivity.
    + apply (comparison_leaves_heap_unchanged plain_host defaultOptions Diff 3
               (Some (rootNode (VRef 0%nat))) (Some (rootNode (VRef 1%nat)))
               (createContext defaultOptions sample_heap) (RBool false));
        [vm_compute; reflexivity | reflexivity].
  - eexists. split; [vm_compute; reflexivity|]. split.
    + apply (comparison_leaves_heap_unchanged plain_host copyingOptions Diff 1
               (Some (rootNode (VRef 0%nat))) (Some (rootNode (VRef 1%nat)))
               (createContext copyingOptions two_dates_heap) (RBool true));
        [vm_compute; reflexivity | intros co [= <-]; reflexivity].
    + intros H. apply (f_equal (fun m : Heap => m !! 2%nat)) in H.
      vm_compute in H. discriminate H.
Defined.

(** * Copying a flat array *)

Lemma hasReference_index c node :
  hasReference c node = false -> (0 <=? indexOfReference c node) = false.
Proof. intros H. exact H. Qed.

(** [Copy.visit] on an array element that is a primitive value: the value
    is its own mirror, and it is stored into slot [i] of the parent's
    mirror. *)
Lemma Copy_visit_primitive opts fuel parent i v c a' cur :
  createCopyFn opts = None ->
  is_primitive v = true -> refs_prim_free c ->
  mirror parent = VRef a' -> heap c !! a' = Some (OArray cur) ->
  exists n,
    Copy_visit opts (S fuel) (Copy_createArrayElementNode v i parent (Some i)) c
    = Ok ((RBool true, n), set_heap (<[a' := OArray (array_set cur i v)]> (heap c)) c).
Proof.
  intros Hdef Hv Hrefs Hm Ha'.
  set (child := Copy_createArrayElementNode v i parent (Some i)).
  assert (Href : forall n, value n = v -> hasReference c n = false).
  { intros n Hn. apply hasReference_primitive; [exact Hrefs | now rewrite Hn]. }
  cbn [Copy_visit]. unfold Visitor_visit. rewrite bind_get_l.
  rewrite (Href child eq_refl). unfold ensureTypeOf. cbn [typeOf child
    Copy_createArrayElementNode set_addChildFn createArrayElementNode childNode].
  unfold updateNodeTypeOf. rewrite bind_gets_l.
  fold (createArrayElementNode v i parent (Some i)).
  fold (Copy_createArrayElementNode v i parent (Some i)). fold child.
  set (node := set_typeOf (kind_of (heap c) (value child)) child).
  assert (Hnode : Copy_visitNode opts node None c
                  = Ok ((RBool true, set_mirror v node),
                        set_heap (<[a' := OArray (array_set cur i v)]> (heap c)) c)).
  { unfold Copy_visitNode, Copy_mirrorNode.
    assert (Hfresh :
              (m <- createCopy opts node ;; ret (RBool true, set_mirror m node)) c
              = Ok ((RBool true, set_mirror v node), c)).
    { unfold createCopy, defaultCreateCopy. rewrite Hdef.
      cbn [value node child set_typeOf Copy_createArrayElementNode set_addChildFn
           createArrayElementNode childNode].
      destruct v; try discriminate; reflexivity. }
    assert (Hmirror :
              (if guardCircularRefs opts
               then c0 <- get ;;
                    (if 0 <=? indexOfReference c0 node
                     then match refMirrors c0 with
                          | Some ms =>
                              if indexOfReference c0 node <? Z.of_nat (length ms)
                              then ret (RBool false,
                                        set_mirror match nth_error ms (Z.to_nat (indexOfReference c0 node)) with
                                                   | Some (Some m) => m
                                                   | _ => VUndefined
                                                   end node)
                              else m <- createCopy opts node ;;
                                   modify (fun c1 => set_refMirrors
                                             (Some (array_set (default [] (refMirrors c1))
                                                      (Z.to_nat (indexOfReference c0 node)) m)) c1) ;;;
                                   ret (RBool true, set_mirror m node)
                          | None => throw (TypeError "cannot read properties of undefined (reading 'length')")
                          end
                     else m <- createCopy opts node ;; ret (RBool true, set_mirror m node))
               else m <- createCopy opts node ;; ret (RBool true, set_mirror m node)) c
              = Ok ((RBool true, set_mirror v node), c)).
    { destruct (guardCircularRefs opts); [|exact Hfresh].
      rewrite bind_get_l. rewrite (hasReference_index c node (Href node eq_refl)).
      exact Hfresh. }
    rewrite (bind_Ok _ _ _ _ _ Hmirror).
    cbn [snd addChildFn set_mirror node child set_typeOf Copy_createArrayElementNode
         set_addChildFn createArrayElementNode childNode parentNode property mirror].
    unfold runAdder, assign_prop. rewrite Hm. rewrite bind_assoc, bind_get_l.
    rewrite (heap_get_Some _ _ _ Ha').
    assert (Hi : (0 <=? Z.of_nat i) = true) by (apply Z.leb_le; lia).
    change (property (set_mirror v node)) with (Some (PIndex (Z.of_nat i))).
    change (mirror (set_mirror v node)) with v.
    cbv iota. rewrite Hi, Nat2Z.id. reflexivity. }
  exists (set_mirror v node).
  destruct (kind_of (heap c) (value child)) eqn:Ek; try exact Hnode;
    subst child; cbn in Ek; destruct v; discriminate.
Qed.

(** [a[i] = x] inside an array that is filled up to [i] and has holes from
    there on. *)
Lemma array_set_at {A} (pre : list (option A)) (post : list (option A)) o x :
  array_set (pre ++ o :: post) (length pre) x = pre ++ Some x :: post.
Proof. induction pre as [|y pre IH]; cbn; [reflexivity | now rewrite IH]. Qed.

Lemma fill_holes {A} (f : nat -> A) m : forall k (pre : list (option A)),
  length pre = k ->
  fold_left (fun cur i => array_set cur i (f i)) (seq k m) (pre ++ repeat None m)
  = pre ++ map (fun i => Some (f i)) (seq k m).
Proof.
  induction m as [|m IH]; intros k pre Hk; cbn [seq fold_left repeat map].
  - reflexivity.
  - rewrite <- Hk at 2. rewrite array_set_at.
    replace (pre ++ Some (f k) :: repeat None m)
      with ((pre ++ [Some (f k)]) ++ repeat None m) by now rewrite <- app_assoc.
    rewrite IH by (rewrite length_app; cbn; lia).
    now rewrite <- app_assoc.
Qed.

Lemma map_nth_error_seq {A B} (F : option A -> B) (l : list A) :
  map (fun i => F (nth_error l i)) (seq 0 (length l)) = map (fun x => F (Some x)) l.
Proof.
  induction l as [|x l IH]; cbn [length seq map]; [reflexivity|].
  cbn [nth_error]. f_equal. rewrite <- seq_shift, map_map. exact IH.
Qed.

(** What reading slot [i] of an array gives: holes and slots out of range
    read [undefined]. *)
Definition slot (es : list (option JsValue)) (i : nat) : JsValue :=
  match nth_error es i with
  | Some (Some x) => x
  | _ => VUndefined
  end.

Lemma get_prop_slot h a es i :
  h !! a = Some (OArray es) -> get_prop h (VRef a) (PIndex (Z.of_nat i)) = slot es i.
Proof.
  intros Ha. unfold get_prop, slot. rewrite (heap_get_Some _ _ _ Ha).
  assert (E : (Z.of_nat i <? 0) = false) by (apply Z.ltb_ge; lia).
  now rewrite E, Nat2Z.id.
Qed.

Lemma slot_primitive es i :
  Forall (fun e => is_primitive e = true) (present es) -> is_primitive (slot es i) = true.
Proof.
  intros H. unfold slot. destruct (nth_error es i) as [[x|]|] eqn:E; try reflexivity.
  apply nth_error_In, In_present in E. rewrite List.Forall_forall in H. now apply H.
Qed.

Section CopyElements.
Variable opts : Options.
Variable fuel : nat.
Variable node : GraphNode.
Variables a a' : addr.
Variable es : list (option JsValue).
Hypothesis default_copies : createCopyFn opts = None.
Hypothesis node_value : value node = VRef a.
Hypothesis node_mirror : mirror node = VRef a'.
Hypothesis distinct : a <> a'.
Hypothesis flat : Forall (fun e => is_primitive e = true) (present es).

(** While the elements are copied: the source array is untouched and the
    mirror is an array. *)
Definition copying (c : Context) : Prop :=
  refs_prim_free c /\ heap c !! a = Some (OArray es)
  /\ exists cur, heap c !! a' = Some (OArray cur).

Definition store_slot (i : nat) (c : Context) : Context :=
  set_heap (<[a' := OArray (array_set (array_elems (heap c) (VRef a')) i (slot es i))]>
              (heap c)) c.

Lemma copy_elements_run (l : list nat) c :
  copying c ->
  for_each l
    (fun i =>
       v <- gets (fun c => get_prop (heap c) (value node) (PIndex (Z.of_nat i))) ;;
       (r <- Copy_visit opts (S fuel) (Copy_createArrayElementNode v i node (Some i)) ;;
        ret (fst r)))
    (ret (RBool true)) c
  = Ok (RBool true, fold_left (fun c i => store_slot i c) l c).
Proof.
  intros Hc.
  destruct (for_each_run copying store_slot l
              (fun i =>
                 v <- gets (fun c => get_prop (heap c) (value node) (PIndex (Z.of_nat i))) ;;
                 (r <- Copy_visit opts (S fuel)
                         (Copy_createArrayElementNode v i node (Some i)) ;;
                  ret (fst r)))
              (ret (RBool true))) with (c := c) as (E & _); [|exact Hc|exact E].
  intros i c0 _ (Hrefs & Ha & cur & Ha'). split.
  - exists true. rewrite bind_gets_l, node_value, (get_prop_slot _ _ _ _ Ha).
    destruct (Copy_visit_primitive opts fuel node i (slot es i) c0 a' cur default_copies
                (slot_primitive es i flat) Hrefs node_mirror Ha') as (n & E).
    rewrite (bind_Ok _ _ _ _ _ E). unfold store_slot.
    cbn [array_elems]. now rewrite (heap_get_Some _ _ _ Ha').
  - unfold store_slot. split; [exact Hrefs|]. cbn [heap set_heap]. split.
    + now rewrite lookup_insert_ne by auto.
    + eexists. apply lookup_insert_eq.
Qed.

Lemma store_slots_heap (l : list nat) : forall c cur,
  heap c !! a' = Some (OArray cur) ->
  fold_left (fun c i => store_slot i c) l c
  = set_heap (<[a' := OArray (fold_left (fun cur i => array_set cur i (slot es i)) l cur)]>
                (heap c)) c.
Proof.
  induction l as [|i l IH]; intros c cur Ha'; cbn [fold_left].
  - rewrite insert_id by exact Ha'. now destruct c.
  - rewrite (IH (store_slot i c) (array_set cur i (slot es i))).
    + unfold store_slot. cbn [array_elems heap set_heap].
      rewrite (heap_get_Some _ _ _ Ha'). rewrite insert_insert_eq. now destruct c.
    + unfold store_slot. cbn [array_elems heap set_heap].
      rewrite (heap_get_Some _ _ _ Ha'). apply lookup_insert_eq.
Qed.
End CopyElements.

Lemma Copy_visit_unfold opts fuel node :
  Copy_visit opts (S fuel) node
  = Visitor_visit opts (fun n => (RBool false, n))
      (Visitor_visitArray (Copy_visitNode opts)
         (fun child => r <- Copy_visit opts fuel child ;; ret (fst r))
         Copy_createArrayElementNode)
      (Visitor_visitSet (Copy_visitNode opts)
         (fun child => r <- Copy_visit opts fuel child ;; ret (fst r))
         Copy_createSetElementNode)
      (Visitor_visitMap (Copy_visitNode opts)
         (fun child => r <- Copy_visit opts fuel child ;; ret (fst r))
         Copy_createMapElementNode)
      (Visitor_visitObject opts (Copy_visitNode opts)
         (fun child => r <- Copy_visit opts fuel child ;; ret (fst r))
         Copy_createObjectPropertyNode)
      (Visitor_visitOther (Copy_visitNode opts))
      node.
Proof. reflexivity. Qed.

Section CopyFlatArray.
Variable opts : Options.
Variable fuel : nat.
Variable h : Heap.
Variable a : addr.
Variable es : list (option JsValue).
Hypothesis default_copies : createCopyFn opts = None.
Hypothesis Ha : h !! a = Some (OArray es).
Hypothesis flat : Forall (fun e => is_primitive e = true) (present es).

Let a' : addr := fresh (dom h).
Let node1 : GraphNode := set_typeOf KArray (rootNode (VRef a)).
Let node2 : GraphNode := set_mirror (VRef a') node1.

(** The copy: every slot is filled, holes with [undefined]. *)
Definition dense_copy : list (option JsValue) :=
  map (fun e => Some (match e with Some x => x | None => VUndefined end)) es.

Lemma fresh_distinct : a <> a'.
Proof.
  intros E. apply (is_fresh (dom h)). fold a'. rewrite <- E.
  apply elem_of_dom. now exists (OArray es).
Qed.

Lemma createCopy_array c1 :
  heap c1 = h ->
  createCopy opts node1 c1
  = Ok (VRef a', set_heap (<[a' := OArray (repeat None (length es))]> h) c1).
Proof.
  intros Hh. unfold createCopy, defaultCreateCopy. rewrite default_copies.
  cbn [value node1 set_typeOf rootNode]. rewrite bind_get_l, Hh.
  rewrite (heap_get_Some _ _ _ Ha). unfold alloc. now rewrite Hh.
Qed.

Lemma visitChildren_array c3 :
  heap c3 = <[a' := OArray (repeat None (length es))]> h ->
  refs_prim_free c3 ->
  (l <- gets (fun c => length (array_elems (heap c) (value node2))) ;;
   for_each (seq 0 l)
     (fun i =>
        v <- gets (fun c => get_prop (heap c) (value node2) (PIndex (Z.of_nat i))) ;;
        (r <- Copy_visit opts (S fuel) (Copy_createArrayElementNode v i node2 (Some i)) ;;
         ret (fst r)))
     (ret (RBool true))) c3
  = Ok (RBool true, set_heap (<[a' := OArray dense_copy]> h) c3).
Proof.
  intros Hh Hrefs.
  assert (Hsrc : heap c3 !! a = Some (OArray es)).
  { rewrite Hh, lookup_insert_ne by (intros E; now apply fresh_distinct). exact Ha. }
  assert (Hdst : heap c3 !! a' = Some (OArray (repeat None (length es)))).
  { rewrite Hh. apply lookup_insert_eq. }
  rewrite bind_gets_l. cbn [value node2 node1 set_mirror set_typeOf rootNode array_elems].
  rewrite (heap_get_Some _ _ _ Hsrc).
  rewrite (copy_elements_run opts fuel node2 a a' es default_copies eq_refl eq_refl
             fresh_distinct flat).
  2:{ split; [exact Hrefs|]. split; [exact Hsrc|]. eexists. exact Hdst. }
  rewrite (store_slots_heap a' es _ _ _ Hdst).
  assert (Hfill := fill_holes (slot es) (length es) 0 [] eq_refl). cbn [app] in Hfill.
  rewrite Hfill.
  unfold slot.
  rewrite (map_nth_error_seq
             (fun o => Some match o with Some (Some x) => x | _ => VUndefined end) es).
  rewrite Hh, insert_insert_eq. reflexivity.
Qed.

Lemma Copy_visitNode_array c1 :
  heap c1 = h ->
  refs c1 = (if guardCircularRefs opts then Some [VRef a] else None) ->
  refMirrors c1 = (if guardCircularRefs opts then Some [] else None) ->
  exists c,
    Copy_visitNode opts node1
      (Some (fun node =>
         l <- gets (fun c => length (array_elems (heap c) (value node))) ;;
         for_each (seq 0 l)
           (fun i =>
              v <- gets (fun c => get_prop (heap c) (value node) (PIndex (Z.of_nat i))) ;;
              (r <- Copy_visit opts (S fuel) (Copy_createArrayElementNode v i node (Some i)) ;;
               ret (fst r)))
           (ret (RBool true)))) c1
    = Ok ((RBool true, node2), c)
    /\ heap c = <[a' := OArray dense_copy]> h.
Proof.
  intros Hh Hrefs Hmirrors. unfold Copy_visitNode, Copy_mirrorNode.
  assert (Hprim : forall c, refs c = refs c1 -> refs_prim_free c).
  { intros c Hc rs Hrs. rewrite Hc, Hrefs in Hrs.
    destruct (guardCircularRefs opts); [|discriminate].
    injection Hrs as <-. now repeat constructor. }
  destruct (guardCircularRefs opts) eqn:Hg.
  - eexists. split.
    + cbv zeta. rewrite bind_assoc, bind_get_l.
      assert (Hidx : indexOfReference c1 node1 = 0).
      { unfold indexOfReference. rewrite Hrefs.
        cbn [value node1 set_typeOf rootNode truthy findIndex findIndex_from Object_is].
        now rewrite Nat.eqb_refl. }
      rewrite Hidx, Hmirrors. cbn [Z.leb Z.compare length].
      change (0 <? Z.of_nat 0) with false. cbv iota.
      rewrite bind_assoc. rewrite (bind_Ok _ _ _ _ _ (createCopy_array c1 Hh)).
      rewrite bind_assoc, bind_modify_l. fold node2. rewrite bind_assoc.
      lazymatch goal with
      | |- bind _ _ ?c = _ =>
          rewrite (bind_Ok _ _ _ _ _ (visitChildren_array c eq_refl (Hprim c eq_refl)))
      end.
      reflexivity.
    + reflexivity.
  - eexists. split.
    + cbv zeta. rewrite bind_assoc. rewrite (bind_Ok _ _ _ _ _ (createCopy_array c1 Hh)).
      fold node2. rewrite bind_assoc.
      lazymatch goal with
      | |- bind _ _ ?c = _ =>
          rewrite (bind_Ok _ _ _ _ _ (visitChildren_array c eq_refl (Hprim c eq_refl)))
      end.
      reflexivity.
    + reflexivity.
Qed.

Lemma copy_flat_array_run :
  copy opts (S (S fuel)) h (VRef a) = Ok (VRef a', <[a' := OArray dense_copy]> h).
Proof.
  unfold copy. rewrite Copy_visit_unfold. unfold Visitor_visit. rewrite bind_get_l.
  rewrite hasReference_createContext.
  rewrite (bind_Ok _ _ _ _ _ (ensureTypeOf_root _ _)).
  cbn [heap createContext kind_of]. rewrite (heap_get_Some _ _ _ Ha).
  cbn [kind_of_obj typeOf set_typeOf]. fold node1.
  assert (Hreg : guardReference opts node1 (createContext opts h)
                 = Ok (tt, set_refs (if guardCircularRefs opts then Some [VRef a] else None)
                             (createContext opts h))).
  { unfold guardReference, addReference, modify, ret, createContext.
    destruct (guardCircularRefs opts); reflexivity. }
  rewrite (bind_Ok _ _ _ _ _ Hreg).
  destruct (Copy_visitNode_array
              (set_refs (if guardCircularRefs opts then Some [VRef a] else None)
                 (createContext opts h))) as (c & E & Hc); try reflexivity.
  unfold Visitor_visitArray. cbv beta zeta. rewrite E. now rewrite Hc.
Qed.
End CopyFlatArray.

(** Copying a flat array (with the default [createCopyFn], whatever the
    other options): the copy of an array whose elements are primitive
    values is a newly allocated array of the same length holding the same
    values, in which every hole of the source has become an [undefined]
    element; the source heap is otherwise unchanged. *)
Theorem copy_flat_array opts fuel h a (es : list (option JsValue)) :
  createCopyFn opts = None ->
  h !! a = Some (OArray es) ->
  Forall (fun e => is_primitive e = true) (present es) ->
  copy opts (S (S fuel)) h (VRef a)
  = Ok (VRef (fresh (dom h)), <[fresh (dom h) := OArray (dense_copy es)]> h).
Proof. intros Hdef Ha Hflat. now apply copy_flat_array_run. Qed.

(** The array [[1, <hole>, true]]. *)
Definition sparse_heap : Heap :=
  {[ 0%nat := OArray [Some (VNumber (Num.of_Z 1)); None; Some (VBool true)] ]}.

Lemma copy_flat_array_witness :
  copy defaultOptions 2 sparse_heap (VRef 0%nat)
  = Ok (VRef (fresh (dom sparse_heap)),
        <[fresh (dom sparse_heap) :=
            OArray [Some (VNumber (Num.of_Z 1)); Some VUndefined; Some (VBool true)]]>
          sparse_heap).
Proof.
  apply (copy_flat_array defaultOptions 0 sparse_heap 0%nat
           [Some (VNumber (Num.of_Z 1)); None; Some (VBool true)]).
  - reflexivity.
  - reflexivity.
  - repeat constructor.
Defined.

(** * Arrays with the same elements *)

Lemma node_at_dense opts h a (xs : list JsValue) i x :
  array_elems h (value a) = map Some xs ->
  nth_error xs i = Some x ->
  exists n,
    node_at (elementNodes opts h a) (Z.of_nat i) = Some n
    /\ value n = x
    /\ position n = (if laxArrayOrdering opts then None else Some i).
Proof.
  intros Ha Hx. unfold node_at, elementNodes.
  assert (E : (Z.of_nat i <? 0) = false) by (apply Z.ltb_ge; lia).
  rewrite E, Nat2Z.id, nth_error_map, nth_error_indexed, Ha, nth_error_map, Hx.
  cbn. eexists. split; [reflexivity|]. split; reflexivity.
Qed.

Section SameElements.
Variable host : Host.
Variable opts : Options.
Variable fuel : nat.
Variable h : Heap.
Variables a b : addr.
Variable xs : list JsValue.
Hypothesis strict : laxArrayOrdering opts = false.
Hypothesis distinct : a <> b.
Hypothesis Ha : h !! a = Some (OArray (map Some xs)).
Hypothesis Hb : h !! b = Some (OArray (map Some xs)).

Let l := set_typeOf KArray (rootNode (VRef a)).
Let r := set_lhs l (set_typeOf KArray (rootNode (VRef b))).

Lemma same_elements_run alg :
  exists c,
    run host opts alg (S (S fuel)) h (VRef a) (VRef b) = Ok (RBool false, c)
    /\ changes c = []
    /\ result c = match xs with [] => CUndefined | _ :: _ => IS_SAME end.
Proof.
  assert (Hab : Object_is (VRef a) (VRef b) = false) by now apply Nat.eqb_neq.
  assert (Hka : kind_of h (VRef a) = KArray) by (cbn; now rewrite (heap_get_Some _ _ _ Ha)).
  assert (Hkb : kind_of h (VRef b) = KArray) by (cbn; now rewrite (heap_get_Some _ _ _ Hb)).
  assert (Ea : array_elems h (value l) = map Some xs)
    by (cbn; now rewrite (heap_get_Some _ _ _ Ha)).
  assert (Eb : array_elems h (value r) = map Some xs)
    by (cbn; now rewrite (heap_get_Some _ _ _ Hb)).
  destruct (guardReference_refs opts r (createContext opts h)) as (rs & Eg).
  rewrite run_distinct by exact Hab. cbv zeta. rewrite Hka, Hkb.
  cbn [kind_eqb]. rewrite (Visitor_visit_fresh _ _ _ _ _ _ _ _ KArray) by reflexivity.
  fold l. fold r. rewrite (bind_Ok _ _ _ _ _ Eg).
  unfold Compare_visitArray, lhs_of. cbn [lhs r set_lhs]. run_steps.
  cbn [heap set_refs createContext]. rewrite strict.
  fold r.
  assert (Hlen : forall n, length (elementNodes opts h n) = length (array_elems h (value n))).
  { intros n. unfold elementNodes. now rewrite length_map, length_indexed. }
  assert (Hcond : (length (elementNodes opts h r) <? length (elementNodes opts h l))%nat
                  = false) by (rewrite !Hlen, Ea, Eb; apply Nat.ltb_irrefl).
  rewrite Hcond, Hlen, Eb, length_map.
  set (c0 := set_refs rs (createContext opts h)).
  destruct (for_each_run (fun c => searching c = false) (fun _ c => note_same c)
              (rev (seq 0 (length xs)))
              (fun i => compare host opts alg (S fuel)
                          (node_at (elementNodes opts h l) (Z.of_nat i))
                          (node_at (elementNodes opts h r) (Z.of_nat i)))
              (ret (RBool false))) with (c := c0) as (E & _).
  - intros i c Hi Hc. apply in_rev, in_seq in Hi.
    destruct (nth_error xs i) as [x|] eqn:Ex;
      [|apply nth_error_None in Ex; lia].
    destruct (node_at_dense opts h l xs i x Ea Ex) as (nl & -> & Hvl & Hpl).
    destruct (node_at_dense opts h r xs i x Eb Ex) as (nr & -> & Hvr & Hpr).
    split.
    + exists false. cbn [compare]. unfold Compare_compare.
      rewrite Hpl, Hpr, Hvl, Hvr, strict.
      cbn [option_nat_eqb negb]. rewrite Nat.eqb_refl, Object_is_refl. cbn [negb].
      unfold areEqual. run_all. unfold note_same. now rewrite Hc.
    + unfold note_same. now destruct (is_undefined (result c)).
  - reflexivity.
  - rewrite E. eexists. split; [reflexivity|].
    destruct (note_same_fold (rev (seq 0 (length xs))) c0) as [H1 H2].
    cbv zeta in H1, H2. rewrite H1, H2. split; [reflexivity|].
    destruct xs as [|x xs']; [reflexivity|].
    destruct (rev _) eqn:Er; [|reflexivity].
    apply (f_equal (@length _)) in Er. rewrite length_rev, length_seq in Er. discriminate Er.
Qed.
End SameElements.


(** Copying and comparing compose: the copy of an array of primitive values
    without holes is a different array, and [diff] between the source and
    its copy is empty (under strict array ordering). *)
Theorem diff_of_copy_is_empty host copts opts fuel fuel' h a (xs : list JsValue) :
  createCopyFn copts = None ->
  laxArrayOrdering opts = false ->
  h !! a = Some (OArray (map Some xs)) ->
  Forall (fun v => is_primitive v = true) xs ->
  exists m h',
    copy copts (S (S fuel)) h (VRef a) = Ok (m, h')
    /\ m <> VRef a
    /\ diff host opts (S (S fuel')) h' (VRef a) m = Ok [].
Proof.
  intros Hdef Hstrict Ha Hflat.
  assert (Hne : a <> fresh (dom h)).
  { intros E. apply (is_fresh (dom h)). rewrite <- E. apply elem_of_dom. eauto. }
  exists (VRef (fresh (dom h))), (<[fresh (dom h) := OArray (dense_copy (map Some xs))]> h).
  split; [|split].
  - apply copy_flat_array_run; [exact Hdef | exact Ha |]. now rewrite present_map_Some.
  - intros [= E]. now apply Hne.
  - destruct (same_elements_run host opts fuel'
                (<[fresh (dom h) := OArray (dense_copy (map Some xs))]> h)
                a (fresh (dom h)) xs Hstrict Hne) with (alg := Diff) as (c & E & Hc & _).
    + rewrite lookup_insert_ne by auto. exact Ha.
    + rewrite lookup_insert_eq. unfold dense_copy. now rewrite map_map.
    + unfold diff. now rewrite E, Hc.
Qed.

Lemma diff_of_copy_is_empty_witness :
  exists m h',
    copy defaultOptions 2 sample_heap (VRef 0%nat) = Ok (m, h')
    /\ m <> VRef 0%nat
    /\ diff plain_host defaultOptions 2 h' (VRef 0%nat) m = Ok [].
Proof.
  apply (diff_of_copy_is_empty plain_host defaultOptions defaultOptions 0 0 sample_heap 0%nat
           [VNumber (Num.of_Z 1); VNumber (Num.of_Z 2); VNumber (Num.of_Z 3)]).
  - reflexivity.
  - reflexivity.
  - reflexivity.
  - repeat constructor.
Defined.


(** * The changes recorded for primitive leaves *)

(** The changes that [Diff] records when it compares the primitive value
    [x] on the left with the primitive value [y] on the right, outside a
    search and without loose equality. *)
Definition leaf_changes (host : Host) (opts : Options)
    (lpath rpath : list Patch.PathSegment) (x y : JsValue) : list Change :=
  if IS_EQUAL (leaf_outcome host opts x y) then []
  else if kind_eqb (kind_of ∅ x) (kind_of ∅ y) then [EditLhs rpath y]
  else if kind_eqb (kind_of ∅ x) KUndefined then [AddToLhs (add_path rpath) y]
  else if kind_eqb (kind_of ∅ y) KUndefined then [RemoveFromLhs lpath]
  else [EditLhs rpath y].

(** What stays as it was while [Diff] records changes outside a search. *)
Definition recording (h : Heap) (c : Context) : Prop :=
  searching c = false /\ refs_prim_free c /\ heap c = h.

Lemma recording_emit h cmp ch c : recording h c -> recording h (emit cmp ch c).
Proof. intros H. exact H. Qed.

Lemma recording_note h cmp c :
  recording h c ->
  recording h (if is_undefined (result c) then set_result cmp c else c).
Proof. intros H. now destruct (is_undefined (result c)). Qed.

(** Comparing two nodes of primitive values in [Diff], outside a search. *)
Lemma compare_leaf_changes host opts fuel h l r c lpath rpath :
  looseEquality opts = false -> copies_by_default opts ->
  is_primitive (value l) = true -> is_primitive (value r) = true ->
  (forall k, typeOf l = Some k -> k = kind_of ∅ (value l)) ->
  (forall k, typeOf r = Some k -> k = kind_of ∅ (value r)) ->
  position l = position r ->
  makePath host opts h l = Ok lpath ->
  makePath host opts h r = Ok rpath -> rpath <> [] ->
  recording h c ->
  exists b c',
    compare host opts Diff (S fuel) (Some l) (Some r) c = Ok (RBool b, c')
    /\ recording h c'
    /\ changes c' = changes c
                    ++ leaf_changes host opts lpath rpath (value l) (value r).
Proof.
  intros Hloose Hd Hxp Hyp Htl Htr Hpos Hlp Hrp Hpath (Hs & Hrefs & Hh).
  assert (Hit : forall n, value n = value r -> carries_itself opts (value n)).
  { intros n ->. now apply carries_itself_primitive. }
  cbn [compare]. unfold Compare_compare. rewrite Hpos, option_nat_eqb_refl. cbn [negb].
  unfold leaf_changes, leaf_outcome.
  destruct (Object_is (value l) (value r)) eqn:Eo.
  { rewrite areEqual_run by exact Hs. eexists _, _. split; [reflexivity|].
    split; [now apply recording_note; repeat split|].
    cbn [IS_EQUAL IS_SAME]. rewrite app_nil_r. now destruct (is_undefined (result c)). }
  assert (Hty : forall n, is_primitive (value n) = true ->
            (forall k, typeOf n = Some k -> k = kind_of ∅ (value n)) ->
            ensureTypeOf n c = Ok (set_typeOf (kind_of ∅ (value n)) n, c)).
  { intros n Hn Hk. unfold ensureTypeOf, updateNodeTypeOf.
    destruct (typeOf n) as [k|] eqn:E.
    - rewrite (Hk k eq_refl) in E. unfold ret. f_equal. f_equal.
      destruct n; cbn in *. now rewrite E.
    - unfold gets. now rewrite (kind_of_primitive _ _ Hn). }
  rewrite (bind_Ok _ _ _ _ _ (Hty l Hxp Htl)), (bind_Ok _ _ _ _ _ (Hty r Hyp Htr)).
  cbn [typeOf set_typeOf option_kind_eqb value].
  set (l' := set_typeOf (kind_of ∅ (value l)) l).
  set (r' := set_typeOf (kind_of ∅ (value r)) r).
  assert (Hl' : makePath host opts h l' = makePath host opts h l) by now destruct l.
  assert (Hr' : makePath host opts h r' = makePath host opts h r) by now destruct r.
  assert (Hr'' : makePath host opts h (set_lhs l' r') = makePath host opts h r)
    by now destruct r.
  destruct (kind_eqb (kind_of ∅ (value l)) (kind_of ∅ (value r))) eqn:Ek.
  - (* the same kind: [visitOther] decides *)
    unfold Visitor_visit. rewrite bind_get_l.
    rewrite (hasReference_primitive c (set_lhs l' r') Hrefs Hyp).
    unfold ensureTypeOf. cbn [typeOf set_lhs r' set_typeOf]. rewrite bind_ret_l.
    cbn [typeOf set_lhs r' set_typeOf].
    assert (Hother :
      exists b c',
        Compare_visitOther host opts Diff (S fuel) (set_lhs l' r') c = Ok (RBool b, c')
        /\ recording h c'
        /\ changes c' = changes c
            ++ (if IS_EQUAL match value l, value r with
                            | VString s, VString t => CNum (localeCompare host s t)
                            | VNumber a, VNumber b => compareNumbers opts a b
                            | _, _ => NOT_EQUAL
                            end
                then [] else [EditLhs rpath (value r)])).
    { unfold Compare_visitOther. cbn [lhs set_lhs typeOf r' set_typeOf]. rewrite bind_gets_l.
      cbn [value set_lhs l' r' set_typeOf].
      destruct (value l) as [| |xb|xn|xs|xa] eqn:Ex, (value r) as [| |yb|yn|ys|ya] eqn:Ey;
        try discriminate; cbn [kind_of]; rewrite ?bind_ret_l;
        rewrite ?Eo, ?Hloose; cbn [andb strict_equals];
        rewrite ?Eo; cbn [IS_EQUAL NOT_EQUAL negb].
      - rewrite (Diff_notEqual_run host opts fuel _ _ _ _ rpath);
          [|exact Hs|rewrite Hh, Hr''; exact Hrp|apply Hit; now destruct r].
        cbn [value set_lhs r' set_typeOf]. rewrite Ey.
        eexists _, _. split; [reflexivity|]. split; [now repeat split | reflexivity].
      - rewrite compareNumbers_not_equal.
        rewrite (Diff_notEqual_run host opts fuel _ _ _ _ rpath);
          [|exact Hs|rewrite Hh, Hr''; exact Hrp|apply Hit; now destruct r].
        cbn [value set_lhs r' set_typeOf]. rewrite Ey.
        eexists _, _. split; [reflexivity|]. split; [now repeat split | reflexivity].
      - destruct (localeCompare host xs ys =? 0) eqn:Eq.
        + rewrite areEqual_run by exact Hs. eexists _, _. split; [reflexivity|].
          split; [now apply recording_note; repeat split|].
          rewrite app_nil_r. now destruct (is_undefined (result c)).
        + rewrite (Diff_notEqual_run host opts fuel _ _ _ _ rpath);
          [|exact Hs|rewrite Hh, Hr''; exact Hrp|apply Hit; now destruct r].
          cbn [value set_lhs r' set_typeOf]. rewrite Ey.
          eexists _, _. split; [reflexivity|]. split; [now repeat split | reflexivity]. }
    destruct Hother as (b & c' & E & Hc' & Hch).
    exists b, c'. split; [|split; [exact Hc' | exact Hch]].
    destruct (kind_of ∅ (value r)) eqn:Ekr; try exact E;
      destruct (value r); discriminate.
  - (* different kinds *)
    rewrite bind_gets_l, Hloose. cbn [andb].
    assert (Hne : IS_EQUAL match value l, value r with
                           | VString s, VString t => CNum (localeCompare host s t)
                           | VNumber a, VNumber b => compareNumbers opts a b
                           | _, _ => NOT_EQUAL
                           end = false).
    { destruct (value l), (value r); try reflexivity; discriminate. }
    rewrite Hne. unfold is_kind. cbn [typeOf l' r' set_typeOf option_kind_eqb].
    destruct (kind_eqb (kind_of ∅ (value l)) KUndefined).
    + rewrite (Diff_noLhs_run host opts fuel _ _ rpath);
        [|exact Hs|rewrite Hh, Hr'; exact Hrp|exact Hpath|apply Hit; now destruct r].
      eexists _, _. split; [reflexivity|].
      split; [now repeat split | now destruct r].
    + destruct (kind_eqb (kind_of ∅ (value r)) KUndefined).
      * rewrite (Diff_noRhs_run host opts _ _ lpath);
          [|exact Hs|rewrite Hh, Hl'; exact Hlp].
        eexists _, _. split; [reflexivity|]. split; [now repeat split | reflexivity].
      * rewrite (Diff_notEqual_run host opts fuel _ _ _ _ rpath);
          [|exact Hs|rewrite Hh, Hr'; exact Hrp|apply Hit; now destruct r].
        eexists _, _. split; [reflexivity|].
        split; [now repeat split | now destruct r].
Qed.

(** A loop whose body never aborts and only appends the changes [f x]. *)
Lemma for_each_collect {A} (K : Context -> Prop) (f : A -> list Change)
    (l : list A) (body : A -> M VisitResult) (k : M VisitResult) :
  (forall x c, In x l -> K c ->
     exists b c', body x c = Ok (RBool b, c') /\ K c'
                  /\ changes c' = changes c ++ f x) ->
  forall c, K c ->
    exists c', for_each l body k c = k c' /\ K c'
               /\ changes c' = changes c ++ concat (map f l).
Proof.
  induction l as [|x l IH]; intros Hbody c Hc; cbn [for_each map concat].
  - exists c. rewrite app_nil_r. now repeat split.
  - destruct (Hbody x c (or_introl eq_refl) Hc) as (b & c1 & E & Hc1 & Hch).
    rewrite (bind_Ok _ _ _ _ _ E). cbn [aborts].
    destruct (IH (fun y c0 Hy => Hbody y c0 (or_intror Hy)) c1 Hc1) as (c' & E' & Hc' & Hch').
    exists c'. split; [exact E'|]. split; [exact Hc'|].
    now rewrite Hch', Hch, <- app_assoc.
Qed.

(** * The diff of two flat arrays under strict ordering *)

(** The path of element [i] of the root array. *)
Definition index_path (i : Z) : list Patch.PathSegment :=
  [Patch.mkSegment (Some KArray) (Some (PIndex i))].

(** The changes recorded at index [i], where [ox] and [oy] are the elements
    found there ([None] for a hole or an index past the end). *)
Definition element_changes (host : Host) (opts : Options) (i : nat)
    (ox oy : option JsValue) : list Change :=
  match ox, oy with
  | Some x, Some y =>
      leaf_changes host opts (index_path (Z.of_nat i)) (index_path (Z.of_nat i)) x y
  | Some _, None => [RemoveFromLhs (index_path (Z.of_nat i))]
  | None, Some y => [AddToLhs (index_path (- Z.of_nat i - 1)) y]
  | None, None => []
  end.

(** The changes between the element lists [ls] and [rs], from the last
    index of the longer list down to index 0. *)
Definition flat_array_changes (host : Host) (opts : Options)
    (ls rs : list (option JsValue)) : list Change :=
  concat (map (fun i => element_changes host opts i (mjoin (nth_error ls i))
                                                    (mjoin (nth_error rs i)))
              (rev (seq 0 (Nat.max (length ls) (length rs))))).

Lemma node_at_strict opts h a i :
  laxArrayOrdering opts = false ->
  node_at (elementNodes opts h a) (Z.of_nat i)
  = option_map (fun v => set_typeOf (kind_of h v)
                           (createArrayElementNode v i a (Some i)))
               (mjoin (nth_error (array_elems h (value a)) i)).
Proof.
  intros Hs. unfold node_at, elementNodes.
  assert (E : (Z.of_nat i <? 0) = false) by (apply Z.ltb_ge; lia).
  rewrite E, Nat2Z.id, nth_error_map, nth_error_indexed, Hs.
  destruct (nth_error (array_elems h (value a)) i) as [[v|]|]; reflexivity.
Qed.

Lemma flat_element (es : list (option JsValue)) i x :
  Forall (fun e => is_primitive e = true) (present es) ->
  mjoin (nth_error es i) = Some x -> is_primitive x = true.
Proof.
  intros H E. destruct (nth_error es i) as [[y|]|] eqn:En; try discriminate.
  injection E as ->. apply nth_error_In, In_present in En.
  rewrite List.Forall_forall in H. now apply H.
Qed.

Section FlatArrays.
Variable host : Host.
Variable opts : Options.
Variable fuel : nat.
Variable h : Heap.
Variables a b : addr.
Variables ls rs : list (option JsValue).
Hypothesis strict : laxArrayOrdering opts = false.
Hypothesis exact : looseEquality opts = false.
Hypothesis default_copies : copies_by_default opts.
Hypothesis distinct : a <> b.
Hypothesis Ha : h !! a = Some (OArray ls).
Hypothesis Hb : h !! b = Some (OArray rs).
Hypothesis flat_l : Forall (fun e => is_primitive e = true) (present ls).
Hypothesis flat_r : Forall (fun e => is_primitive e = true) (present rs).

Let l := set_typeOf KArray (rootNode (VRef a)).
Let r := set_lhs l (set_typeOf KArray (rootNode (VRef b))).

Lemma flat_arrays_run :
  exists c,
    run host opts Diff (S (S fuel)) h (VRef a) (VRef b) = Ok (RBool false, c)
    /\ changes c = flat_array_changes host opts ls rs.
Proof.
  assert (Hab : Object_is (VRef a) (VRef b) = false) by now apply Nat.eqb_neq.
  assert (Hka : kind_of h (VRef a) = KArray) by (cbn; now rewrite (heap_get_Some _ _ _ Ha)).
  assert (Hkb : kind_of h (VRef b) = KArray) by (cbn; now rewrite (heap_get_Some _ _ _ Hb)).
  assert (Ea : array_elems h (value l) = ls) by (cbn; now rewrite (heap_get_Some _ _ _ Ha)).
  assert (Eb : array_elems h (value r) = rs) by (cbn; now rewrite (heap_get_Some _ _ _ Hb)).
  rewrite run_distinct by exact Hab. cbv zeta. rewrite Hka, Hkb.
  cbn [kind_eqb]. rewrite (Visitor_visit_fresh _ _ _ _ _ _ _ _ KArray) by reflexivity.
  fold l. fold r.
  assert (Hreg : guardReference opts r (createContext opts h)
                 = Ok (tt, set_refs (if guardCircularRefs opts then Some [VRef b] else None)
                             (createContext opts h))).
  { unfold guardReference, addReference, modify, ret, createContext.
    destruct (guardCircularRefs opts); reflexivity. }
  rewrite (bind_Ok _ _ _ _ _ Hreg).
  set (c0 := set_refs _ (createContext opts h)).
  assert (Hc0 : recording h c0).
  { split; [reflexivity|]. split; [|reflexivity].
    intros rs0. subst c0. cbn. destruct (guardCircularRefs opts); intros [= <-].
    now repeat constructor. }
  unfold Compare_visitArray, lhs_of. cbn [lhs r set_lhs]. run_steps.
  fold r. replace (heap c0) with h by reflexivity. rewrite strict.
  assert (Hlen : forall n, length (elementNodes opts h n) = length (array_elems h (value n))).
  { intros n. unfold elementNodes. now rewrite length_map, length_indexed. }
  assert (Hlongest :
    length (if (length (elementNodes opts h r) <? length (elementNodes opts h l))%nat
            then elementNodes opts h l else elementNodes opts h r)
    = Nat.max (length ls) (length rs)).
  { rewrite <- Ea, <- Eb, <- !Hlen.
    destruct (Nat.ltb_spec (length (elementNodes opts h r)) (length (elementNodes opts h l)));
      lia. }
  rewrite Hlongest.
  destruct (for_each_collect (recording h)
              (fun i => element_changes host opts i (mjoin (nth_error ls i))
                                                    (mjoin (nth_error rs i)))
              (rev (seq 0 (Nat.max (length ls) (length rs))))
              (fun i => compare host opts Diff (S fuel)
                          (node_at (elementNodes opts h l) (Z.of_nat i))
                          (node_at (elementNodes opts h r) (Z.of_nat i)))
              (ret (RBool false))) with (c := c0) as (c' & E & _ & Hch).
  - intros i c _ Hc. rewrite !node_at_strict by exact strict. rewrite Ea, Eb.
    assert (Hpath : forall v n, typeOf n = Some KArray -> parentNode n = None ->
              makePath host opts h
                (set_typeOf (kind_of h v) (createArrayElementNode v i n (Some i)))
              = Ok (index_path (Z.of_nat i))).
    { intros v n Hn Hp. rewrite (makePath_child _ _ _ _ n) by reflexivity.
      rewrite (makePath_root _ _ _ _ Hp), edge_segment_plain by now rewrite Hn.
      cbn. now rewrite Hn. }
    destruct (mjoin (nth_error ls i)) as [x|] eqn:Ex, (mjoin (nth_error rs i)) as [y|] eqn:Ey;
      cbn [option_map element_changes].
    + assert (Hx := flat_element ls i x flat_l Ex).
      assert (Hy := flat_element rs i y flat_r Ey).
      destruct (compare_leaf_changes host opts fuel h
                  (set_typeOf (kind_of h x) (createArrayElementNode x i l (Some i)))
                  (set_typeOf (kind_of h y) (createArrayElementNode y i r (Some i))) c
                  (index_path (Z.of_nat i)) (index_path (Z.of_nat i)))
        as (bb & c1 & E1 & Hc1 & Hch1); try assumption; try reflexivity;
        try (now apply Hpath); try discriminate.
      * intros k [= <-]. now apply kind_of_primitive.
      * intros k [= <-]. now apply kind_of_primitive.
      * exists bb, c1. split; [exact E1|]. split; [exact Hc1|]. exact Hch1.
    + destruct Hc as (Hs & Hrefs & Hh). cbn [compare]. unfold Compare_compare.
      rewrite (Diff_noRhs_run host opts _ _ (index_path (Z.of_nat i)));
        [|exact Hs|rewrite Hh; now apply Hpath].
      eexists _, _. split; [reflexivity|]. split; [now repeat split | reflexivity].
    + destruct Hc as (Hs & Hrefs & Hh). cbn [compare]. unfold Compare_compare.
      rewrite (Diff_noLhs_run host opts fuel _ _ (index_path (Z.of_nat i)));
        [|exact Hs|rewrite Hh; now apply Hpath|discriminate|].
      * eexists _, _. split; [reflexivity|]. split; [now repeat split | reflexivity].
      * apply carries_itself_primitive; [exact default_copies|].
        exact (flat_element rs i y flat_r Ey).
    + destruct Hc as (Hs & Hrefs & Hh). cbn [compare]. unfold Compare_compare.
      rewrite areEqual_run by exact Hs. eexists _, _. split; [reflexivity|].
      split; [now apply recording_note; repeat split|].
      rewrite app_nil_r. now destruct (is_undefined (result c)).
  - exact Hc0.
  - rewrite E. exists c'. split; [reflexivity|]. rewrite Hch. reflexivity.
Qed.
End FlatArrays.

(** Under strict array ordering and without loose equality, the diff of two
    distinct arrays of primitive values is computed index by index, from the
    last index of the longer array down to index 0.  An index present only
    on the left is removed, an index present only on the right is added at
    the marker [-i - 1], and where both arrays have an element the pair is
    compared as a leaf: nothing when the values are the same, an insertion
    at the marker when the left element is [undefined], a removal when the
    right one is, and an edit carrying the right value otherwise. *)
Theorem strict_diff_of_flat_arrays host opts fuel h a b (ls rs : list (option JsValue)) :
  laxArrayOrdering opts = false ->
  looseEquality opts = false ->
  copies_by_default opts ->
  a <> b ->
  h !! a = Some (OArray ls) -> h !! b = Some (OArray rs) ->
  Forall (fun e => is_primitive e = true) (present ls) ->
  Forall (fun e => is_primitive e = true) (present rs) ->
  diff host opts (S (S fuel)) h (VRef a) (VRef b) = Ok (flat_array_changes host opts ls rs).
Proof.
  intros Hs Hl Hd Hab Ha Hb Hfl Hfr.
  destruct (flat_arrays_run host opts fuel h a b ls rs Hs Hl Hd Hab Ha Hb Hfl Hfr)
    as (c & E & Hc).
  unfold diff. now rewrite E, Hc.
Qed.

(** * The diff of two flat objects *)

(** The path of property [p] of the root object. *)
Definition prop_path (p : prop) : list Patch.PathSegment :=
  [Patch.mkSegment (Some KObject) (Some p)].

(** The changes between two root objects whose properties are [lps] and
    [rps] and whose property values are read by [lget] and [rget]. *)
Definition flat_object_changes (host : Host) (opts : Options)
    (lps rps : list prop) (lget rget : prop -> JsValue) : list Change :=
  map (fun p => RemoveFromLhs (prop_path p))
      (List.filter (fun p => negb (includes rps p)) lps)
  ++ map (fun p => AddToLhs (prop_path p) (rget p))
         (List.filter (fun p => negb (includes lps p)) rps)
  ++ concat (map (fun p => leaf_changes host opts (prop_path p) (prop_path p)
                             (lget p) (rget p))
                 (List.filter (fun p => includes rps p) lps)).

Lemma concat_singletons {A B} (g : A -> B) (l : list A) :
  concat (map (fun x => [g x]) l) = map g l.
Proof. induction l as [|x l IH]; cbn; [reflexivity | now rewrite IH]. Qed.

Lemma assoc_string_flat s (ps : list (string * JsValue)) :
  Forall (fun kv => is_primitive (snd kv) = true) ps ->
  is_primitive (default VUndefined (assoc_string s ps)) = true.
Proof.
  induction 1 as [|[k v] ps Hv _ IH]; cbn; [reflexivity|].
  destruct (String.eqb s k); [exact Hv | exact IH].
Qed.

Lemma get_prop_flat h a (ps : list (string * JsValue)) p :
  h !! a = Some (OObject ps) ->
  Forall (fun kv => is_primitive (snd kv) = true) ps ->
  is_primitive (get_prop h (VRef a) p) = true.
Proof.
  intros Ha Hps. unfold get_prop. rewrite (heap_get_Some _ _ _ Ha).
  destruct p; try reflexivity. now apply assoc_string_flat.
Qed.

(** Run the loop in front of the goal, collecting the changes [f] of each
    iteration. *)
Ltac collect_changes hp f ci co Hco Hch :=
  lazymatch goal with
  | |- context [for_each ?l ?body ?k ci] =>
      let E := fresh "E" in
      destruct (for_each_collect (recording hp) f l body k) with (c := ci)
        as (co & E & Hco & Hch); [| |rewrite E; clear E]
  end.

Section FlatObjects.
Variable host : Host.
Variable opts : Options.
Variable fuel : nat.
Variable h : Heap.
Variables a b : addr.
Variables pl pr : list (string * JsValue).
Hypothesis exact : looseEquality opts = false.
Hypothesis default_copies : copies_by_default opts.
Hypothesis unfiltered : propFilter opts = None.
Hypothesis distinct : a <> b.
Hypothesis Ha : h !! a = Some (OObject pl).
Hypothesis Hb : h !! b = Some (OObject pr).
Hypothesis flat_l : Forall (fun kv => is_primitive (snd kv) = true) pl.
Hypothesis flat_r : Forall (fun kv => is_primitive (snd kv) = true) pr.

Let l := set_typeOf KObject (rootNode (VRef a)).
Let r := set_lhs l (set_typeOf KObject (rootNode (VRef b))).
Let lps := objPropsFn opts h (VRef a).
Let rps := objPropsFn opts h (VRef b).

Lemma ensureProperties_unfiltered node c :
  properties node = None -> heap c = h ->
  ensureProperties opts node c
  = Ok (set_properties (objPropsFn opts h (value node)) node, c).
Proof.
  intros Hp Hh. unfold ensureProperties, updateObjectNodeProperties. rewrite Hp.
  run_steps. now rewrite unfiltered, Hh.
Qed.

Lemma flat_objects_run :
  exists c,
    run host opts Diff (S (S fuel)) h (VRef a) (VRef b) = Ok (RBool false, c)
    /\ changes c = flat_object_changes host opts lps rps
                     (get_prop h (VRef a)) (get_prop h (VRef b)).
Proof.
  assert (Hab : Object_is (VRef a) (VRef b) = false) by now apply Nat.eqb_neq.
  assert (Hka : kind_of h (VRef a) = KObject) by (cbn; now rewrite (heap_get_Some _ _ _ Ha)).
  assert (Hkb : kind_of h (VRef b) = KObject) by (cbn; now rewrite (heap_get_Some _ _ _ Hb)).
  rewrite run_distinct by exact Hab. cbv zeta. rewrite Hka, Hkb.
  cbn [kind_eqb]. rewrite (Visitor_visit_fresh _ _ _ _ _ _ _ _ KObject) by reflexivity.
  fold l. fold r.
  assert (Hreg : guardReference opts r (createContext opts h)
                 = Ok (tt, set_refs (if guardCircularRefs opts then Some [VRef b] else None)
                             (createContext opts h))).
  { unfold guardReference, addReference, modify, ret, createContext.
    destruct (guardCircularRefs opts); reflexivity. }
  rewrite (bind_Ok _ _ _ _ _ Hreg).
  set (c0 := set_refs _ (createContext opts h)).
  assert (Hc0 : recording h c0).
  { split; [reflexivity|]. split; [|reflexivity].
    intros rs0. subst c0. cbn. destruct (guardCircularRefs opts); intros [= <-].
    now repeat constructor. }
  unfold Compare_visitObject, lhs_of. cbn [lhs r set_lhs]. rewrite bind_ret_l. fold r.
  rewrite (bind_Ok _ _ _ _ _ (ensureProperties_unfiltered r c0 eq_refl eq_refl)).
  rewrite (bind_Ok _ _ _ _ _ (ensureProperties_unfiltered l c0 eq_refl eq_refl)).
  cbv zeta. cbn [properties set_properties default value l r set_lhs set_typeOf rootNode].
  unfold id. fold lps. fold rps.
  set (l1 := set_properties lps _). set (r1 := set_properties rps _).
  set (node := set_lhs l1 r1).
  assert (Hpath : forall v p n, typeOf n = Some KObject -> parentNode n = None ->
            makePath host opts h (createObjectPropertyNode v p n None) = Ok (prop_path p)).
  { intros v p n Hn Hp. rewrite (makePath_child _ _ _ _ n) by reflexivity.
    rewrite (makePath_root _ _ _ _ Hp), edge_segment_plain by now rewrite Hn.
    cbn. now rewrite Hn. }
  unfold flat_object_changes.
  collect_changes h (fun p : prop => [RemoveFromLhs (prop_path p)]) c0 c1 Hc1 Hch1;
    [|exact Hc0|].
  { intros p c _ (Hs & Hrefs & Hh). rewrite bind_gets_l.
    rewrite (Diff_noRhs_run host opts _ _ (prop_path p));
      [|exact Hs|rewrite Hh; now apply Hpath].
    eexists _, _. split; [reflexivity|]. split; [now repeat split | reflexivity]. }
  collect_changes h (fun p : prop => [AddToLhs (prop_path p) (get_prop h (VRef b) p)])
    c1 c2 Hc2 Hch2; [|exact Hc1|].
  { intros p c _ (Hs & Hrefs & Hh). rewrite bind_gets_l.
    rewrite (Diff_noLhs_run host opts (S fuel) _ _ (prop_path p));
      [|exact Hs|rewrite Hh; now apply Hpath|discriminate
       |apply carries_itself_primitive;
          [exact default_copies | rewrite Hh; now apply (get_prop_flat h b pr)]].
    rewrite Hh.
    eexists _, _. split; [reflexivity|]. split; [now repeat split | reflexivity]. }
  collect_changes h (fun p : prop => leaf_changes host opts (prop_path p) (prop_path p)
                                     (get_prop h (VRef a) p) (get_prop h (VRef b) p))
    c2 c3 Hc3 Hch3; [|exact Hc2|].
  { intros p c _ Hc. assert (Hh : heap c = h) by apply Hc.
    rewrite bind_gets_l. unfold Compare_createObjectPropertyNode, lhs_of.
    cbn [lhs node set_lhs]. run_all.
    unfold Compare_visit. cbn [lhs set_lhs]. rewrite Hh.
    destruct (compare_leaf_changes host opts fuel h
                (childNode (get_prop h (value l1) p) None (Some p) l1)
                (set_lhs (childNode (get_prop h (value l1) p) None (Some p) l1)
                   (createObjectPropertyNode (get_prop h (value node) p) p node None)) c
                (prop_path p) (prop_path p))
      as (bb & c' & E & Hc' & Hch); try assumption; try reflexivity;
      try (now apply Hpath); try discriminate.
    - now apply (get_prop_flat h a pl).
    - now apply (get_prop_flat h b pr).
    - exists bb, c'. split; [exact E|]. split; [exact Hc'|]. exact Hch. }
  exists c3. split; [reflexivity|].
  rewrite Hch3, Hch2, Hch1, !concat_singletons, <- !app_assoc. reflexivity.
Qed.
End FlatObjects.

(** The arrays [[1, undefined, "a"]] and [[1, 2]]. *)
Definition ragged_heap : Heap :=
  list_to_map
    [(0%nat, OArray [Some (VNumber (Num.of_Z 1)); Some VUndefined; Some (VString "a")]);
     (1%nat, OArray [Some (VNumber (Num.of_Z 1)); Some (VNumber (Num.of_Z 2))])].

Lemma strict_diff_of_flat_arrays_witness :
  diff plain_host defaultOptions 2 ragged_heap (VRef 0%nat) (VRef 1%nat)
  = Ok (flat_array_changes plain_host defaultOptions
          [Some (VNumber (Num.of_Z 1)); Some VUndefined; Some (VString "a")]
          [Some (VNumber (Num.of_Z 1)); Some (VNumber (Num.of_Z 2))])
  /\ flat_array_changes plain_host defaultOptions
       [Some (VNumber (Num.of_Z 1)); Some VUndefined; Some (VString "a")]
       [Some (VNumber (Num.of_Z 1)); Some (VNumber (Num.of_Z 2))]
     = [RemoveFromLhs (index_path 2); AddToLhs (index_path (-2)) (VNumber (Num.of_Z 2))].
Proof.
  split; [|vm_compute; reflexivity].
  apply (strict_diff_of_flat_arrays plain_host defaultOptions 0 ragged_heap 0%nat 1%nat).
  - reflexivity.
  - reflexivity.
  - now apply copies_by_default_plain.
  - lia.
  - reflexivity.
  - reflexivity.
  - repeat constructor.
  - repeat constructor.
Defined.

(** When [propFilter] is not set and loose equality is off, the diff of two
    distinct objects whose property values are all primitive lists, in
    this order: a removal for each left-hand property that the right-hand
    side lacks, an addition (carrying the right-hand value) for each
    right-hand property that the left-hand side lacks, and then, for each
    shared property in left-hand order, the changes of the leaf comparison
    of the two values.  The properties are those [objPropsFn] returns. *)
Theorem diff_of_flat_objects host opts fuel h a b (pl pr : list (string * JsValue)) :
  looseEquality opts = false ->
  copies_by_default opts ->
  propFilter opts = None ->
  a <> b ->
  h !! a = Some (OObject pl) -> h !! b = Some (OObject pr) ->
  Forall (fun kv => is_primitive (snd kv) = true) pl ->
  Forall (fun kv => is_primitive (snd kv) = true) pr ->
  diff host opts (S (S fuel)) h (VRef a) (VRef b)
  = Ok (flat_object_changes host opts
          (objPropsFn opts h (VRef a)) (objPropsFn opts h (VRef b))
          (get_prop h (VRef a)) (get_prop h (VRef b))).
Proof.
  intros Hl Hd Hf Hab Ha Hb Hfl Hfr.
  destruct (flat_objects_run host opts fuel h a b pl pr Hl Hd Hf Hab Ha Hb Hfl Hfr)
    as (c & E & Hc).
  unfold diff. now rewrite E, Hc.
Qed.

(** The objects [{x: 1, y: 2, u: undefined}] and [{y: 3, z: 4, u: 5}]. *)
Definition records_heap : Heap :=
  list_to_map
    [(0%nat, OObject [("x"%string, VNumber (Num.of_Z 1)); ("y"%string, VNumber (Num.of_Z 2));
                      ("u"%string, VUndefined)]);
     (1%nat, OObject [("y"%string, VNumber (Num.of_Z 3)); ("z"%string, VNumber (Num.of_Z 4));
                      ("u"%string, VNumber (Num.of_Z 5))])].

Lemma diff_of_flat_objects_witness :
  diff plain_host defaultOptions 2 records_heap (VRef 0%nat) (VRef 1%nat)
  = Ok (flat_object_changes plain_host defaultOptions
          (objPropsFn defaultOptions records_heap (VRef 0%nat))
          (objPropsFn defaultOptions records_heap (VRef 1%nat))
          (get_prop records_heap (VRef 0%nat)) (get_prop records_heap (VRef 1%nat)))
  /\ flat_object_changes plain_host defaultOptions
       (objPropsFn defaultOptions records_heap (VRef 0%nat))
       (objPropsFn defaultOptions records_heap (VRef 1%nat))
       (get_prop records_heap (VRef 0%nat)) (get_prop records_heap (VRef 1%nat))
     = [RemoveFromLhs (prop_path (PName "x"));
        AddToLhs (prop_path (PName "z")) (VNumber (Num.of_Z 4));
        EditLhs (prop_path (PName "y")) (VNumber (Num.of_Z 3));
        AddToLhs (prop_path (PName "u")) (VNumber (Num.of_Z 5))].
Proof.
  split; [|vm_compute; reflexivity].
  apply (diff_of_flat_objects plain_host defaultOptions 0 records_heap 0%nat 1%nat
           [("x"%string, VNumber (Num.of_Z 1)); ("y"%string, VNumber (Num.of_Z 2));
            ("u"%string, VUndefined)]
           [("y"%string, VNumber (Num.of_Z 3)); ("z"%string, VNumber (Num.of_Z 4));
            ("u"%string, VNumber (Num.of_Z 5))]).
  - reflexivity.
  - now apply copies_by_default_plain.
  - reflexivity.
  - lia.
  - reflexivity.
  - reflexivity.
  - repeat constructor.
  - repeat constructor.
Defined.

(** * Termination on graphs of finite depth, without [guardCircularRefs] *)

(** The values that the visitors reach from an object in one step. *)
Definition children (o : obj) : list JsValue :=
  match o with
  | OArray es => present es
  | OObject ps => map snd ps
  | OMap es => map snd es
  | OSet ms => ms
  | _ => []
  end.

Definition children_of (h : Heap) (v : JsValue) : list JsValue :=
  match v with
  | VRef a => children (heap_get h a)
  | _ => []
  end.

(** [shallow h d v]: every chain of references that starts at [v] has at
    most [d] links; in particular no cycle is reachable from [v]. *)
Fixpoint shallow (h : Heap) (d : nat) (v : JsValue) : bool :=
  match v with
  | VRef a =>
      match d with
      | O => false
      | S d' => forallb (shallow h d') (children (heap_get h a))
      end
  | _ => true
  end.

Lemma shallow_primitive h d v : is_primitive v = true -> shallow h d v = true.
Proof. destruct v, d; try reflexivity; discriminate. Qed.

Lemma shallow_child h d v w :
  shallow h (S d) v = true -> In w (children_of h v) -> shallow h d w = true.
Proof.
  destruct v as [| | | | |a]; cbn [children_of]; try (intros _ []).
  cbn [shallow]. intros H Hw. rewrite forallb_forall in H. now apply H.
Qed.

Lemma shallow_container h d v :
  container (kind_of h v) = true -> shallow h d v = true -> exists d', d = S d'.
Proof.
  destruct v; try discriminate. intros _. destruct d; [discriminate | eauto].
Qed.

Lemma array_child h v w : In (Some w) (array_elems h v) -> In w (children_of h v).
Proof.
  destruct v as [| | | | |a]; cbn; try tauto.
  destruct (heap_get h a); cbn; try tauto. apply In_present.
Qed.

Lemma get_prop_child h v p :
  is_primitive (get_prop h v p) = true \/ In (get_prop h v p) (children_of h v).
Proof.
  destruct v as [| | | | |a]; cbn; auto.
  destruct (heap_get h a) as [es|ps| | | | | | |]; cbn; auto; destruct p as [s|i|k]; auto.
  - destruct (i <? 0); [now left|].
    destruct (nth_error es (Z.to_nat i)) as [[x|]|] eqn:E; auto.
    right. apply In_present. eapply nth_error_In, E.
  - induction ps as [|[k v] ps IH]; cbn; [now left|].
    destruct (String.eqb s k); [now right; left|].
    destruct IH as [IH|IH]; [now left | now right; right].
Qed.

Lemma map_get_child h v k :
  is_primitive (map_get h v k) = true \/ In (map_get h v k) (children_of h v).
Proof.
  unfold map_get. destruct v as [| | | | |a]; cbn; auto.
  destruct (heap_get h a) as [| |es| | | | | |]; cbn; auto.
  induction es as [|[k' v] es IH]; cbn; [now left|].
  destruct (same_value_zero k' k); [now right; left|].
  destruct IH as [IH|IH]; [now left | now right; right].
Qed.

Lemma set_member_child h v x : In x (set_members h v) -> In x (children_of h v).
Proof.
  destruct v as [| | | | |a]; cbn; auto. destruct (heap_get h a); cbn; tauto.
Qed.

Lemma set_has_child h v x :
  set_has h v x = true -> is_primitive x = true \/ In x (children_of h v).
Proof.
  unfold set_has. intros H. apply existsb_exists in H as (e & He & Hx).
  destruct x as [| | | | |a]; auto. right.
  destruct e as [| | |n| |b]; try discriminate Hx; [destruct n; discriminate Hx|].
  cbn in Hx. apply Nat.eqb_eq in Hx. subst. now apply set_member_child.
Qed.

Lemma map_value_child h v e : In e (map_entries h v) -> In (snd e) (children_of h v).
Proof.
  destruct v as [| | | | |a]; cbn; auto. destruct (heap_get h a); cbn; try tauto.
  apply in_map.
Qed.

(** The outcome hooks return, and leave the heap alone, unless [Diff]
    copies what it carries. *)
Lemma heap_invariant_total host opts alg h :
  (alg = Diff -> rhsCopyOpts opts = None) ->
  Invariant host opts alg true (fun _ => True) (fun c => heap c = h).
Proof.
  intros Hplain. split; try (intros; exact Logic.I).
  - intros c H. exact H.
  - intros c0 c1 _ H. exact H.
  - intros l r cmp c H. unfold areEqual. wp_steps.
    destruct (searching c), (is_undefined _); exact H.
  - intros fuel l r cmp c _ _ H. unfold notEqual, createEdit, record.
    destruct alg; wp_steps; destruct (searching c); wp_steps; try exact H.
    apply wp_makePath. intros path _.
    apply wp_bind, wp_carried_plain; [now apply Hplain|]. wp_steps. exact H.
  - intros fuel r c _ H. unfold noLhs, createAdd, record.
    destruct alg; wp_steps; destruct (searching c); wp_steps; try exact H.
    destruct r as [r|]; wp_steps.
    apply wp_makePath. intros path _.
    destruct (rev _); wp_steps.
    apply wp_carried_plain; [now apply Hplain|]. wp_steps. exact H.
  - intros l c _ H. unfold noRhs, createRemove, record.
    destruct alg; wp_steps; destruct (searching c); wp_steps; try exact H.
    destruct l as [l|]; wp_steps.
    apply wp_makePath. intros path _. wp_steps. exact H.
Qed.

(** One level of the comparison: the visitors of a node return when the
    comparison of every pair whose right-hand value is a child of the node
    returns. *)
Section Descent.
Variable host : Host.
Variable opts : Options.
Variable alg : algorithm.
Variable h : Heap.
Variable C : JsValue -> Prop.
Variable fuel : nat.
Variable compare : option GraphNode -> option GraphNode -> M VisitResult.
Hypothesis C_primitive : forall w, is_primitive w = true -> C w.
Hypothesis plain : alg = Diff -> rhsCopyOpts opts = None.

(** A right-hand node of the next level. *)
Definition below (o : option GraphNode) : Prop :=
  forall n, o = Some n -> well_kinded h n /\ C (value n).

Hypothesis H_compare : forall l r c,
  below r -> heap c = h -> wp true (compare l r c) (fun _ c' => heap c' = h).

Let HI := heap_invariant_total host opts alg h plain.
Local Abbreviation returns r := (wp true r (fun _ c' => heap c' = h)).

Lemma any_node (o : option GraphNode) : No (fun _ => True) o.
Proof. intros n _. exact Logic.I. Qed.

Lemma below_child v pos p n : C v -> below (Some (set_lhs n (childNode v pos p n))).
Proof. intros Hv m [= <-]. split; [intros k; discriminate | exact Hv]. Qed.

Lemma below_child' v pos p l n : C v -> below (Some (set_lhs l (childNode v pos p n))).
Proof. intros Hv m [= <-]. split; [intros k; discriminate | exact Hv]. Qed.

Variable node : GraphNode.
Hypothesis node_children : forall w, In w (children_of h (value node)) -> C w.

Lemma C_or w : is_primitive w = true \/ In w (children_of h (value node)) -> C w.
Proof. intros [H|H]; [now apply C_primitive | now apply node_children]. Qed.

Lemma Compare_visitObject_returns c :
  heap c = h -> returns (Compare_visitObject host opts alg fuel compare node c).
Proof.
  intros Hc. unfold Compare_visitObject, lhs_of.
  destruct (lhs node) as [l|] eqn:El; [|now wp_steps]. apply wp_bind, wp_ret.
  apply wp_bind. eapply wp_mono.
  { apply (wp_ensureProperties _ _ _ _ _ _ HI); [exact Logic.I | exact Hc]. }
  intros rhs c2 (Hc2 & _ & _ & Hv). cbv beta.
  apply wp_bind. eapply wp_mono.
  { apply (wp_ensureProperties _ _ _ _ _ _ HI); [exact Logic.I | exact Hc2]. }
  intros lhs' c3 (Hc3 & _ & _ & _). cbv beta zeta.
  apply (wp_for_each true (fun c => heap c = h)); [| |exact Hc3].
  { intros p c4 _ Hc4. wp_steps.
    apply (inv_noRhs _ _ _ _ _ _ HI); [apply any_node | exact Hc4]. }
  intros c4 Hc4. apply (wp_for_each true (fun c => heap c = h)); [| |exact Hc4].
  { intros p c5 _ Hc5. wp_steps.
    apply (inv_noLhs _ _ _ _ _ _ HI); [apply any_node | exact Hc5]. }
  intros c5 Hc5. apply (wp_for_each true (fun c => heap c = h)); [| |exact Hc5].
  { intros p c6 _ Hc6. wp_steps. unfold Compare_createObjectPropertyNode.
    cbn [lhs_of lhs set_lhs]. wp_steps. unfold Compare_visit.
    apply H_compare; [|exact Hc6].
    unfold createObjectPropertyNode. cbn [value set_lhs]. rewrite Hv, Hc6.
    apply below_child', C_or, get_prop_child. }
  intros c6 Hc6. now wp_steps.
Qed.

Lemma Compare_visitMap_returns c :
  heap c = h -> returns (Compare_visitMap host opts alg fuel compare node c).
Proof.
  intros Hc. unfold Compare_visitMap, lhs_of.
  destruct (lhs node) as [l|] eqn:El; [|now wp_steps]. apply wp_bind, wp_ret.
  apply wp_bind, wp_gets. cbv zeta.
  apply (wp_for_each true (fun c => heap c = h)); [| |exact Hc].
  { intros p c4 _ Hc4. wp_steps.
    apply (inv_noRhs _ _ _ _ _ _ HI); [apply any_node | exact Hc4]. }
  intros c4 Hc4. apply (wp_for_each true (fun c => heap c = h)); [| |exact Hc4].
  { intros p c5 _ Hc5. wp_steps.
    apply (inv_noLhs _ _ _ _ _ _ HI); [apply any_node | exact Hc5]. }
  intros c5 Hc5. apply (wp_for_each true (fun c => heap c = h)); [| |exact Hc5].
  { intros p c6 _ Hc6. wp_steps. unfold Compare_createMapElementNode, lhs_of.
    rewrite El. wp_steps. unfold Compare_visit.
    apply H_compare; [|exact Hc6].
    unfold createMapElementNode. cbn [lhs set_lhs]. rewrite Hc6.
    apply below_child', C_or, map_get_child. }
  intros c6 Hc6. now wp_steps.
Qed.

Lemma Compare_visitSet_returns c :
  heap c = h -> returns (Compare_visitSet host opts alg fuel compare node c).
Proof.
  intros Hc. unfold Compare_visitSet, lhs_of.
  destruct (lhs node) as [l|] eqn:El; [|now wp_steps]. apply wp_bind, wp_ret.
  apply wp_bind, wp_gets. cbv zeta.
  apply (wp_for_each true (fun c => heap c = h)); [| |exact Hc].
  { intros p c4 _ Hc4.
    apply (inv_noRhs _ _ _ _ _ _ HI); [apply any_node | exact Hc4]. }
  intros c4 Hc4. apply (wp_for_each true (fun c => heap c = h)); [| |exact Hc4].
  { intros p c5 _ Hc5.
    apply (inv_noLhs _ _ _ _ _ _ HI); [apply any_node | exact Hc5]. }
  intros c5 Hc5. apply (wp_for_each true (fun c => heap c = h)); [| |exact Hc5].
  { intros [i x] c6 Hp Hc6. wp_steps. unfold Compare_createSetElementNode, lhs_of.
    rewrite El. wp_steps. unfold Compare_visit.
    apply H_compare; [|exact Hc6].
    unfold createSetElementNode. cbn [lhs set_lhs].
    apply below_child', C_or, set_has_child.
    apply in_rev in Hp. unfold indexed in Hp. apply in_combine_r in Hp.
    apply filter_In in Hp as [_ Hp]. now rewrite Hc in Hp. }
  intros c6 Hc6. now wp_steps.
Qed.

Lemma elementNodes_below (o : option GraphNode) :
  In o (elementNodes opts h node) -> below o.
Proof.
  unfold elementNodes. intros Ho.
  apply in_map_iff in Ho as ([i [v|]] & <- & Hin); cbn [fst snd]; [|intros n [=]].
  intros n [= <-]. unfold indexed in Hin. apply in_combine_r in Hin.
  unfold createArrayElementNode. cbn [typeOf childNode value set_typeOf].
  split; [intros k [= <-]; reflexivity|].
  now apply node_children, array_child.
Qed.

Lemma node_at_below l i : (forall o, In o l -> below o) -> below (node_at l i).
Proof.
  intros Hl n. unfold node_at. destruct (i <? 0); [discriminate|].
  destruct (nth_error l (Z.to_nat i)) as [o|] eqn:E; [|discriminate].
  cbn. intros ->. apply nth_error_In in E. now apply (Hl _ E).
Qed.

Lemma searchCompare_returns elem p c :
  below (Some p) -> heap c = h ->
  wp true (searchCompare compare elem p c) (fun _ c' => heap c' = h).
Proof.
  intros Hp Hc. unfold searchCompare. wp_steps.
  eapply wp_mono; [apply H_compare; [exact Hp | exact Hc]|].
  intros r c1 Hc1. cbv beta. wp_steps. exact Hc1.
Qed.

Lemma findIndexOf_returns elem array matches c :
  (forall o, In o array -> below o) -> heap c = h ->
  wp true (findIndexOf compare elem array matches c) (fun _ c' => heap c' = h).
Proof.
  intros Ha Hc. unfold findIndexOf.
  destruct elem as [elem|], (present array) as [|x xs] eqn:E; wp_steps; try exact Hc.
  set (sameType := List.filter _ (x :: xs)).
  assert (Hs : forall y, In y sameType -> below (Some y)).
  { intros y Hy. apply filter_In in Hy as [Hy _]. rewrite <- E in Hy.
    apply In_present in Hy. now apply Ha. }
  destruct sameType as [|y ys]; wp_steps; [exact Hc|].
  eapply wp_mono.
  { apply (wp_findM true (fun c => heap c = h)); [|exact Hc]. intros z c0 Hz Hc0.
    apply searchCompare_returns; auto. }
  intros [z|] c1 [Hc1 _]; now wp_steps.
Qed.

Lemma matchElements_returns lhsElems rhsElems c :
  (forall o, In o rhsElems -> below o) -> heap c = h ->
  wp true (matchElements compare lhsElems rhsElems c) (fun _ c' => heap c' = h).
Proof.
  intros Hr Hc. unfold matchElements.
  apply (wp_foldM true (fun c => heap c = h)); [|exact Hc].
  intros [[sharedIdx removedIdx] consumed] [i e] c0 Hin Hc0. cbn [fst snd].
  apply wp_bind. eapply wp_mono; [now apply findIndexOf_returns|].
  intros r c1 Hc1. cbv beta. destruct (fst r <? 0); now wp_steps.
Qed.

Lemma Compare_visitArray_returns c :
  heap c = h -> returns (Compare_visitArray host opts alg fuel compare node c).
Proof.
  intros Hc. unfold Compare_visitArray, lhs_of.
  destruct (lhs node) as [l|] eqn:El; [|now wp_steps]. apply wp_bind, wp_ret.
  apply wp_bind, wp_gets. cbv zeta. rewrite Hc.
  assert (Hr := elementNodes_below).
  destruct (laxArrayOrdering opts).
  - apply wp_bind. eapply wp_mono; [now apply matchElements_returns|].
    intros [[sharedIdx removedIdx] consumed] c2 Hc2. cbv beta iota.
    apply (wp_for_each true (fun c => heap c = h)); [| |exact Hc2].
    { intros am c3 _ Hc3. apply H_compare; auto using node_at_below. }
    intros c3 Hc3. apply (wp_for_each true (fun c => heap c = h)); [| |exact Hc3].
    { intros am c4 _ Hc4. apply (inv_noRhs _ _ _ _ _ _ HI); auto using any_node. }
    intros c4 Hc4. apply (wp_for_each true (fun c => heap c = h)); [| |exact Hc4].
    { intros am c5 _ Hc5. apply (inv_noLhs _ _ _ _ _ _ HI); auto using any_node. }
    intros c5 Hc5. now wp_steps.
  - apply (wp_for_each true (fun c => heap c = h)); [| |exact Hc].
    { intros i c3 _ Hc3. apply H_compare; auto using node_at_below. }
    intros c3 Hc3. now wp_steps.
Qed.
End Descent.

Lemma guardReference_heap opts node c h :
  heap c = h -> wp true (guardReference opts node c) (fun _ c' => heap c' = h).
Proof.
  intros Hc. unfold guardReference, addReference.
  destruct (guardCircularRefs opts); wp_steps; [|exact Hc].
  destruct (refs c); [|exact Hc]. destruct (truthy _); exact Hc.
Qed.

(** The comparison of a right-hand value of depth [d] returns on more than
    [d] units of fuel, whatever is on the left and whatever the options. *)
Lemma compare_shallow host opts alg h :
  (alg = Diff -> rhsCopyOpts opts = None) ->
  forall fuel d, (d < fuel)%nat ->
  forall l r c,
    (forall n, r = Some n -> well_kinded h n /\ shallow h d (value n) = true) ->
    heap c = h ->
    wp true (compare host opts alg fuel l r c) (fun _ c' => heap c' = h).
Proof.
  intros Hplain. assert (HI := heap_invariant_total host opts alg h Hplain).
  induction fuel as [|fuel IH]; intros d Hd l r c Hr Hc; [lia|].
  cbn [compare]. unfold Compare_compare.
  destruct l as [l|], r as [r|].
  2: now apply (inv_noRhs _ _ _ _ _ _ HI); [apply any_node|].
  2: now apply (inv_noLhs _ _ _ _ _ _ HI); [apply any_node|].
  2: now apply (inv_areEqual _ _ _ _ _ _ HI).
  destruct (Hr r eq_refl) as [Hwk Hsh].
  destruct (negb _); [now apply (inv_notEqual _ _ _ _ _ _ HI)|].
  destruct (Object_is _ _); [now apply (inv_areEqual _ _ _ _ _ _ HI)|].
  apply wp_bind. eapply wp_mono.
  { apply (wp_ensureTypeOf _ _ _ _ _ _ HI); [exact Logic.I | exact Hc]. }
  intros l' c1 (-> & _ & _ & _ & Tl). cbv beta.
  apply wp_bind. eapply wp_mono.
  { apply (wp_ensureTypeOf _ _ _ _ _ _ HI); [exact Logic.I | exact Hc]. }
  intros r' c1 (-> & _ & Vr & _ & Tr). cbv beta.
  assert (Tr' : typeOf r' = Some (kind_of h (value r))).
  { rewrite Tr, Hc. destruct (typeOf r) as [k|] eqn:E; [|reflexivity].
    cbn. now rewrite (Hwk k E). }
  clear Tr.
  destruct (option_kind_eqb _ _).
  - unfold Visitor_visit. apply wp_bind, wp_get.
    destruct (hasReference c (set_lhs l' r')) eqn:Href; [now wp_steps|].
    unfold ensureTypeOf. cbn [typeOf set_lhs]. rewrite Tr'.
    apply wp_bind, wp_ret. cbn [typeOf set_lhs]. rewrite Tr'.
    destruct (container (kind_of h (value r))) eqn:Ek.
    + destruct (shallow_container h d (value r) Ek Hsh) as (d' & ->).
      assert (Hch : forall w, In w (children_of h (value (set_lhs l' r'))) ->
                      shallow h d' w = true).
      { intros w Hw. cbn [value set_lhs] in Hw. rewrite Vr in Hw.
        now apply (shallow_child h d' (value r)). }
      assert (Hrec : forall l0 r0 c0,
                below h (fun w => shallow h d' w = true) r0 -> heap c0 = h ->
                wp true (compare host opts alg fuel l0 r0 c0) (fun _ c' => heap c' = h)).
      { intros l0 r0 c0 Hr0 Hc0. apply (IH d'); [lia | exact Hr0 | exact Hc0]. }
      assert (Hprim : forall w, is_primitive w = true -> shallow h d' w = true)
        by (intros w; apply shallow_primitive).
      destruct (kind_of h (value r)); try discriminate Ek;
        (apply wp_bind; eapply wp_mono; [exact (guardReference_heap opts _ c h Hc)|];
         intros [] c2 Hc2; cbv beta).
      * apply Compare_visitArray_returns with (C := fun w => shallow h d' w = true);
          assumption.
      * apply Compare_visitObject_returns with (C := fun w => shallow h d' w = true);
          assumption.
      * apply Compare_visitMap_returns with (C := fun w => shallow h d' w = true);
          assumption.
      * apply Compare_visitSet_returns with (C := fun w => shallow h d' w = true);
          assumption.
    + assert (Ho : wp true (Compare_visitOther host opts alg (S fuel) (set_lhs l' r') c)
                     (fun _ c' => heap c' = h)).
      { apply (Compare_visitOther_inv _ _ _ _ _ _ HI); [exact Logic.I | apply any_node | exact Hc]. }
      destruct (kind_of h (value r)); try discriminate Ek; exact Ho.
  - apply wp_bind, wp_gets.
    destruct (_ && _); [now apply (inv_areEqual _ _ _ _ _ _ HI)|].
    destruct (is_kind _ _); [apply (inv_noLhs _ _ _ _ _ _ HI); auto using any_node|].
    destruct (is_kind _ _); [apply (inv_noRhs _ _ _ _ _ _ HI); auto using any_node|].
    now apply (inv_notEqual _ _ _ _ _ _ HI).
Qed.

Lemma run_shallow host opts alg h fuel d x y :
  (alg = Diff -> rhsCopyOpts opts = None) ->
  shallow h d y = true -> (d < fuel)%nat ->
  run host opts alg fuel h x y <> OutOfFuel.
Proof.
  intros Hplain Hy Hd. unfold run.
  apply (wp_total_returns _ (fun _ c' => heap c' = h)).
  apply (compare_shallow host opts alg h Hplain fuel d Hd); [|reflexivity].
  intros n [= <-]. split; [apply rootNode_well_kinded | exact Hy].
Qed.


(** The base visitors, as [Traverse] runs them on a node, return when the
    visit of every child of the node returns. *)
Section TraverseDescent.
Variable opts : Options.
Variable h : Heap.
Variable C : JsValue -> Prop.
Variable visit : GraphNode -> M VisitResult.
Hypothesis C_primitive : forall w, is_primitive w = true -> C w.
Hypothesis H_visit : forall n c,
  well_kinded h n -> C (value n) -> heap c = h ->
  wp true (visit n c) (fun _ c' => heap c' = h).
Hypothesis no_children :
  forall cb n ns, callback opts = Some cb -> cb n <> CbChildren ns.
Variable node : GraphNode.
Hypothesis node_children : forall w, In w (children_of h (value node)) -> C w.

Local Abbreviation returns r := (wp true r (fun _ c' => heap c' = h)).

Lemma visit_child v pos p c :
  is_primitive v = true \/ In v (children_of h (value node)) -> heap c = h ->
  returns (visit (childNode v pos p node) c).
Proof.
  intros Hv Hc. apply H_visit; [intros k; discriminate| |exact Hc].
  destruct Hv as [Hv|Hv]; [now apply C_primitive | now apply node_children].
Qed.

Lemma Traverse_visitArray_returns c :
  heap c = h ->
  returns (Visitor_visitArray (Traverse_visitNode opts visit) visit
             createArrayElementNode node c).
Proof.
  intros Hc. apply Traverse_visitNode_inv with (J := fun c => heap c = h);
    [exact no_children| |exact Hc].
  intros f c0 [= <-] Hc0. wp_steps.
  apply (wp_for_each true (fun c => heap c = h)); [| |exact Hc0].
  - intros i c1 _ Hc1. wp_steps. apply visit_child; [|exact Hc1].
    rewrite Hc1. apply get_prop_child.
  - intros c1 Hc1. now wp_steps.
Qed.

Lemma Traverse_visitSet_returns c :
  heap c = h ->
  returns (Visitor_visitSet (Traverse_visitNode opts visit) visit
             createSetElementNode node c).
Proof.
  intros Hc. apply Traverse_visitNode_inv with (J := fun c => heap c = h);
    [exact no_children| |exact Hc].
  intros f c0 [= <-] Hc0. wp_steps.
  apply (wp_for_each true (fun c => heap c = h)); [| |exact Hc0].
  - intros [i x] c1 Hi Hc1. apply visit_child; [|exact Hc1].
    right. unfold indexed in Hi. apply in_combine_r in Hi.
    rewrite Hc0 in Hi. now apply set_member_child.
  - intros c1 Hc1. now wp_steps.
Qed.

Lemma Traverse_visitMap_returns c :
  heap c = h ->
  returns (Visitor_visitMap (Traverse_visitNode opts visit) visit
             createMapElementNode node c).
Proof.
  intros Hc. apply Traverse_visitNode_inv with (J := fun c => heap c = h);
    [exact no_children| |exact Hc].
  intros f c0 [= <-] Hc0. wp_steps.
  apply (wp_for_each true (fun c => heap c = h)); [| |exact Hc0].
  - intros [i e] c1 Hi Hc1. apply visit_child; [|exact Hc1].
    right. unfold indexed in Hi. apply in_combine_r in Hi.
    rewrite Hc0 in Hi. now apply map_value_child.
  - intros c1 Hc1. now wp_steps.
Qed.

Lemma Traverse_visitObject_returns c :
  heap c = h ->
  returns (Visitor_visitObject opts (Traverse_visitNode opts visit) visit
             createObjectPropertyNode node c).
Proof.
  intros Hc. apply Traverse_visitNode_inv with (J := fun c => heap c = h);
    [exact no_children| |exact Hc].
  intros f c0 [= <-] Hc0. apply wp_bind.
  apply wp_mono with (Q := fun n' c' => heap c' = h /\ exists ps, n' = set_properties ps node).
  { unfold ensureProperties, updateObjectNodeProperties.
    destruct (properties node) as [ps|] eqn:E; wp_steps.
    - split; [exact Hc0|]. exists ps. destruct node; cbn in E; now subst.
    - destruct (propFilter opts); wp_steps; (split; [exact Hc0|]); eexists;
        destruct node; reflexivity. }
  intros node' c1 (Hc1 & ps & ->). apply (wp_for_each true (fun c => heap c = h)); [| |exact Hc1].
  - intros i c2 _ Hc2. wp_steps.
    apply H_visit; [intros k; discriminate| |exact Hc2].
    cbn [value createObjectPropertyNode childNode set_properties]. rewrite Hc2.
    destruct (get_prop_child h (value node) (snd i)) as [Hv|Hv];
      [now apply C_primitive | now apply node_children].
  - intros c2 Hc2. now wp_steps.
Qed.
End TraverseDescent.

Lemma Traverse_visit_shallow opts h :
  (forall cb n ns, callback opts = Some cb -> cb n <> CbChildren ns) ->
  forall fuel d, (d < fuel)%nat ->
  forall node c,
    well_kinded h node -> shallow h d (value node) = true -> heap c = h ->
    wp true (Traverse_visit opts fuel node c) (fun _ c' => heap c' = h).
Proof.
  intros Hcb. induction fuel as [|fuel IH]; intros d Hd node c Hn Hsh Hc; [lia|].
  cbn [Traverse_visit]. unfold Visitor_visit. wp_steps.
  destruct (hasReference c node) eqn:Href; [now wp_steps|].
  assert (Hty : wp true (ensureTypeOf node c)
                  (fun n' c' => c' = c /\ value n' = value node
                                /\ typeOf n' = Some (kind_of h (value node)))).
  { unfold ensureTypeOf, updateNodeTypeOf. destruct (typeOf node) as [kd|] eqn:E; wp_steps.
    - repeat split. now rewrite E, (Hn kd E).
    - repeat split. cbn. now rewrite Hc. }
  apply wp_bind. eapply wp_mono; [exact Hty|]. clear Hty.
  intros n' c' (-> & Hv & Hkd). cbv beta. rewrite Hkd.
  destruct (container (kind_of h (value node))) eqn:Ek.
  - destruct (shallow_container h d (value node) Ek Hsh) as (d' & ->).
    assert (Hch : forall w, In w (children_of h (value n')) -> shallow h d' w = true).
    { intros w Hw. rewrite Hv in Hw. now apply (shallow_child h d' (value node)). }
    assert (Hrec : forall n c0,
              well_kinded h n -> shallow h d' (value n) = true -> heap c0 = h ->
              wp true (Traverse_visit opts fuel n c0) (fun _ c1 => heap c1 = h)).
    { intros n c0 Hwn Hsn Hc0. apply (IH d'); auto. lia. }
    assert (Hprim : forall w, is_primitive w = true -> shallow h d' w = true)
      by (intros w; apply shallow_primitive).
    destruct (kind_of h (value node)); try discriminate Ek;
      (apply wp_bind; eapply wp_mono; [exact (guardReference_heap opts _ c h Hc)|];
       intros [] c2 Hc2; cbv beta).
    + apply Traverse_visitArray_returns with (C := fun w => shallow h d' w = true);
        assumption.
    + apply Traverse_visitObject_returns with (C := fun w => shallow h d' w = true);
        assumption.
    + apply Traverse_visitMap_returns with (C := fun w => shallow h d' w = true);
        assumption.
    + apply Traverse_visitSet_returns with (C := fun w => shallow h d' w = true);
        assumption.
  - assert (Ho : wp true (Visitor_visitOther (Traverse_visitNode opts (Traverse_visit opts fuel))
                            n' c) (fun _ c' => heap c' = h)).
    { apply Traverse_visitOther_inv with (J := fun c => heap c = h); assumption. }
    destruct (kind_of h (value node)); try discriminate Ek; exact Ho.
Qed.

(** [grounded h d v]: every chain of references that starts at [v] has at
    most [d] links and runs through allocated objects only. *)
Fixpoint grounded (h : Heap) (d : nat) (v : JsValue) : bool :=
  match v with
  | VRef a =>
      match d, h !! a with
      | S d', Some o => forallb (grounded h d') (children o)
      | _, _ => false
      end
  | _ => true
  end.

Lemma grounded_primitive h d v : is_primitive v = true -> grounded h d v = true.
Proof. destruct v, d; try reflexivity; discriminate. Qed.

Lemma grounded_child h d v w :
  grounded h (S d) v = true -> In w (children_of h v) -> grounded h d w = true.
Proof.
  destruct v as [| | | | |a]; cbn [children_of]; try (intros _ []).
  cbn [grounded]. unfold heap_get. destruct (h !! a) as [o|]; [|discriminate].
  cbn [default]. intros H Hw. rewrite forallb_forall in H. now apply H.
Qed.

Lemma grounded_ref h d a :
  grounded h d (VRef a) = true -> exists d' o, d = S d' /\ h !! a = Some o.
Proof. destruct d; cbn; [discriminate|]. destruct (h !! a); [eauto | discriminate]. Qed.

(** An allocated source object reads the same in every heap that keeps the
    source. *)
Lemma reads_source h0 h1 d v :
  h0 ⊆ h1 -> grounded h0 d v = true ->
  kind_of h1 v = kind_of h0 v
  /\ array_elems h1 v = array_elems h0 v
  /\ map_entries h1 v = map_entries h0 v
  /\ set_members h1 v = set_members h0 v
  /\ forall p, get_prop h1 v p = get_prop h0 v p.
Proof.
  intros Hsub Hg. destruct v as [| | | | |a]; try now repeat split.
  destruct (grounded_ref h0 d a Hg) as (d' & o & _ & Ho).
  assert (H1 : h1 !! a = Some o) by exact (lookup_weaken h0 h1 a o Ho Hsub).
  unfold kind_of, array_elems, map_entries, set_members, get_prop.
  rewrite (heap_get_Some _ _ _ Ho), (heap_get_Some _ _ _ H1). now repeat split.
Qed.

Lemma Copy_visit_grounded opts h0 :
  createCopyFn opts = None ->
  forall fuel d, (d < fuel)%nat ->
  forall node c,
    keeps_source h0 c -> copy_node h0 node -> grounded h0 d (value node) = true ->
    wp true (Copy_visit opts fuel node c) (copied h0).
Proof.
  intros Hdef. induction fuel as [|fuel IH]; intros d Hd node c Hc [Ht Hp] Hg; [lia|].
  cbn [Copy_visit]. unfold Visitor_visit. apply wp_bind, wp_get.
  destruct (hasReference c node); [apply wp_ret; now split|].
  unfold ensureTypeOf. rewrite Ht. unfold updateNodeTypeOf. apply wp_bind, wp_gets.
  cbn [typeOf set_typeOf].
  set (node' := set_typeOf (kind_of (heap c) (value node)) node).
  assert (Hp' : forall p, parentNode node' = Some p -> off_source h0 (mirror p)) by exact Hp.
  assert (Hguard : forall (k : M (VisitResult * GraphNode)),
            (forall c1, keeps_source h0 c1 -> heap c1 = heap c ->
                        wp true (k c1) (copied h0)) ->
            wp true ((guardReference opts node' ;;; k) c) (copied h0)).
  { intros k Hk. destruct (guardReference_refs opts node' c) as (rs & E).
    rewrite (bind_Ok _ _ _ _ _ E). now apply Hk. }
  assert (Hother : wp true (Visitor_visitOther (Copy_visitNode opts) node' c) (copied h0)).
  { apply Copy_visitNode_frame; auto. intros f [=]. }
  destruct (container (kind_of (heap c) (value node))) eqn:Ek;
    [|destruct (kind_of (heap c) (value node)); try discriminate Ek; exact Hother].
  destruct (container_allocated _ _ Ek) as (a & Ea & _).
  assert (Hg' := Hg). rewrite Ea in Hg'.
  destruct (grounded_ref h0 d a Hg') as (d' & o & -> & Ho). clear Hg'.
  assert (Hchild : forall w, In w (children_of h0 (value node)) -> grounded h0 d' w = true).
  { intros w. now apply grounded_child. }
  assert (Hreads : forall c0, keeps_source h0 c0 ->
            array_elems (heap c0) (value node) = array_elems h0 (value node)
            /\ map_entries (heap c0) (value node) = map_entries h0 (value node)
            /\ set_members (heap c0) (value node) = set_members h0 (value node)
            /\ forall p, get_prop (heap c0) (value node) p = get_prop h0 (value node) p).
  { intros c0 Hc0. now apply (reads_source h0 (heap c0) (S d') (value node) Hc0). }
  assert (Hvisit : forall child c0,
            keeps_source h0 c0 -> copy_node h0 child ->
            is_primitive (value child) = true
            \/ In (value child) (children_of h0 (value node)) ->
            wp true ((r <- Copy_visit opts fuel child ;; ret (fst r)) c0)
               (fun v c' => is_bool v /\ keeps_source h0 c')).
  { intros child c0 Hc0 Hcn Hv. apply wp_bind.
    eapply wp_mono; [apply (IH d'); [lia|exact Hc0|exact Hcn|]|].
    - destruct Hv as [Hv|Hv]; [now apply grounded_primitive | now apply Hchild].
    - intros r c' [Hr Hc']. now apply wp_ret. }
  destruct (kind_of (heap c) (value node)) eqn:Ekind; try discriminate Ek;
    (apply Hguard; intros c1 Hc1 Hh1;
     apply Copy_visitNode_frame; auto; intros f [= <-];
     (split; [cbn [value node' set_typeOf]; rewrite Hh1, Ekind; reflexivity|]);
     intros m c0 Hc0 Hm).
  - apply wp_bind, wp_gets.
    apply (wp_for_each_continues true (keeps_source h0)); [| |exact Hc0].
    + intros i c2 _ Hc2. apply wp_bind, wp_gets. apply Hvisit; [exact Hc2| |].
      * now apply (copy_child_node h0 _ (set_mirror m node')).
      * cbn [value Copy_createArrayElementNode createArrayElementNode childNode
               set_addChildFn set_mirror node' set_typeOf].
        destruct (Hreads c2 Hc2) as (_ & _ & _ & ->). apply get_prop_child.
    + intros c2 Hc2. apply wp_ret. now split.
  - apply wp_bind.
    apply wp_mono with (Q := fun n c' => keeps_source h0 c' /\ mirror n = m
                                         /\ value n = value node).
    { unfold ensureProperties, updateObjectNodeProperties.
      destruct (properties (set_mirror m node')); [now apply wp_ret|].
      apply wp_bind, wp_get. destruct (propFilter opts); now apply wp_ret. }
    intros n c' (Hc' & Hn & Hvn). cbv beta.
    apply (wp_for_each_continues true (keeps_source h0)); [| |exact Hc'].
    + intros i c2 _ Hc2. apply wp_bind, wp_gets. apply Hvisit; [exact Hc2| |].
      * apply (copy_child_node h0 _ n); [now rewrite Hn | reflexivity | reflexivity].
      * cbn [value Copy_createObjectPropertyNode createObjectPropertyNode childNode
               set_addChildFn]. rewrite Hvn.
        destruct (Hreads c2 Hc2) as (_ & _ & _ & ->). apply get_prop_child.
    + intros c2 Hc2. apply wp_ret. now split.
  - apply wp_bind, wp_gets.
    apply (wp_for_each_continues true (keeps_source h0)); [| |exact Hc0].
    + intros [i e] c2 Hi Hc2. apply Hvisit; [exact Hc2| |].
      * now apply (copy_child_node h0 _ (set_mirror m node')).
      * right. unfold indexed in Hi. apply in_combine_r in Hi.
        cbn [value set_mirror node' set_typeOf] in Hi.
        destruct (Hreads c0 Hc0) as (_ & Hm0 & _). rewrite Hm0 in Hi.
        now apply (map_value_child h0 _ e).
    + intros c2 Hc2. apply wp_ret. now split.
  - apply wp_bind, wp_gets.
    apply (wp_for_each_continues true (keeps_source h0)); [| |exact Hc0].
    + intros [i x] c2 Hi Hc2. apply Hvisit; [exact Hc2| |].
      * now apply (copy_child_node h0 _ (set_mirror m node')).
      * right. unfold indexed in Hi. apply in_combine_r in Hi.
        cbn [value set_mirror node' set_typeOf] in Hi.
        destruct (Hreads c0 Hc0) as (_ & _ & Hs0 & _). rewrite Hs0 in Hi.
        now apply set_member_child.
    + intros c2 Hc2. apply wp_ret. now split.
Qed.

(** Without any guard against circular references, [copy] (with the
    default [createCopyFn]) returns, with a result or an exception, whenever
    every chain of references from the value has at most [d] links, runs
    through allocated objects only, and the fuel exceeds [d]. *)
Theorem copy_returns_on_finite_graphs opts h fuel d (v : JsValue) :
  createCopyFn opts = None ->
  grounded h d v = true -> (d < fuel)%nat ->
  copy opts fuel h v <> OutOfFuel.
Proof.
  intros Hdef Hg Hd.
  assert (H : Copy_visit opts fuel (rootNode v) (createContext opts h) <> OutOfFuel).
  { apply (wp_total_returns _ (copied h)).
    apply (Copy_visit_grounded opts h Hdef fuel d Hd); [unfold keeps_source; reflexivity| |exact Hg].
    split; [reflexivity | intros p [=]]. }
  unfold copy. destruct (Copy_visit _ _ _ _) as [[[[] src] c]| |]; try discriminate.
  now elim H.
Qed.

(** Without any guard against circular references, a traversal whose
    callback does not supply children of its own returns whenever every
    chain of references from the value has at most [d] links and the fuel
    exceeds [d]. *)
Theorem traverse_returns_on_shallow_graphs opts h fuel d (v : JsValue) :
  (forall cb n ns, callback opts = Some cb -> cb n <> CbChildren ns) ->
  shallow h d v = true -> (d < fuel)%nat ->
  traverse opts fuel h v <> OutOfFuel.
Proof.
  intros Hcb Hv Hd.
  assert (H : Traverse_visit opts fuel (rootNode v) (createContext opts h) <> OutOfFuel).
  { apply (wp_total_returns _ (fun _ c' => heap c' = h)).
    apply (Traverse_visit_shallow opts h Hcb fuel d Hd);
      [apply rootNode_well_kinded | exact Hv | reflexivity]. }
  unfold traverse. destruct (Traverse_visit _ _ _ _) as [[[] c]| |]; try discriminate.
  now elim H.
Qed.

(** An array that holds an object that holds a set: three levels. *)
Definition nested_heap : Heap :=
  list_to_map
    [(0%nat, OArray [Some (VRef 1%nat); Some (VNumber (Num.of_Z 1))]);
     (1%nat, OObject [("k"%string, VRef 2%nat)]);
     (2%nat, OSet [VString "a"; VBool true])].

(** Two such structures, whose sets differ in one member. *)
Definition nested_pair_heap : Heap :=
  list_to_map
    [(0%nat, OArray [Some (VRef 1%nat); Some (VNumber (Num.of_Z 1))]);
     (1%nat, OObject [("k"%string, VRef 2%nat)]);
     (2%nat, OSet [VString "a"; VBool true]);
     (3%nat, OArray [Some (VRef 4%nat); Some (VNumber (Num.of_Z 1))]);
     (4%nat, OObject [("k"%string, VRef 5%nat)]);
     (5%nat, OSet [VString "a"; VBool false])].


Lemma traverse_returns_on_shallow_graphs_witness :
  traverse defaultOptions 4 nested_heap (VRef 0%nat) <> OutOfFuel.
Proof.
  apply (traverse_returns_on_shallow_graphs defaultOptions nested_heap 4 3).
  - intros cb n ns. discriminate.
  - reflexivity.
  - lia.
Defined.

Lemma copy_returns_on_finite_graphs_witness :
  copy defaultOptions 4 nested_heap (VRef 0%nat) <> OutOfFuel.
Proof.
  apply (copy_returns_on_finite_graphs defaultOptions nested_heap 4 3).
  - reflexivity.
  - reflexivity.
  - lia.
Defined.

(** * The diff of two sets, and of two flat maps *)

(** The comparison of two distinct containers of the same kind starts the
    visitor of that kind on the two roots, in a context that records. *)
Lemma container_roots_run host opts alg fuel h a b k :
  a <> b -> kind_of h (VRef a) = k -> kind_of h (VRef b) = k -> container k = true ->
  exists c0,
    run host opts alg (S (S fuel)) h (VRef a) (VRef b)
    = match k with
      | KArray => Compare_visitArray host opts alg (S (S fuel)) (compare host opts alg (S fuel))
      | KSet => Compare_visitSet host opts alg (S (S fuel)) (compare host opts alg (S fuel))
      | KMap => Compare_visitMap host opts alg (S (S fuel)) (compare host opts alg (S fuel))
      | _ => Compare_visitObject host opts alg (S (S fuel)) (compare host opts alg (S fuel))
      end (set_lhs (set_typeOf k (rootNode (VRef a))) (set_typeOf k (rootNode (VRef b)))) c0
    /\ recording h c0 /\ changes c0 = [] /\ result c0 = CUndefined.
Proof.
  intros Hne Hka Hkb Hk.
  assert (Hab : Object_is (VRef a) (VRef b) = false) by now apply Nat.eqb_neq.
  set (r := set_lhs (set_typeOf k (rootNode (VRef a))) (set_typeOf k (rootNode (VRef b)))).
  assert (Hreg : guardReference opts r (createContext opts h)
                 = Ok (tt, set_refs (if guardCircularRefs opts then Some [VRef b] else None)
                             (createContext opts h))).
  { unfold guardReference, addReference, modify, ret, createContext.
    destruct (guardCircularRefs opts); reflexivity. }
  exists (set_refs (if guardCircularRefs opts then Some [VRef b] else None)
            (createContext opts h)).
  split; [|split; [|split; reflexivity]].
  - rewrite run_distinct by exact Hab. cbv zeta. rewrite Hka, Hkb, kind_eqb_refl.
    rewrite (Visitor_visit_fresh _ _ _ _ _ _ _ _ k) by reflexivity. fold r.
    destruct k; try discriminate Hk; now rewrite (bind_Ok _ _ _ _ _ Hreg).
  - split; [reflexivity|]. split; [|reflexivity].
    intros rs0. cbn. destruct (guardCircularRefs opts); intros [= <-].
    now repeat constructor.
Qed.

(** The text that [JSON.stringify] returned, when it returned one; it
    returns [undefined] for [undefined] and for functions. *)
Definition json_text (j : JsonResult) : option code_units :=
  match j with
  | JsonText text => Some text
  | _ => None
  end.

(** [JSON.stringify] does not throw on the value [x]. *)
Definition stringifies (host : Host) (h : Heap) (x : JsValue) : Prop :=
  forall e, JSON_stringify host h x <> JsonThrows e.

(** The path of a member of the root set when no position is known: the
    hash of its JSON text. *)
Definition member_path (host : Host) (h : Heap) (x : JsValue) : list Patch.PathSegment :=
  [Patch.mkSegment (Some KSet)
     (Some (PName (string_of_Z (stringHashCode (json_text (JSON_stringify host h x))))))].

Lemma indexed_member {A} (l : list A) ix : In ix (indexed l) -> In (snd ix) l.
Proof. destruct ix as [i x]. intros H. eapply nth_error_In, In_indexed, H. Qed.

(** The changes between two sets with the members [la] and [lb]. *)
Definition set_changes (host : Host) (h : Heap) (a b : JsValue) (la lb : list JsValue)
    : list Change :=
  map (fun x => RemoveFromLhs (member_path host h x))
      (List.filter (fun x => negb (set_has h b x)) la)
  ++ map (fun y => AddToLhs (member_path host h y) y)
         (List.filter (fun y => negb (set_has h a y)) lb).

Lemma fold_note_same_recording {A} h (xs : list A) c :
  recording h c ->
  changes (fold_left (fun c _ => note_same c) xs c) = changes c.
Proof. intros _. exact (proj1 (note_same_fold xs c)). Qed.

Lemma indexed_map_snd {A B} (f : A -> B) (l : list A) :
  map (fun ix => f (snd ix)) (indexed l) = map f l.
Proof.
  unfold indexed. generalize 0%nat. induction l as [|x l IH]; intros n; cbn; [reflexivity|].
  now rewrite IH.
Qed.

Section SetDiff.
Variable host : Host.
Variable opts : Options.
Variable fuel : nat.
Variable h : Heap.
Variables a b : addr.
Variables la lb : list JsValue.
Hypothesis distinct : a <> b.
Hypothesis Ha : h !! a = Some (OSet la).
Hypothesis Hb : h !! b = Some (OSet lb).
Hypothesis removed_stringify :
  forall x, In x la -> set_has h (VRef b) x = false -> stringifies host h x.
Hypothesis added_stringify :
  forall y, In y lb -> set_has h (VRef a) y = false -> stringifies host h y.
Hypothesis added_carried :
  forall y, In y lb -> set_has h (VRef a) y = false -> carries_itself opts y.

Lemma set_diff_run :
  exists c,
    run host opts Diff (S (S fuel)) h (VRef a) (VRef b) = Ok (RBool false, c)
    /\ changes c = set_changes host h (VRef a) (VRef b) la lb.
Proof.
  assert (Hka : kind_of h (VRef a) = KSet) by (cbn; now rewrite (heap_get_Some _ _ _ Ha)).
  assert (Hkb : kind_of h (VRef b) = KSet) by (cbn; now rewrite (heap_get_Some _ _ _ Hb)).
  destruct (container_roots_run host opts Diff fuel h a b KSet distinct Hka Hkb eq_refl)
    as (c0 & -> & Hc0 & Hch0 & _).
  set (l := set_typeOf KSet (rootNode (VRef a))).
  set (r := set_lhs l (set_typeOf KSet (rootNode (VRef b)))).
  assert (Hh0 : heap c0 = h) by apply Hc0.
  unfold Compare_visitSet, lhs_of. cbn [lhs r set_lhs]. run_steps. fold r. rewrite Hh0.
  cbv zeta. cbn [value r l set_lhs set_typeOf rootNode].
  assert (Ea : set_members h (VRef a) = la) by (cbn; now rewrite (heap_get_Some _ _ _ Ha)).
  assert (Eb : set_members h (VRef b) = lb) by (cbn; now rewrite (heap_get_Some _ _ _ Hb)).
  rewrite Ea, Eb.
  assert (Hpath : forall x n, typeOf n = Some KSet -> parentNode n = None ->
            stringifies host h x ->
            makePath host opts h (createSetElementNode x n None) = Ok (member_path host h x)).
  { intros x n Hn Hp Hx. rewrite (makePath_child _ _ _ _ n) by reflexivity.
    rewrite (makePath_root _ _ _ _ Hp). unfold edge_segment, member_path. rewrite Hn. cbn.
    destruct (JSON_stringify host h x) as [text| |e] eqn:Ej;
      [| |now elim (Hx e)]; now destruct (strictSetOrdering opts). }
  collect_changes h (fun ix : nat * JsValue => [RemoveFromLhs (member_path host h (snd ix))])
    c0 c1 Hc1 Hch1; [|exact Hc0|].
  { intros ix c Hix (Hs & Hrefs & Hh).
    apply indexed_member, filter_In in Hix as [Hin Hnot]. apply negb_true_iff in Hnot.
    rewrite (Diff_noRhs_run host opts _ _ (member_path host h (snd ix)));
      [|exact Hs|rewrite Hh; apply Hpath; auto].
    eexists _, _. split; [reflexivity|]. split; [now repeat split | reflexivity]. }
  collect_changes h (fun ix : nat * JsValue =>
                       [AddToLhs (member_path host h (snd ix)) (snd ix)])
    c1 c2 Hc2 Hch2; [|exact Hc1|].
  { intros ix c Hix (Hs & Hrefs & Hh).
    apply indexed_member, filter_In in Hix as [Hin Hnot]. apply negb_true_iff in Hnot.
    rewrite (Diff_noLhs_run host opts (S fuel) _ _ (member_path host h (snd ix)));
      [|exact Hs|rewrite Hh; apply Hpath; auto|discriminate|now apply added_carried].
    eexists _, _. split; [reflexivity|]. split; [now repeat split | reflexivity]. }
  rewrite (shared_members_run host opts fuel a b Diff) by apply Hc2.
  eexists. split; [reflexivity|].
  rewrite (fold_note_same_recording h) by exact Hc2.
  rewrite Hch2, Hch1, Hch0, !concat_singletons. cbn [app].
  unfold set_changes.
  now rewrite (indexed_map_snd (fun x => RemoveFromLhs (member_path host h x))),
              (indexed_map_snd (fun y => AddToLhs (member_path host h y) y)).
Qed.
End SetDiff.


(** The sets [{"a", true, null}] and [{false, "a"}]. *)
Definition two_sets_heap : Heap :=
  list_to_map
    [(0%nat, OSet [VString "a"; VBool true; VNull]);
     (1%nat, OSet [VBool false; VString "a"])].


(** The path of the entry of key [k] of the root map. *)
Definition key_path (k : JsValue) : list Patch.PathSegment :=
  [Patch.mkSegment (Some KMap) (Some (PKey k))].

(** The changes between two maps with the keys [lks] and [rks], read by
    [lget] and [rget]. *)
Definition flat_map_changes (host : Host) (opts : Options)
    (lks rks : list JsValue) (lhas rhas : JsValue -> bool) (lget rget : JsValue -> JsValue)
    : list Change :=
  map (fun k => RemoveFromLhs (key_path k)) (List.filter (fun k => negb (rhas k)) lks)
  ++ map (fun k => AddToLhs (key_path k) (rget k)) (List.filter (fun k => negb (lhas k)) rks)
  ++ concat (map (fun k => leaf_changes host opts (key_path k) (key_path k) (lget k) (rget k))
                 (List.filter rhas lks)).

Lemma map_get_flat h a (es : list (JsValue * JsValue)) k :
  h !! a = Some (OMap es) ->
  Forall (fun kv => is_primitive (snd kv) = true) es ->
  is_primitive (map_get h (VRef a) k) = true.
Proof.
  intros Ha Hes. unfold map_get, map_entries. rewrite (heap_get_Some _ _ _ Ha).
  clear Ha. induction Hes as [|[k' v] es Hv _ IH]; cbn; [reflexivity|].
  destruct (same_value_zero k' k); [exact Hv | exact IH].
Qed.

Section FlatMaps.
Variable host : Host.
Variable opts : Options.
Variable fuel : nat.
Variable h : Heap.
Variables a b : addr.
Variables la lb : list (JsValue * JsValue).
Hypothesis unordered : strictMapOrdering opts = false.
Hypothesis exact : looseEquality opts = false.
Hypothesis default_copies : copies_by_default opts.
Hypothesis distinct : a <> b.
Hypothesis Ha : h !! a = Some (OMap la).
Hypothesis Hb : h !! b = Some (OMap lb).
Hypothesis flat_l : Forall (fun kv => is_primitive (snd kv) = true) la.
Hypothesis flat_r : Forall (fun kv => is_primitive (snd kv) = true) lb.

Lemma flat_maps_run :
  exists c,
    run host opts Diff (S (S fuel)) h (VRef a) (VRef b) = Ok (RBool false, c)
    /\ changes c = flat_map_changes host opts (map fst la) (map fst lb)
                     (map_has h (VRef a)) (map_has h (VRef b))
                     (map_get h (VRef a)) (map_get h (VRef b)).
Proof.
  assert (Hka : kind_of h (VRef a) = KMap) by (cbn; now rewrite (heap_get_Some _ _ _ Ha)).
  assert (Hkb : kind_of h (VRef b) = KMap) by (cbn; now rewrite (heap_get_Some _ _ _ Hb)).
  destruct (container_roots_run host opts Diff fuel h a b KMap distinct Hka Hkb eq_refl)
    as (c0 & -> & Hc0 & Hch0 & _).
  set (l := set_typeOf KMap (rootNode (VRef a))).
  set (r := set_lhs l (set_typeOf KMap (rootNode (VRef b)))).
  assert (Hh0 : heap c0 = h) by apply Hc0.
  unfold Compare_visitMap, lhs_of. cbn [lhs r set_lhs]. run_steps. fold r. rewrite Hh0.
  cbv zeta. cbn [value r l set_lhs set_typeOf rootNode]. rewrite unordered. cbn [andb].
  assert (Ea : map_entries h (VRef a) = la) by (cbn; now rewrite (heap_get_Some _ _ _ Ha)).
  assert (Eb : map_entries h (VRef b) = lb) by (cbn; now rewrite (heap_get_Some _ _ _ Hb)).
  rewrite Ea, Eb.
  assert (Hpath : forall v k n, typeOf n = Some KMap -> parentNode n = None ->
            makePath host opts h (createMapElementNode v k n None) = Ok (key_path k)).
  { intros v k n Hn Hp. rewrite (makePath_child _ _ _ _ n) by reflexivity.
    rewrite (makePath_root _ _ _ _ Hp), edge_segment_plain by now rewrite Hn.
    cbn. now rewrite Hn. }
  collect_changes h (fun ik : nat * JsValue => [RemoveFromLhs (key_path (snd ik))])
    c0 c1 Hc1 Hch1; [|exact Hc0|].
  { intros ik c _ (Hs & Hrefs & Hh). rewrite bind_gets_l.
    rewrite (Diff_noRhs_run host opts _ _ (key_path (snd ik)));
      [|exact Hs|rewrite Hh; now apply Hpath].
    eexists _, _. split; [reflexivity|]. split; [now repeat split | reflexivity]. }
  collect_changes h (fun ik : nat * JsValue =>
                       [AddToLhs (key_path (snd ik)) (map_get h (VRef b) (snd ik))])
    c1 c2 Hc2 Hch2; [|exact Hc1|].
  { intros ik c _ (Hs & Hrefs & Hh). rewrite bind_gets_l.
    rewrite (Diff_noLhs_run host opts (S fuel) _ _ (key_path (snd ik)));
      [|exact Hs|rewrite Hh; now apply Hpath|discriminate
       |apply carries_itself_primitive;
          [exact default_copies | rewrite Hh; now apply (map_get_flat h b lb)]].
    rewrite Hh.
    eexists _, _. split; [reflexivity|]. split; [now repeat split | reflexivity]. }
  collect_changes h (fun ik : nat * JsValue =>
                       leaf_changes host opts (key_path (snd ik)) (key_path (snd ik))
                         (map_get h (VRef a) (snd ik)) (map_get h (VRef b) (snd ik)))
    c2 c3 Hc3 Hch3; [|exact Hc2|].
  { intros ik c _ Hc. assert (Hh : heap c = h) by apply Hc.
    rewrite bind_gets_l. unfold Compare_createMapElementNode, lhs_of.
    cbn [lhs r set_lhs]. run_all. unfold Compare_visit. cbn [lhs set_lhs]. rewrite Hh.
    destruct (compare_leaf_changes host opts fuel h
                (childNode (map_get h (value l) (snd ik)) None (Some (PKey (snd ik))) l)
                (set_lhs (childNode (map_get h (value l) (snd ik)) None
                            (Some (PKey (snd ik))) l)
                   (createMapElementNode (map_get h (value r) (snd ik)) (snd ik) r None)) c
                (key_path (snd ik)) (key_path (snd ik)))
      as (bb & c' & E & Hc' & Hch); try assumption; try reflexivity;
      try (now apply Hpath); try discriminate.
    - now apply (map_get_flat h a la).
    - now apply (map_get_flat h b lb).
    - exists bb, c'. split; [exact E|]. split; [exact Hc'|]. exact Hch. }
  exists c3. split; [reflexivity|].
  rewrite Hch3, Hch2, Hch1, Hch0, !concat_singletons. cbn [app].
  unfold flat_map_changes. rewrite <- !app_assoc.
  rewrite (indexed_map_snd (fun k => RemoveFromLhs (key_path k))),
          (indexed_map_snd (fun k => AddToLhs (key_path k) (map_get h (VRef b) k))).
  f_equal. f_equal. f_equal.
  apply (indexed_map_snd (fun k => leaf_changes host opts (key_path k) (key_path k)
                                     (map_get h (VRef a) k) (map_get h (VRef b) k))).
Qed.
End FlatMaps.

(** Without [strictMapOrdering] and loose equality, the diff of two
    distinct ES6 maps whose values are all primitive lists, in this order:
    a RemoveFromLhs for each left-hand key that the right-hand map lacks,
    an AddToLhs (carrying the right-hand value) for each right-hand key
    that the left-hand map lacks, and then for each shared key, in
    left-hand insertion order, the changes of the leaf comparison of the
    two values.  Every change is addressed by the key itself. *)
Theorem diff_of_flat_maps host opts fuel h a b (la lb : list (JsValue * JsValue)) :
  strictMapOrdering opts = false ->
  looseEquality opts = false ->
  copies_by_default opts ->
  a <> b ->
  h !! a = Some (OMap la) -> h !! b = Some (OMap lb) ->
  Forall (fun kv => is_primitive (snd kv) = true) la ->
  Forall (fun kv => is_primitive (snd kv) = true) lb ->
  diff host opts (S (S fuel)) h (VRef a) (VRef b)
  = Ok (flat_map_changes host opts (map fst la) (map fst lb)
          (map_has h (VRef a)) (map_has h (VRef b))
          (map_get h (VRef a)) (map_get h (VRef b))).
Proof.
  intros Hs Hl Hd Hab Ha Hb Hfl Hfr.
  destruct (flat_maps_run host opts fuel h a b la lb Hs Hl Hd Hab Ha Hb Hfl Hfr)
    as (c & E & Hc).
  unfold diff. now rewrite E, Hc.
Qed.

(** The maps [{"x" -> 1, "y" -> 2}] and [{"y" -> 3, "z" -> 4}]. *)
Definition two_maps_heap : Heap :=
  list_to_map
    [(0%nat, OMap [(VString "x", VNumber (Num.of_Z 1)); (VString "y", VNumber (Num.of_Z 2))]);
     (1%nat, OMap [(VString "y", VNumber (Num.of_Z 3)); (VString "z", VNumber (Num.of_Z 4))])].

Lemma diff_of_flat_maps_witness :
  diff plain_host defaultOptions 2 two_maps_heap (VRef 0%nat) (VRef 1%nat)
  = Ok (flat_map_changes plain_host defaultOptions
          [VString "x"; VString "y"] [VString "y"; VString "z"]
          (map_has two_maps_heap (VRef 0%nat)) (map_has two_maps_heap (VRef 1%nat))
          (map_get two_maps_heap (VRef 0%nat)) (map_get two_maps_heap (VRef 1%nat)))
  /\ flat_map_changes plain_host defaultOptions
       [VString "x"; VString "y"] [VString "y"; VString "z"]
       (map_has two_maps_heap (VRef 0%nat)) (map_has two_maps_heap (VRef 1%nat))
       (map_get two_maps_heap (VRef 0%nat)) (map_get two_maps_heap (VRef 1%nat))
     = [RemoveFromLhs (key_path (VString "x"));
        AddToLhs (key_path (VString "z")) (VNumber (Num.of_Z 4));
        EditLhs (key_path (VString "y")) (VNumber (Num.of_Z 3))].
Proof.
  split; [|vm_compute; reflexivity].
  apply (diff_of_flat_maps plain_host defaultOptions 0 two_maps_heap 0%nat 1%nat
           [(VString "x", VNumber (Num.of_Z 1)); (VString "y", VNumber (Num.of_Z 2))]
           [(VString "y", VNumber (Num.of_Z 3)); (VString "z", VNumber (Num.of_Z 4))]).
  - reflexivity.
  - reflexivity.
  - now apply copies_by_default_plain.
  - lia.
  - reflexivity.
  - reflexivity.
  - repeat constructor.
  - repeat constructor.
Defined.

(** * The diff of two flat arrays under lax ordering *)

(** One step of the matching pass on values: the left element [x] at
    index [i] takes the first unconsumed right slot that holds an equal
    value, or is removed. *)
Definition first_fit_step (host : Host) (ys : list JsValue)
    (st : list (nat * nat) * list nat * list Z) (ix : nat * JsValue)
    : list (nat * nat) * list nat * list Z :=
  let '(shared, removed, consumed) := st in
  match candidate host (snd ix) ys consumed with
  | Some jy => (shared ++ [(fst ix, fst jy)], removed, consumed ++ [Z.of_nat (fst jy)])
  | None => (shared, removed ++ [fst ix], consumed)
  end.

(** The matching of [xs] against [ys]: the matched index pairs, the removed
    left indices and the consumed right indices. *)
Definition first_fit (host : Host) (xs ys : list JsValue)
    : list (nat * nat) * list nat * list Z :=
  fold_left (first_fit_step host ys) (indexed xs) ([], [], []).

(** The changes between the arrays [xs] and [ys] under lax ordering. *)
Definition lax_flat_changes (host : Host) (xs ys : list JsValue) : list Change :=
  let '(shared, removed, consumed) := first_fit host xs ys in
  map (fun i => RemoveFromLhs (index_path (Z.of_nat i))) (rev removed)
  ++ (if (length consumed <? length ys)%nat
      then map (fun j => AddToLhs (index_path (- Z.of_nat j - 1)) (nth j ys VUndefined))
               (List.filter (fun j => unmatched consumed (Z.of_nat j)) (seq 0 (length ys)))
      else []).

Definition pair_match (ij : nat * nat) : ArrayMatch :=
  mkMatch (Z.of_nat (fst ij)) (Z.of_nat (snd ij)).
Definition removed_match (i : nat) : ArrayMatch := mkMatch (Z.of_nat i) (-1).
Definition added_match (j : nat) : ArrayMatch := mkMatch (-1) (Z.of_nat j).

(** The matching pass on leaf nodes is the matching pass on their values. *)
Lemma leaf_fold_first_fit host l r ys (lx : list (nat * JsValue)) :
  (forall ix, In ix lx -> is_primitive (snd ix) = true) ->
  forall sh rem m,
    fold_left (leaf_matchStep host (leafNodes r ys))
      (map (fun ix => (fst ix, Some (elemNode l (fst ix) (snd ix)))) lx)
      (map pair_match sh, map removed_match rem, m)
    = (let '(sh', rem', m') := fold_left (first_fit_step host ys) lx (sh, rem, m) in
       (map pair_match sh', map removed_match rem', m')).
Proof.
  induction lx as [|[i x] lx IH]; intros Hprim sh rem m; cbn [fold_left map]; [reflexivity|].
  assert (Hx : is_primitive x = true) by exact (Hprim (i, x) (or_introl eq_refl)).
  assert (He : leaf (elemNode l i x) (value (elemNode l i x))) by (cbn; now repeat split).
  unfold leaf_matchStep at 2. cbn [fst snd].
  rewrite (leaf_findIndexOf_candidate host r (elemNode l i x) ys m He).
  unfold first_fit_step at 2. cbn [fst snd value elemNode set_typeOf createArrayElementNode
                                   childNode].
  destruct (candidate host x ys m) as [[j y]|]; cbn [fst snd].
  - assert (Hneg : (Z.of_nat j <? 0) = false) by (apply Z.ltb_ge; lia).
    rewrite Hneg.
    replace (map pair_match sh ++ [mkMatch (Z.of_nat i) (Z.of_nat j)])
      with (map pair_match (sh ++ [(i, j)])) by now rewrite map_app.
    apply IH. intros ix Hix. apply Hprim. now right.
  - change (-1 <? 0) with true. cbv iota.
    replace (map removed_match rem ++ [mkMatch (Z.of_nat i) (-1)])
      with (map removed_match (rem ++ [i])) by now rewrite map_app.
    apply IH. intros ix Hix. apply Hprim. now right.
Qed.

Lemma indexed_leafNodes l xs :
  indexed (map Some (leafNodes l xs))
  = map (fun ix => (fst ix, Some (elemNode l (fst ix) (snd ix)))) (indexed xs).
Proof.
  unfold leafNodes, indexed. rewrite !length_map, length_combine, length_seq, Nat.min_id.
  generalize 0%nat. induction xs as [|x xs IH]; intros s; cbn; [reflexivity|].
  now rewrite IH.
Qed.

(** What the matching pass establishes about its result. *)
Lemma first_fit_sound host (xs ys : list JsValue) (lx : list (nat * JsValue)) :
  (forall ix, In ix lx -> nth_error xs (fst ix) = Some (snd ix)) ->
  forall sh rem m sh' rem' m',
    fold_left (first_fit_step host ys) lx (sh, rem, m) = (sh', rem', m') ->
    (forall ij, In ij sh ->
       exists x y, nth_error xs (fst ij) = Some x /\ nth_error ys (snd ij) = Some y
                   /\ prim_equal host x y = true) ->
    (forall i, In i rem -> exists x, nth_error xs i = Some x) ->
    (forall ij, In ij sh' ->
       exists x y, nth_error xs (fst ij) = Some x /\ nth_error ys (snd ij) = Some y
                   /\ prim_equal host x y = true)
    /\ (forall i, In i rem' -> exists x, nth_error xs i = Some x).
Proof.
  induction lx as [|[i x] lx IH]; intros Hlx sh rem m sh' rem' m' E Hsh Hrem;
    cbn [fold_left] in E.
  - injection E as <- <- <-. now split.
  - assert (Hix : nth_error xs i = Some x) by exact (Hlx (i, x) (or_introl eq_refl)).
    unfold first_fit_step at 2 in E. cbn [fst snd] in E.
    destruct (candidate host x ys m) as [[j y]|] eqn:Ec.
    + apply (IH (fun ix H => Hlx ix (or_intror H)) _ _ _ _ _ _ E); [|exact Hrem].
      intros ij Hij. apply in_app_or in Hij as [Hij|[<-|[]]]; [now apply Hsh|].
      apply find_some in Ec as [Hin Hacc]. apply In_indexed in Hin.
      unfold accepts in Hacc. apply andb_true_iff in Hacc as [_ Hacc].
      exists x, y. cbn [fst snd] in *. auto.
    + apply (IH (fun ix H => Hlx ix (or_intror H)) _ _ _ _ _ _ E); [exact Hsh|].
      intros i' Hi'. apply in_app_or in Hi' as [Hi'|[<-|[]]]; [now apply Hrem | eauto].
Qed.

(** Lists of indices in increasing order, all at least [lo]. *)
Fixpoint ascending_from (lo : nat) (l : list nat) : Prop :=
  match l with
  | [] => True
  | x :: l' => (lo <= x)%nat /\ ascending_from (S x) l'
  end.

Lemma ascending_snoc lo l x :
  ascending_from lo l -> (forall y, In y l -> (y < x)%nat) -> (lo <= x)%nat ->
  ascending_from lo (l ++ [x]).
Proof.
  revert lo. induction l as [|z l IH]; intros lo Hl Hlt Hlo; cbn.
  - now split.
  - destruct Hl as [Hz Hl]. split; [exact Hz|]. apply IH; [exact Hl| |].
    + intros y Hy. apply Hlt. now right.
    + apply (Hlt z). now left.
Qed.

Lemma ascending_filter_seq (f : nat -> bool) s n :
  ascending_from s (List.filter f (seq s n)).
Proof.
  revert s. induction n as [|n IH]; intros s; cbn; [exact Logic.I|].
  destruct (f s); cbn.
  - split; [lia | apply IH].
  - assert (H : forall lo l, ascending_from (S lo) l -> ascending_from lo l).
    { intros lo [|x l]; cbn; [auto|]. intros [H1 H2]. split; [lia | exact H2]. }
    apply H, IH.
Qed.

Lemma first_fit_removed_ascending host ys (xs : list JsValue) :
  forall s sh rem m sh' rem' m',
    fold_left (first_fit_step host ys) (combine (seq s (length xs)) xs) (sh, rem, m)
    = (sh', rem', m') ->
    ascending_from 0 rem -> (forall i, In i rem -> (i < s)%nat) ->
    ascending_from 0 rem'.
Proof.
  induction xs as [|x xs IH]; intros s sh rem m sh' rem' m' E Hasc Hlt;
    cbn [length seq combine fold_left] in E.
  - now injection E as <- <- <-.
  - unfold first_fit_step at 2 in E. cbn [fst snd] in E.
    destruct (candidate host x ys m) as [[j y]|].
    + apply (IH _ _ _ _ _ _ _ E Hasc). intros i Hi. specialize (Hlt i Hi). lia.
    + apply (IH _ _ _ _ _ _ _ E).
      * apply ascending_snoc; [exact Hasc | exact Hlt | lia].
      * intros i Hi. apply in_app_or in Hi as [Hi|[<-|[]]]; [specialize (Hlt i Hi)|]; lia.
Qed.

(** Sorting indices that come in increasing order: descending by left
    index reverses them, ascending by right index keeps them. *)
Lemma sort_desc_ascending (l : list nat) :
  forall lo acc,
    ascending_from lo l ->
    (forall y, hd_error acc = Some y -> lhIdx y < Z.of_nat lo) ->
    fold_left (fun acc x => sort_insert by_lhIdx_desc x acc) (map removed_match l) acc
    = rev (map removed_match l) ++ acc.
Proof.
  induction l as [|x l IH]; intros lo acc Hl Hacc; cbn [map fold_left rev]; [reflexivity|].
  destruct Hl as [Hx Hl].
  assert (E : sort_insert by_lhIdx_desc (removed_match x) acc = removed_match x :: acc).
  { destruct acc as [|y acc]; [reflexivity|]. cbn [sort_insert].
    specialize (Hacc y eq_refl). unfold by_lhIdx_desc. cbn [lhIdx removed_match].
    assert (H : (lhIdx y <? Z.of_nat x) = true) by (apply Z.ltb_lt; lia).
    now rewrite H. }
  rewrite E, (IH (S x)); [now rewrite <- app_assoc|exact Hl|].
  intros y [= <-]. cbn. lia.
Qed.

Lemma sort_insert_last (x : nat) (acc : list ArrayMatch) :
  (forall y, In y acc -> rhIdx y < Z.of_nat x) ->
  sort_insert by_rhIdx_asc (added_match x) acc = acc ++ [added_match x].
Proof.
  induction acc as [|y acc IH]; intros H; cbn [sort_insert app]; [reflexivity|].
  unfold by_rhIdx_asc at 1. cbn [rhIdx added_match].
  assert (E : (rhIdx y <? Z.of_nat x) = true) by (apply Z.ltb_lt, H; now left).
  rewrite E. change (0 <? -1) with false. cbv iota.
  rewrite IH; [reflexivity|]. intros z Hz. apply H. now right.
Qed.

Lemma sort_asc_ascending (l : list nat) :
  forall lo acc,
    ascending_from lo l ->
    (forall y, In y acc -> rhIdx y < Z.of_nat lo) ->
    fold_left (fun acc x => sort_insert by_rhIdx_asc x acc) (map added_match l) acc
    = acc ++ map added_match l.
Proof.
  induction l as [|x l IH]; intros lo acc Hl Hacc; cbn [map fold_left].
  - now rewrite app_nil_r.
  - destruct Hl as [Hx Hl].
    rewrite sort_insert_last by (intros y Hy; specialize (Hacc y Hy); lia).
    rewrite (IH (S x)); [now rewrite <- app_assoc|exact Hl|].
    intros y Hy. apply in_app_or in Hy as [Hy|[<-|[]]]; [specialize (Hacc y Hy)|cbn]; lia.
Qed.

Section LaxFlatArrays.
Variable host : Host.
Variable opts : Options.
Variable fuel : nat.
Variable h : Heap.
Variables a b : addr.
Variables xs ys : list JsValue.
Hypothesis lax : laxArrayOrdering opts = true.
Hypothesis exact : looseEquality opts = false.
Hypothesis default_copies : copies_by_default opts.
Hypothesis distinct : a <> b.
Hypothesis Ha : h !! a = Some (OArray (map Some xs)).
Hypothesis Hb : h !! b = Some (OArray (map Some ys)).
Hypothesis xs_prim : Forall (fun v => is_primitive v = true) xs.
Hypothesis ys_prim : Forall (fun v => is_primitive v = true) ys.

Let l := set_typeOf KArray (rootNode (VRef a)).
Let r := set_lhs l (set_typeOf KArray (rootNode (VRef b))).

Lemma elemNode_path n i x :
  typeOf n = Some KArray -> parentNode n = None ->
  makePath host opts h (elemNode n i x) = Ok (index_path (Z.of_nat i)).
Proof.
  intros Hn Hp. rewrite (makePath_child _ _ _ _ n) by reflexivity.
  rewrite (makePath_root _ _ _ _ Hp), edge_segment_plain by now rewrite Hn.
  cbn. now rewrite Hn.
Qed.

Lemma lax_flat_arrays_run :
  exists c,
    run host opts Diff (S (S fuel)) h (VRef a) (VRef b) = Ok (RBool false, c)
    /\ changes c = lax_flat_changes host xs ys.
Proof.
  assert (Hka : kind_of h (VRef a) = KArray) by (cbn; now rewrite (heap_get_Some _ _ _ Ha)).
  assert (Hkb : kind_of h (VRef b) = KArray) by (cbn; now rewrite (heap_get_Some _ _ _ Hb)).
  destruct (container_roots_run host opts Diff fuel h a b KArray distinct Hka Hkb eq_refl)
    as (c0 & -> & Hc0 & Hch0 & _).
  fold l. fold r.
  assert (Hh0 : heap c0 = h) by apply Hc0.
  assert (Ea : array_elems h (value l) = map Some xs)
    by (cbn; now rewrite (heap_get_Some _ _ _ Ha)).
  assert (Eb : array_elems h (value r) = map Some ys)
    by (cbn; now rewrite (heap_get_Some _ _ _ Hb)).
  unfold Compare_visitArray, lhs_of. cbn [lhs r set_lhs]. run_steps. fold r.
  rewrite Hh0, lax.
  rewrite (elementNodes_dense opts h r ys lax Eb ys_prim).
  rewrite (elementNodes_dense opts h l xs lax Ea xs_prim).
  set (L := map Some (leafNodes l xs)). set (R := map Some (leafNodes r ys)).
  assert (HL : Forall is_leaf L).
  { apply List.Forall_forall. intros o Ho. apply in_map_iff in Ho as (e & <- & He).
    exists e. split; [reflexivity|]. now apply (leafNodes_leaf l xs). }
  rewrite (bind_Ok _ _ _ _ _
             (matchElements_leaf host opts fuel (leafNodes r ys) L c0 exact HL
                (fun p Hp => leafNodes_leaf r ys p ys_prim Hp) (proj1 (proj2 Hc0)))).
  unfold L at 1. rewrite indexed_leafNodes.
  assert (Hprim : forall ix, In ix (indexed xs) -> is_primitive (snd ix) = true).
  { intros [i x] Hix. apply In_indexed, nth_error_In in Hix.
    rewrite List.Forall_forall in xs_prim. now apply xs_prim. }
  assert (Hfold := leaf_fold_first_fit host l r ys (indexed xs) Hprim [] [] []).
  change (map pair_match []) with (@nil ArrayMatch) in Hfold.
  change (map removed_match []) with (@nil ArrayMatch) in Hfold.
  rewrite Hfold. clear Hfold.
  unfold lax_flat_changes, first_fit.
  destruct (fold_left (first_fit_step host ys) (indexed xs) ([], [], []))
    as [[shared removed] consumed] eqn:Efit.
  destruct (first_fit_sound host xs ys (indexed xs)
              (fun ix => match ix with (i, x) => In_indexed xs i x end)
              [] [] [] shared removed consumed Efit)
    as [Hshared Hremoved]; [intros ij []|intros i []|].
  assert (Hasc : ascending_from 0 removed).
  { apply (first_fit_removed_ascending host ys xs 0 [] [] [] shared removed consumed Efit);
      [exact Logic.I | intros i []]. }
  cbv beta iota.
  assert (HlenR : length R = length ys)
    by (unfold R; now rewrite length_map, length_leafNodes).
  rewrite !HlenR.
  (* the matched pairs *)
  collect_changes h (fun _ : ArrayMatch => @nil Change) c0 c1 Hc1 Hch1; [|exact Hc0|].
  { intros am c Hin Hc. apply In_js_sort, in_map_iff in Hin as ([i j] & <- & Hij).
    destruct (Hshared (i, j) Hij) as (x & y & Hx & Hy & Exy). cbn [fst snd] in *.
    cbn [lhIdx rhIdx pair_match fst snd]. unfold L, R.
    rewrite (node_at_leafNodes l xs i x Hx), (node_at_leafNodes r ys j y Hy).
    assert (Hxp : is_primitive x = true).
    { rewrite List.Forall_forall in xs_prim. now apply xs_prim, (nth_error_In xs i). }
    assert (Hyp : is_primitive y = true).
    { rewrite List.Forall_forall in ys_prim. now apply ys_prim, (nth_error_In ys j). }
    destruct (compare_leaf_changes host opts fuel h (elemNode l i x) (elemNode r j y) c
                (index_path (Z.of_nat i)) (index_path (Z.of_nat j)))
      as (bb & c' & E & Hc' & Hch); try assumption; try reflexivity;
      try (now apply elemNode_path); try discriminate.
    - intros k [= <-]. reflexivity.
    - intros k [= <-]. reflexivity.
    - exists bb, c'. split; [exact E|]. split; [exact Hc'|]. rewrite Hch. f_equal.
      unfold leaf_changes. cbn [value elemNode set_typeOf createArrayElementNode childNode].
      assert (Ho := prim_equal_outcome host opts x y). rewrite Exy in Ho.
      apply andb_true_iff in Ho as [_ Ho]. now rewrite Ho. }
  (* the removed elements *)
  unfold js_sort at 1.
  rewrite (sort_desc_ascending removed 0 [] Hasc) by (intros y [=]).
  rewrite app_nil_r, <- map_rev.
  collect_changes h (fun am : ArrayMatch => [RemoveFromLhs (index_path (lhIdx am))])
    c1 c2 Hc2 Hch2; [|exact Hc1|].
  { intros am c Hin (Hs & Hrefs & Hh). apply in_map_iff in Hin as (i & <- & Hi).
    apply in_rev in Hi. destruct (Hremoved i Hi) as (x & Hx).
    cbn [lhIdx removed_match]. unfold L. rewrite (node_at_leafNodes l xs i x Hx).
    rewrite (Diff_noRhs_run host opts _ _ (index_path (Z.of_nat i)));
      [|exact Hs|rewrite Hh; now apply elemNode_path].
    eexists _, _. split; [reflexivity|]. split; [now repeat split | reflexivity]. }
  (* the added elements *)
  set (added := List.filter (fun i => unmatched consumed (Z.of_nat i)) (seq 0 (length ys))).
  assert (Hadded : js_sort by_rhIdx_asc
                     (if (length consumed <? length ys)%nat
                      then map (fun i => mkMatch (-1) (Z.of_nat i)) added else [])
                   = map added_match (if (length consumed <? length ys)%nat
                                      then added else [])).
  { destruct (length consumed <? length ys)%nat; [|reflexivity].
    unfold js_sort.
    change (map (fun i => mkMatch (-1) (Z.of_nat i)) added) with (map added_match added).
    rewrite (sort_asc_ascending added 0 []); [reflexivity| |intros y []].
    apply ascending_filter_seq. }
  rewrite Hadded.
  collect_changes h (fun am : ArrayMatch =>
                       [AddToLhs (index_path (- rhIdx am - 1))
                          (nth (Z.to_nat (rhIdx am)) ys VUndefined)])
    c2 c3 Hc3 Hch3; [|exact Hc2|].
  { intros am c Hin (Hs & Hrefs & Hh). apply in_map_iff in Hin as (j & <- & Hj).
    assert (Hj' : In j added) by (destruct (length consumed <? length ys)%nat; [exact Hj|destruct Hj]).
    apply filter_In in Hj' as [Hj' _]. apply in_seq in Hj'.
    destruct (nth_error ys j) as [y|] eqn:Ey; [|apply nth_error_None in Ey; lia].
    cbn [rhIdx added_match]. unfold R. rewrite (node_at_leafNodes r ys j y Ey).
    rewrite (Diff_noLhs_run host opts (S fuel) _ _ (index_path (Z.of_nat j)));
      [|exact Hs|rewrite Hh; now apply elemNode_path|discriminate
       |apply carries_itself_primitive; [exact default_copies|];
        rewrite List.Forall_forall in ys_prim; now apply ys_prim, (nth_error_In ys j)].
    rewrite Nat2Z.id, (nth_error_nth _ _ _ Ey).
    eexists _, _. split; [reflexivity|]. split; [now repeat split | reflexivity]. }
  exists c3. split; [reflexivity|].
  rewrite Hch3, Hch2, Hch1, Hch0, !concat_singletons.
  assert (Hnil : forall l0 : list ArrayMatch, concat (map (fun _ => @nil Change) l0) = [])
    by (induction l0; [reflexivity | assumption]).
  rewrite Hnil. cbn [app]. rewrite !map_map. cbn [lhIdx rhIdx removed_match added_match].
  f_equal. destruct (length consumed <? length ys)%nat; [|reflexivity].
  apply map_ext. intros j. now rewrite Nat2Z.id.
Qed.
End LaxFlatArrays.

(** Under lax array ordering (without loose equality), the diff of two
    distinct arrays of primitive values without holes is what the
    first-fit matching leaves over: each left element takes, in index
    order, the first unconsumed right slot holding an equal value; the
    matched pairs produce no change, whatever their indices; then the
    unmatched left indices are removed, highest index first, and the
    unconsumed right indices are added at the marker [-j - 1], lowest index
    first. *)
Theorem lax_diff_of_flat_arrays host opts fuel h a b (xs ys : list JsValue) :
  laxArrayOrdering opts = true ->
  looseEquality opts = false ->
  copies_by_default opts ->
  a <> b ->
  h !! a = Some (OArray (map Some xs)) -> h !! b = Some (OArray (map Some ys)) ->
  Forall (fun v => is_primitive v = true) xs ->
  Forall (fun v => is_primitive v = true) ys ->
  diff host opts (S (S fuel)) h (VRef a) (VRef b) = Ok (lax_flat_changes host xs ys).
Proof.
  intros Hlax Hl Hd Hab Ha Hb Hxs Hys.
  destruct (lax_flat_arrays_run host opts fuel h a b xs ys Hlax Hl Hd Hab Ha Hb Hxs Hys)
    as (c & E & Hc).
  unfold diff. now rewrite E, Hc.
Qed.

(** The arrays [["a", "b", "a", "c"]] and [["a", "d", "b", "e"]]. *)
Definition shuffled_heap : Heap :=
  list_to_map
    [(0%nat, OArray [Some (VString "a"); Some (VString "b"); Some (VString "a");
                     Some (VString "c")]);
     (1%nat, OArray [Some (VString "a"); Some (VString "d"); Some (VString "b");
                     Some (VString "e")])].

Lemma lax_diff_of_flat_arrays_witness :
  diff plain_host laxOptions 2 shuffled_heap (VRef 0%nat) (VRef 1%nat)
  = Ok (lax_flat_changes plain_host
          [VString "a"; VString "b"; VString "a"; VString "c"]
          [VString "a"; VString "d"; VString "b"; VString "e"])
  /\ lax_flat_changes plain_host
       [VString "a"; VString "b"; VString "a"; VString "c"]
       [VString "a"; VString "d"; VString "b"; VString "e"]
     = [RemoveFromLhs (index_path 3); RemoveFromLhs (index_path 2);
        AddToLhs (index_path (-2)) (VString "d"); AddToLhs (index_path (-4)) (VString "e")].
Proof.
  split; [|vm_compute; reflexivity].
  apply (lax_diff_of_flat_arrays plain_host laxOptions 0 shuffled_heap 0%nat 1%nat
           [VString "a"; VString "b"; VString "a"; VString "c"]
           [VString "a"; VString "d"; VString "b"; VString "e"]).
  - reflexivity.
  - reflexivity.
  - now apply copies_by_default_plain.
  - lia.
  - reflexivity.
  - reflexivity.
  - repeat constructor.
  - repeat constructor.
Defined.

(** * Paths are built root first *)

(** [Diff.makePath] walks from the node up to the root and puts each
    segment in front; read from the root, the path of a root node is empty
    and the path of any other node is the path of its parent followed by
    one segment.  That segment carries the kind of the parent and the
    property of the node; below a set it carries instead the position of
    the member (under [strictSetOrdering], when the position is known) or
    the hash of the member's JSON text, the hash of [undefined] where
    [JSON.stringify] returns [undefined].  When [JSON.stringify] throws,
    [makePath] throws the same exception, whatever the path of the parent
    is; and it throws when the path of the parent does. *)
Theorem makePath_extends_parent_path host opts h (n : GraphNode) :
  match parentNode n with
  | None => makePath host opts h n = Ok []
  | Some p =>
      let extend seg :=
        res_bind (makePath host opts h p)
          (fun path => Ok (path ++ [Patch.mkSegment (typeOf p) seg])) in
      if is_kind KSet (typeOf p) then
        match strictSetOrdering opts, position n with
        | true, Some i => makePath host opts h n = extend (Some (PIndex (Z.of_nat i)))
        | _, _ =>
            match JSON_stringify host h (value n) with
            | JsonThrows e => makePath host opts h n = Throw e
            | j =>
                makePath host opts h n
                = extend (Some (PName (string_of_Z (stringHashCode (json_text j)))))
            end
        end
      else makePath host opts h n = extend (property n)
  end.
Proof.
  destruct (parentNode n) as [p|] eqn:E; [|now apply makePath_root].
  cbv zeta. rewrite (makePath_child host opts h n p E). unfold edge_segment.
  destruct (is_kind KSet (typeOf p)); [|reflexivity].
  destruct (strictSetOrdering opts), (position n);
    try reflexivity; now destruct (JSON_stringify host h (value n)).
Qed.

(** * [discover.ts]: property discovery along the prototype chain *)

Module Discover.

(** A property key: a string or a symbol (identified by a number). *)
Inductive key : Type :=
| Name (s : string)
| Symbol (id : nat).

Definition key_eqb (k k' : key) : bool :=
  match k, k' with
  | Name s, Name s' => String.eqb s s'
  | Symbol i, Symbol i' => Nat.eqb i i'
  | _, _ => false
  end.

Definition is_name (k : key) : bool :=
  match k with Name _ => true | Symbol _ => false end.

(** What a property holds, as far as the call [o.propertyIsEnumerable(key)]
    can tell: the built-in method of [Object.prototype], another function
    (which is given the own keys of the receiver with their [enumerable]
    attributes and the key, and returns a truthy or a falsy value or
    throws), or a value that cannot be called. *)
Inductive PropertyValue : Type :=
| Builtin_propertyIsEnumerable
| Method (call : list (key * bool) -> key -> res bool)
| NotCallable.

(** An own property, with the [enumerable] attribute of its descriptor. *)
Record OwnProperty : Type := mkOwnProperty {
  prop_key : key;
  prop_enumerable : bool;
  prop_value : PropertyValue
}.

(** An object: its own properties, in the order of [Reflect.ownKeys], and
    its prototype.  Prototype chains are finite; the chain of an ordinary
    object ends with [Object.prototype], whose prototype is [null]. *)
Inductive JsObject : Type := mkObject {
  ownProperties : list OwnProperty;
  getPrototypeOf : option JsObject
}.

(** [obj] followed by its prototypes, nearest first. *)
Fixpoint chain (obj : JsObject) : list JsObject :=
  obj :: match obj with
         | mkObject _ (Some p) => chain p
         | mkObject _ None => []
         end.

(** ** The built-ins *)

Definition Reflect_ownKeys (o : JsObject) : list key := map prop_key (ownProperties o).

Definition Object_getOwnPropertyNames (o : JsObject) : list key :=
  List.filter is_name (Reflect_ownKeys o).

Definition Object_keys (o : JsObject) : list key :=
  map prop_key
      (List.filter (fun p => is_name (prop_key p) && prop_enumerable p) (ownProperties o)).

(** [Object.prototype.propertyIsEnumerable.call(o, k)]: the [enumerable]
    attribute of the own property [k] of [o], [false] when there is none. *)
Definition Object_prototype_propertyIsEnumerable (o : JsObject) (k : key) : bool :=
  match List.find (fun p => key_eqb (prop_key p) k) (ownProperties o) with
  | Some p => prop_enumerable p
  | None => false
  end.

(** [o[k]]: the property is looked up along the prototype chain. *)
Fixpoint Get (o : JsObject) (k : key) : option PropertyValue :=
  match o with
  | mkObject own proto =>
      match List.find (fun p => key_eqb (prop_key p) k) own with
      | Some p => Some (prop_value p)
      | None =>
          match proto with
          | Some p => Get p k
          | None => None
          end
      end
  end.

(** [o.propertyIsEnumerable(k)]: the method is the one that [o] has or
    inherits; the call throws when there is none. *)
Definition propertyIsEnumerable (o : JsObject) (k : key) : res bool :=
  match Get o (Name "propertyIsEnumerable") with
  | Some Builtin_propertyIsEnumerable => Ok (Object_prototype_propertyIsEnumerable o k)
  | Some (Method call) =>
      call (map (fun p => (prop_key p, prop_enumerable p)) (ownProperties o)) k
  | Some NotCallable | None => Throw (TypeError "o.propertyIsEnumerable is not a function")
  end.

(** [array.filter(f)] with a callback that may throw. *)
Fixpoint filter_res {A} (f : A -> res bool) (l : list A) : res (list A) :=
  match l with
  | [] => Ok []
  | x :: l' =>
      res_bind (f x) (fun b =>
      res_bind (filter_res f l') (fun r => Ok (if b then x :: r else r)))
  end.

(** [retVal.indexOf(prop)]. *)
Definition indexOf (retVal : list key) (prop : key) : Z :=
  findIndex (fun e => key_eqb e prop) retVal.

(** ** The functions of the module *)

(** The callback of [forEach] in [getAll]. *)
Definition push_new (retVal : list key) (prop : key) : list key :=
  if indexOf retVal prop =? -1 then retVal ++ [prop] else retVal.

(** The [do ... while] loop of [getAll]. *)
Fixpoint getAll_loop (fn : JsObject -> res (list key)) (obj : JsObject) (retVal : list key)
    : res (list key) :=
  res_bind (fn obj) (fun props =>
  let retVal := fold_left push_new props retVal in
  match obj with
  | mkObject _ (Some p) => getAll_loop fn p retVal
  | mkObject _ None => Ok retVal
  end).

Definition getAll (obj : JsObject) (fn : JsObject -> res (list key)) : res (list key) :=
  getAll_loop fn obj [].

Definition ownEnumerableNames : JsObject -> list key := Object_keys.
Definition ownPropertyNames : JsObject -> list key := Object_getOwnPropertyNames.
Definition allPropertyNames (o : JsObject) : res (list key) :=
  getAll o (fun o => Ok (Object_getOwnPropertyNames o)).
Definition ownEnumerableKeys (o : JsObject) : res (list key) :=
  filter_res (fun k => propertyIsEnumerable o k) (Reflect_ownKeys o).
Definition ownPropertyKeys : JsObject -> list key := Reflect_ownKeys.
Definition allEnumerableKeys (o : JsObject) : res (list key) := getAll o ownEnumerableKeys.
Definition allPropertyKeys (o : JsObject) : res (list key) :=
  getAll o (fun o => Ok (Reflect_ownKeys o)).

(** ** Properties *)

Lemma key_eqb_eq k k' : key_eqb k k' = true <-> k = k'.
Proof.
  destruct k, k'; cbn; try (split; discriminate).
  - rewrite String.eqb_eq. split; congruence.
  - rewrite Nat.eqb_eq. split; congruence.
Qed.

Lemma findIndex_from_absent {A} (f : A -> bool) l i :
  0 <= i -> (findIndex_from f l i = -1 <-> forall x, In x l -> f x = false).
Proof.
  revert i. induction l as [|x l IH]; intros i Hi; cbn.
  - split; [intros _ y [] | reflexivity].
  - destruct (f x) eqn:E.
    + split; [lia|]. intros H. rewrite (H x (or_introl eq_refl)) in E. discriminate.
    + rewrite IH by lia. split.
      * intros H y [<-|Hy]; [exact E | now apply H].
      * intros H y Hy. apply H. now right.
Qed.

Lemma findIndex_from_present {A} (f : A -> bool) l i :
  findIndex_from f l i <> -1 -> exists x, In x l /\ f x = true.
Proof.
  revert i. induction l as [|x l IH]; intros i; cbn; [congruence|].
  destruct (f x) eqn:E; [intros _; exists x; auto|].
  intros H. destruct (IH _ H) as (y & Hy & Hf). exists y. auto.
Qed.

Lemma indexOf_absent retVal prop : indexOf retVal prop = -1 <-> ~ In prop retVal.
Proof.
  unfold indexOf, findIndex. rewrite findIndex_from_absent by lia. split.
  - intros H Hin. specialize (H prop Hin).
    assert (key_eqb prop prop = true) by now apply key_eqb_eq. congruence.
  - intros H x Hx. destruct (key_eqb x prop) eqn:E; [|reflexivity].
    apply key_eqb_eq in E. subst. now elim H.
Qed.

Lemma push_new_spec retVal prop :
  List.NoDup retVal ->
  List.NoDup (push_new retVal prop)
  /\ (forall k, In k (push_new retVal prop) <-> In k retVal \/ k = prop)
  /\ exists rest, push_new retVal prop = retVal ++ rest.
Proof.
  intros Hnd. unfold push_new. destruct (indexOf retVal prop =? -1) eqn:E.
  - apply Z.eqb_eq, indexOf_absent in E. split; [|split].
    + apply List.NoDup_app; repeat split; auto.
      * repeat constructor. intros [].
      * intros x Hx [<-|[]]. now elim E.
    + intros k. rewrite in_app_iff. cbn. intuition.
    + now exists [prop].
  - apply Z.eqb_neq in E. split; [exact Hnd|]. split.
    + intros k. split; [now left|]. intros [H| ->]; [exact H|].
      destruct (findIndex_from_present _ _ _ E) as (x & Hx & Hk).
      apply key_eqb_eq in Hk. now subst.
    + exists []. now rewrite app_nil_r.
Qed.

Lemma fold_push_new_spec props retVal :
  List.NoDup retVal ->
  List.NoDup (fold_left push_new props retVal)
  /\ (forall k, In k (fold_left push_new props retVal) <-> In k retVal \/ In k props)
  /\ exists rest, fold_left push_new props retVal = retVal ++ rest.
Proof.
  revert retVal. induction props as [|p props IH]; intros retVal Hnd; cbn [fold_left].
  - split; [exact Hnd|]. split; [intros k; cbn; tauto|]. exists []. now rewrite app_nil_r.
  - destruct (push_new_spec retVal p Hnd) as (H1 & H2 & rest1 & H3).
    destruct (IH _ H1) as (H4 & H5 & rest2 & H6). split; [exact H4|]. split.
    + intros k. rewrite H5, H2. cbn. intuition.
    + exists (rest1 ++ rest2). now rewrite H6, H3, app_assoc.
Qed.

Lemma fold_push_new_fresh props retVal :
  List.NoDup (retVal ++ props) -> fold_left push_new props retVal = retVal ++ props.
Proof.
  revert retVal. induction props as [|p props IH]; intros retVal Hnd; cbn [fold_left].
  - now rewrite app_nil_r.
  - assert (Hp : ~ In p retVal).
    { intros Hin. apply List.NoDup_remove_2 in Hnd. apply Hnd, in_or_app. now left. }
    unfold push_new at 2. apply indexOf_absent in Hp. rewrite Hp. cbn [Z.eqb Pos.eqb].
    rewrite IH; rewrite <- app_assoc; [reflexivity | exact Hnd].
Qed.

Lemma chain_head obj : In obj (chain obj).
Proof. destruct obj as [own [p|]]; now left. Qed.

(** The loop of [getAll] when [fn] returns, with the properties [g o], for
    every object of the chain. *)
Lemma getAll_loop_spec fn (g : JsObject -> list key) obj :
  (forall o, In o (chain obj) -> fn o = Ok (g o)) ->
  forall retVal, List.NoDup retVal ->
    exists l,
      getAll_loop fn obj retVal = Ok l
      /\ List.NoDup l
      /\ (forall k, In k l <-> In k retVal \/ exists o, In o (chain obj) /\ In k (g o))
      /\ exists rest, l = fold_left push_new (g obj) retVal ++ rest.
Proof.
  revert obj. fix IH 1. intros [own [p|]] Hfn retVal Hnd; cbn [getAll_loop chain].
  - rewrite (Hfn _ (chain_head _)). cbn [res_bind].
    destruct (fold_push_new_spec (g (mkObject own (Some p))) retVal Hnd) as (H1 & H2 & _).
    destruct (IH p (fun o Ho => Hfn o (or_intror Ho)) _ H1) as (l & E & H3 & H4 & rest & H5).
    exists l. split; [exact E|]. split; [exact H3|]. split.
    + intros k. rewrite H4, H2. split.
      * intros [[H|H]|(o & Ho & Hk)]; [now left| |].
        -- right. exists (mkObject own (Some p)). split; [now left | exact H].
        -- right. exists o. split; [now right | exact Hk].
      * intros [H|(o & [<-|Ho] & Hk)]; [now left; left | now left; right|].
        right. now exists o.
    + destruct (fold_push_new_spec (g p) _ H1) as (_ & _ & rest' & H6).
      exists (rest' ++ rest). now rewrite H5, H6, app_assoc.
  - rewrite (Hfn _ (chain_head _)). cbn [res_bind].
    destruct (fold_push_new_spec (g (mkObject own None)) retVal Hnd) as (H1 & H2 & _).
    eexists. split; [reflexivity|]. split; [exact H1|]. split.
    + intros k. rewrite H2. split.
      * intros [H|H]; [now left|]. right. exists (mkObject own None). split; [now left | exact H].
      * intros [H|(o & [<-|[]] & Hk)]; [now left | now right].
    + exists []. now rewrite app_nil_r.
Qed.

(** When the loop returns, [fn] has returned for every object of the
    chain. *)
Lemma getAll_loop_returns fn obj :
  forall retVal l, getAll_loop fn obj retVal = Ok l ->
    forall o, In o (chain obj) -> exists props, fn o = Ok props.
Proof.
  revert obj. fix IH 1. intros [own [p|]] retVal l; cbn [getAll_loop chain];
    destruct (fn (mkObject own _)) as [props| |] eqn:E; cbn [res_bind]; try discriminate.
  - intros El o [<-|Ho]; [now exists props|]. exact (IH p _ _ El o Ho).
  - intros _ o [<-|[]]. now exists props.
Qed.

(** The first object of the chain on which [fn] throws makes [getAll]
    throw. *)
Lemma getAll_loop_throws fn obj e :
  forall retVal,
    (exists before o after,
       chain obj = before ++ o :: after /\ fn o = Throw e
       /\ forall o', In o' before -> exists props, fn o' = Ok props) ->
    getAll_loop fn obj retVal = Throw e.
Proof.
  revert obj. fix IH 1. intros [own [p|]] retVal (before & o & after & Hc & Ho & Hb);
    cbn [getAll_loop chain] in *.
  - destruct before as [|b before]; cbn in Hc; injection Hc as <- Hc.
    + now rewrite Ho.
    + destruct (Hb _ (or_introl eq_refl)) as (props & ->). cbn [res_bind].
      apply IH. exists before, o, after. split; [exact Hc|]. split; [exact Ho|].
      intros o' Ho'. apply Hb. now right.
  - destruct before as [|b before]; cbn in Hc; injection Hc as <- Hc.
    + now rewrite Ho.
    + now destruct before.
Qed.

(** [getAll] lists every property that [fn] reports for the object or one
    of its prototypes, and lists each of them once, however often it is
    shadowed along the chain; the properties of the object itself come
    first, in the order [fn] reports them.  This is what [getAll] returns
    when [fn] returns for every object of the chain; when [fn] throws for
    one of them, so does [getAll]. *)
Theorem getAll_lists_each_property_once (obj : JsObject) (fn : JsObject -> list key) :
  exists l,
    getAll obj (fun o => Ok (fn o)) = Ok l
    /\ List.NoDup l
    /\ (forall k, In k l <-> exists o, In o (chain obj) /\ In k (fn o))
    /\ (List.NoDup (fn obj) -> exists rest, l = fn obj ++ rest)
    /\ (forall fn' e before o after,
          chain obj = before ++ o :: after -> fn' o = Throw e ->
          (forall o', In o' before -> fn' o' = Ok (fn o')) ->
          getAll obj fn' = Throw e).
Proof.
  unfold getAll.
  destruct (getAll_loop_spec (fun o => Ok (fn o)) fn obj (fun _ _ => eq_refl) []
              (List.NoDup_nil _)) as (l & E & H1 & H2 & rest & H3).
  exists l. split; [exact E|]. split; [exact H1|]. split; [|split].
  - intros k. rewrite H2. split; [intros [[]|H]; exact H | now right].
  - intros Hnd. exists rest. rewrite H3. now rewrite (fold_push_new_fresh (fn obj) []).
  - intros fn' e before o after Hc Ho Hb. apply getAll_loop_throws.
    exists before, o, after. split; [exact Hc|]. split; [exact Ho|].
    intros o' Ho'. exists (fn o'). now apply Hb.
Qed.

(** What [getAll] returns lists what [fn] returned for the objects of the
    chain. *)
Lemma getAll_Ok fn obj l :
  getAll obj fn = Ok l ->
  forall k, In k l <-> exists o props, In o (chain obj) /\ fn o = Ok props /\ In k props.
Proof.
  intros E.
  assert (Hret := getAll_loop_returns fn obj [] l E).
  set (g := fun o => match fn o with Ok props => props | _ => [] end).
  destruct (getAll_loop_spec fn g obj) with (retVal := @nil key) as (l' & E' & _ & H & _).
  { intros o Ho. destruct (Hret o Ho) as (props & Hp). unfold g. now rewrite Hp. }
  { constructor. }
  unfold getAll in E. rewrite E in E'. injection E' as <-.
  intros k. rewrite H. split.
  - intros [[]|(o & Ho & Hk)]. destruct (Hret o Ho) as (props & Hp).
    exists o, props. unfold g in Hk. rewrite Hp in Hk. auto.
  - intros (o & props & Ho & Hp & Hk). right. exists o. unfold g. rewrite Hp. auto.
Qed.

Lemma Object_prototype_propertyIsEnumerable_own o p :
  List.NoDup (Reflect_ownKeys o) -> In p (ownProperties o) ->
  Object_prototype_propertyIsEnumerable o (prop_key p) = prop_enumerable p.
Proof.
  unfold Object_prototype_propertyIsEnumerable, Reflect_ownKeys.
  induction (ownProperties o) as [|q ps IH]; cbn [map List.find]; intros Hnd Hin; [destruct Hin|].
  apply List.NoDup_cons_iff in Hnd as [Hq Hnd].
  destruct (key_eqb (prop_key q) (prop_key p)) eqn:E.
  - destruct Hin as [->|Hin]; [reflexivity|].
    apply key_eqb_eq in E. elim Hq. rewrite E. now apply in_map.
  - destruct Hin as [->|Hin]; [|now apply IH].
    assert (key_eqb (prop_key p) (prop_key p) = true) by now apply key_eqb_eq. congruence.
Qed.

Lemma filter_res_In {A} (f : A -> res bool) l r x :
  filter_res f l = Ok r -> In x r -> In x l.
Proof.
  revert r. induction l as [|y l IH]; intros r; cbn [filter_res].
  - now intros [= <-].
  - destruct (f y) as [b| |]; cbn [res_bind]; try discriminate.
    destruct (filter_res f l) as [r'| |]; cbn [res_bind]; try discriminate.
    intros [= <-] Hx. destruct b; [destruct Hx as [<-|Hx]|]; [now left | |];
      right; now apply (IH r').
Qed.

Lemma filter_res_total {A} (f : A -> res bool) (g : A -> bool) l :
  (forall x, In x l -> f x = Ok (g x)) -> filter_res f l = Ok (List.filter g l).
Proof.
  induction l as [|y l IH]; intros H; cbn [filter_res List.filter]; [reflexivity|].
  rewrite (H y (or_introl eq_refl)), IH by (intros x Hx; apply H; now right).
  cbn. now destruct (g y).
Qed.

(** The object inherits (or has) the built-in [propertyIsEnumerable]. *)
Definition has_builtin_method (o : JsObject) : Prop :=
  Get o (Name "propertyIsEnumerable") = Some Builtin_propertyIsEnumerable.

(** The object has no [propertyIsEnumerable] that can be called. *)
Definition lacks_method (o : JsObject) : Prop :=
  Get o (Name "propertyIsEnumerable") = None
  \/ Get o (Name "propertyIsEnumerable") = Some NotCallable.

Lemma ownEnumerableKeys_builtin o :
  has_builtin_method o ->
  ownEnumerableKeys o
  = Ok (List.filter (Object_prototype_propertyIsEnumerable o) (Reflect_ownKeys o)).
Proof.
  intros H. unfold ownEnumerableKeys. apply filter_res_total.
  intros k _. unfold propertyIsEnumerable. now rewrite H.
Qed.

(** How the discovery functions nest, on an object whose own keys are
    distinct: the enumerable own names are own names, and enumerable own
    keys when the object inherits the built-in [propertyIsEnumerable]; what
    is found on the object itself is found along the chain; and every name,
    enumerable or not, is among [allPropertyKeys].  [ownEnumerableKeys]
    calls the [propertyIsEnumerable] that the object has or inherits: it
    returns when that is the built-in method, and throws on an object that
    has own keys and no such method (one whose chain does not end with
    [Object.prototype]). *)
Theorem discovery_functions_nest (o : JsObject) (k : key) :
  List.NoDup (Reflect_ownKeys o) ->
  exists names keys,
    allPropertyNames o = Ok names /\ allPropertyKeys o = Ok keys
    /\ (In k (ownEnumerableNames o) -> In k (ownPropertyNames o))
    /\ (In k (ownPropertyNames o) -> In k names /\ In k (ownPropertyKeys o))
    /\ (In k (ownPropertyKeys o) -> In k keys)
    /\ (In k names -> In k keys /\ is_name k = true)
    /\ (forall own, ownEnumerableKeys o = Ok own ->
          (In k own -> In k (ownPropertyKeys o))
          /\ (has_builtin_method o -> In k (ownEnumerableNames o) -> In k own)
          /\ forall all, allEnumerableKeys o = Ok all ->
               (In k own -> In k all) /\ (In k all -> In k keys))
    /\ (has_builtin_method o -> exists own, ownEnumerableKeys o = Ok own)
    /\ (lacks_method o -> Reflect_ownKeys o <> [] ->
        ownEnumerableKeys o = Throw (TypeError "o.propertyIsEnumerable is not a function")
        /\ allEnumerableKeys o = Throw (TypeError "o.propertyIsEnumerable is not a function")).
Proof.
  intros Hnd.
  unfold ownEnumerableNames, ownPropertyNames, ownPropertyKeys,
    allPropertyNames, allEnumerableKeys, allPropertyKeys.
  destruct (getAll_loop_spec (fun o => Ok (Object_getOwnPropertyNames o))
              Object_getOwnPropertyNames o (fun _ _ => eq_refl) [] (List.NoDup_nil _))
    as (names & En & _ & Hn & _).
  destruct (getAll_loop_spec (fun o => Ok (Reflect_ownKeys o))
              Reflect_ownKeys o (fun _ _ => eq_refl) [] (List.NoDup_nil _))
    as (keys & Ek & _ & Hk & _).
  exists names, keys. split; [exact En|]. split; [exact Ek|].
  assert (Hown : In k (Reflect_ownKeys o) -> In k keys).
  { intros H. apply Hk. right. exists o. split; [apply chain_head | exact H]. }
  split; [|split; [|split; [|split; [|split; [|split]]]]].
  - intros H. unfold Object_keys in H. apply in_map_iff in H as (p & <- & Hp).
    apply filter_In in Hp as [Hp Hf]. apply andb_prop in Hf as [Hname _].
    apply filter_In. split; [now apply in_map | exact Hname].
  - intros H. split.
    + apply Hn. right. exists o. split; [apply chain_head | exact H].
    + now apply filter_In in H as [H _].
  - exact Hown.
  - intros H. apply Hn in H as [[]|(o' & Ho' & H)]. apply filter_In in H as [H Hname].
    split; [|exact Hname]. apply Hk. right. now exists o'.
  - intros own Eown. split; [|split].
    + intros H. exact (filter_res_In _ _ _ _ Eown H).
    + intros Hb H. rewrite (ownEnumerableKeys_builtin o Hb) in Eown. injection Eown as <-.
      unfold Object_keys in H. apply in_map_iff in H as (p & <- & Hp).
      apply filter_In in Hp as [Hp Hf]. apply andb_prop in Hf as [_ He].
      apply filter_In. split; [now apply in_map|].
      now rewrite Object_prototype_propertyIsEnumerable_own.
    + intros all Eall. assert (Hall := getAll_Ok _ _ _ Eall k). split.
      * intros H. apply Hall. exists o, own. split; [apply chain_head|]. now split.
      * intros H. apply Hall in H as (o' & props & Ho' & Ep & H).
        apply Hk. right. exists o'. split; [exact Ho'|].
        exact (filter_res_In _ _ _ _ Ep H).
  - intros Hb. eexists. now apply ownEnumerableKeys_builtin.
  - intros Hl Hne.
    assert (E : ownEnumerableKeys o
                = Throw (TypeError "o.propertyIsEnumerable is not a function")).
    { unfold ownEnumerableKeys. destruct (Reflect_ownKeys o) as [|k0 ks]; [now elim Hne|].
      cbn [filter_res]. unfold propertyIsEnumerable.
      now destruct Hl as [-> | ->]. }
    split; [exact E|]. apply getAll_loop_throws. exists [], o.
    destruct o as [own [p|]]; cbn [chain]; eexists; (split; [reflexivity|]);
      (split; [exact E | intros o' []]).
Qed.

(** [Object.prototype]: its own properties (in the order in which V8 lists
    them), none of them enumerable. *)
Definition Object_prototype : JsObject :=
  mkObject
    [mkOwnProperty (Name "constructor") false NotCallable;
     mkOwnProperty (Name "__defineGetter__") false NotCallable;
     mkOwnProperty (Name "__defineSetter__") false NotCallable;
     mkOwnProperty (Name "hasOwnProperty") false NotCallable;
     mkOwnProperty (Name "__lookupGetter__") false NotCallable;
     mkOwnProperty (Name "__lookupSetter__") false NotCallable;
     mkOwnProperty (Name "isPrototypeOf") false NotCallable;
     mkOwnProperty (Name "propertyIsEnumerable") false Builtin_propertyIsEnumerable;
     mkOwnProperty (Name "toString") false NotCallable;
     mkOwnProperty (Name "valueOf") false NotCallable;
     mkOwnProperty (Name "__proto__") false NotCallable;
     mkOwnProperty (Name "toLocaleString") false NotCallable]
    None.

(** An object with an enumerable and a hidden name and a symbol, whose
    prototype shadows the enumerable name; the prototype of the prototype
    is [Object.prototype]. *)
Definition sample_object : JsObject :=
  mkObject [mkOwnProperty (Name "a") true NotCallable;
            mkOwnProperty (Name "b") false NotCallable;
            mkOwnProperty (Symbol 0) true NotCallable]
           (Some (mkObject [mkOwnProperty (Name "a") true NotCallable;
                            mkOwnProperty (Name "c") true NotCallable]
                           (Some Object_prototype))).

(** The same object, made with a chain that ends before
    [Object.prototype]. *)
Definition bare_object : JsObject :=
  mkObject [mkOwnProperty (Name "a") true NotCallable;
            mkOwnProperty (Name "b") false NotCallable;
            mkOwnProperty (Symbol 0) true NotCallable]
           (Some (mkObject [mkOwnProperty (Name "a") true NotCallable;
                            mkOwnProperty (Name "c") true NotCallable]
                           None)).

Lemma getAll_examples :
  getAll sample_object ownEnumerableKeys = Ok [Name "a"; Symbol 0; Name "c"]
  /\ getAll bare_object (fun o => Ok (Object_getOwnPropertyNames o))
     = Ok [Name "a"; Name "b"; Name "c"].
Proof. split; reflexivity. Qed.

Lemma discovery_functions_nest_witness :
  (exists names keys,
     allPropertyNames sample_object = Ok names /\ allPropertyKeys sample_object = Ok keys
     /\ (In (Name "a") (ownEnumerableNames sample_object) ->
         In (Name "a") (ownPropertyNames sample_object)))
  /\ ownEnumerableKeys sample_object = Ok [Name "a"; Symbol 0]
  /\ allEnumerableKeys sample_object = Ok [Name "a"; Symbol 0; Name "c"]
  /\ ownEnumerableKeys bare_object
     = Throw (TypeError "o.propertyIsEnumerable is not a function").
Proof.
  split; [|repeat split; reflexivity].
  destruct (discovery_functions_nest sample_object (Name "a")) as (names & keys & H).
  - repeat constructor; cbn; intuition discriminate.
  - exists names, keys. destruct H as (H1 & H2 & H3 & _). now repeat split.
Defined.

End Discover.

(** * [copy] makes a deep copy *)

(** [yields r Q]: the run [r] returned, and [Q] holds of what it
    returned. *)
Definition yields {A} (r : res (A * Context)) (Q : A -> Context -> Prop) : Prop :=
  match r with
  | Ok (a, c) => Q a c
  | _ => False
  end.

Lemma yields_bind {A B} (m : M A) (k : A -> M B) c (Q : B -> Context -> Prop) :
  yields (m c) (fun a c' => yields (k a c') Q) -> yields (bind m k c) Q.
Proof. unfold yields, bind. destruct (m c) as [[a c']| |]; intros H; exact H. Qed.

Lemma yields_mono {A} (r : res (A * Context)) (Q Q' : A -> Context -> Prop) :
  yields r Q -> (forall a c, Q a c -> Q' a c) -> yields r Q'.
Proof. unfold yields. destruct r as [[a c]| |]; intros H HQ; auto. Qed.

Lemma yields_Ok {A} (r : res (A * Context)) Q :
  yields r Q -> exists a c, r = Ok (a, c) /\ Q a c.
Proof. destruct r as [[a c]| |]; cbn; [eauto | tauto | tauto]. Qed.

Ltac yields_step :=
  lazymatch goal with
  | |- yields (bind _ _ _) _ => apply yields_bind
  | |- yields (ret _ _) _ => unfold ret at 1; cbn [yields]
  | |- yields (get _) _ => unfold get at 1; cbn [yields]
  | |- yields (gets _ _) _ => unfold gets at 1; cbn [yields]
  | |- yields (modify _ _) _ => unfold modify at 1; cbn [yields]
  end.
Ltac yields_steps := repeat yields_step.

(** A loop whose iterations all come back with a boolean, with an
    invariant over the elements done so far. *)
Lemma yields_for_each {A} (Inv : list A -> Context -> Prop) (l : list A)
    (body : A -> M VisitResult) (k : M VisitResult) (Q : VisitResult -> Context -> Prop) :
  (forall done x rest c, l = done ++ x :: rest -> Inv done c ->
     yields (body x c) (fun v c' => is_bool v /\ Inv (done ++ [x]) c')) ->
  (forall c, Inv l c -> yields (k c) Q) ->
  forall c, Inv [] c -> yields (for_each l body k c) Q.
Proof.
  intros Hbody Hk.
  assert (H : forall rest done c, l = done ++ rest -> Inv done c ->
            yields (for_each rest body k c) Q).
  { induction rest as [|x rest IH]; intros done c El Hc; cbn [for_each].
    - rewrite app_nil_r in El. subst. now apply Hk.
    - apply yields_bind. eapply yields_mono; [exact (Hbody done x rest c El Hc)|].
      intros r c' [Hr Hc']. cbv beta. rewrite (is_bool_continues r Hr).
      apply (IH (done ++ [x])); [|exact Hc']. now rewrite <- app_assoc. }
  intros c Hc. now apply (H l []).
Qed.

(** The values that [Copy] visits below an object: every slot of an
    array (a hole reads [undefined]), the values of the properties of an
    object and of the entries of a map, the members of a set. *)
Definition copy_children (o : obj) : list JsValue :=
  match o with
  | OArray es => map (slot es) (seq 0 (length es))
  | OObject ps => map snd ps
  | OMap es => map snd es
  | OSet ms => ms
  | _ => []
  end.

(** The keys under which the children are attached. *)
Definition copy_keys (o : obj) : list (option prop) :=
  match o with
  | OArray es => map (fun i => Some (PIndex (Z.of_nat i))) (seq 0 (length es))
  | OObject ps => map (fun p => Some (PName (fst p))) ps
  | OMap es => map (fun e => Some (PKey (fst e))) es
  | OSet ms => map (fun _ => None) ms
  | _ => []
  end.

(** A container with the children [ws] under the keys of [o]. *)
Definition rebuilt (o : obj) (ws : list JsValue) : obj :=
  match o with
  | OArray es => OArray (map Some ws)
  | OObject ps => OObject (combine (map fst ps) ws)
  | OMap es => OMap (combine (map fst es) ws)
  | OSet ms => OSet ws
  | _ => o
  end.

(** [deep_copy_in F d h v h' m]: the value [m] in the heap [h'] is a deep
    copy of the value [v] of the heap [h], down to depth [d]: primitives
    and functions are themselves; every other object is mirrored by an
    object at an address of [F] that has the same contents, its children
    being deep copies of the children of the source. *)
Fixpoint deep_copy_in (F : gset addr) (d : nat) (h : Heap) (v : JsValue)
    (h' : Heap) (m : JsValue) : Prop :=
  match v with
  | VRef a =>
      match d, h !! a with
      | S d', Some OFunction => m = VRef a
      | S d', Some (OView _ _ _) => False
      | S d', Some o =>
          exists a' ws,
            m = VRef a' /\ a' ∈ F /\ h' !! a' = Some (rebuilt o ws)
            /\ Forall2 (fun x w => deep_copy_in F d' h x h' w) (copy_children o) ws
      | _, _ => False
      end
  | _ => m = v
  end.

Lemma deep_copy_in_frame F F' d h v h1 h2 m :
  F ⊆ F' -> (forall a, a ∈ F -> h2 !! a = h1 !! a) ->
  deep_copy_in F d h v h1 m -> deep_copy_in F' d h v h2 m.
Proof.
  intros HF Hh. revert v m. induction d as [|d IH]; intros v m;
    destruct v as [| | | | |a]; cbn [deep_copy_in]; try exact (fun H => H).
  destruct (h !! a) as [o|]; [|exact (fun H => H)].
  assert (Hc : (exists a' ws,
                  m = VRef a' /\ a' ∈ F /\ h1 !! a' = Some (rebuilt o ws)
                  /\ Forall2 (fun x w => deep_copy_in F d h x h1 w) (copy_children o) ws) ->
               exists a' ws,
                 m = VRef a' /\ a' ∈ F' /\ h2 !! a' = Some (rebuilt o ws)
                 /\ Forall2 (fun x w => deep_copy_in F' d h x h2 w) (copy_children o) ws).
  { intros (a' & ws & -> & Ha' & Ho & Hws). exists a', ws.
    split; [reflexivity|]. split; [now apply HF|]. split; [now rewrite Hh|].
    eapply Forall2_impl; [exact Hws|]. intros x w. apply IH. }
  destruct o; try exact Hc; exact (fun H => H).
Qed.

(** What the mirror of a value can be: the value itself, when it is a
    primitive or an object of the source, or else an address of [F]. *)
Lemma deep_copy_in_mirror F d h v h' m :
  deep_copy_in F d h v h' m ->
  (m = v /\ match v with VRef a => a ∈ dom h | _ => True end)
  \/ (exists a a', v = VRef a /\ m = VRef a' /\ a' ∈ F).
Proof.
  destruct d as [|d], v as [| | | | |a]; cbn [deep_copy_in];
    try (intros ->; now left); try tauto.
  destruct (h !! a) as [o|] eqn:Ho; [|tauto].
  assert (Hc : (exists a' ws,
                  m = VRef a' /\ a' ∈ F /\ h' !! a' = Some (rebuilt o ws)
                  /\ Forall2 (fun x w => deep_copy_in F d h x h' w) (copy_children o) ws) ->
               (m = VRef a /\ a ∈ dom h)
               \/ (exists a0 a', VRef a = VRef a0 /\ m = VRef a' /\ a' ∈ F)).
  { intros (a' & ws & -> & Ha' & _). right. now exists a, a'. }
  destruct o; try exact Hc; try tauto.
  intros ->. left. split; [reflexivity|]. apply elem_of_dom. eauto.
Qed.

(** ** What [Copy] can copy *)

Fixpoint distinct_by {A} (eqb : A -> A -> bool) (l : list A) : bool :=
  match l with
  | [] => true
  | x :: l' => negb (existsb (fun y => eqb x y) l') && distinct_by eqb l'
  end.

(** An object as JavaScript builds them and as [defaultCreateCopy]
    handles them: keys and members occur once, no property is named
    [__proto__], and it is not a [DataView]. *)
Definition copyable_obj (o : obj) : bool :=
  match o with
  | OObject ps =>
      distinct_by String.eqb (map fst ps)
      && forallb (fun s => negb (String.eqb s "__proto__")) (map fst ps)
  | OMap es => distinct_by same_value_zero (map fst es)
  | OSet ms => distinct_by same_value_zero ms
  | OView _ _ _ => false
  | _ => true
  end.

(** [copyable h d v]: every chain of references from [v] has at most [d]
    links and runs through allocated, copyable objects only. *)
Fixpoint copyable (h : Heap) (d : nat) (v : JsValue) : bool :=
  match v with
  | VRef a =>
      match d, h !! a with
      | S d', Some o => copyable_obj o && forallb (copyable h d') (copy_children o)
      | _, _ => false
      end
  | _ => true
  end.

Lemma copyable_ref h d a :
  copyable h d (VRef a) = true ->
  exists d' o, d = S d' /\ h !! a = Some o /\ copyable_obj o = true
               /\ forall x, In x (copy_children o) -> copyable h d' x = true.
Proof.
  destruct d as [|d']; cbn; [discriminate|]. destruct (h !! a) as [o|]; [|discriminate].
  intros H. apply andb_prop in H as [H1 H2]. exists d', o. repeat split; auto.
  now apply forallb_forall.
Qed.

(** ** Allocating the mirror and attaching it to its parent *)

(** The empty instance that [defaultCreateCopy] allocates for an object. *)
Definition initial (o : obj) : obj :=
  match o with
  | OArray es => OArray (repeat None (length es))
  | OObject _ => OObject []
  | OMap _ => OMap []
  | OSet _ => OSet []
  | o => o
  end.

(** The adder of the children of an object. *)
Definition adder_of (o : obj) : adder :=
  match o with
  | OArray _ => AddArrayElement
  | OMap _ => AddMapElement
  | OSet _ => AddSetElement
  | _ => AddObjectProperty
  end.

(** What an adder makes of the parent's mirror [o], given the property [p]
    and the mirror [m] of the child; [None] when it throws. *)
Definition attach_obj (f : adder) (o : obj) (p : option prop) (m : JsValue) : option obj :=
  match f with
  | AddObjectProperty | AddArrayElement =>
      match o, p with
      | OObject ps, Some (PName s) =>
          Some (if String.eqb s "__proto__" then o else OObject (assoc_set s m ps))
      | OArray es, Some (PIndex i) =>
          Some (if 0 <=? i then OArray (array_set es (Z.to_nat i) m) else o)
      | _, _ => Some o
      end
  | AddMapElement =>
      match o with
      | OMap es => Some (OMap (map_set (prop_key p) m es))
      | _ => None
      end
  | AddSetElement =>
      match o with
      | OSet ms =>
          Some (if existsb (fun e => same_value_zero e m) ms then o else OSet (ms ++ [m]))
      | _ => None
      end
  end.

Definition attach (f : adder) (o : obj) (kw : option prop * JsValue) : obj :=
  default o (attach_obj f o (fst kw) (snd kw)).

Lemma runAdder_attach f parent child c mp o o' :
  mirror parent = VRef mp -> heap c !! mp = Some o ->
  attach_obj f o (property child) (mirror child) = Some o' ->
  yields (runAdder f (Some parent) child c)
    (fun _ c' => refs c' = refs c /\ heap c' = <[mp := o']> (heap c)).
Proof.
  intros Hm Ho Ha. unfold runAdder, assign_prop. rewrite Hm.
  assert (Hid : heap c = <[mp := o]> (heap c)) by (symmetry; now apply insert_id).
  destruct f; cbn [attach_obj] in Ha; yields_steps; rewrite (heap_get_Some _ _ _ Ho).
  - destruct o, (property child) as [[]|]; injection Ha as <-;
      repeat match goal with
             | |- context [if ?b then _ else _] => destruct b
             end;
      yields_steps; try (now split); unfold store; yields_steps; now split.
  - destruct o; try discriminate Ha. injection Ha as <-. unfold store. yields_steps.
    now split.
  - destruct o; try discriminate Ha. injection Ha as <-.
    destruct (existsb _ _); yields_steps; [now split|]. unfold store. yields_steps. now split.
  - destruct o, (property child) as [[]|]; injection Ha as <-;
      repeat match goal with
             | |- context [if ?b then _ else _] => destruct b
             end;
      yields_steps; try (now split); unfold store; yields_steps; now split.
Qed.

Lemma createCopy_alloc opts node c a o :
  createCopyFn opts = None ->
  value node = VRef a -> heap c !! a = Some o ->
  o <> OFunction -> (forall b off len, o <> OView b off len) ->
  createCopy opts node c
  = Ok (VRef (fresh (dom (heap c))),
        set_heap (<[fresh (dom (heap c)) := initial o]> (heap c)) c).
Proof.
  intros Hdef Hv Ho Hf Hview. unfold createCopy, defaultCreateCopy. rewrite Hdef, Hv.
  rewrite bind_get_l, (heap_get_Some _ _ _ Ho).
  destruct o; try reflexivity; [now elim (Hview buffer byteOffset byteLength) | now elim Hf].
Qed.

Lemma createCopy_same opts node c :
  createCopyFn opts = None ->
  match value node with
  | VRef a => heap c !! a = Some OFunction
  | _ => True
  end ->
  createCopy opts node c = Ok (value node, c).
Proof.
  intros Hdef Hv. unfold createCopy, defaultCreateCopy. rewrite Hdef.
  destruct (value node) as [| | | | |a]; try reflexivity.
  now rewrite bind_get_l, (heap_get_Some _ _ _ Hv).
Qed.

(** ** Filling the mirror *)

Lemma attach_array es (i : nat) w :
  attach AddArrayElement (OArray es) (Some (PIndex (Z.of_nat i)), w)
  = OArray (array_set es i w).
Proof.
  unfold attach. cbn [attach_obj fst snd default].
  assert (E : (0 <=? Z.of_nat i) = true) by (apply Z.leb_le; lia).
  now rewrite E, Nat2Z.id.
Qed.

Lemma attach_object ps s w :
  String.eqb s "__proto__" = false ->
  attach AddObjectProperty (OObject ps) (Some (PName s), w) = OObject (assoc_set s w ps).
Proof. intros H. unfold attach. cbn [attach_obj fst snd]. now rewrite H. Qed.

Lemma attach_map es k w :
  attach AddMapElement (OMap es) (Some (PKey k), w) = OMap (map_set k w es).
Proof. reflexivity. Qed.

Lemma attach_set ms p w :
  attach AddSetElement (OSet ms) (p, w)
  = if existsb (fun e => same_value_zero e w) ms then OSet ms else OSet (ms ++ [w]).
Proof. reflexivity. Qed.

Lemma fill_array (ws : list JsValue) : forall k (pre : list (option JsValue)),
  length pre = k ->
  fold_left (attach AddArrayElement)
    (combine (map (fun i => Some (PIndex (Z.of_nat i))) (seq k (length ws))) ws)
    (OArray (pre ++ repeat None (length ws)))
  = OArray (pre ++ map Some ws).
Proof.
  induction ws as [|w ws IH]; intros k pre Hk; subst k;
    cbn [length seq map combine fold_left repeat].
  - reflexivity.
  - rewrite attach_array, array_set_at.
    replace (pre ++ Some w :: repeat None (length ws))
      with ((pre ++ [Some w]) ++ repeat None (length ws)) by now rewrite <- app_assoc.
    rewrite (IH (S (length pre))) by (rewrite length_app; cbn; lia).
    now rewrite <- app_assoc.
Qed.

Lemma assoc_set_new s w (acc : list (string * JsValue)) :
  existsb (String.eqb s) (map fst acc) = false -> assoc_set s w acc = acc ++ [(s, w)].
Proof.
  induction acc as [|[k v] acc IH]; cbn; [reflexivity|].
  intros H. apply orb_false_iff in H as [H1 H2]. rewrite H1. now rewrite IH.
Qed.

Lemma fill_object (keys : list string) : forall (ws : list JsValue) acc,
  length ws = length keys ->
  distinct_by String.eqb (map fst acc ++ keys) = true ->
  forallb (fun s => negb (String.eqb s "__proto__")) keys = true ->
  fold_left (attach AddObjectProperty)
    (combine (map (fun s => Some (PName s)) keys) ws) (OObject acc)
  = OObject (acc ++ combine keys ws).
Proof.
  induction keys as [|s keys IH]; intros ws acc Hlen Hd Hproto.
  - cbn. now rewrite app_nil_r.
  - destruct ws as [|w ws]; [discriminate|]. cbn [map combine fold_left].
    cbn [forallb] in Hproto. apply andb_prop in Hproto as [Hs0 Hproto].
    apply negb_true_iff in Hs0.
    rewrite (attach_object _ _ _ Hs0).
    assert (Hs : existsb (String.eqb s) (map fst acc) = false).
    { clear IH Hlen. induction acc as [|[k v] acc IHa]; [reflexivity|].
      cbn in Hd |- *. apply andb_prop in Hd as [H1 H2].
      rewrite existsb_app in H1. cbn in H1. apply negb_true_iff in H1.
      apply orb_false_iff in H1 as [_ H1]. apply orb_false_iff in H1 as [H1 _].
      rewrite String.eqb_sym, H1. cbn. now apply IHa. }
    rewrite (assoc_set_new s w acc Hs), IH.
    + now rewrite <- app_assoc.
    + now injection Hlen.
    + rewrite map_app. cbn. now rewrite <- app_assoc.
    + exact Hproto.
Qed.

Lemma map_set_new k w (acc : list (JsValue * JsValue)) :
  existsb (fun k' => same_value_zero k' k) (map fst acc) = false ->
  map_set k w acc = acc ++ [(k, w)].
Proof.
  induction acc as [|[k' v] acc IH]; cbn; [reflexivity|].
  intros H. apply orb_false_iff in H as [H1 H2]. rewrite H1. now rewrite IH.
Qed.

Lemma fill_map (keys : list JsValue) : forall (ws : list JsValue) acc,
  length ws = length keys ->
  distinct_by same_value_zero (map fst acc ++ keys) = true ->
  fold_left (attach AddMapElement)
    (combine (map (fun k => Some (PKey k)) keys) ws) (OMap acc)
  = OMap (acc ++ combine keys ws).
Proof.
  induction keys as [|k keys IH]; intros ws acc Hlen Hd.
  - cbn. now rewrite app_nil_r.
  - destruct ws as [|w ws]; [discriminate|]. cbn [map combine fold_left].
    rewrite attach_map.
    assert (Hs : existsb (fun k' => same_value_zero k' k) (map fst acc) = false).
    { clear IH Hlen. induction acc as [|[k' v] acc IHa]; [reflexivity|].
      cbn in Hd |- *. apply andb_prop in Hd as [H1 H2].
      rewrite existsb_app in H1. cbn in H1. apply negb_true_iff in H1.
      apply orb_false_iff in H1 as [_ H1]. apply orb_false_iff in H1 as [H1 _].
      rewrite H1. cbn. now apply IHa. }
    rewrite (map_set_new k w acc Hs), IH.
    + now rewrite <- app_assoc.
    + now injection Hlen.
    + rewrite map_app. cbn. now rewrite <- app_assoc.
Qed.

Lemma fill_set {A} (keys : list A) : forall (ws acc : list JsValue),
  length ws = length keys ->
  distinct_by same_value_zero (acc ++ ws) = true ->
  fold_left (attach AddSetElement) (combine (map (fun _ => None) keys) ws) (OSet acc)
  = OSet (acc ++ ws).
Proof.
  induction keys as [|k keys IH]; intros ws acc Hlen Hd.
  - destruct ws; [|discriminate]. cbn. now rewrite app_nil_r.
  - destruct ws as [|w ws]; [discriminate|]. cbn [map combine fold_left].
    rewrite attach_set.
    assert (Hs : existsb (fun e => same_value_zero e w) acc = false).
    { clear IH Hlen. induction acc as [|x acc IHa]; [reflexivity|].
      cbn in Hd |- *. apply andb_prop in Hd as [H1 H2].
      rewrite existsb_app in H1. cbn in H1. apply negb_true_iff in H1.
      apply orb_false_iff in H1 as [_ H1]. apply orb_false_iff in H1 as [H1 _].
      rewrite H1. cbn. now apply IHa. }
    rewrite Hs, IH.
    + now rewrite <- app_assoc.
    + now injection Hlen.
    + now rewrite <- app_assoc.
Qed.

(** Attaching the children [ws] one after the other, under the keys of
    [o], to the empty instance gives the rebuilt container. *)
Lemma attach_all o ws :
  copyable_obj o = true ->
  length ws = length (copy_children o) ->
  (forall ms, o = OSet ms -> distinct_by same_value_zero ws = true) ->
  fold_left (attach (adder_of o)) (combine (copy_keys o) ws) (initial o) = rebuilt o ws.
Proof.
  intros Hc Hlen Hset. destruct o; cbn [copy_keys initial rebuilt adder_of copy_children] in *.
  - rewrite length_map, length_seq in Hlen. rewrite <- Hlen.
    exact (fill_array ws 0 [] eq_refl).
  - rewrite length_map in Hlen. rewrite <- (map_map fst (fun s => Some (PName s))).
    apply andb_prop in Hc as [Hc Hproto].
    rewrite (fill_object (map fst props) ws []);
      [reflexivity | now rewrite length_map | exact Hc | exact Hproto].
  - rewrite length_map in Hlen. rewrite <- (map_map fst (fun k => Some (PKey k))).
    rewrite (fill_map (map fst entries) ws []); [reflexivity| now rewrite length_map |exact Hc].
  - rewrite (fill_set members ws []); [reflexivity | exact Hlen | now apply (Hset members)].
  - destruct ws; [reflexivity | discriminate].
  - destruct ws; [reflexivity | discriminate].
  - discriminate.
  - destruct ws; [reflexivity | discriminate].
  - destruct ws; [reflexivity | discriminate].
Qed.

Lemma distinct_by_snoc {A} (eqb : A -> A -> bool) (l : list A) x :
  distinct_by eqb l = true -> (forall y, In y l -> eqb y x = false) ->
  distinct_by eqb (l ++ [x]) = true.
Proof.
  induction l as [|y l IH]; intros Hd Hx; cbn; [reflexivity|].
  cbn in Hd. apply andb_prop in Hd as [H1 H2]. rewrite IH; auto.
  - rewrite existsb_app. cbn. rewrite (Hx y) by now left.
    apply negb_true_iff in H1. rewrite H1. reflexivity.
  - intros z Hz. apply Hx. now right.
Qed.

Lemma distinct_by_later {A} (eqb : A -> A -> bool) (l1 l2 : list A) x y :
  distinct_by eqb (l1 ++ x :: l2) = true -> In y l1 -> eqb y x = false.
Proof.
  induction l1 as [|z l1 IH]; intros Hd Hy; [destruct Hy|].
  cbn in Hd. apply andb_prop in Hd as [H1 H2]. destruct Hy as [->|Hy]; [|now apply IH].
  apply negb_true_iff in H1. rewrite existsb_app in H1. cbn in H1.
  apply orb_false_iff in H1 as [_ H1]. now apply orb_false_iff in H1 as [H1 _].
Qed.

Lemma combine_snoc {A B} (l : list A) (r : list B) x y :
  length l = length r -> combine (l ++ [x]) (r ++ [y]) = combine l r ++ [(x, y)].
Proof.
  revert r. induction l as [|a l IH]; intros [|b r] H; try discriminate; cbn.
  - reflexivity.
  - rewrite IH; [reflexivity | now injection H].
Qed.

Lemma Forall2_In_r {A B} (P : A -> B -> Prop) l r y :
  Forall2 P l r -> In y r -> exists x, In x l /\ P x y.
Proof.
  induction 1 as [|x0 y0 l r H0 _ IH]; intros Hy; [destruct Hy|].
  destruct Hy as [<-|Hy]; [exists x0; split; [now left | exact H0]|].
  destruct (IH Hy) as (x & Hx & Hp). exists x. split; [now right | exact Hp].
Qed.

Lemma attach_kind f o kw : kind_of_obj (attach f o kw) = kind_of_obj o.
Proof.
  unfold attach, attach_obj. destruct kw as [p w]. cbn [fst snd].
  destruct f, o; try reflexivity; destruct p as [[]|]; try reflexivity;
    try (destruct (0 <=? i); reflexivity); try (destruct (existsb _ _); reflexivity);
    try (destruct (String.eqb _ _); reflexivity).
Qed.

Lemma fold_attach_kind f l o : kind_of_obj (fold_left (attach f) l o) = kind_of_obj o.
Proof.
  revert o. induction l as [|kw l IH]; intros o; cbn [fold_left]; [reflexivity|].
  now rewrite IH, attach_kind.
Qed.

Lemma adder_compatible o o' p w :
  kind_of_obj o' = kind_of_obj o -> attach_obj (adder_of o) o' p w <> None.
Proof.
  destruct o, o'; cbn; try discriminate; intros _; try discriminate;
    destruct p as [[]|]; discriminate.
Qed.

Lemma attach_obj_attach f o p w :
  attach_obj f o p w <> None -> attach_obj f o p w = Some (attach f o (p, w)).
Proof. unfold attach. cbn [fst snd]. destruct (attach_obj f o p w); [reflexivity | congruence]. Qed.

Lemma initial_kind o : kind_of_obj (initial o) = kind_of_obj o.
Proof. now destruct o. Qed.

Lemma hasReference_plain c node : refs c = None -> hasReference c node = false.
Proof. intros H. unfold hasReference, indexOfReference. now rewrite H. Qed.

Section DeepCopy.
Variable opts : Options.
Hypothesis default_copies : createCopyFn opts = None.
Hypothesis unguarded : guardCircularRefs opts = false.
Hypothesis own_names : objPropsFn opts = ownEnumerableNames.
Hypothesis unfiltered : propFilter opts = None.
Variable h0 : Heap.

(** The object that the visit of a node writes to: the mirror of its
    parent. *)
Definition touched (node : GraphNode) : gset addr :=
  match addChildFn node, parentNode node with
  | Some _, Some p => match mirror p with VRef mp => {[mp]} | _ => ∅ end
  | _, _ => ∅
  end.

(** The mirror of the parent is a new object to which the node can be
    attached. *)
Definition parent_ready (node : GraphNode) (c : Context) : Prop :=
  match addChildFn node with
  | None => True
  | Some f =>
      exists p mp o,
        parentNode node = Some p /\ mirror p = VRef mp /\ (mp ∉ dom h0)
        /\ heap c !! mp = Some o
        /\ forall m, attach_obj f o (property node) m <> None
  end.

(** What the visit of [node], started in [c], has done when it returns
    [r] in [c']. *)
Definition child_spec (d : nat) (node : GraphNode) (c : Context)
    (r : VisitResult * GraphNode) (c' : Context) : Prop :=
  is_bool (fst r) /\ refs c' = None /\ dom (heap c) ⊆ dom (heap c')
  /\ deep_copy_in (dom (heap c') ∖ dom (heap c)) d h0 (value node) (heap c')
       (mirror (snd r))
  /\ (forall a, a ∈ dom (heap c) -> a ∉ touched node -> heap c' !! a = heap c !! a)
  /\ match addChildFn node with
     | None => True
     | Some f =>
         exists p mp o,
           parentNode node = Some p /\ mirror p = VRef mp /\ heap c !! mp = Some o
           /\ heap c' !! mp = Some (attach f o (property node, mirror (snd r)))
     end.

Lemma Copy_visitNode_plain node f c (Q : VisitResult * GraphNode -> Context -> Prop) :
  yields (createCopy opts node c) (fun m c1 =>
    yields (Visitor_visitNode (set_mirror m node) f c1) (fun v c2 =>
      yields (match addChildFn node with
              | Some g => runAdder g (parentNode node) (set_mirror m node)
              | None => ret tt
              end c2) (fun _ c3 => Q (v, set_mirror m node) c3))) ->
  yields (Copy_visitNode opts node f c) Q.
Proof.
  unfold Copy_visitNode, Copy_mirrorNode. rewrite unguarded. unfold Visitor_visitNode.
  unfold yields, bind, ret.
  destruct (createCopy opts node c) as [[m c1]| |]; try tauto.
  destruct f as [f|].
  - destruct (f (set_mirror m node) c1) as [[v c2]| |]; try tauto.
    cbn [snd addChildFn set_mirror]. destruct (addChildFn node) as [g|]; [|tauto].
    destruct (runAdder g _ _ c2) as [[[] c3]| |]; tauto.
  - cbn [snd addChildFn set_mirror]. destruct (addChildFn node) as [g|]; [|tauto].
    destruct (runAdder g _ _ c1) as [[[] c3]| |]; tauto.
Qed.

(** Attaching the finished mirror to the parent. *)
Lemma attach_to_parent node m c c0 :
  parent_ready node c0 ->
  (forall a, a ∈ dom (heap c0) -> heap c !! a = heap c0 !! a) ->
  yields (match addChildFn node with
          | Some g => runAdder g (parentNode node) (set_mirror m node)
          | None => ret tt
          end c)
    (fun _ c' =>
       refs c' = refs c
       /\ dom (heap c') = dom (heap c)
       /\ (forall a, a ∉ touched node -> heap c' !! a = heap c !! a)
       /\ match addChildFn node with
          | None => True
          | Some f =>
              exists p mp o,
                parentNode node = Some p /\ mirror p = VRef mp /\ heap c0 !! mp = Some o
                /\ heap c' !! mp = Some (attach f o (property node, m))
          end).
Proof.
  intros Hp Hframe. unfold parent_ready, touched in *.
  destruct (addChildFn node) as [g|]; [|yields_steps; now repeat split].
  destruct Hp as (p & mp & o & Hpar & Hmp & _ & Ho & Hcompat).
  rewrite Hpar, Hmp.
  assert (Ho' : heap c !! mp = Some o).
  { rewrite Hframe; [exact Ho|]. apply elem_of_dom. eauto. }
  eapply yields_mono.
  { apply (runAdder_attach g p (set_mirror m node) c mp o
             (attach g o (property node, m)) Hmp Ho').
    apply attach_obj_attach, Hcompat. }
  intros [] c' [Hr Hh]. cbn [property mirror set_mirror] in Hh. rewrite Hh.
  split; [exact Hr|]. split; [|split].
  - rewrite dom_insert_L. assert (mp ∈ dom (heap c)) by (apply elem_of_dom; eauto).
    set_solver.
  - intros a Ha. rewrite lookup_insert_ne; [reflexivity | set_solver].
  - exists p, mp, o. repeat split; auto. now rewrite lookup_insert_eq.
Qed.

(** The children of one container, given the visit of depth [d']. *)
Section Children.
Variable d' : nat.
Variable visit : GraphNode -> M VisitResult.
Hypothesis H_visit : forall child c,
  copyable h0 d' (value child) = true -> typeOf child = None ->
  properties child = None ->
  refs c = None -> h0 ⊆ heap c -> parent_ready child c ->
  yields (visit child c)
    (fun v c' => exists child', is_bool v /\ child_spec d' child c (v, child') c').
Variable o : obj.
Variable m : addr.
Variable c1 : Context.
Hypothesis m_new : m ∉ dom h0.
Hypothesis source_kept : h0 ⊆ heap c1.
Hypothesis m_initial : heap c1 !! m = Some (initial o).

(** The state of the loop when the children [vs] have been attached under
    the keys [ks]. *)
Definition filling (vs : list JsValue) (ks : list (option prop)) (c : Context) : Prop :=
  refs c = None /\ h0 ⊆ heap c /\ dom (heap c1) ⊆ dom (heap c)
  /\ (forall a, a ∈ dom (heap c1) -> a <> m -> heap c !! a = heap c1 !! a)
  /\ length ks = length vs
  /\ exists ws,
       Forall2 (fun x w => deep_copy_in (dom (heap c) ∖ dom (heap c1)) d' h0 x (heap c) w)
         vs ws
       /\ heap c !! m = Some (fold_left (attach (adder_of o)) (combine ks ws) (initial o))
       /\ (adder_of o = AddSetElement -> distinct_by same_value_zero ws = true).

Lemma mirror_fresh_or_same F x w hc :
  deep_copy_in F d' h0 x hc w ->
  (w = x /\ match x with VRef a => a ∈ dom h0 | _ => True end)
  \/ (exists a a', x = VRef a /\ w = VRef a' /\ a' ∈ F).
Proof. apply deep_copy_in_mirror. Qed.

Lemma same_value_zero_ref x a :
  same_value_zero x (VRef a) = true -> x = VRef a.
Proof.
  destruct x as [| | |n| |b]; cbn; try discriminate; [destruct n; discriminate|].
  intros H. apply Nat.eqb_eq in H. now subst.
Qed.

Lemma same_value_zero_ref_l x a :
  same_value_zero (VRef a) x = true -> x = VRef a.
Proof.
  destruct x as [| | |n| |b]; cbn; try discriminate.
  intros H. apply Nat.eqb_eq in H. now subst.
Qed.

Lemma child_step vs ks c child :
  filling vs ks c ->
  copyable h0 d' (value child) = true -> typeOf child = None ->
  properties child = None ->
  addChildFn child = Some (adder_of o) ->
  (exists p, parentNode child = Some p /\ mirror p = VRef m) ->
  (adder_of o = AddSetElement ->
   forall y, In y vs -> same_value_zero y (value child) = false) ->
  yields (visit child c)
    (fun v c' => is_bool v /\ filling (vs ++ [value child]) (ks ++ [property child]) c').
Proof.
  intros (Hrefs & Hsub & Hdom & Hframe & Hlen & ws & Hws & Hm & Hdist)
         Hcopy Hty Hprops Hadd (p & Hpar & Hmir) Hnew.
  assert (Hm1 : m ∈ dom (heap c1)) by (apply elem_of_dom; eauto).
  assert (Hlen' : length ks = length ws)
    by (rewrite Hlen; exact (Forall2_length _ _ _ Hws)).
  eapply yields_mono.
  { apply (H_visit child c Hcopy Hty Hprops Hrefs Hsub).
    unfold parent_ready. rewrite Hadd.
    exists p, m, (fold_left (attach (adder_of o)) (combine ks ws) (initial o)).
    repeat split; [exact Hpar | exact Hmir | exact m_new | exact Hm |].
    intros w. apply adder_compatible. now rewrite fold_attach_kind, initial_kind. }
  intros v c' (child' & Hv & _ & Hrefs' & Hdom' & Hdeep & Hframe' & Hparent).
  cbn [fst snd] in *. split; [exact Hv|].
  rewrite Hadd in Hparent. destruct Hparent as (p' & mp & o' & Hpar' & Hmir' & Ho' & Hattach).
  rewrite Hpar in Hpar'. injection Hpar' as <-. rewrite Hmir in Hmir'. injection Hmir' as <-.
  rewrite Hm in Ho'. injection Ho' as <-.
  assert (Htouched : touched child = {[m]}).
  { unfold touched. now rewrite Hadd, Hpar, Hmir. }
  assert (Hkeep : forall a, a ∈ dom (heap c) -> a <> m -> heap c' !! a = heap c !! a).
  { intros a Ha Hne. apply Hframe'; [exact Ha|]. rewrite Htouched. set_solver. }
  split; [exact Hrefs'|]. split; [|split; [|split; [|split]]].
  - apply map_subseteq_spec. intros a oa Ha.
    assert (Hc : heap c !! a = Some oa) by exact (lookup_weaken _ _ _ _ Ha Hsub).
    rewrite Hkeep; [exact Hc| |].
    + apply elem_of_dom. eauto.
    + intros ->. apply m_new, elem_of_dom. eauto.
  - set_solver.
  - intros a Ha Hne. rewrite Hkeep; [now apply Hframe| |exact Hne]. set_solver.
  - rewrite !length_app. cbn. lia.
  - exists (ws ++ [mirror child']). split; [|split].
    + apply Forall2_app.
      * eapply Forall2_impl; [exact Hws|]. intros x w.
        apply deep_copy_in_frame; [set_solver|].
        intros a Ha. apply Hkeep; set_solver.
      * constructor; [|constructor].
        eapply deep_copy_in_frame; [| |exact Hdeep]; [set_solver | reflexivity].
    + rewrite Hattach.
      rewrite combine_snoc by exact Hlen'. now rewrite fold_left_app.
    + intros Hset. apply distinct_by_snoc; [now apply Hdist|].
      intros y Hy.
      destruct (Forall2_In_r _ _ _ _ Hws Hy) as (x & Hx & Hxy).
      destruct (same_value_zero y (mirror child')) eqn:E; [|reflexivity].
      exfalso.
      destruct (mirror_fresh_or_same _ _ _ _ Hxy) as [[-> Hsrc]|(a & a' & -> & -> & Ha')];
        destruct (mirror_fresh_or_same _ _ _ _ Hdeep)
          as [[Hsame Hsrc']|(b & b' & Hb & Hb'' & Hb')].
      * rewrite Hsame, (Hnew Hset x Hx) in E. discriminate.
      * rewrite Hb'' in E. apply same_value_zero_ref in E. subst x.
        apply elem_of_difference in Hb' as [_ Hb']. apply Hb'.
        apply (subseteq_dom _ _ Hsub). exact Hsrc.
      * rewrite Hsame in E. apply same_value_zero_ref_l in E.
        rewrite E in Hsrc'. apply elem_of_difference in Ha' as [_ Ha']. apply Ha'.
        apply (subseteq_dom _ _ source_kept). exact Hsrc'.
      * rewrite Hb'' in E. apply same_value_zero_ref_l in E. injection E as <-.
        apply elem_of_difference in Ha' as [Ha' _].
        apply elem_of_difference in Hb' as [_ Hb']. now apply Hb'.
Qed.
End Children.

Lemma fresh_not_source c : h0 ⊆ heap c -> fresh (dom (heap c)) ∉ dom h0.
Proof.
  intros Hsub Hin. apply (is_fresh (dom (heap c))).
  now apply (subseteq_dom h0 (heap c) Hsub).
Qed.

(** A container whose children have all been attached. *)
Lemma container_done d' node c a o c_end :
  let m := fresh (dom (heap c)) in
  let c1 := set_heap (<[m := initial o]> (heap c)) c in
  value node = VRef a -> h0 !! a = Some o ->
  copyable_obj o = true -> o <> OFunction ->
  h0 ⊆ heap c -> parent_ready node c ->
  filling d' o m c1 (copy_children o) (copy_keys o) c_end ->
  yields (match addChildFn node with
          | Some g => runAdder g (parentNode node) (set_mirror (VRef m) node)
          | None => ret tt
          end c_end)
    (fun _ c3 => child_spec (S d') node c (RBool true, set_mirror (VRef m) node) c3).
Proof.
  intros m c1 Hv Ho Hco Hfun Hsub Hready
         (Hrefs & Hsub' & Hdom & Hframe & Hlen & ws & Hws & Hm & Hdist).
  assert (Hfresh : m ∉ dom (heap c)) by apply is_fresh.
  assert (Hdom1 : dom (heap c1) = {[m]} ∪ dom (heap c)) by (cbn; now rewrite dom_insert_L).
  assert (Hold : forall a', a' ∈ dom (heap c) -> heap c_end !! a' = heap c !! a').
  { intros a' Ha'. rewrite Hframe; [|set_solver|intros ->; now apply Hfresh].
    cbn. rewrite lookup_insert_ne; [reflexivity | intros <-; now apply Hfresh]. }
  eapply yields_mono; [exact (attach_to_parent node (VRef m) c_end c Hready Hold)|].
  intros [] c3 (Hrefs3 & Hdom3 & Hframe3 & Hparent).
  assert (Htm : m ∉ touched node).
  { unfold touched, parent_ready in *. destruct (addChildFn node); [|set_solver].
    destruct Hready as (p & mp & op & -> & -> & _ & Hmp & _).
    intros Hin. apply elem_of_singleton in Hin. subst mp.
    apply Hfresh, elem_of_dom. eauto. }
  assert (Htouched : forall a', a' ∈ touched node -> a' ∈ dom (heap c)).
  { unfold touched, parent_ready in *. destruct (addChildFn node); [|set_solver].
    destruct Hready as (p & mp & op & -> & -> & _ & Hmp & _).
    intros a' Hin. apply elem_of_singleton in Hin. subst a'. apply elem_of_dom. eauto. }
  unfold child_spec. cbn [fst snd mirror set_mirror].
  split; [exact Logic.I|]. split; [now rewrite Hrefs3|]. split; [|split; [|split]].
  - rewrite Hdom3. set_solver.
  - rewrite Hv. cbn [deep_copy_in]. rewrite Ho.
    assert (Hcopy : exists a' ws0,
              VRef m = VRef a' /\ a' ∈ dom (heap c3) ∖ dom (heap c)
              /\ heap c3 !! a' = Some (rebuilt o ws0)
              /\ Forall2 (fun x w => deep_copy_in (dom (heap c3) ∖ dom (heap c)) d' h0 x
                                       (heap c3) w) (copy_children o) ws0).
    { exists m, ws. split; [reflexivity|]. split; [|split].
      - rewrite Hdom3. set_solver.
      - rewrite Hframe3 by exact Htm. rewrite Hm. f_equal. apply attach_all.
        + exact Hco.
        + symmetry. exact (Forall2_length _ _ _ Hws).
        + intros ms ->. now apply Hdist.
      - eapply Forall2_impl; [exact Hws|]. intros x w.
        apply deep_copy_in_frame.
        + rewrite Hdom3, Hdom1. set_solver.
        + intros a' Ha'. apply Hframe3. intros Hin. apply Htouched in Hin.
          rewrite Hdom1 in Ha'. set_solver. }
    destruct o; try exact Hcopy; [discriminate Hco | now elim Hfun].
  - intros a' Ha' Hnt. rewrite Hframe3 by exact Hnt. now apply Hold.
  - exact Hparent.
Qed.

(** A node without children: a primitive, a function, or an object that
    is copy constructed. *)
Lemma leaf_done d node c :
  copyable h0 d (value node) = true ->
  match value node with
  | VRef a => exists o, h0 !! a = Some o /\ copy_children o = [] /\ initial o = o
  | _ => True
  end ->
  refs c = None -> h0 ⊆ heap c -> parent_ready node c ->
  yields (Copy_visitNode opts node None c) (child_spec d node c).
Proof.
  intros Hcopy Hleaf Hrefs Hsub Hready. apply Copy_visitNode_plain.
  assert (Hsame : forall c0, refs c0 = None -> dom (heap c) ⊆ dom (heap c0) ->
            (forall a, a ∈ dom (heap c) -> heap c0 !! a = heap c !! a) ->
            forall m,
              deep_copy_in (dom (heap c0) ∖ dom (heap c)) d h0 (value node) (heap c0) m ->
              yields (match addChildFn node with
                      | Some g => runAdder g (parentNode node) (set_mirror m node)
                      | None => ret tt
                      end c0)
                (fun _ c3 => child_spec d node c (RBool true, set_mirror m node) c3)).
  { intros c0 Hr0 Hd0 Hf0 m Hm.
    eapply yields_mono; [exact (attach_to_parent node m c0 c Hready Hf0)|].
    intros [] c3 (Hrefs3 & Hdom3 & Hframe3 & Hparent).
    assert (Htouched : forall a', a' ∈ touched node -> a' ∈ dom (heap c)).
    { unfold touched, parent_ready in *. destruct (addChildFn node); [|set_solver].
      destruct Hready as (p & mp & op & -> & -> & _ & Hmp & _).
      intros a' Hin. apply elem_of_singleton in Hin. subst a'. apply elem_of_dom. eauto. }
    unfold child_spec. cbn [fst snd mirror set_mirror].
    split; [exact Logic.I|]. split; [now rewrite Hrefs3|]. split; [|split; [|split]].
    - rewrite Hdom3. exact Hd0.
    - eapply deep_copy_in_frame; [| |exact Hm].
      + now rewrite Hdom3.
      + intros a' Ha'. apply Hframe3. intros Hin. apply Htouched in Hin. set_solver.
    - intros a' Ha' Hnt. rewrite Hframe3 by exact Hnt. now apply Hf0.
    - exact Hparent. }
  destruct (value node) as [| | | | |a] eqn:Ev.
  1-5: rewrite createCopy_same by (try exact default_copies; now rewrite Ev);
       cbn [yields Visitor_visitNode]; yields_steps; apply Hsame; auto;
       rewrite Ev; destruct d; reflexivity.
  destruct (copyable_ref h0 d a Hcopy) as (d' & o & -> & Ho & Hco & _).
  destruct Hleaf as (o' & Ho' & Hnil & Hinit). rewrite Ho in Ho'. injection Ho' as <-.
  assert (Hoc : heap c !! a = Some o) by exact (lookup_weaken _ _ _ _ Ho Hsub).
  assert (Hdec : o = OFunction \/ o <> OFunction)
    by (destruct o; try (right; discriminate); now left).
  destruct Hdec as [->|Hfun].
  - rewrite createCopy_same by (try exact default_copies; now rewrite Ev).
    cbn [yields Visitor_visitNode]. yields_steps. apply Hsame; auto.
    rewrite Ev. cbn [deep_copy_in]. now rewrite Ho.
  - rewrite (createCopy_alloc opts node c a o default_copies Ev Hoc Hfun)
      by (intros b off len ->; discriminate Hco).
    cbn [yields Visitor_visitNode]. yields_steps.
    assert (Hfresh : fresh (dom (heap c)) ∉ dom (heap c)) by apply is_fresh.
    apply Hsame.
    + exact Hrefs.
    + cbn. rewrite dom_insert_L. set_solver.
    + intros a' Ha'. cbn. rewrite lookup_insert_ne; [reflexivity|].
      intros <-. now apply Hfresh.
    + cbn [deep_copy_in]. rewrite Ho.
      assert (Hcopy' : exists a' ws0,
                VRef (fresh (dom (heap c))) = VRef a'
                /\ a' ∈ dom (heap (set_heap (<[fresh (dom (heap c)) := initial o]> (heap c)) c))
                        ∖ dom (heap c)
                /\ heap (set_heap (<[fresh (dom (heap c)) := initial o]> (heap c)) c) !! a'
                   = Some (rebuilt o ws0)
                /\ Forall2 (fun x w =>
                     deep_copy_in
                       (dom (heap (set_heap (<[fresh (dom (heap c)) := initial o]> (heap c)) c))
                          ∖ dom (heap c)) d' h0 x
                       (heap (set_heap (<[fresh (dom (heap c)) := initial o]> (heap c)) c)) w)
                     (copy_children o) ws0).
      { exists (fresh (dom (heap c))), []. split; [reflexivity|]. split; [|split].
        - cbn. rewrite dom_insert_L. set_solver.
        - cbn. rewrite lookup_insert_eq, Hinit. f_equal.
          destruct o; try reflexivity; cbn in Hnil |- *.
          + destruct elems; [reflexivity | discriminate].
          + destruct props; [reflexivity | discriminate].
          + destruct entries; [reflexivity | discriminate].
          + destruct members; [reflexivity | discriminate].
        - rewrite Hnil. constructor. }
      destruct o; try exact Hcopy'; [discriminate Hco | now elim Hfun].
Qed.

Lemma assoc_string_distinct (pre post : list (string * JsValue)) s v :
  distinct_by String.eqb (map fst (pre ++ (s, v) :: post)) = true ->
  assoc_string s (pre ++ (s, v) :: post) = Some v.
Proof.
  induction pre as [|[k w] pre IH]; cbn; intros Hd.
  - now rewrite String.eqb_refl.
  - apply andb_prop in Hd as [H1 H2]. apply negb_true_iff in H1.
    rewrite map_app, existsb_app in H1. cbn in H1.
    apply orb_false_iff in H1 as [_ H1]. apply orb_false_iff in H1 as [H1 _].
    rewrite String.eqb_sym, H1. now apply IH.
Qed.

Lemma indexed_split {A} (l : list A) done (x : nat * A) rest :
  indexed l = done ++ x :: rest ->
  l = map snd done ++ snd x :: map snd rest.
Proof.
  intros E. apply (f_equal (map snd)) in E. rewrite map_app in E. cbn [map] in E.
  rewrite <- E. unfold indexed.
  rewrite <- (map_id l) at 1. symmetry. rewrite <- (map_snd_combine_seq (fun y => y) l 0).
  reflexivity.
Qed.

Lemma object_values h a (ps : list (string * JsValue)) :
  h !! a = Some (OObject ps) ->
  distinct_by String.eqb (map fst ps) = true ->
  map (fun p => get_prop h (VRef a) (PName (fst p))) ps = map snd ps.
Proof.
  intros Ha Hd. unfold get_prop. rewrite (heap_get_Some _ _ _ Ha).
  assert (H : forall post pre, ps = pre ++ post ->
            map (fun p => default VUndefined (assoc_string (fst p) ps)) post = map snd post).
  { induction post as [|[s v] post IH]; intros pre E; [reflexivity|].
    cbn [map fst snd]. f_equal.
    - rewrite E at 1. rewrite assoc_string_distinct; [reflexivity | now rewrite <- E].
    - apply (IH (pre ++ [(s, v)])). now rewrite <- app_assoc. }
  exact (H ps [] eq_refl).
Qed.

Lemma get_prop_same h h' a o p :
  h !! a = Some o -> h' !! a = Some o -> get_prop h (VRef a) p = get_prop h' (VRef a) p.
Proof.
  intros H H'. unfold get_prop. now rewrite (heap_get_Some _ _ _ H), (heap_get_Some _ _ _ H').
Qed.

Lemma Copy_visit_deep :
  forall fuel d, (d < fuel)%nat ->
  forall node c,
    copyable h0 d (value node) = true ->
    typeOf node = None -> properties node = None ->
    refs c = None -> h0 ⊆ heap c -> parent_ready node c ->
    yields (Copy_visit opts fuel node c) (child_spec d node c).
Proof.
  induction fuel as [|fuel IH]; intros d Hd node c Hcopy Hty Hprops Hrefs Hsub Hready; [lia|].
  cbn [Copy_visit]. unfold Visitor_visit. rewrite bind_get_l.
  rewrite hasReference_plain by exact Hrefs.
  unfold ensureTypeOf. rewrite Hty. unfold updateNodeTypeOf. rewrite bind_gets_l.
  cbn [typeOf set_typeOf].
  set (node1 := set_typeOf (kind_of (heap c) (value node)) node).
  assert (Hleaf : match value node with
                  | VRef a => exists o, h0 !! a = Some o /\ copy_children o = []
                                        /\ initial o = o
                  | _ => True
                  end ->
                  yields (Visitor_visitOther (Copy_visitNode opts) node1 c)
                    (child_spec d node c)).
  { intros Hl. exact (leaf_done d node1 c Hcopy Hl Hrefs Hsub Hready). }
  destruct (value node) as [| | | | |a] eqn:Ev; try (now apply Hleaf).
  destruct (copyable_ref h0 d a Hcopy) as (d' & o & -> & Ho & Hco & Hkids).
  assert (Hoc : heap c !! a = Some o) by exact (lookup_weaken _ _ _ _ Ho Hsub).
  cbn [kind_of]. rewrite (heap_get_Some _ _ _ Hoc).
  set (m := fresh (dom (heap c))).
  set (c1 := set_heap (<[m := initial o]> (heap c)) c).
  assert (Hfresh : m ∉ dom (heap c)) by apply is_fresh.
  assert (Hm_new : m ∉ dom h0) by now apply fresh_not_source.
  assert (Hsub1 : h0 ⊆ heap c1).
  { cbn. apply insert_subseteq_r; [now apply not_elem_of_dom | exact Hsub]. }
  assert (Hm1 : heap c1 !! m = Some (initial o)) by (cbn; now rewrite lookup_insert_eq).
  assert (Hread : forall c', h0 ⊆ heap c' -> heap c' !! a = Some o)
    by (intros c' Hc'; exact (lookup_weaken _ _ _ _ Ho Hc')).
  assert (Hvisit : forall child c0,
            copyable h0 d' (value child) = true -> typeOf child = None ->
            properties child = None ->
            refs c0 = None -> h0 ⊆ heap c0 -> parent_ready child c0 ->
            yields ((r <- Copy_visit opts fuel child ;; ret (fst r)) c0)
              (fun v c' => exists child', is_bool v /\ child_spec d' child c0 (v, child') c')).
  { intros child c0 H1 H2 H3 H4 H5 H6. apply yields_bind.
    eapply yields_mono; [apply (IH d'); auto; lia|].
    intros [v child'] c' Hspec. yields_steps. exists child'. split; [|exact Hspec].
    apply Hspec. }
  assert (Hstart : filling d' o m c1 [] [] c1).
  { split; [exact Hrefs|]. split; [exact Hsub1|]. split; [reflexivity|].
    split; [reflexivity|]. split; [reflexivity|]. exists []. split; [constructor|].
    split; [exact Hm1 | reflexivity]. }
  assert (Hdone : forall c_end,
            filling d' o m c1 (copy_children o) (copy_keys o) c_end -> o <> OFunction ->
            yields (ret (RBool true) c_end) (fun v c2 =>
              yields (match addChildFn node1 with
                      | Some g => runAdder g (parentNode node1) (set_mirror (VRef m) node1)
                      | None => ret tt
                      end c2)
                (fun _ c3 => child_spec (S d') node c (v, set_mirror (VRef m) node1) c3))).
  { intros c_end Hfill Hfun. yields_steps.
    exact (container_done d' node1 c a o c_end Ev Ho Hco Hfun Hsub Hready Hfill). }
  assert (Halloc : o <> OFunction -> createCopy opts node1 c = Ok (VRef m, c1)).
  { intros Hfun. apply (createCopy_alloc opts node1 c a o default_copies Ev Hoc Hfun).
    intros b off len ->. discriminate Hco. }
  assert (Hguard : forall k : M (VisitResult * GraphNode),
            (guardReference opts node1 ;;; k) c = k c).
  { intros k. unfold guardReference. rewrite unguarded. apply bind_ret_l. }
  destruct o as [es|ps|es|ms|t|s|b off len|bs|] eqn:Eo; cbn [kind_of_obj];
    try (apply Hleaf; exists o; subst o; now repeat split);
    try discriminate Hco.
  - (* arrays *)
    rewrite Hguard. unfold Visitor_visitArray. apply Copy_visitNode_plain.
    rewrite Halloc by discriminate. cbn [yields]. unfold Visitor_visitNode.
    rewrite bind_gets_l. cbn [value set_mirror node1 set_typeOf]. rewrite Ev.
    unfold array_elems. rewrite (heap_get_Some _ _ _ (Hread c1 Hsub1)).
    apply (yields_for_each
             (fun done c' => filling d' (OArray es) m c1 (map (slot es) done)
                               (map (fun i => Some (PIndex (Z.of_nat i))) done) c')).
    + intros done i rest c' El Hfill. rewrite bind_gets_l.
      assert (Hsub' : h0 ⊆ heap c') by apply Hfill.
      rewrite !map_app. cbn [map].
      rewrite (get_prop_slot (heap c') a es i (Hread c' Hsub')).
      apply (child_step d' (fun child => r <- Copy_visit opts fuel child ;; ret (fst r))
               Hvisit (OArray es) m c1 Hm_new Hsub1 Hm1 _ _ c'
               (Copy_createArrayElementNode (slot es i) i
                  (set_mirror (VRef m) node1) (Some i)) Hfill);
        try reflexivity.
      * apply Hkids. cbn [copy_children]. apply (in_map (slot es)).
        rewrite El. apply in_or_app. right. now left.
      * exists (set_mirror (VRef m) node1). now split.
      * discriminate.
    + intros c_end Hfill. apply Hdone; [exact Hfill | discriminate].
    + exact Hstart.
  - (* objects *)
    rewrite Hguard. unfold Visitor_visitObject. apply Copy_visitNode_plain.
    rewrite Halloc by discriminate. cbn [yields]. unfold Visitor_visitNode.
    set (node3 := set_properties (map (fun p : string * JsValue => PName (fst p)) ps)
                    (set_mirror (VRef m) node1)).
    assert (Hens : ensureProperties opts (set_mirror (VRef m) node1) c1 = Ok (node3, c1)).
    { unfold ensureProperties, updateObjectNodeProperties.
      cbn [properties set_mirror node1 set_typeOf]. rewrite Hprops. run_steps.
      rewrite unfiltered, own_names.
      cbn [value set_properties set_mirror node1 set_typeOf]. rewrite Ev.
      unfold ownEnumerableNames. now rewrite (heap_get_Some _ _ _ (Hread c1 Hsub1)). }
    apply yields_bind. rewrite Hens. cbn [yields].
    cbn [properties node3 set_properties default value set_mirror node1 set_typeOf].
    rewrite Ev. unfold id.
    apply (yields_for_each
             (fun done c' => filling d' (OObject ps) m c1
                               (map (fun ip => get_prop h0 (VRef a) (snd ip)) done)
                               (map (fun ip => Some (snd ip)) done) c')).
    + intros done ip rest c' El Hfill. rewrite bind_gets_l.
      assert (Hsub' : h0 ⊆ heap c') by apply Hfill.
      rewrite !map_app. cbn [map].
      rewrite (get_prop_same (heap c') h0 a _ (snd ip) (Hread c' Hsub') Ho).
      apply (child_step d' (fun child => r <- Copy_visit opts fuel child ;; ret (fst r))
               Hvisit (OObject ps) m c1 Hm_new Hsub1 Hm1 _ _ c'
               (Copy_createObjectPropertyNode (get_prop h0 (VRef a) (snd ip)) (snd ip)
                  node3 (Some (fst ip))) Hfill);
        try reflexivity.
      * apply Hkids. cbn [copy_children value Copy_createObjectPropertyNode
                            createObjectPropertyNode childNode set_addChildFn].
        rewrite <- (object_values h0 a ps Ho (proj1 (andb_prop _ _ Hco))).
        apply indexed_split in El.
        assert (Hin : In (snd ip) (map (fun p : string * JsValue => PName (fst p)) ps))
          by (rewrite El; apply in_or_app; right; now left).
        apply in_map_iff in Hin as (p & <- & Hp).
        exact (in_map (fun p => get_prop h0 (VRef a) (PName (fst p))) ps p Hp).
      * exists node3. now split.
      * discriminate.
    + intros c_end Hfill. apply Hdone; [|discriminate].
      rewrite (indexed_map_snd (get_prop h0 (VRef a))), (indexed_map_snd Some) in Hfill.
      rewrite !map_map in Hfill. rewrite (object_values h0 a ps Ho (proj1 (andb_prop _ _ Hco))) in Hfill.
      exact Hfill.
    + exact Hstart.
  - (* maps *)
    rewrite Hguard. unfold Visitor_visitMap. apply Copy_visitNode_plain.
    rewrite Halloc by discriminate. cbn [yields]. unfold Visitor_visitNode.
    rewrite bind_gets_l. cbn [value set_mirror node1 set_typeOf]. rewrite Ev.
    unfold map_entries. rewrite (heap_get_Some _ _ _ (Hread c1 Hsub1)).
    apply (yields_for_each
             (fun done c' => filling d' (OMap es) m c1
                               (map (fun ie => snd (snd ie)) done)
                               (map (fun ie => Some (PKey (fst (snd ie)))) done) c')).
    + intros done ie rest c' El Hfill.
      rewrite !map_app. cbn [map].
      apply (child_step d' (fun child => r <- Copy_visit opts fuel child ;; ret (fst r))
               Hvisit (OMap es) m c1 Hm_new Hsub1 Hm1 _ _ c'
               (Copy_createMapElementNode (snd (snd ie)) (fst (snd ie))
                  (set_mirror (VRef m) node1) (Some (fst ie))) Hfill);
        try reflexivity.
      * apply Hkids. cbn [copy_children value Copy_createMapElementNode
                            createMapElementNode childNode set_addChildFn].
        apply indexed_split in El. rewrite El.
        apply (in_map snd). apply in_or_app; right; now left.
      * exists (set_mirror (VRef m) node1). now split.
      * discriminate.
    + intros c_end Hfill. apply Hdone; [|discriminate].
      rewrite (indexed_map_snd (fun e : JsValue * JsValue => snd e)),
        (indexed_map_snd (fun e : JsValue * JsValue => Some (PKey (fst e)))) in Hfill.
      exact Hfill.
    + exact Hstart.
  - (* sets *)
    rewrite Hguard. unfold Visitor_visitSet. apply Copy_visitNode_plain.
    rewrite Halloc by discriminate. cbn [yields]. unfold Visitor_visitNode.
    rewrite bind_gets_l. cbn [value set_mirror node1 set_typeOf]. rewrite Ev.
    unfold set_members. rewrite (heap_get_Some _ _ _ (Hread c1 Hsub1)).
    apply (yields_for_each
             (fun done c' => filling d' (OSet ms) m c1
                               (map (fun ie => snd ie) done)
                               (map (fun ie : nat * JsValue => @None prop) done) c')).
    + intros done ie rest c' El Hfill.
      rewrite !map_app. cbn [map].
      apply indexed_split in El.
      apply (child_step d' (fun child => r <- Copy_visit opts fuel child ;; ret (fst r))
               Hvisit (OSet ms) m c1 Hm_new Hsub1 Hm1 _ _ c'
               (Copy_createSetElementNode (snd ie)
                  (set_mirror (VRef m) node1) (Some (fst ie))) Hfill);
        try reflexivity.
      * apply Hkids. cbn [copy_children value Copy_createSetElementNode
                            createSetElementNode childNode set_addChildFn].
        rewrite El. apply in_or_app; right; now left.
      * exists (set_mirror (VRef m) node1). now split.
      * intros _ y Hy.
        cbn [copyable_obj] in Hco. rewrite El in Hco.
        exact (distinct_by_later same_value_zero _ _ _ _ Hco Hy).
    + intros c_end Hfill. apply Hdone; [|discriminate].
      rewrite (indexed_map_snd (fun x : JsValue => x)),
        (indexed_map_snd (fun _ : JsValue => @None prop)) in Hfill.
      rewrite map_id in Hfill. exact Hfill.
    + exact Hstart.
Qed.

End DeepCopy.

(** With the default options ([createCopyFn] not supplied, no guard
    against circular references, [ownEnumerableNames], no property
    filter), [copy] of a value whose chains of references have at most
    [d] links returns a deep copy: a primitive is returned as it is, a
    function is shared, and every other object is mirrored by an object
    allocated during the copy, of the same kind, which holds the copies of
    its children in the order and under the keys of the source.  The
    objects of the source are left as they were.  (The objects are
    [copyable]: none is a [DataView], and none has a property named
    [__proto__], which the copy would not get as a property.) *)
Theorem copy_is_a_deep_copy opts fuel d h (v : JsValue) :
  createCopyFn opts = None -> guardCircularRefs opts = false ->
  objPropsFn opts = ownEnumerableNames -> propFilter opts = None ->
  copyable h d v = true -> (d < fuel)%nat ->
  exists m h',
    copy opts fuel h v = Ok (m, h')
    /\ h ⊆ h'
    /\ deep_copy_in (dom h' ∖ dom h) d h v h' m.
Proof.
  intros Hdef Hguard Hnames Hfilter Hcopy Hd.
  assert (Hrefs : refs (createContext opts h) = None)
    by (unfold createContext; cbn [refs]; now rewrite Hguard).
  pose proof (Copy_visit_deep opts Hdef Hguard Hnames Hfilter h fuel d Hd
                (rootNode v) (createContext opts h) Hcopy eq_refl eq_refl Hrefs
                (reflexivity _) I) as H.
  unfold copy.
  destruct (Copy_visit opts fuel (rootNode v) (createContext opts h)) as [[[r src] c]| |];
    cbn [yields] in H; try contradiction.
  destruct H as (Hb & _ & Hdom & Hdeep & Hframe & _).
  cbn [fst snd value rootNode] in *.
  destruct r; try contradiction.
  exists (mirror src), (heap c). split; [reflexivity|]. split; [|exact Hdeep].
  apply map_subseteq_spec. intros a o Ha.
  rewrite Hframe; [exact Ha | apply elem_of_dom; eauto | set_solver].
Qed.

(** The object [{["__proto__"]: 1, a: 2}], with an own property of that
    name. *)
Definition proto_key_heap : Heap :=
  list_to_map [(0%nat, OObject [("__proto__"%string, VNumber (Num.of_Z 1));
                                ("a"%string, VNumber (Num.of_Z 2))])].

Lemma copy_is_a_deep_copy_witness :
  (exists m h',
     copy defaultOptions 4 nested_heap (VRef 0%nat) = Ok (m, h')
     /\ nested_heap ⊆ h'
     /\ deep_copy_in (dom h' ∖ dom nested_heap) 3 nested_heap (VRef 0%nat) h' m)
  /\ copyable proto_key_heap 1 (VRef 0%nat) = false
  /\ match copy defaultOptions 2 proto_key_heap (VRef 0%nat) with
     | Ok (VRef a', h') => h' !! a'
     | _ => None
     end = Some (OObject [("a"%string, VNumber (Num.of_Z 2))]).
Proof.
  split; [|split; vm_compute; reflexivity].
  apply (copy_is_a_deep_copy defaultOptions 4 3 nested_heap (VRef 0%nat)).
  - reflexivity.
  - reflexivity.
  - reflexivity.
  - reflexivity.
  - vm_compute. reflexivity.
  - lia.
Defined.
